(** * A shallow embedding of the kernel core

    The development follows the C sources under [sys/]: every definition
    names the function (or macro) it embeds.  Machine integers are [Z]
    with the wrap-around written out; linked lists whose nodes have a
    single owner (the free-chunk list, a thread's lock list, a
    condition's wait list) are Rocq lists; arrays indexed by small
    integers are stdpp lists or maps. *)

From Stdlib Require Import ZArith Lia Bool List.
From stdpp Require Import base option list gmap.

Local Open Scope Z_scope.

(** ** Machine arithmetic shared by all modules *)

Definition wrap64 (x : Z) : Z := x mod 2 ^ 64.
Definition wrap32 (x : Z) : Z := x mod 2 ^ 32.
Definition wrap16 (x : Z) : Z := x mod 2 ^ 16.

(** Two's-complement reading of a 64-bit / 32-bit pattern ([long], [int]). *)
Definition to_long (x : Z) : Z := (x + 2 ^ 63) mod 2 ^ 64 - 2 ^ 63.
Definition to_int (x : Z) : Z := (x + 2 ^ 31) mod 2 ^ 32 - 2 ^ 31.

Lemma wrap64_small x : 0 <= x < 2 ^ 64 -> wrap64 x = x.
Proof. intros H. unfold wrap64. now apply Z.mod_small. Qed.

Lemma wrap32_small x : 0 <= x < 2 ^ 32 -> wrap32 x = x.
Proof. intros H. unfold wrap32. now apply Z.mod_small. Qed.

Lemma to_long_small x : - 2 ^ 63 <= x < 2 ^ 63 -> to_long x = x.
Proof. intros H. unfold to_long. rewrite Z.mod_small; lia. Qed.

Lemma to_int_small x : - 2 ^ 31 <= x < 2 ^ 31 -> to_int x = x.
Proof. intros H. unfold to_int. rewrite Z.mod_small; lia. Qed.

(** error.h *)
Definition EINVAL : Z := 1.
Definition EBUSY : Z := 2.
Definition ENOTSUP : Z := 3.
Definition ENODEV : Z := 4.
Definition EIO : Z := 5.
Definition EBADFMT : Z := 6.
Definition ENOENT : Z := 7.
Definition EACCESS : Z := 8.
Definition EBADFD : Z := 9.
Definition EMFILE : Z := 10.
Definition EMPROC : Z := 11.
Definition EMTHR : Z := 12.
Definition ECHILD : Z := 13.
Definition ENOMEM : Z := 14.
Definition EPIPE : Z := 15.
Definition ENODATABLKS : Z := 16.
Definition ENOINODEBLKS : Z := 17.

(** memory.h *)
Definition PAGE_ORDER : Z := 12.
Definition PAGE_SIZE : Z := 4096.

(** conf.h *)
Definition UMEM_START_VMA : Z := 0xC0000000.
Definition UMEM_END_VMA : Z := 0x100000000.
Definition NTHR : Z := 32.
Definition PROCESS_IOMAX : Z := 16.

(** * Physical page allocator (memory.c) *)

Module PageAlloc.

(** heap.h and heap0.c: the alignment and the largest size of a heap
    block, [sizeof(struct heap_alloc_header)], and [ROUND_UP] on
    [size_t]. *)
Definition HEAP_ALIGN : Z := 16.
Definition HEAP_ALLOC_MAX : Z := 4000.
Definition HDR : Z := 16.
Definition ROUND_UP (n k : Z) : Z := wrap64 (wrap64 (n + k - 1) / k * k).

(** [struct page_chunk]: [node] is the address of the struct (a heap
    block); the [next] link is the list structure. *)
Record page_chunk := mk_chunk { node : Z; first_ppn : Z; pagecnt : Z }.

(** [sizeof(struct page_chunk)] *)
Definition NODE_SIZE : Z := 24.

(** [pageptr] and [pagenum] on 64-bit addresses. *)
Definition pageptr (n : Z) : Z := wrap64 (n * 2 ^ PAGE_ORDER).
Definition pagenum (p : Z) : Z := p / 2 ^ PAGE_ORDER.

(** The best-fit search of [alloc_phys_pages]: one pass over the list,
    keeping the first chunk of strictly smallest sufficient size.  The
    accumulator is the position and the node of [best]. *)
Fixpoint best_fit (cnt : Z) (c : list page_chunk) (i : nat)
    (best : option (nat * page_chunk)) : option (nat * page_chunk) :=
  match c with
  | [] => best
  | ch :: rest =>
      let better :=
        (cnt <=? pagecnt ch) &&
        match best with
        | None => true
        | Some (_, b) => pagecnt ch <? pagecnt b
        end in
      best_fit cnt rest (S i) (if better then Some (i, ch) else best)
  end.

(** [alloc_phys_pages]: [None] is the NULL return; otherwise the page
    address and the new free list.  On an exact fit the node goes to
    [kfree], which writes into the node and leaves the list and the heap
    pool alone; these stores, and the [panic] of [kfree] on a node whose
    header is damaged, are in [Heap.alloc_phys_pages]. *)
Definition alloc_phys_pages (cnt : Z) (fl : list page_chunk)
    : option (Z * list page_chunk) :=
  if cnt =? 0 then None
  else
    match best_fit cnt fl 0%nat None with
    | None => None
    | Some (i, best) =>
        let start_ppn := first_ppn best in
        if pagecnt best =? cnt then
          Some (pageptr start_ppn, delete i fl)
        else
          Some (pageptr start_ppn,
                <[ i := mk_chunk (node best) (wrap64 (first_ppn best + cnt))
                                 (wrap64 (pagecnt best - cnt)) ]> fl)
    end.

Definition alloc_phys_page (fl : list page_chunk) := alloc_phys_pages 1 fl.

(** The variables of the two allocators: [heap_low] and [heap_end] of
    heap0.c and the [free_chunk_list] of memory.c.  The heap takes its
    pages from the free list, and the nodes of the list are heap blocks. *)
Record kpool := mk_kpool {
  heap_low : Z;
  heap_end : Z;
  free_chunk_list : list page_chunk
}.

Definition set_list (kp : kpool) (fl : list page_chunk) : kpool :=
  mk_kpool (heap_low kp) (heap_end kp) fl.

(** [heap_malloc_actual] on these variables: the block it returns and
    what it leaves in [heap_low], [heap_end] and the free list ([None] is
    one of its [panic]s).  The stores into the block and its header are
    in [Heap.heap_malloc_actual].  The pointer [alloc_phys_page] returns
    is used unchecked. *)
Definition heap_carve (size : Z) (kp : kpool) : option (Z * kpool) :=
  if size =? 0 then Some (0, kp)
  else
    let size := ROUND_UP size HEAP_ALIGN in
    if HEAP_ALLOC_MAX <? size then None
    else if wrap64 (size + HDR) <=? wrap64 (heap_end kp - heap_low kp) then
      let ptr := heap_end kp - size in
      Some (ptr, mk_kpool (heap_low kp) (ptr - HDR) (free_chunk_list kp))
    else if PAGE_SIZE - HDR <? size then None
    else
      let '(newpage, fl) :=
        match alloc_phys_page (free_chunk_list kp) with
        | Some (p, fl) => (p, fl)
        | None => (0, free_chunk_list kp)
        end in
      let ptr := newpage + PAGE_SIZE - size in
      let leftover := PAGE_SIZE - size - HDR in
      if wrap64 (heap_end kp - heap_low kp) <? leftover
      then Some (ptr, mk_kpool newpage (ptr - HDR) fl)
      else Some (ptr, mk_kpool (heap_low kp) (heap_end kp) fl).

(** [free_phys_pages]: a node from [kmalloc], linked at the head; no
    coalescing.  ([kmalloc] of [NODE_SIZE] bytes has no [panic], see
    [node_never_panics].) *)
Definition free_phys_pages (pp cnt : Z) (kp : kpool) : kpool :=
  if (pp =? 0) || (cnt =? 0) then kp
  else
    match heap_carve NODE_SIZE kp with
    | Some (nd, kp1) =>
        set_list kp1 (mk_chunk nd (pagenum pp) cnt :: free_chunk_list kp1)
    | None => kp
    end.

Definition free_phys_page (pp : Z) (kp : kpool) : kpool :=
  free_phys_pages pp 1 kp.

(** Whether the heap pool has room for a list node with its header
    (the test of heap0.c:156 for [NODE_SIZE] bytes), and the number of
    pages [kmalloc] takes from the free list for the node. *)
Definition node_fits (kp : kpool) : bool :=
  wrap64 (ROUND_UP NODE_SIZE HEAP_ALIGN + HDR) <=? wrap64 (heap_end kp - heap_low kp).

Definition node_pages (kp : kpool) : Z :=
  if node_fits kp then 0
  else match alloc_phys_page (free_chunk_list kp) with
       | Some _ => 1
       | None => 0
       end.

(** The sum of the chunk sizes, without and with the [unsigned long]
    accumulator of [free_phys_page_count]. *)
Fixpoint chunk_pages (fl : list page_chunk) : Z :=
  match fl with
  | [] => 0
  | ch :: rest => pagecnt ch + chunk_pages rest
  end.

Definition free_phys_page_count (fl : list page_chunk) : Z :=
  fold_left (fun total ch => wrap64 (total + pagecnt ch)) fl 0.

(** Every chunk on the list holds a machine-representable, non-zero
    number of pages (true of the initial chunk and of every chunk the
    two operations create). *)
Definition chunk_ok (ch : page_chunk) : Prop := 0 < pagecnt ch < 2 ^ 64.
Definition list_ok (fl : list page_chunk) : Prop := Forall chunk_ok fl.

(** A run of allocator calls, with the ledger of the pages handed
    out to the callers and of the pages the heap took for list nodes. *)
Inductive op := Alloc (cnt : Z) | Free (pp cnt : Z).

Record pool := mk_pool { vars : kpool; allocated : Z; heap_pages : Z }.

Definition step (s : pool) (o : op) : pool :=
  match o with
  | Alloc cnt =>
      match alloc_phys_pages cnt (free_chunk_list (vars s)) with
      | Some (_, fl') => mk_pool (set_list (vars s) fl') (allocated s + cnt) (heap_pages s)
      | None => s
      end
  | Free pp cnt =>
      if (pp =? 0) || (cnt =? 0) then s
      else mk_pool (free_phys_pages pp cnt (vars s))
                   (allocated s - cnt) (heap_pages s + node_pages (vars s))
  end.

Definition run (s : pool) (ops : list op) : pool := fold_left step ops s.

(** Well-formed calls: [cnt] is an [unsigned int]. *)
Definition op_ok (o : op) : Prop :=
  match o with
  | Alloc cnt => 0 <= cnt < 2 ^ 32
  | Free _ cnt => 0 <= cnt < 2 ^ 32
  end.

(** [k], [ch] is the chunk a best-fit search must pick: sufficient, of
    least size among the sufficient ones, and the first of that size. *)
Definition is_best_fit (cnt : Z) (fl : list page_chunk) (k : nat)
    (ch : page_chunk) : Prop :=
  fl !! k = Some ch /\ cnt <= pagecnt ch /\
  forall j ch', fl !! j = Some ch' -> cnt <= pagecnt ch' ->
    pagecnt ch <= pagecnt ch' /\ (pagecnt ch' = pagecnt ch -> (k <= j)%nat).

Definition no_fit (cnt : Z) (fl : list page_chunk) : Prop :=
  forall j ch', fl !! j = Some ch' -> pagecnt ch' < cnt.

Definition best_spec (cnt : Z) (fl : list page_chunk)
    (best : option (nat * page_chunk)) : Prop :=
  match best with
  | None => no_fit cnt fl
  | Some (k, ch) => is_best_fit cnt fl k ch
  end.

Lemma best_fit_spec cnt c : forall pre best,
  best_spec cnt pre best ->
  best_spec cnt (pre ++ c) (best_fit cnt c (length pre) best).
Proof.
  induction c as [|ch rest IH]; intros pre best Hb; simpl.
  - now rewrite app_nil_r.
  - replace (pre ++ ch :: rest) with ((pre ++ [ch]) ++ rest)
      by now rewrite <- app_assoc.
    replace (S (length pre)) with (length (pre ++ [ch]))
      by (rewrite length_app; simpl; lia).
    apply IH. clear IH.
    assert (Hlast : (pre ++ [ch]) !! length pre = Some ch).
    { rewrite lookup_app_r by lia. now rewrite Nat.sub_diag. }
    assert (Hsplit : forall j x, (pre ++ [ch]) !! j = Some x ->
              pre !! j = Some x \/ (j = length pre /\ x = ch)).
    { intros j x Hj. destruct (decide (j < length pre)%nat) as [Hlt|Hge].
      - left. now rewrite lookup_app_l in Hj.
      - right. rewrite lookup_app_r in Hj by lia.
        destruct (j - length pre)%nat eqn:E; simpl in Hj; [|done].
        split; [lia | congruence]. }
    destruct (cnt <=? pagecnt ch) eqn:Hsuf; simpl.
    + apply Z.leb_le in Hsuf.
      destruct best as [[k b]|]; simpl in *.
      * destruct Hb as (Hk & Hkc & Hmin).
        destruct (pagecnt ch <? pagecnt b) eqn:Hlt.
        -- apply Z.ltb_lt in Hlt. split; [done|]. split; [done|].
           intros j x Hj Hx. destruct (Hsplit _ _ Hj) as [Hp|[-> ->]].
           ++ destruct (Hmin _ _ Hp Hx). lia.
           ++ split; [lia | auto].
        -- apply Z.ltb_ge in Hlt. split.
           { rewrite lookup_app_l; [done|]. now apply lookup_lt_Some in Hk. }
           split; [done|].
           intros j x Hj Hx. destruct (Hsplit _ _ Hj) as [Hp|[-> ->]].
           ++ now apply Hmin.
           ++ split; [done|]. intros _. apply lookup_lt_Some in Hk. lia.
      * split; [done|]. split; [done|].
        intros j x Hj Hx. destruct (Hsplit _ _ Hj) as [Hp|[-> ->]].
        -- specialize (Hb _ _ Hp). lia.
        -- split; [lia | auto].
    + apply Z.leb_gt in Hsuf.
      destruct best as [[k b]|]; simpl in *.
      * destruct Hb as (Hk & Hkc & Hmin). split.
        { rewrite lookup_app_l; [done|]. now apply lookup_lt_Some in Hk. }
        split; [done|].
        intros j x Hj Hx. destruct (Hsplit _ _ Hj) as [Hp|[-> ->]].
        -- now apply Hmin.
        -- lia.
      * intros j x Hj. destruct (Hsplit _ _ Hj) as [Hp|[-> ->]].
        -- exact (Hb _ _ Hp).
        -- done.
Qed.

Lemma best_fit_found cnt fl k ch :
  best_fit cnt fl 0%nat None = Some (k, ch) -> is_best_fit cnt fl k ch.
Proof.
  intros H. pose proof (best_fit_spec cnt fl [] None) as S.
  simpl in S. rewrite H in S. apply S. intros j x Hj. done.
Qed.

Lemma best_fit_none cnt fl :
  best_fit cnt fl 0%nat None = None -> no_fit cnt fl.
Proof.
  intros H. pose proof (best_fit_spec cnt fl [] None) as S.
  simpl in S. rewrite H in S. apply S. intros j x Hj. done.
Qed.

Lemma chunk_pages_app l1 l2 :
  chunk_pages (l1 ++ l2) = chunk_pages l1 + chunk_pages l2.
Proof. induction l1; simpl; lia. Qed.

Lemma chunk_pages_delete fl k ch :
  fl !! k = Some ch -> chunk_pages (delete k fl) = chunk_pages fl - pagecnt ch.
Proof.
  revert k. induction fl as [|x fl IH]; intros [|k] H; simpl in *; try done.
  - injection H as ->. lia.
  - rewrite (IH _ H). lia.
Qed.

Lemma chunk_pages_insert fl k ch ch' :
  fl !! k = Some ch ->
  chunk_pages (<[k := ch']> fl) = chunk_pages fl - pagecnt ch + pagecnt ch'.
Proof.
  revert k. induction fl as [|x fl IH]; intros [|k] H; simpl in *; try done.
  - injection H as ->. lia.
  - rewrite (IH _ H). lia.
Qed.

Lemma list_ok_delete fl k : list_ok fl -> list_ok (delete k fl).
Proof.
  unfold list_ok. revert k. induction fl as [|x fl IH]; intros [|k] H; simpl;
    try done; inversion H; subst; auto.
Qed.

Lemma list_ok_insert fl k ch : list_ok fl -> chunk_ok ch -> list_ok (<[k := ch]> fl).
Proof.
  unfold list_ok. revert k. induction fl as [|x fl IH]; intros [|k] H Hc; simpl;
    try done; inversion H; subst; auto.
Qed.

Lemma list_ok_lookup fl k ch : list_ok fl -> fl !! k = Some ch -> chunk_ok ch.
Proof.
  unfold list_ok. intros H Hk. rewrite Forall_forall in H. apply H.
  eapply list_elem_of_lookup_2; eauto.
Qed.

(** What a successful [alloc_phys_pages] does to the list. *)
Lemma alloc_phys_pages_spec cnt fl p fl' :
  list_ok fl -> 0 <= cnt ->
  alloc_phys_pages cnt fl = Some (p, fl') ->
  exists k ch, is_best_fit cnt fl k ch /\ p = pageptr (first_ppn ch) /\
    fl' = (if pagecnt ch =? cnt then delete k fl
           else <[ k := mk_chunk (node ch) (wrap64 (first_ppn ch + cnt))
                                 (pagecnt ch - cnt) ]> fl) /\
    chunk_pages fl' = chunk_pages fl - cnt /\ list_ok fl'.
Proof.
  intros Hok Hc. unfold alloc_phys_pages.
  destruct (cnt =? 0) eqn:E0; [done|]. apply Z.eqb_neq in E0.
  destruct (best_fit cnt fl 0%nat None) as [[k ch]|] eqn:Hb; [|done].
  apply best_fit_found in Hb. pose proof Hb as (Hk & Hsuf & Hmin).
  pose proof (list_ok_lookup _ _ _ Hok Hk) as Hck. unfold chunk_ok in Hck.
  destruct (pagecnt ch =? cnt) eqn:Heq; intros [= <- <-]; exists k, ch;
    (split; [exact Hb|]); (split; [reflexivity|]).
  - rewrite Heq. apply Z.eqb_eq in Heq. split; [reflexivity|]. split.
    + rewrite (chunk_pages_delete _ _ _ Hk). lia.
    + now apply list_ok_delete.
  - rewrite Heq. apply Z.eqb_neq in Heq.
    rewrite (wrap64_small (pagecnt ch - cnt)) by lia.
    split; [reflexivity|]. split.
    + rewrite (chunk_pages_insert _ _ _ _ Hk). simpl. lia.
    + apply list_ok_insert; [done|]. unfold chunk_ok. simpl. lia.
Qed.

Lemma alloc_phys_pages_fails cnt fl :
  alloc_phys_pages cnt fl = None -> cnt = 0 \/ no_fit cnt fl.
Proof.
  unfold alloc_phys_pages. destruct (cnt =? 0) eqn:E0.
  - left. now apply Z.eqb_eq.
  - destruct (best_fit cnt fl 0%nat None) as [[k ch]|] eqn:Hb.
    + destruct (pagecnt ch =? cnt); done.
    + right. now apply best_fit_none.
Qed.

(** ** [kmalloc] of a list node *)

Lemma round_up_node : ROUND_UP NODE_SIZE HEAP_ALIGN = 32.
Proof. reflexivity. Qed.

(** The free list after [kmalloc] of a node: a page is gone when the
    pool had no room and a page was free. *)
Definition node_list (kp : kpool) : list page_chunk :=
  if node_fits kp then free_chunk_list kp
  else match alloc_phys_page (free_chunk_list kp) with
       | Some (_, fl) => fl
       | None => free_chunk_list kp
       end.

Lemma heap_carve_node kp :
  exists nd kp1,
    heap_carve NODE_SIZE kp = Some (nd, kp1) /\
    free_chunk_list kp1 = node_list kp /\
    (node_fits kp = true ->
     nd = heap_end kp - 32 /\ heap_low kp1 = heap_low kp /\
     heap_end kp1 = heap_end kp - 48).
Proof.
  unfold heap_carve, node_list, node_fits. rewrite round_up_node.
  change (NODE_SIZE =? 0) with false. change (HEAP_ALLOC_MAX <? 32) with false.
  change (PAGE_SIZE - HDR <? 32) with false. cbv iota.
  destruct (wrap64 (32 + HDR) <=? wrap64 (heap_end kp - heap_low kp)) eqn:E.
  - eexists _, _. split; [reflexivity|]. split; [reflexivity|].
    intros _. cbn [heap_low heap_end]. unfold HDR. lia.
  - destruct (alloc_phys_page (free_chunk_list kp)) as [[p fl]|];
      destruct (wrap64 (heap_end kp - heap_low kp) <? PAGE_SIZE - 32 - HDR);
      eexists _, _; (split; [reflexivity|]); (split; [reflexivity|]); done.
Qed.

Lemma node_never_panics kp : heap_carve NODE_SIZE kp <> None.
Proof. destruct (heap_carve_node kp) as (nd & kp1 & -> & _). done. Qed.

Lemma node_list_pages kp :
  list_ok (free_chunk_list kp) ->
  list_ok (node_list kp) /\
  chunk_pages (node_list kp) = chunk_pages (free_chunk_list kp) - node_pages kp /\
  0 <= node_pages kp <= 1 /\ (node_fits kp = true -> node_pages kp = 0).
Proof.
  intros Hok. unfold node_list, node_pages.
  destruct (node_fits kp); [split; [done|]; split; [lia|]; split; [lia|done]|].
  destruct (alloc_phys_page (free_chunk_list kp)) as [[p fl]|] eqn:Ha.
  - destruct (alloc_phys_pages_spec 1 _ _ _ Hok ltac:(lia) Ha)
      as (k & ch & _ & _ & _ & Hsum & Hok').
    split; [done|]. split; [lia|]. split; [lia|done].
  - split; [done|]. split; [lia|]. split; [lia|done].
Qed.

Lemma free_phys_pages_list pp cnt kp :
  pp <> 0 -> cnt <> 0 ->
  exists nd,
    free_chunk_list (free_phys_pages pp cnt kp)
    = mk_chunk nd (pagenum pp) cnt :: node_list kp /\
    (node_fits kp = true ->
     nd = heap_end kp - 32 /\ heap_low (free_phys_pages pp cnt kp) = heap_low kp /\
     heap_end (free_phys_pages pp cnt kp) = heap_end kp - 48).
Proof.
  intros Hp Hc. unfold free_phys_pages.
  rewrite (proj2 (Z.eqb_neq pp 0) Hp), (proj2 (Z.eqb_neq cnt 0) Hc). cbn [orb].
  destruct (heap_carve_node kp) as (nd & kp1 & -> & Hl & Hfit).
  exists nd. cbn [set_list free_chunk_list heap_low heap_end]. now rewrite Hl.
Qed.

Lemma free_phys_pages_nothing pp cnt kp :
  pp = 0 \/ cnt = 0 -> free_phys_pages pp cnt kp = kp.
Proof.
  intros H. unfold free_phys_pages.
  destruct H as [-> | ->]; [done|]. now rewrite orb_true_r.
Qed.

Lemma free_phys_pages_spec pp cnt kp :
  list_ok (free_chunk_list kp) -> pp <> 0 -> 0 < cnt ->
  chunk_pages (free_chunk_list (free_phys_pages pp cnt kp))
  = chunk_pages (free_chunk_list kp) + cnt - node_pages kp.
Proof.
  intros Hok Hp Hc.
  destruct (free_phys_pages_list pp cnt kp Hp ltac:(lia)) as (nd & -> & _).
  destruct (node_list_pages kp Hok) as (_ & Hsum & _).
  cbn [chunk_pages pagecnt]. lia.
Qed.

Lemma free_phys_pages_ok pp cnt kp :
  list_ok (free_chunk_list kp) -> 0 <= cnt < 2 ^ 32 ->
  list_ok (free_chunk_list (free_phys_pages pp cnt kp)).
Proof.
  intros Hok Hc.
  destruct (Z.eq_dec pp 0) as [Hp|Hp];
    [now rewrite free_phys_pages_nothing by now left|].
  destruct (Z.eq_dec cnt 0) as [Hz|Hz];
    [now rewrite free_phys_pages_nothing by now right|].
  destruct (free_phys_pages_list pp cnt kp Hp Hz) as (nd & -> & _).
  destruct (node_list_pages kp Hok) as (Hok' & _).
  constructor; [|done]. unfold chunk_ok. cbn [pagecnt]. lia.
Qed.

Lemma step_ledger s o :
  list_ok (free_chunk_list (vars s)) -> op_ok o ->
  list_ok (free_chunk_list (vars (step s o))) /\
  chunk_pages (free_chunk_list (vars (step s o))) + allocated (step s o)
    + heap_pages (step s o)
  = chunk_pages (free_chunk_list (vars s)) + allocated s + heap_pages s /\
  heap_pages s <= heap_pages (step s o).
Proof.
  intros Hok Ho. destruct o as [cnt|pp cnt]; simpl in *.
  - destruct (alloc_phys_pages cnt (free_chunk_list (vars s))) as [[p fl']|] eqn:Ha.
    + destruct (alloc_phys_pages_spec _ _ _ _ Hok (proj1 Ho) Ha)
        as (k & ch & _ & _ & _ & Hsum & Hok'). simpl. split; [done|lia].
    + split; [done|lia].
  - destruct ((pp =? 0) || (cnt =? 0)) eqn:E; [split; [done|lia]|]. simpl.
    apply orb_false_iff in E. destruct E as [E1%Z.eqb_neq E2%Z.eqb_neq].
    split; [now apply free_phys_pages_ok|].
    rewrite free_phys_pages_spec by (done || lia).
    destruct (node_list_pages (vars s) Hok) as (_ & _ & Hnp & _). lia.
Qed.

Lemma run_ledger ops : forall s,
  list_ok (free_chunk_list (vars s)) -> Forall op_ok ops ->
  list_ok (free_chunk_list (vars (run s ops))) /\
  chunk_pages (free_chunk_list (vars (run s ops))) + allocated (run s ops)
    + heap_pages (run s ops)
  = chunk_pages (free_chunk_list (vars s)) + allocated s + heap_pages s /\
  heap_pages s <= heap_pages (run s ops).
Proof.
  induction ops as [|o ops IH]; intros s Hok Hops; simpl; [split; [done|lia]|].
  inversion Hops as [|? ? Ho Hrest]; subst.
  destruct (step_ledger s o Hok Ho) as (Hok1 & Hsum1 & Hm1).
  destruct (IH (step s o) Hok1 Hrest) as (Hok2 & Hsum2 & Hm2).
  unfold run in *. split; [done | lia].
Qed.

Lemma free_phys_page_count_wrap fl :
  free_phys_page_count fl = wrap64 (chunk_pages fl).
Proof.
  unfold free_phys_page_count.
  assert (G : forall a, fold_left (fun total ch => wrap64 (total + pagecnt ch)) fl (wrap64 a)
                        = wrap64 (a + chunk_pages fl)).
  { induction fl as [|ch fl IH]; intros a; simpl.
    - now rewrite Z.add_0_r.
    - replace (wrap64 (wrap64 a + pagecnt ch)) with (wrap64 (a + pagecnt ch))
        by (unfold wrap64; now rewrite Z.add_mod_idemp_l by lia).
      rewrite IH. f_equal. lia. }
  specialize (G 0). now rewrite Z.add_0_l in G.
Qed.

(** C9 (as the code has it): between any two calls of the allocator,
    the pages on the free list are the initial pool minus the pages
    handed out to callers and not yet given back and minus the pages the
    heap has taken for list nodes (also as [free_phys_page_count]
    computes it); a successful [alloc_phys_pages n] takes exactly [n]
    pages from the first chunk of least sufficient size;
    [free_phys_pages p n] with [p] not NULL and [n] not 0 links [n] pages
    after [kmalloc] has made the node, which costs a page of the same
    list when the heap pool has no room for the node and a page is free:
    the list then grows by [n - 1] pages. *)
Theorem page_allocator_conservation (kp0 : kpool) (ops : list op) :
  list_ok (free_chunk_list kp0) -> Forall op_ok ops ->
  let s := run (mk_pool kp0 0 0) ops in
  let fl := free_chunk_list (vars s) in
  chunk_pages fl = chunk_pages (free_chunk_list kp0) - allocated s - heap_pages s /\
  free_phys_page_count fl
  = wrap64 (chunk_pages (free_chunk_list kp0) - allocated s - heap_pages s) /\
  0 <= heap_pages s /\
  (forall n p fl', 0 <= n < 2 ^ 32 ->
     alloc_phys_pages n fl = Some (p, fl') ->
     chunk_pages fl' = chunk_pages fl - n /\
     exists k ch, is_best_fit n fl k ch /\
       p = pageptr (first_ppn ch) /\
       fl' = (if pagecnt ch =? n then delete k fl
              else <[ k := mk_chunk (node ch) (wrap64 (first_ppn ch + n))
                                    (pagecnt ch - n) ]> fl)) /\
  (forall p n, p <> 0 -> 0 < n < 2 ^ 32 ->
     chunk_pages (free_chunk_list (free_phys_pages p n (vars s)))
     = chunk_pages fl + n - node_pages (vars s) /\
     0 <= node_pages (vars s) <= 1 /\
     (node_fits (vars s) = true -> node_pages (vars s) = 0) /\
     (node_fits (vars s) = false -> is_Some (alloc_phys_page fl) ->
      node_pages (vars s) = 1)) /\
  (forall p n, p = 0 \/ n = 0 -> free_phys_pages p n (vars s) = vars s).
Proof.
  intros Hok Hops s fl.
  destruct (run_ledger ops (mk_pool kp0 0 0) Hok Hops) as (Hoks & Hsum & Hm).
  fold s in Hoks, Hsum, Hm. fold fl in Hoks, Hsum. simpl in Hsum, Hm.
  assert (Hc : chunk_pages fl = chunk_pages (free_chunk_list kp0) - allocated s
                                - heap_pages s) by lia.
  split; [done|]. split.
  { rewrite free_phys_page_count_wrap. now rewrite Hc. }
  split; [done|]. split; [|split].
  - intros n p fl' Hn Ha.
    destruct (alloc_phys_pages_spec _ _ _ _ Hoks (proj1 Hn) Ha)
      as (k & ch & Hbest & Hp & Hfl & Hsum' & _).
    split; [done|]. exists k, ch. done.
  - intros p n Hp Hn.
    destruct (node_list_pages (vars s) Hoks) as (_ & _ & Hnp & Hfit).
    split; [apply free_phys_pages_spec; done || lia|]. split; [done|].
    split; [done|].
    intros Hnf [x Hx]. unfold node_pages. rewrite Hnf. fold fl. now rewrite Hx.
  - intros p n H. now apply free_phys_pages_nothing.
Qed.

(** A pool of three chunks whose nodes are heap blocks above the pool
    [0x80100000 .. 0x80100F70); the run allocates 2 pages (from the chunk
    of 3, the least sufficient one), frees them, and allocates 4. *)
Definition sample_list : list page_chunk :=
  [ mk_chunk 0x80100FE0 0x80100 8; mk_chunk 0x80100FB0 0x80200 3;
    mk_chunk 0x80100F80 0x80300 4 ].

Definition sample_kpool : kpool := mk_kpool 0x80100000 0x80100F70 sample_list.

Definition sample_ops : list op :=
  [ Alloc 2; Free 0x80200000 2; Alloc 4 ].

Lemma sample_list_ok : list_ok sample_list.
Proof. unfold list_ok, sample_list, chunk_ok. repeat constructor; simpl; lia. Qed.

Lemma sample_ops_ok : Forall op_ok sample_ops.
Proof. unfold sample_ops. repeat constructor; simpl; lia. Qed.

Lemma page_allocator_conservation_witness :
  list_ok (free_chunk_list sample_kpool) /\ Forall op_ok sample_ops /\
  chunk_pages (free_chunk_list (vars (run (mk_pool sample_kpool 0 0) sample_ops)))
  = chunk_pages (free_chunk_list sample_kpool)
    - allocated (run (mk_pool sample_kpool 0 0) sample_ops)
    - heap_pages (run (mk_pool sample_kpool 0 0) sample_ops).
Proof.
  split; [exact sample_list_ok|]. split; [exact sample_ops_ok|].
  exact (proj1 (page_allocator_conservation sample_kpool sample_ops
                  sample_list_ok sample_ops_ok)).
Defined.

(** The same free list with the heap pool used up to its last 16
    bytes. *)
Definition full_kpool : kpool := mk_kpool 0x80100F60 0x80100F70 sample_list.

(** C9 as stated fails: with no room in the heap pool for the node,
    [free_phys_pages(p, 2)] takes a page for the heap (from the chunk of
    3, the least sufficient one) before it links the two pages: the free
    list grows from 15 to 16 pages, not to 17. *)
Lemma free_takes_page_for_node :
  chunk_pages (free_chunk_list full_kpool) = 15 /\
  free_phys_pages 0x80400000 2 full_kpool
  = mk_kpool 0x80200000 0x80200FD0
      [ mk_chunk 0x80200FE0 0x80400 2; mk_chunk 0x80100FE0 0x80100 8;
        mk_chunk 0x80100FB0 0x80201 2; mk_chunk 0x80100F80 0x80300 4 ] /\
  chunk_pages (free_chunk_list (free_phys_pages 0x80400000 2 full_kpool)) = 16 /\
  chunk_pages (free_chunk_list (free_phys_pages 0x80400000 2 full_kpool))
  <> chunk_pages (free_chunk_list full_kpool) + 2.
Proof. repeat split; vm_compute; congruence. Qed.

(** With no room in the pool and no page on the list, [kmalloc] goes on
    with the NULL it got from [alloc_phys_page]: the node is placed at
    the end of the page at address 0, which becomes the heap pool. *)
Example node_from_null_page :
  free_phys_pages 0x80400000 2 (mk_kpool 0x80100F60 0x80100F70 [])
  = mk_kpool 0 0xFD0 [ mk_chunk 0xFE0 0x80400 2 ].
Proof. reflexivity. Qed.

Example alloc_takes_least_sufficient :
  alloc_phys_pages 2 sample_list
  = Some (0x80200000,
          [ mk_chunk 0x80100FE0 0x80100 8; mk_chunk 0x80100FB0 0x80202 1;
            mk_chunk 0x80100F80 0x80300 4 ]).
Proof. reflexivity. Qed.

Example alloc_exact_removes_node :
  alloc_phys_pages 4 sample_list
  = Some (0x80300000,
          [ mk_chunk 0x80100FE0 0x80100 8; mk_chunk 0x80100FB0 0x80200 3 ]).
Proof. reflexivity. Qed.

(** ** Which pages are free *)

(** Page [q] lies in chunk [ch]; page [q] is on the free list. *)
Definition in_chunk (q : Z) (ch : page_chunk) : Prop :=
  first_ppn ch <= q < first_ppn ch + pagecnt ch.

Definition is_free (fl : list page_chunk) (q : Z) : Prop :=
  exists j ch, fl !! j = Some ch /\ in_chunk q ch.

(** No page is on the list twice, and every chunk lies below the end
    of the 52-bit page-number space (so that [pageptr] of its pages is an
    address). *)
Definition no_overlap (fl : list page_chunk) : Prop :=
  forall i j a b, i <> j -> fl !! i = Some a -> fl !! j = Some b ->
    first_ppn a + pagecnt a <= first_ppn b \/ first_ppn b + pagecnt b <= first_ppn a.

Definition chunk_in_ram (ch : page_chunk) : Prop :=
  0 < first_ppn ch /\ first_ppn ch + pagecnt ch <= 2 ^ 52.

Definition pool_ok (fl : list page_chunk) : Prop :=
  list_ok fl /\ Forall chunk_in_ram fl /\ no_overlap fl.

Lemma pageptr_pagenum n : 0 <= n < 2 ^ 52 -> pagenum (pageptr n) = n /\ pageptr n mod PAGE_SIZE = 0.
Proof.
  intros H. unfold pagenum, pageptr, PAGE_ORDER, PAGE_SIZE.
  rewrite wrap64_small by lia. split.
  - now rewrite Z.div_mul by lia.
  - now rewrite Z.mod_mul by lia.
Qed.

Lemma in_ram_lookup fl k ch :
  Forall chunk_in_ram fl -> fl !! k = Some ch -> chunk_in_ram ch.
Proof.
  intros H Hk. rewrite Forall_forall in H. apply H.
  eapply list_elem_of_lookup_2; eauto.
Qed.

Lemma is_free_delete fl k ch q :
  no_overlap fl -> list_ok fl -> fl !! k = Some ch ->
  (is_free (delete k fl) q <-> is_free fl q /\ ~ in_chunk q ch).
Proof.
  intros Hno Hok Hk. split.
  - intros (j & c & Hj & Hq).
    destruct (decide (j < k)%nat) as [Hlt|Hge].
    + rewrite list_lookup_delete_lt in Hj by done. split; [now exists j, c|].
      intros Hc. destruct (Hno j k c ch ltac:(lia) Hj Hk); unfold in_chunk in *; lia.
    + rewrite list_lookup_delete_ge in Hj by lia. split; [now exists (S j), c|].
      intros Hc. destruct (Hno (S j) k c ch ltac:(lia) Hj Hk); unfold in_chunk in *; lia.
  - intros [(j & c & Hj & Hq) Hn].
    assert (j <> k) by (intros ->; rewrite Hk in Hj; injection Hj as ->; done).
    destruct (decide (j < k)%nat) as [Hlt|Hge].
    + exists j, c. now rewrite list_lookup_delete_lt.
    + exists (j - 1)%nat, c. rewrite list_lookup_delete_ge by lia.
      now replace (S (j - 1)) with j by lia.
Qed.

Lemma is_free_insert fl k ch ch' q :
  no_overlap fl -> fl !! k = Some ch ->
  (forall x, in_chunk x ch' -> in_chunk x ch) ->
  (is_free (<[k := ch']> fl) q <-> is_free fl q /\ (in_chunk q ch -> in_chunk q ch')).
Proof.
  intros Hno Hk Hsub. pose proof (lookup_lt_Some _ _ _ Hk) as Hlen. split.
  - intros (j & c & Hj & Hq).
    destruct (decide (j = k)) as [->|Hne].
    + rewrite list_lookup_insert_eq in Hj by done. injection Hj as <-.
      split; [exists k, ch; auto | auto].
    + rewrite list_lookup_insert_ne in Hj by done. split; [now exists j, c|].
      intros Hc. destruct (Hno j k c ch Hne Hj Hk); unfold in_chunk in *; lia.
  - intros [(j & c & Hj & Hq) Hin].
    destruct (decide (j = k)) as [->|Hne].
    + rewrite Hk in Hj. injection Hj as <-. exists k, ch'.
      rewrite list_lookup_insert_eq by done. auto.
    + exists j, c. now rewrite list_lookup_insert_ne.
Qed.

Lemma no_overlap_delete fl k : no_overlap fl -> no_overlap (delete k fl).
Proof.
  intros Hno i j a b Hij Hi Hj.
  destruct (decide (i < k)%nat), (decide (j < k)%nat).
  - rewrite list_lookup_delete_lt in Hi, Hj by done. eapply Hno; [|eauto..]. done.
  - rewrite list_lookup_delete_lt in Hi by done.
    rewrite list_lookup_delete_ge in Hj by lia. eapply (Hno i (S j)); [lia|eauto..].
  - rewrite list_lookup_delete_ge in Hi by lia.
    rewrite list_lookup_delete_lt in Hj by done. eapply (Hno (S i) j); [lia|eauto..].
  - rewrite list_lookup_delete_ge in Hi, Hj by lia. eapply (Hno (S i) (S j)); [lia|eauto..].
Qed.

Lemma no_overlap_insert fl k ch ch' :
  no_overlap fl -> fl !! k = Some ch ->
  first_ppn ch <= first_ppn ch' -> first_ppn ch' + pagecnt ch' <= first_ppn ch + pagecnt ch ->
  no_overlap (<[k := ch']> fl).
Proof.
  intros Hno Hk H1 H2 i j a b Hij Hi Hj.
  pose proof (lookup_lt_Some _ _ _ Hk) as Hlen.
  destruct (decide (i = k)) as [->|Hik], (decide (j = k)) as [->|Hjk]; try done.
  - rewrite list_lookup_insert_eq in Hi by done. injection Hi as <-.
    rewrite list_lookup_insert_ne in Hj by done.
    destruct (Hno k j ch b Hij Hk Hj); lia.
  - rewrite list_lookup_insert_eq in Hj by done. injection Hj as <-.
    rewrite list_lookup_insert_ne in Hi by done.
    destruct (Hno i k a ch Hij Hi Hk); lia.
  - rewrite list_lookup_insert_ne in Hi, Hj by done. eauto.
Qed.

Lemma in_ram_delete fl k : Forall chunk_in_ram fl -> Forall chunk_in_ram (delete k fl).
Proof.
  revert k. induction fl as [|x fl IH]; intros [|k] H; simpl;
    try done; inversion H; subst; auto.
Qed.

Lemma in_ram_insert fl k ch :
  Forall chunk_in_ram fl -> chunk_in_ram ch -> Forall chunk_in_ram (<[k := ch]> fl).
Proof.
  revert k. induction fl as [|x fl IH]; intros [|k] H Hc; simpl;
    try done; inversion H; subst; auto.
Qed.

(** What an allocation does to the set of free pages. *)
Lemma alloc_free_set n fl p fl' :
  pool_ok fl -> 0 < n < 2 ^ 32 ->
  alloc_phys_pages n fl = Some (p, fl') ->
  p mod PAGE_SIZE = 0 /\ p <> 0 /\
  (forall q, pagenum p <= q < pagenum p + n -> is_free fl q) /\
  (forall q, is_free fl' q <-> is_free fl q /\ ~ (pagenum p <= q < pagenum p + n)) /\
  pool_ok fl'.
Proof.
  intros (Hok & Hram & Hno) Hn Ha.
  destruct (alloc_phys_pages_spec n fl p fl' Hok ltac:(lia) Ha)
    as (k & ch & (Hk & Hsuf & _) & -> & Hfl & _ & Hok').
  pose proof (in_ram_lookup _ _ _ Hram Hk) as [Hr1 Hr2].
  pose proof (list_ok_lookup _ _ _ Hok Hk) as Hck. unfold chunk_ok in Hck.
  destruct (pageptr_pagenum (first_ppn ch) ltac:(lia)) as [Hpn Hal].
  rewrite Hpn. split; [exact Hal|]. split.
  { unfold pageptr, PAGE_ORDER. rewrite wrap64_small by lia. lia. }
  split.
  { intros q Hq. exists k, ch. split; [done|]. unfold in_chunk. lia. }
  destruct (pagecnt ch =? n) eqn:Heq; subst fl'.
  - apply Z.eqb_eq in Heq. split.
    + intros q. rewrite (is_free_delete fl k ch q Hno Hok Hk).
      unfold in_chunk. rewrite Heq. tauto.
    + split; [exact Hok'|]. split; [now apply in_ram_delete | now apply no_overlap_delete].
  - apply Z.eqb_neq in Heq. rewrite wrap64_small in * by lia.
    set (ch' := mk_chunk (node ch) (first_ppn ch + n) (pagecnt ch - n)).
    split.
    + intros q. rewrite (is_free_insert fl k ch ch' q Hno Hk).
      * unfold in_chunk, ch'. cbn. split; intros [Hf Hx]; (split; [done|]); lia.
      * unfold in_chunk, ch'. cbn. lia.
    + split; [exact Hok'|]. split.
      * apply in_ram_insert; [done|]. unfold chunk_in_ram, ch'. cbn. lia.
      * eapply no_overlap_insert; eauto; unfold ch'; cbn; lia.
Qed.

(** What [kmalloc] of the node does to the set of free pages: it
    takes at most one page, and none when the pool has room. *)
Lemma node_list_free_set kp :
  pool_ok (free_chunk_list kp) ->
  pool_ok (node_list kp) /\
  (forall q, is_free (node_list kp) q -> is_free (free_chunk_list kp) q) /\
  (node_fits kp = true -> node_list kp = free_chunk_list kp).
Proof.
  intros Hpool. unfold node_list.
  destruct (node_fits kp); [done|].
  destruct (alloc_phys_page (free_chunk_list kp)) as [[p fl]|] eqn:Ha; [|done].
  destruct (alloc_free_set 1 _ _ _ Hpool ltac:(lia) Ha) as (_ & _ & _ & Hset & Hpool').
  split; [done|]. split; [|done]. intros q Hq. now apply Hset in Hq.
Qed.

(** What [free_phys_pages] does to the set of free pages. *)
Lemma free_free_set p n kp q :
  p <> 0 -> 0 < n ->
  (is_free (free_chunk_list (free_phys_pages p n kp)) q <->
   is_free (node_list kp) q \/ pagenum p <= q < pagenum p + n).
Proof.
  intros Hp Hn.
  destruct (free_phys_pages_list p n kp Hp ltac:(lia)) as (nd & -> & _).
  split.
  - intros (j & c & Hj & Hq). destruct j as [|j]; cbn in Hj.
    + injection Hj as <-. right. exact Hq.
    + left. now exists j, c.
  - intros [(j & c & Hj & Hq)|Hq].
    + now exists (S j), c.
    + exists 0%nat, (mk_chunk nd (pagenum p) n). done.
Qed.

Lemma free_pool_ok p n kp :
  pool_ok (free_chunk_list kp) -> p <> 0 -> 0 < n < 2 ^ 32 ->
  0 < pagenum p -> pagenum p + n <= 2 ^ 52 ->
  (forall q, pagenum p <= q < pagenum p + n -> ~ is_free (free_chunk_list kp) q) ->
  pool_ok (free_chunk_list (free_phys_pages p n kp)).
Proof.
  intros Hpool Hp Hn H1 H2 Hnf.
  destruct (node_list_free_set kp Hpool) as ((Hok & Hram & Hno) & Hsub & _).
  destruct (free_phys_pages_list p n kp Hp ltac:(lia)) as (nd & -> & _).
  split; [constructor; [unfold chunk_ok; cbn; lia | done]|].
  split; [constructor; [split; cbn; lia | done]|].
  assert (Hfresh : forall j b, node_list kp !! j = Some b ->
            pagenum p + n <= first_ppn b \/ first_ppn b + pagecnt b <= pagenum p).
  { intros j b Hj.
    pose proof (list_ok_lookup _ _ _ Hok Hj) as Hb. unfold chunk_ok in Hb.
    destruct (Z.le_gt_cases (pagenum p + n) (first_ppn b)) as [|H3]; [now left|].
    destruct (Z.le_gt_cases (first_ppn b + pagecnt b) (pagenum p)) as [|H4]; [now right|].
    exfalso. apply (Hnf (Z.max (pagenum p) (first_ppn b))); [lia|].
    apply Hsub. exists j, b. split; [done|]. unfold in_chunk. lia. }
  intros i j a b Hij Hi Hj. destruct i as [|i], j as [|j]; cbn in Hi, Hj; try done.
  - injection Hi as <-. cbn. apply (Hfresh j b Hj).
  - injection Hj as <-. cbn. destruct (Hfresh i a Hi); lia.
  - eapply (Hno i j); eauto.
Qed.

(** No page is handed out twice: the pages of a successful
    [alloc_phys_pages n] were all free and are free no longer, the other
    free pages stay free, and the pages of the next allocation are
    others. *)
Theorem alloc_pages_exclusive (fl : list page_chunk) (n p : Z) (fl' : list page_chunk) :
  pool_ok fl -> 0 < n < 2 ^ 32 ->
  alloc_phys_pages n fl = Some (p, fl') ->
  p <> 0 /\ p mod PAGE_SIZE = 0 /\
  (forall q, pagenum p <= q < pagenum p + n -> is_free fl q /\ ~ is_free fl' q) /\
  (forall q, ~ (pagenum p <= q < pagenum p + n) -> (is_free fl' q <-> is_free fl q)) /\
  pool_ok fl' /\
  (forall m p2 fl2, 0 < m < 2 ^ 32 -> alloc_phys_pages m fl' = Some (p2, fl2) ->
     pagenum p + n <= pagenum p2 \/ pagenum p2 + m <= pagenum p).
Proof.
  intros Hpool Hn Ha.
  destruct (alloc_free_set n fl p fl' Hpool Hn Ha) as (Hal & Hnz & Hin & Hset & Hpool').
  split; [done|]. split; [done|]. split.
  { intros q Hq. split; [auto|]. rewrite Hset. tauto. }
  split.
  { intros q Hq. rewrite Hset. tauto. }
  split; [done|].
  intros m p2 fl2 Hm Ha2.
  destruct (alloc_free_set m fl' p2 fl2 Hpool' Hm Ha2) as (_ & _ & Hin2 & _ & _).
  destruct (Z.le_gt_cases (pagenum p + n) (pagenum p2)) as [|H3]; [now left|].
  destruct (Z.le_gt_cases (pagenum p2 + m) (pagenum p)) as [|H4]; [now right|].
  exfalso.
  assert (Hq : is_free fl' (Z.max (pagenum p) (pagenum p2))) by (apply Hin2; lia).
  apply Hset in Hq. lia.
Qed.

(** [free_phys_pages p n] puts the pages [pagenum p .. pagenum p + n - 1]
    on the list as one chunk, after [kmalloc] has made the node.  Given
    back right after they were allocated, with room for the node in the
    heap pool, the set and the number of free pages are what they were
    before the allocation (as another list: the chunks are not merged)
    and the pool is 48 bytes shorter; without room for the node the heap
    takes a page of the list for itself, so that no page becomes free
    that was not free before and the count falls by one. *)
Theorem free_pages_restores (kp : kpool) (n p : Z) (fl' : list page_chunk) :
  pool_ok (free_chunk_list kp) -> 0 < n < 2 ^ 32 ->
  alloc_phys_pages n (free_chunk_list kp) = Some (p, fl') ->
  let kp2 := free_phys_pages p n (set_list kp fl') in
  pool_ok (free_chunk_list kp2) /\
  (forall q, is_free (free_chunk_list kp2) q -> is_free (free_chunk_list kp) q) /\
  chunk_pages (free_chunk_list kp2)
  = chunk_pages (free_chunk_list kp) - node_pages (set_list kp fl') /\
  (node_fits kp = true ->
   (forall q, is_free (free_chunk_list kp2) q <-> is_free (free_chunk_list kp) q) /\
   chunk_pages (free_chunk_list kp2) = chunk_pages (free_chunk_list kp) /\
   heap_low kp2 = heap_low kp /\ heap_end kp2 = heap_end kp - 48) /\
  (forall p0 n0 kp0 q, p0 <> 0 -> 0 < n0 ->
     (is_free (free_chunk_list (free_phys_pages p0 n0 kp0)) q <->
      is_free (node_list kp0) q \/ pagenum p0 <= q < pagenum p0 + n0)).
Proof.
  intros Hpool Hn Ha kp2.
  destruct (alloc_free_set n _ p fl' Hpool Hn Ha) as (Hal & Hnz & Hin & Hset & Hpool').
  destruct Hpool as (Hok & Hram & Hno).
  destruct (alloc_phys_pages_spec n _ p fl' Hok ltac:(lia) Ha)
    as (k & ch & (Hk & Hsuf & _) & Hp & _ & Hsum & Hok').
  pose proof (in_ram_lookup _ _ _ Hram Hk) as [Hr1 Hr2].
  destruct (pageptr_pagenum (first_ppn ch) ltac:(lia)) as [Hpn _].
  rewrite <- Hp in Hpn.
  set (kp1 := set_list kp fl') in *.
  assert (Hfl1 : free_chunk_list kp1 = fl') by done.
  assert (Hfit1 : node_fits kp1 = node_fits kp) by done.
  destruct (node_list_free_set kp1 ltac:(now rewrite Hfl1)) as (_ & Hsub & Hsame).
  assert (Hfree : forall q, is_free (free_chunk_list kp2) q <->
            is_free (node_list kp1) q \/ pagenum p <= q < pagenum p + n).
  { intros q. subst kp2. apply free_free_set; [done | lia]. }
  split.
  { subst kp2. apply free_pool_ok.
    - rewrite Hfl1. exact Hpool'.
    - exact Hnz.
    - exact Hn.
    - lia.
    - lia.
    - intros q Hq. rewrite Hfl1, Hset. tauto. }
  split.
  { intros q Hq. apply Hfree in Hq as [Hq|Hq]; [|now apply Hin].
    apply Hsub in Hq. rewrite Hfl1 in Hq. now apply Hset in Hq. }
  split.
  { subst kp2. rewrite free_phys_pages_spec by (rewrite ?Hfl1; done || lia).
    rewrite Hfl1. lia. }
  split.
  { intros Hfit. rewrite <- Hfit1 in Hfit.
    destruct (free_phys_pages_list p n kp1 Hnz ltac:(lia)) as (nd & Hl & Hv).
    destruct (Hv Hfit) as (_ & Hlow & Hend). fold kp2 in Hl, Hlow, Hend.
    split; [|split; [|split; [exact Hlow | exact Hend]]].
    - intros q. rewrite Hfree, (Hsame Hfit), Hfl1, Hset. split.
      + intros [[Hf _]|Hq]; auto.
      + intros Hf. destruct (decide (pagenum p <= q < pagenum p + n));
          [now right | now left].
    - rewrite Hl, (Hsame Hfit), Hfl1. cbn [chunk_pages pagecnt]. lia. }
  intros p0 n0 kp0 q Hp0 Hn0. now apply free_free_set.
Qed.

Lemma sample_pool_ok : pool_ok sample_list.
Proof.
  split; [exact sample_list_ok|]. split.
  - unfold sample_list, chunk_in_ram. repeat constructor; cbn; lia.
  - intros [|[|[|i]]] [|[|[|j]]] a b Hij Hi Hj; cbn in Hi, Hj; simplify_eq; cbn; lia.
Qed.

Lemma alloc_pages_exclusive_witness :
  pool_ok sample_list /\ 0 < 2 < 2 ^ 32 /\
  0x80200000 <> 0 /\ 0x80200000 mod PAGE_SIZE = 0.
Proof.
  assert (Hn : 0 < 2 < 2 ^ 32) by lia.
  split; [exact sample_pool_ok|]. split; [exact Hn|].
  pose proof (alloc_pages_exclusive sample_list 2 0x80200000
                [ mk_chunk 0x80100FE0 0x80100 8; mk_chunk 0x80100FB0 0x80202 1;
                  mk_chunk 0x80100F80 0x80300 4 ]
                sample_pool_ok Hn eq_refl) as H.
  exact (conj (proj1 H) (proj1 (proj2 H))).
Defined.

Lemma free_pages_restores_witness :
  pool_ok (free_chunk_list sample_kpool) /\ 0 < 2 < 2 ^ 32 /\
  node_fits sample_kpool = true /\
  chunk_pages
    (free_chunk_list
       (free_phys_pages 0x80200000 2
          (set_list sample_kpool
             [ mk_chunk 0x80100FE0 0x80100 8; mk_chunk 0x80100FB0 0x80202 1;
               mk_chunk 0x80100F80 0x80300 4 ])))
  = chunk_pages (free_chunk_list sample_kpool).
Proof.
  assert (Hn : 0 < 2 < 2 ^ 32) by lia.
  assert (Hfit : node_fits sample_kpool = true) by reflexivity.
  split; [exact sample_pool_ok|]. split; [exact Hn|]. split; [exact Hfit|].
  exact (proj1 (proj2 (proj1 (proj2 (proj2 (proj2
    (free_pages_restores sample_kpool 2 0x80200000
       [ mk_chunk 0x80100FE0 0x80100 8; mk_chunk 0x80100FB0 0x80202 1;
         mk_chunk 0x80100F80 0x80300 4 ]
       sample_pool_ok Hn eq_refl)))) Hfit))).
Defined.

(** Without room for the node, pages given back after an allocation
    leave one free page fewer than before. *)
Example free_after_alloc_costs_a_page :
  alloc_phys_pages 2 (free_chunk_list full_kpool)
  = Some (0x80200000,
          [ mk_chunk 0x80100FE0 0x80100 8; mk_chunk 0x80100FB0 0x80202 1;
            mk_chunk 0x80100F80 0x80300 4 ]) /\
  chunk_pages
    (free_chunk_list
       (free_phys_pages 0x80200000 2
          (set_list full_kpool
             [ mk_chunk 0x80100FE0 0x80100 8; mk_chunk 0x80100FB0 0x80202 1;
               mk_chunk 0x80100F80 0x80300 4 ])))
  = chunk_pages (free_chunk_list full_kpool) - 1.
Proof. split; vm_compute; reflexivity. Qed.

End PageAlloc.

(** * Page tables and the user page-fault handler (memory.c) *)

Module VMem.
Import PageAlloc.

Definition PTE_V : Z := 1.
Definition PTE_R : Z := 2.
Definition PTE_W : Z := 4.
Definition PTE_X : Z := 8.
Definition PTE_U : Z := 16.
Definition PTE_G : Z := 32.
Definition PTE_A : Z := 64.
Definition PTE_D : Z := 128.

Definition MAP_RWUG : Z := Z.lor (Z.lor (Z.lor PTE_R PTE_W) PTE_U) PTE_G.

(** [struct pte] is a 64-bit word: [flags] in bits 0..7, [rsw] in 8..9,
    [ppn] in bits 10..53; the initialisers leave the other fields 0. *)
Definition pte_flags (w : Z) : Z := Z.land w 255.
Definition pte_ppn (w : Z) : Z := Z.land (Z.shiftr w 10) (2 ^ 44 - 1).
Definition mk_pte (flags ppn : Z) : Z :=
  Z.lor (Z.land flags 255) (Z.shiftl (Z.land ppn (2 ^ 44 - 1)) 10).

Definition leaf_pte (pp rwxug_flags : Z) : Z :=
  mk_pte (Z.lor (Z.lor (Z.lor rwxug_flags PTE_A) PTE_D) PTE_V) (pagenum pp).
Definition ptab_pte (pt g_flag : Z) : Z :=
  mk_pte (Z.lor g_flag PTE_V) (pagenum pt).
Definition null_pte : Z := 0.

Definition PTE_VALID (w : Z) : bool := negb (Z.land (pte_flags w) PTE_V =? 0).
Definition PTE_LEAF (w : Z) : bool :=
  negb (Z.land (pte_flags w) (Z.lor (Z.lor PTE_R PTE_W) PTE_X) =? 0).

Definition vpn_l2 (v : Z) : Z := Z.land (Z.shiftr v 30) 0x1FF.
Definition vpn_l1 (v : Z) : Z := Z.land (Z.shiftr v 21) 0x1FF.
Definition vpn_l0 (v : Z) : Z := Z.land (Z.shiftr v 12) 0x1FF.

(** [wellformed]: bits 63:38 all zero or all one (arithmetic shift of
    the address read as [intptr_t]). *)
Definition wellformed (vma : Z) : bool :=
  let bits := Z.shiftr (to_long vma) 38 in
  (bits =? 0) || (bits + 1 =? 0).

Definition ROUND_DOWN (n k : Z) : Z := n / k * k.

(** Physical memory as 64-bit words at 8-aligned byte addresses. *)
Definition memory := Z -> Z.

Definition upd (m : memory) (a v : Z) : memory :=
  fun x => if x =? a then v else m x.

(** [memset(pp, 0, PAGE_SIZE)] *)
Definition zero_page (m : memory) (pp : Z) : memory :=
  fun x => if (pp <=? x) && (x <? pp + PAGE_SIZE) then 0 else m x.

(** The state the handler works on: the [satp] register, the memory
    of the page tables and of the pages it clears, and the variables of
    the allocators ([free_phys_page] calls [kmalloc]).  The words that
    [kmalloc] and [kfree] write lie in heap blocks (the list nodes and
    their headers); they are in the memory of [Heap]. *)
Record vm := mk_vm { satp : Z; mem : memory; pools : kpool }.

Definition free_chunk_list (s : vm) : list page_chunk :=
  PageAlloc.free_chunk_list (pools s).

Definition mtag_to_ptab (mtag : Z) : Z := Z.shiftr (wrap64 (Z.shiftl mtag 20)) 8.
Definition active_space_ptab (s : vm) : Z := mtag_to_ptab (satp s).

(** One level of [walk_create] (the code for level 2 and for level 1 is
    the same text): from the table [pt] and the index, the next table,
    or [None] for the NULL returns. *)
Definition walk_level (s : vm) (pt idx : Z) (alloc : bool) : option Z * vm :=
  let slot := pt + 8 * idx in
  let e := mem s slot in
  if negb (PTE_VALID e) || negb (PTE_LEAF e) then
    if negb (PTE_VALID e) then
      if negb alloc then (None, s)
      else
        match alloc_phys_page (free_chunk_list s) with
        | None => (None, s)
        | Some (new_pt, fl') =>
            let m1 := zero_page (mem s) new_pt in
            let m2 := upd m1 slot (ptab_pte new_pt PTE_G) in
            (Some (pageptr (pte_ppn (m2 slot))),
             mk_vm (satp s) m2 (set_list (pools s) fl'))
        end
    else (Some (pageptr (pte_ppn e)), s)
  else (None, s).

(** [walk_create]: the address of the level-0 entry for [vma]. *)
Definition walk_create (s : vm) (vma : Z) (alloc : bool) : option Z * vm :=
  if negb (wellformed vma) then (None, s)
  else
    match walk_level s (active_space_ptab s) (vpn_l2 vma) alloc with
    | (None, s1) => (None, s1)
    | (Some pt1, s1) =>
        match walk_level s1 pt1 (vpn_l1 vma) alloc with
        | (None, s2) => (None, s2)
        | (Some pt0, s2) => (Some (pt0 + 8 * vpn_l0 vma), s2)
        end
    end.

(** [map_page]: the returned pointer is 0 or an error cast to a pointer. *)
Definition map_page (s : vm) (vma pp rwxug_flags : Z) : Z * vm :=
  if negb (wellformed vma) || negb (Z.land pp (PAGE_SIZE - 1) =? 0) then
    (wrap64 (- EINVAL), s)
  else
    match walk_create s vma true with
    | (None, s1) => (wrap64 (- ENOMEM), s1)
    | (Some leaf, s1) =>
        (0, mk_vm (satp s1) (upd (mem s1) leaf (leaf_pte pp rwxug_flags))
                  (pools s1))
    end.

(** [handle_umode_page_fault]: 1 when the fault was served. *)
Definition handle_umode_page_fault (s : vm) (vma : Z) : Z * vm :=
  if negb (wellformed vma) || (0x400000000000 <=? vma) then (0, s)
  else
    let vma := ROUND_DOWN vma PAGE_SIZE in
    match alloc_phys_page (free_chunk_list s) with
    | None => (0, s)
    | Some (pp, fl1) =>
        let s1 := mk_vm (satp s) (zero_page (mem s) pp) (set_list (pools s) fl1) in
        let '(ret, s2) := map_page s1 vma pp MAP_RWUG in
        if to_long ret <? 0 then
          (0, mk_vm (satp s2) (mem s2) (free_phys_page pp (pools s2)))
        else (1, s2)
    end.

(** The address translation the hardware performs with the tables in
    memory: the leaf entry for [vma], when the walk reaches one. *)
Definition translate (s : vm) (vma : Z) : option Z :=
  match walk_create s vma false with
  | (Some leaf, _) =>
      let e := mem s leaf in
      if PTE_VALID e && PTE_LEAF e then Some e else None
  | (None, _) => None
  end.

(** *** Facts about the entries and the handler *)

Lemma pte_flags_mk f p : pte_flags (mk_pte f p) = Z.land f 255.
Proof.
  unfold pte_flags, mk_pte. change 255 with (Z.ones 8).
  apply Z.bits_inj'. intros n Hn.
  rewrite !Z.land_spec, Z.lor_spec, Z.land_spec.
  rewrite Z.testbit_ones_nonneg by lia.
  destruct (n <? 8) eqn:E.
  - apply Z.ltb_lt in E. rewrite Z.shiftl_spec_low by lia.
    now rewrite orb_false_r, andb_true_r.
  - now rewrite !andb_false_r.
Qed.

Lemma pte_ppn_mk f p : pte_ppn (mk_pte f p) = Z.land p (2 ^ 44 - 1).
Proof.
  unfold pte_ppn, mk_pte. change 255 with (Z.ones 8).
  change (2 ^ 44 - 1) with (Z.ones 44).
  apply Z.bits_inj'. intros n Hn.
  rewrite !Z.land_spec, Z.shiftr_spec, Z.lor_spec, !Z.land_spec by lia.
  rewrite Z.shiftl_spec, Z.land_spec by lia.
  rewrite (Z.testbit_ones_nonneg 8) by lia.
  assert (E : (n + 10 <? 8) = false) by (apply Z.ltb_ge; lia).
  rewrite E, andb_false_r, orb_false_l.
  replace (n + 10 - 10) with n by lia.
  now destruct (Z.testbit p n), (Z.testbit (Z.ones 44) n).
Qed.

Lemma leaf_pte_flags pp : pte_flags (leaf_pte pp MAP_RWUG) = 247.
Proof. unfold leaf_pte. now rewrite pte_flags_mk. Qed.

Lemma leaf_pte_is_user_rw pp :
  let e := leaf_pte pp MAP_RWUG in
  PTE_VALID e = true /\ PTE_LEAF e = true /\
  Z.land (pte_flags e) PTE_R = PTE_R /\ Z.land (pte_flags e) PTE_W = PTE_W /\
  Z.land (pte_flags e) PTE_U = PTE_U /\ Z.land (pte_flags e) PTE_G = PTE_G /\
  Z.land (pte_flags e) PTE_X = 0.
Proof.
  simpl. unfold PTE_VALID, PTE_LEAF. rewrite leaf_pte_flags. now vm_compute.
Qed.

Lemma zero_page_spec m pp a :
  pp <= a < pp + PAGE_SIZE -> zero_page m pp a = 0.
Proof.
  intros [H1 H2]. unfold zero_page.
  apply Z.leb_le in H1. apply Z.ltb_lt in H2. now rewrite H1, H2.
Qed.

Lemma upd_same m a v : upd m a v a = v.
Proof. unfold upd. now rewrite Z.eqb_refl. Qed.

(** Below [2^63] an address is well-formed exactly when it is below
    [2^38]; in particular the test against [0x400000000000] = [2^46]
    never fires on a well-formed address of the lower half. *)
Lemma wellformed_low vma :
  0 <= vma < 2 ^ 63 -> wellformed vma = true <-> vma < 2 ^ 38.
Proof.
  intros H. unfold wellformed. rewrite to_long_small by lia.
  rewrite Z.shiftr_div_pow2 by lia.
  assert (0 <= vma / 2 ^ 38) by (apply Z.div_pos; lia).
  rewrite orb_true_iff, !Z.eqb_eq. split.
  - intros [E|E]; [|lia]. apply Z.div_small_iff in E; lia.
  - intros Hlt. left. apply Z.div_small. lia.
Qed.

Lemma wellformed_high vma :
  2 ^ 63 <= vma < 2 ^ 64 -> wellformed vma = true -> 0x400000000000 <= vma.
Proof. lia. Qed.

(** The guard at the head of the handler. *)
Lemma page_fault_refused s vma :
  wellformed vma = false \/ 0x400000000000 <= vma ->
  handle_umode_page_fault s vma = (0, s).
Proof.
  intros H. unfold handle_umode_page_fault.
  destruct H as [H|H].
  - now rewrite H.
  - apply Z.leb_le in H. rewrite H. now rewrite orb_true_r.
Qed.

Lemma page_fault_result s vma :
  fst (handle_umode_page_fault s vma) = 0 \/ fst (handle_umode_page_fault s vma) = 1.
Proof.
  unfold handle_umode_page_fault.
  destruct (negb (wellformed vma) || (0x400000000000 <=? vma)); [now left|].
  destruct (alloc_phys_page (free_chunk_list s)) as [[pp fl1]|]; [|now left].
  destruct (map_page _ _ _ _) as [ret s2].
  destruct (to_long ret <? 0); [now left | now right].
Qed.

(** What a served fault leaves behind. *)
Lemma page_fault_served s vma s' :
  handle_umode_page_fault s vma = (1, s') ->
  wellformed vma = true /\ vma < 0x400000000000 /\
  exists pp fl1 leaf s2,
    alloc_phys_page (free_chunk_list s) = Some (pp, fl1) /\
    walk_create (mk_vm (satp s) (zero_page (mem s) pp) (set_list (pools s) fl1))
                (ROUND_DOWN vma PAGE_SIZE) true = (Some leaf, s2) /\
    s' = mk_vm (satp s2) (upd (mem s2) leaf (leaf_pte pp MAP_RWUG)) (pools s2) /\
    mem s' leaf = leaf_pte pp MAP_RWUG.
Proof.
  unfold handle_umode_page_fault.
  destruct (wellformed vma) eqn:Hw; cbn [negb orb]; [|intros [=]].
  destruct (0x400000000000 <=? vma) eqn:Hc; [intros [=]|].
  apply Z.leb_gt in Hc.
  destruct (alloc_phys_page (free_chunk_list s)) as [[pp fl1]|] eqn:Ha; [|intros [=]].
  unfold map_page.
  destruct (negb (wellformed (ROUND_DOWN vma PAGE_SIZE))
            || negb (Z.land pp (PAGE_SIZE - 1) =? 0)) eqn:Hg.
  { change (to_long (wrap64 (- EINVAL)) <? 0) with true. intros [=]. }
  destruct (walk_create _ _ true) as [[leaf|] s2] eqn:Hwalk.
  - change (to_long 0 <? 0) with false. cbv iota. intros [= <-].
    split; [done|]. split; [done|].
    exists pp, fl1, leaf, s2. repeat split; auto. cbn [mem]. apply upd_same.
  - change (to_long (wrap64 (- ENOMEM)) <? 0) with true. intros [=].
Qed.

(** When the guard passes, a page is available and [map_page] succeeds,
    the fault is served. *)
Lemma page_fault_serves s vma pp fl1 s2 :
  wellformed vma = true -> vma < 0x400000000000 ->
  alloc_phys_page (free_chunk_list s) = Some (pp, fl1) ->
  map_page (mk_vm (satp s) (zero_page (mem s) pp) (set_list (pools s) fl1))
           (ROUND_DOWN vma PAGE_SIZE) pp MAP_RWUG = (0, s2) ->
  handle_umode_page_fault s vma = (1, s2).
Proof.
  intros Hw Hc Ha Hm. unfold handle_umode_page_fault.
  rewrite Hw. apply Z.leb_gt in Hc. rewrite Hc. cbn [negb orb].
  rewrite Ha. rewrite Hm. reflexivity.
Qed.

(** Without a free page the fault is not served. *)
Lemma page_fault_no_memory s vma :
  alloc_phys_page (free_chunk_list s) = None ->
  handle_umode_page_fault s vma = (0, s).
Proof.
  intros Ha. unfold handle_umode_page_fault.
  destruct (negb (wellformed vma) || (0x400000000000 <=? vma)); [done|].
  now rewrite Ha.
Qed.

(** The page a successful [alloc_phys_pages] returns is page aligned. *)
Lemma alloc_aligned cnt fl pp fl1 :
  alloc_phys_pages cnt fl = Some (pp, fl1) -> Z.land pp (PAGE_SIZE - 1) = 0.
Proof.
  unfold alloc_phys_pages. destruct (cnt =? 0); [done|].
  destruct (best_fit cnt fl 0%nat None) as [[i best]|]; [|done].
  intros H.
  assert (Hp : pp = pageptr (first_ppn best))
    by (destruct (pagecnt best =? cnt); now injection H as <- _).
  subst pp. change (PAGE_SIZE - 1) with (Z.ones 12). rewrite Z.land_ones by lia.
  unfold pageptr, wrap64, PAGE_ORDER. Z.div_mod_to_equations. lia.
Qed.

(** A fault below [2^38] met with a free page and a walk that reaches
    the leaf entry is served: the page, cleared, is entered there. *)
Lemma page_fault_walk_serves s vma pp fl1 leaf s2 :
  0 <= vma < 2 ^ 38 ->
  alloc_phys_page (free_chunk_list s) = Some (pp, fl1) ->
  walk_create (mk_vm (satp s) (zero_page (mem s) pp) (set_list (pools s) fl1))
              (ROUND_DOWN vma PAGE_SIZE) true = (Some leaf, s2) ->
  handle_umode_page_fault s vma
  = (1, mk_vm (satp s2) (upd (mem s2) leaf (leaf_pte pp MAP_RWUG)) (pools s2)).
Proof.
  intros Hv Ha Hwalk.
  assert (Hw : wellformed vma = true) by (apply wellformed_low; lia).
  assert (Hr : 0 <= ROUND_DOWN vma PAGE_SIZE < 2 ^ 38).
  { unfold ROUND_DOWN, PAGE_SIZE. Z.div_mod_to_equations. lia. }
  assert (Hwr : wellformed (ROUND_DOWN vma PAGE_SIZE) = true)
    by (apply wellformed_low; lia).
  apply page_fault_serves with pp fl1; [done | lia | done |].
  unfold map_page. rewrite Hwr, (alloc_aligned _ _ _ _ Ha). cbn [negb orb Z.eqb].
  now rewrite Hwalk.
Qed.

(** An address space with an empty root table at [0x80400000] and
    sixteen free pages from [0x80500000]; the node of the chunk is a
    heap block, and the heap pool has room. *)
Definition sample_vm : vm :=
  mk_vm (8 * 2 ^ 60 + 0x80400) (fun _ => 0)
        (mk_kpool 0x80100000 0x80100FD0 [ mk_chunk 0x80100FE0 0x80500 16 ]).

Example fault_below_umem_end_served :
  fst (handle_umode_page_fault sample_vm (UMEM_END_VMA - 1)) = 1 /\
  translate (snd (handle_umode_page_fault sample_vm (UMEM_END_VMA - 1)))
            (UMEM_END_VMA - 1)
  = Some (leaf_pte 0x80500000 MAP_RWUG).
Proof. now vm_compute. Qed.

Example fault_at_umem_end_served :
  fst (handle_umode_page_fault sample_vm UMEM_END_VMA) = 1 /\
  translate (snd (handle_umode_page_fault sample_vm UMEM_END_VMA)) UMEM_END_VMA
  = Some (leaf_pte 0x80500000 MAP_RWUG).
Proof. now vm_compute. Qed.

Example fault_at_2_38_refused :
  fst (handle_umode_page_fault sample_vm (2 ^ 38)) = 0.
Proof. now vm_compute. Qed.

End VMem.
(** * The endpoint object and the transfer loops (io.c) *)

Module Endpoint.

(** ** The endpoint object: reference counts *)

(** [struct io]: the reference count (an [unsigned long]) and whether
    the [close] member of its interface is set. *)
Record io := mk_io { refcnt : Z; has_close : bool }.

Definition ioinit0 (has_close : bool) : io := mk_io 0 has_close.
Definition ioinit1 (has_close : bool) : io := mk_io 1 has_close.
Definition iorefcnt (o : io) : Z := refcnt o.
Definition ioaddref (o : io) : io := mk_io (wrap64 (refcnt o + 1)) (has_close o).

(** [ioclose]: [None] when the assertion [refcnt != 0] fails; otherwise
    the object and whether the [close] member was called. *)
Definition ioclose (o : io) : option (io * bool) :=
  if refcnt o =? 0 then None
  else
    let r := wrap64 (refcnt o - 1) in
    Some (mk_io r (has_close o), (r =? 0) && has_close o).

(** [k] calls of [ioclose], counting the calls of the [close] member. *)
Fixpoint close_n (k : nat) (o : io) : option (io * nat) :=
  match k with
  | O => Some (o, O)
  | S k' =>
      match ioclose o with
      | None => None
      | Some (o1, called) =>
          match close_n k' o1 with
          | None => None
          | Some (o2, c) => Some (o2, ((if called then 1 else 0) + c)%nat)
          end
      end
  end.

Lemma addref_n n h r :
  0 <= r -> r + Z.of_nat n < 2 ^ 64 ->
  Nat.iter n ioaddref (mk_io r h) = mk_io (r + Z.of_nat n) h.
Proof.
  induction n as [|n IH]; intros Hr Hn.
  - cbn. now rewrite Z.add_0_r.
  - rewrite Nat.iter_succ, IH by lia. unfold ioaddref. cbn [refcnt has_close].
    rewrite wrap64_small by lia. f_equal. lia.
Qed.

Lemma close_n_keeps k : forall r h,
  Z.of_nat k < r < 2 ^ 64 ->
  close_n k (mk_io r h) = Some (mk_io (r - Z.of_nat k) h, O).
Proof.
  induction k as [|k IH]; intros r h Hr.
  - cbn. now rewrite Z.sub_0_r.
  - cbn [close_n]. unfold ioclose. cbn [refcnt has_close].
    destruct (r =? 0) eqn:E; [apply Z.eqb_eq in E; lia|].
    rewrite wrap64_small by lia.
    destruct (r - 1 =? 0) eqn:E1; [apply Z.eqb_eq in E1; lia|]. cbn [andb].
    rewrite IH by lia. cbn. do 3 f_equal. lia.
Qed.

(** The [close] member runs exactly once, at the close that drops the
    last reference: on an endpoint holding [n + 1] references the first
    [n] calls of [ioclose] only count down, the next one calls [close]
    (when there is one), and a further [ioclose] fails its assertion. *)
Theorem close_runs_at_last_reference (n : nat) (h : bool) :
  Z.of_nat n < 2 ^ 64 - 1 ->
  let o := Nat.iter n ioaddref (ioinit1 h) in
  iorefcnt o = Z.of_nat n + 1 /\
  (forall k, (k <= n)%nat ->
     close_n k o = Some (mk_io (Z.of_nat n + 1 - Z.of_nat k) h, O)) /\
  close_n (S n) o = Some (mk_io 0 h, if h then 1%nat else O) /\
  close_n (S (S n)) o = None.
Proof.
  intros Hn o. unfold ioinit1 in o.
  assert (Ho : o = mk_io (Z.of_nat n + 1) h).
  { subst o. rewrite addref_n by lia. f_equal. lia. }
  rewrite Ho. split; [done|]. split.
  { intros k Hk. apply close_n_keeps. lia. }
  assert (Hlast : forall m, close_n m (mk_io 1 h)
                   = match m with
                     | O => Some (mk_io 1 h, O)
                     | S O => Some (mk_io 0 h, if h then 1%nat else O)
                     | _ => None
                     end).
  { intros [|[|m]]; [done| |]; cbn; unfold ioclose; cbn; destruct h; done. }
  assert (Hsplit : forall a b x, close_n (a + b) x
            = match close_n a x with
              | None => None
              | Some (x1, c1) =>
                  match close_n b x1 with
                  | None => None
                  | Some (x2, c2) => Some (x2, (c1 + c2)%nat)
                  end
              end).
  { induction a as [|a IHa]; intros b x; cbn [close_n Nat.add].
    - destruct (close_n b x) as [[x2 c2]|]; done.
    - destruct (ioclose x) as [[x1 called]|]; [|done].
      rewrite IHa. destruct (close_n a x1) as [[x2 c]|]; [|done].
      destruct (close_n b x2) as [[x3 c3]|]; [|done]. f_equal. f_equal. lia. }
  split.
  - replace (S n) with (n + 1)%nat by lia. rewrite Hsplit, close_n_keeps by lia.
    replace (Z.of_nat n + 1 - Z.of_nat n) with 1 by lia. now rewrite Hlast.
  - replace (S (S n)) with (n + 2)%nat by lia. rewrite Hsplit, close_n_keeps by lia.
    replace (Z.of_nat n + 1 - Z.of_nat n) with 1 by lia. now rewrite Hlast.
Qed.

Lemma close_runs_at_last_reference_witness :
  Z.of_nat 2 < 2 ^ 64 - 1 /\
  close_n 3 (Nat.iter 2 ioaddref (ioinit1 true)) = Some (mk_io 0 true, 1%nat).
Proof.
  assert (H : Z.of_nat 2 < 2 ^ 64 - 1) by (cbn; lia).
  split; [exact H|].
  exact (proj1 (proj2 (proj2 (close_runs_at_last_reference 2 true H)))).
Defined.

(** ** The transfer loops *)

Section Transfer.

(** The state behind the endpoint (the device, the caller's buffer). *)
Variable S : Type.

(** The [read] and [write] members: the state, the offset into the
    caller's buffer, and the number of bytes asked for; [None] is a NULL
    member. *)
Variable read : option (S -> Z -> Z -> Z * S).
Variable write : option (S -> Z -> Z -> Z * S).

(** [ioread] *)
Definition ioread (s : S) (bufsz : Z) : Z * S :=
  match read with
  | None => (- ENOTSUP, s)
  | Some rd => if bufsz <? 0 then (- EINVAL, s) else rd s 0 bufsz
  end.

(** The loop of [iofill]; [None] when the fuel is used up, or when
    [bufpos + nread] leaves the range of a [long]. *)
Fixpoint iofill_loop (rd : S -> Z -> Z -> Z * S) (fuel : nat) (s : S)
    (bufpos bufsz : Z) : option (Z * S) :=
  if bufpos <? bufsz then
    match fuel with
    | O => None
    | Datatypes.S fuel' =>
        let '(nread, s') := rd s bufpos (bufsz - bufpos) in
        if nread <=? 0 then Some (if nread <? 0 then nread else bufpos, s')
        else if 2 ^ 63 <=? bufpos + nread then None
        else iofill_loop rd fuel' s' (bufpos + nread) bufsz
    end
  else Some (bufpos, s).

Definition iofill (s : S) (bufsz : Z) : option (Z * S) :=
  match read with
  | None => Some (- ENOTSUP, s)
  | Some rd =>
      if bufsz <? 0 then Some (- EINVAL, s)
      else iofill_loop rd (Z.to_nat bufsz) s 0 bufsz
  end.

(** The loop of [iowrite], a do-while: the member is called once even
    for [len = 0]. *)
Fixpoint iowrite_loop (wr : S -> Z -> Z -> Z * S) (fuel : nat) (s : S)
    (bufpos len : Z) : option (Z * S) :=
  match fuel with
  | O => None
  | Datatypes.S fuel' =>
      let '(n, s') := wr s bufpos (len - bufpos) in
      if n <=? 0 then Some (if n <? 0 then n else bufpos, s')
      else if 2 ^ 63 <=? bufpos + n then None
      else if bufpos + n <? len then iowrite_loop wr fuel' s' (bufpos + n) len
      else Some (bufpos + n, s')
  end.

Definition iowrite (s : S) (len : Z) : option (Z * S) :=
  match write with
  | None => Some (- ENOTSUP, s)
  | Some wr =>
      if len <? 0 then Some (- EINVAL, s)
      else iowrite_loop wr (Datatypes.S (Z.to_nat len)) s 0 len
  end.

End Transfer.

Arguments ioread {S}.
Arguments iofill_loop {S}.
Arguments iofill {S}.
Arguments iowrite_loop {S}.
Arguments iowrite {S}.

Section TransferFacts.

Variable S : Type.

(** A member that never reports more bytes than it was asked for, and
    one that moves at least a byte whenever it is asked for some. *)
Definition bounded (f : S -> Z -> Z -> Z * S) : Prop :=
  forall s off l, fst (f s off l) <= l.
Definition progresses (f : S -> Z -> Z -> Z * S) : Prop :=
  forall s off l, 0 < l -> 0 < fst (f s off l).

Lemma iowrite_loop_spec wr len : bounded wr ->
  forall fuel s bufpos,
    0 <= bufpos <= len -> len < 2 ^ 63 -> len - bufpos < Z.of_nat fuel ->
    exists r s', iowrite_loop wr fuel s bufpos len = Some (r, s') /\ r <= len /\
                 (progresses wr -> bufpos < len -> r = len).
Proof.
  intros Hb. induction fuel as [|fuel IH]; intros s bufpos Hp Hl Hf; [lia|].
  cbn [iowrite_loop].
  pose proof (Hb s bufpos (len - bufpos)) as Hn.
  destruct (wr s bufpos (len - bufpos)) as [n s1] eqn:E. cbn [fst] in Hn.
  destruct (n <=? 0) eqn:E0.
  - apply Z.leb_le in E0. eexists _, _. split; [reflexivity|]. split.
    + destruct (n <? 0) eqn:E1; [apply Z.ltb_lt in E1|]; lia.
    + intros Hpr Hlt. specialize (Hpr s bufpos (len - bufpos) ltac:(lia)).
      rewrite E in Hpr. cbn in Hpr. lia.
  - apply Z.leb_gt in E0.
    destruct (2 ^ 63 <=? bufpos + n) eqn:E2; [apply Z.leb_le in E2; lia|].
    destruct (bufpos + n <? len) eqn:E3.
    + apply Z.ltb_lt in E3.
      destruct (IH s1 (bufpos + n) ltac:(lia) Hl ltac:(lia)) as (r & s' & Hr & Hle & Hall).
      exists r, s'. split; [done|]. split; [done|]. intros Hpr _. now apply Hall.
    + apply Z.ltb_ge in E3. eexists _, _. split; [reflexivity|]. split; lia.
Qed.

Lemma iofill_loop_spec rd bufsz : bounded rd ->
  forall fuel s bufpos,
    0 <= bufpos <= bufsz -> bufsz < 2 ^ 63 -> bufsz - bufpos <= Z.of_nat fuel ->
    exists r s', iofill_loop rd fuel s bufpos bufsz = Some (r, s') /\ r <= bufsz /\
                 (progresses rd -> r = bufsz).
Proof.
  intros Hb. induction fuel as [|fuel IH]; intros s bufpos Hp Hl Hf.
  - cbn [iofill_loop]. destruct (bufpos <? bufsz) eqn:E; [apply Z.ltb_lt in E; lia|].
    apply Z.ltb_ge in E. eexists _, _. split; [reflexivity|]. split; lia.
  - cbn [iofill_loop]. destruct (bufpos <? bufsz) eqn:E.
    + apply Z.ltb_lt in E.
      pose proof (Hb s bufpos (bufsz - bufpos)) as Hn.
      destruct (rd s bufpos (bufsz - bufpos)) as [n s1] eqn:En. cbn [fst] in Hn.
      destruct (n <=? 0) eqn:E0.
      * apply Z.leb_le in E0. eexists _, _. split; [reflexivity|]. split.
        -- destruct (n <? 0) eqn:E1; [apply Z.ltb_lt in E1|]; lia.
        -- intros Hpr. specialize (Hpr s bufpos (bufsz - bufpos) ltac:(lia)).
           rewrite En in Hpr. cbn in Hpr. lia.
      * apply Z.leb_gt in E0.
        destruct (2 ^ 63 <=? bufpos + n) eqn:E2; [apply Z.leb_le in E2; lia|].
        apply (IH s1 (bufpos + n)); lia.
    + apply Z.ltb_ge in E. eexists _, _. split; [reflexivity|]. split; lia.
Qed.

(** [iowrite] and [iofill] return: over a member that never reports
    more than it was asked for, the loops end with a count of at most
    [len] (or the member's error); when the member moves at least one
    byte per call they go on until all [len] bytes are done, however
    short each transfer is.  A NULL member gives [-ENOTSUP], a negative
    length [-EINVAL], both without a call. *)
Theorem transfer_loops_complete (f : S -> Z -> Z -> Z * S) (s : S) (len : Z) :
  bounded f -> 0 <= len < 2 ^ 63 ->
  (exists r s', iowrite (Some f) s len = Some (r, s') /\ r <= len /\
                (progresses f -> 0 < len -> r = len)) /\
  (exists r s', iofill (Some f) s len = Some (r, s') /\ r <= len /\
                (progresses f -> r = len)) /\
  iowrite None s len = Some (- ENOTSUP, s) /\
  iofill None s len = Some (- ENOTSUP, s) /\
  (forall neg, neg < 0 ->
     iowrite (Some f) s neg = Some (- EINVAL, s) /\
     iofill (Some f) s neg = Some (- EINVAL, s)).
Proof.
  intros Hb Hl.
  assert (E : (len <? 0) = false) by (apply Z.ltb_ge; lia).
  split; [|split; [|split; [done|split; [done|]]]].
  - unfold iowrite. rewrite E.
    destruct (iowrite_loop_spec f len Hb (Datatypes.S (Z.to_nat len)) s 0
                ltac:(lia) ltac:(lia) ltac:(lia)) as (r & s' & Hr & Hle & Hall).
    exists r, s'. done.
  - unfold iofill. rewrite E.
    destruct (iofill_loop_spec f len Hb (Z.to_nat len) s 0
                ltac:(lia) ltac:(lia) ltac:(lia)) as (r & s' & Hr & Hle & Hall).
    exists r, s'. done.
  - intros neg Hneg. unfold iowrite, iofill.
    apply Z.ltb_lt in Hneg. now rewrite Hneg.
Qed.

End TransferFacts.

Arguments bounded {S}.
Arguments progresses {S}.

(** A device that takes at most three bytes per call, counting the
    bytes it has taken. *)
Definition three_at_a_time (s off l : Z) : Z * Z := (Z.min l 3, s + Z.min l 3).

Lemma three_bounded : bounded three_at_a_time.
Proof. intros s off l. cbn. lia. Qed.

Lemma transfer_loops_complete_witness :
  bounded three_at_a_time /\ 0 <= 10 < 2 ^ 63 /\
  exists r s', iowrite (Some three_at_a_time) 0 10 = Some (r, s') /\ r <= 10 /\
               (progresses three_at_a_time -> 0 < 10 -> r = 10).
Proof.
  assert (H : 0 <= 10 < 2 ^ 63) by lia.
  split; [exact three_bounded|]. split; [exact H|].
  exact (proj1 (transfer_loops_complete Z three_at_a_time 0 10 three_bounded H)).
Defined.

Example iowrite_in_four_calls :
  iowrite (Some three_at_a_time) 0 10 = Some (10, 10).
Proof. reflexivity. Qed.

End Endpoint.


(** * Trap dispatch and the system-call layer (excp.c, syscall.c, process.c) *)

Module Trap.

(** riscv.h *)
Definition RISCV_SCAUSE_INSTR_ADDR_MISALIGNED : Z := 0.
Definition RISCV_SCAUSE_INSTR_ACCESS_FAULT : Z := 1.
Definition RISCV_SCAUSE_ILLEGAL_INSTR : Z := 2.
Definition RISCV_SCAUSE_BREAKPOINT : Z := 3.
Definition RISCV_SCAUSE_LOAD_ADDR_MISALIGNED : Z := 4.
Definition RISCV_SCAUSE_LOAD_ACCESS_FAULT : Z := 5.
Definition RISCV_SCAUSE_STORE_ADDR_MISALIGNED : Z := 6.
Definition RISCV_SCAUSE_STORE_ACCESS_FAULT : Z := 7.
Definition RISCV_SCAUSE_ECALL_FROM_UMODE : Z := 8.
Definition RISCV_SCAUSE_ECALL_FROM_SMODE : Z := 9.
Definition RISCV_SCAUSE_INSTR_PAGE_FAULT : Z := 12.
Definition RISCV_SCAUSE_LOAD_PAGE_FAULT : Z := 13.
Definition RISCV_SCAUSE_STORE_PAGE_FAULT : Z := 15.

(** scnum.h *)
Definition SYSCALL_EXIT : Z := 0.
Definition SYSCALL_EXEC : Z := 1.
Definition SYSCALL_FORK : Z := 2.
Definition SYSCALL_WAIT : Z := 3.
Definition SYSCALL_PRINT : Z := 4.
Definition SYSCALL_USLEEP : Z := 5.
Definition SYSCALL_DEVOPEN : Z := 10.
Definition SYSCALL_FSOPEN : Z := 11.
Definition SYSCALL_FSCREATE : Z := 12.
Definition SYSCALL_FSDELETE : Z := 13.
Definition SYSCALL_CLOSE : Z := 16.
Definition SYSCALL_READ : Z := 17.
Definition SYSCALL_WRITE : Z := 18.
Definition SYSCALL_IOCTL : Z := 19.
Definition SYSCALL_PIPE : Z := 20.
Definition SYSCALL_IODUP : Z := 21.

(** The members of [struct trap_frame] the handlers read or write: the
    argument registers (type [long]) and the saved pc. *)
Record trap_frame := mk_tfr {
  a0 : Z; a1 : Z; a2 : Z; a3 : Z; a4 : Z; a5 : Z; a6 : Z; a7 : Z;
  sepc : Z
}.

Definition set_a0 (t : trap_frame) (v : Z) : trap_frame :=
  mk_tfr v (a1 t) (a2 t) (a3 t) (a4 t) (a5 t) (a6 t) (a7 t) (sepc t).
Definition set_sepc (t : trap_frame) (v : Z) : trap_frame :=
  mk_tfr (a0 t) (a1 t) (a2 t) (a3 t) (a4 t) (a5 t) (a6 t) (a7 t) v.

Section Kernel.

(** The kernel state the system calls do not look into (files, devices,
    threads, user memory). *)
Variable R : Type.

(** The current process ([iotab], the id of its thread), the memory
    manager, and the rest. *)
Record kernel := mk_kernel {
  iotab : list (option Z);
  proc_tid : Z;
  vmem : VMem.vm;
  rest : R
}.

Definition set_iotab (k : kernel) (tab : list (option Z)) : kernel :=
  mk_kernel tab (proc_tid k) (vmem k) (rest k).
Definition set_vmem (k : kernel) (v : VMem.vm) : kernel :=
  mk_kernel (iotab k) (proc_tid k) v (rest k).

(** How a handler can end other than by returning. *)
Inductive ending :=
| Exited (k : kernel)       (* process_exit ran to thread_exit *)
| Panicked (k : kernel)     (* panic() *)
| Jumped (k : kernel).      (* trap_frame_jump into a new image *)

Inductive sysres :=
| SysRet (v : Z) (k : kernel)
| SysEnd (e : ending).

Inductive outcome :=
| Resumed (t : trap_frame) (k : kernel)   (* back to user mode with this frame *)
| Ended (e : ending).

(** The kernel services called by the system calls; what they do is
    not part of this model. *)
Record services := mk_services {
  sv_thread_exit : kernel -> kernel;
  sv_process_exec : Z -> Z -> Z -> kernel -> sysres;
  sv_process_fork : trap_frame -> kernel -> Z * kernel;
  sv_thread_join : Z -> kernel -> Z * kernel;
  sv_kprintf : Z -> kernel -> kernel;
  sv_sleep_us : Z -> kernel -> kernel;
  sv_open_device : Z -> Z -> kernel -> Z * option Z * kernel;
  sv_fsopen : Z -> kernel -> Z * option Z * kernel;
  sv_fscreate : Z -> kernel -> Z * kernel;
  sv_fsdelete : Z -> kernel -> Z * kernel;
  sv_ioclose : Z -> kernel -> kernel;
  sv_ioaddref : Z -> kernel -> kernel;
  sv_ioread : Z -> Z -> Z -> kernel -> Z * kernel;
  sv_iowrite : Z -> Z -> Z -> kernel -> Z * kernel;
  sv_ioctl : Z -> Z -> Z -> kernel -> Z * kernel;
  sv_create_pipe : kernel -> option (Z * Z) * kernel;
  sv_load_int : Z -> kernel -> Z;
  sv_store_int : Z -> Z -> kernel -> kernel
}.

Variable sv : services.

(** [iotab[fd]] for an index already range-checked. *)
Definition slot (k : kernel) (fd : Z) : option Z :=
  match iotab k !! Z.to_nat fd with
  | Some (Some io) => Some io
  | _ => None
  end.

Definition set_slot (k : kernel) (fd : Z) (v : option Z) : kernel :=
  set_iotab k (<[ Z.to_nat fd := v ]> (iotab k)).

(** [process_exit] *)
Fixpoint close_all (fds : list Z) (k : kernel) : kernel :=
  match fds with
  | [] => k
  | i :: more =>
      match slot k i with
      | Some io => close_all more (set_slot (sv_ioclose sv io k) i None)
      | None => close_all more k
      end
  end.

Definition fd_range : list Z := map Z.of_nat (seq 0 (Z.to_nat PROCESS_IOMAX)).

Definition process_exit (k : kernel) : ending :=
  if proc_tid k =? 0 then Panicked k
  else Exited (sv_thread_exit sv (close_all fd_range k)).

(** [for (desc = 0; desc < PROCESS_IOMAX && iotab[desc]; ++desc);] *)
Fixpoint scan_free (k : kernel) (desc : Z) (fuel : nat) : Z :=
  match fuel with
  | O => desc
  | S f =>
      if (desc <? PROCESS_IOMAX) && bool_decide (is_Some (slot k desc))
      then scan_free k (desc + 1) f else desc
  end.

Definition next_free (k : kernel) : Z := scan_free k 0 (Z.to_nat PROCESS_IOMAX).

Definition bad_fd (k : kernel) (fd : Z) : bool :=
  (fd <? 0) || (PROCESS_IOMAX <=? fd) || bool_decide (slot k fd = None).

Definition sysexit (k : kernel) : sysres := SysEnd (process_exit k).

Definition sysexec (fd argc argv : Z) (k : kernel) : sysres :=
  if (argc <? 0) || (argv =? 0) || bad_fd k fd then SysRet (- EBADFD) k
  else
    match slot k fd with
    | Some io => sv_process_exec sv io argc argv k
    | None => SysRet (- EBADFD) k
    end.

Definition syswait (tid : Z) (k : kernel) : sysres :=
  let k := sv_kprintf sv 0 k in
  if 0 <=? tid then let '(r, k') := sv_thread_join sv tid k in SysRet r k'
  else SysRet (- EINVAL) k.

Definition sysprint (msg : Z) (k : kernel) : sysres :=
  SysRet 0 (sv_kprintf sv msg k).

Definition sysusleep (us : Z) (k : kernel) : sysres :=
  SysRet 0 (sv_sleep_us sv us k).

Definition sysdevopen (fd name instno : Z) (k : kernel) : sysres :=
  let desc := if fd <? 0 then next_free k else fd in
  if (PROCESS_IOMAX <=? desc) || ((0 <=? fd) && bool_decide (is_Some (slot k fd)))
  then SysRet (- EBADFD) k
  else
    let '(r, io, k') := sv_open_device sv name instno k in
    let k'' := match io with Some p => set_slot k' desc (Some p) | None => k' end in
    SysRet (if r <? 0 then -1 else desc) k''.

Definition sysfsopen (fd name : Z) (k : kernel) : sysres :=
  let desc := if fd <? 0 then next_free k else fd in
  if (PROCESS_IOMAX <=? desc) || ((0 <=? fd) && bool_decide (is_Some (slot k fd)))
  then SysRet (- EBADFD) k
  else
    let '(r, io, k') := sv_fsopen sv name k in
    let k'' := match io with Some p => set_slot k' desc (Some p) | None => k' end in
    SysRet (if r <? 0 then -1 else desc) k''.

Definition sysclose (fd : Z) (k : kernel) : sysres :=
  if bad_fd k fd then SysRet (- EBADFD) k
  else
    match slot k fd with
    | Some io => SysRet 0 (set_slot (sv_ioclose sv io k) fd None)
    | None => SysRet (- EBADFD) k
    end.

Definition sysread (fd buf bufsz : Z) (k : kernel) : sysres :=
  if bad_fd k fd then SysRet (- EBADFD) k
  else
    match slot k fd with
    | Some io => let '(r, k') := sv_ioread sv io buf (to_long bufsz) k in SysRet r k'
    | None => SysRet (- EBADFD) k
    end.

Definition syswrite (fd buf len : Z) (k : kernel) : sysres :=
  if bad_fd k fd then SysRet (- EBADFD) k
  else
    match slot k fd with
    | Some io => let '(r, k') := sv_iowrite sv io buf (to_long len) k in SysRet r k'
    | None => SysRet (- EBADFD) k
    end.

Definition sysioctl (fd cmd arg : Z) (k : kernel) : sysres :=
  if bad_fd k fd then SysRet (- EBADFD) k
  else
    match slot k fd with
    | Some io => let '(r, k') := sv_ioctl sv io cmd arg k in SysRet r k'
    | None => SysRet (- EBADFD) k
    end.

Definition sysfork (t : trap_frame) (k : kernel) : sysres :=
  let '(r, k') := sv_process_fork sv t k in SysRet r k'.

(** The slot search of [syspipe]: one pass over the table, the first
    free slot to [wfd] when it is negative, a later one to [rfd]. *)
Fixpoint pipe_slots (k : kernel) (fds : list Z) (wfd rfd : Z) : Z * Z :=
  match fds with
  | [] => (wfd, rfd)
  | i :: more =>
      if (wfd <? 0) && bool_decide (slot k i = None) then pipe_slots k more i rfd
      else if (rfd <? 0) && bool_decide (slot k i = None) then pipe_slots k more wfd i
      else pipe_slots k more wfd rfd
  end.

Definition syspipe (wfdptr rfdptr : Z) (k : kernel) : sysres :=
  if (wfdptr =? 0) || (rfdptr =? 0) then SysRet (- EINVAL) k
  else
    match sv_create_pipe sv k with
    | (None, k1) => SysRet (- ENOMEM) k1
    | (Some (wio, rio), k1) =>
        let wfd := sv_load_int sv wfdptr k1 in
        let rfd := sv_load_int sv rfdptr k1 in
        let '(wfd, rfd) :=
          if (wfd <? 0) || (rfd <? 0) then pipe_slots k1 fd_range wfd rfd
          else (wfd, rfd) in
        if (wfd <? 0) || (rfd <? 0) || (wfd =? rfd) || (PROCESS_IOMAX <=? wfd)
           || (PROCESS_IOMAX <=? rfd) || bool_decide (is_Some (slot k1 wfd))
           || bool_decide (is_Some (slot k1 rfd))
        then SysRet (- EBADFD) (sv_ioclose sv rio (sv_ioclose sv wio k1))
        else
          let k2 := set_slot (set_slot k1 wfd (Some wio)) rfd (Some rio) in
          SysRet 0 (sv_store_int sv rfdptr rfd (sv_store_int sv wfdptr wfd k2))
    end.

Definition sysfscreate (name : Z) (k : kernel) : sysres :=
  let '(r, k') := sv_fscreate sv name (sv_kprintf sv 0 k) in SysRet r k'.

Definition sysfsdelete (name : Z) (k : kernel) : sysres :=
  let '(r, k') := sv_fsdelete sv name (sv_kprintf sv 0 k) in SysRet r k'.

Definition sysiodup (oldfd newfd : Z) (k : kernel) : sysres :=
  if (oldfd <? 0) || (PROCESS_IOMAX <=? oldfd) then SysRet (- EBADFD) k
  else
    match slot k oldfd with
    | None => SysRet (- EBADFD) k
    | Some old =>
        let newfd := if newfd <? 0 then next_free k else newfd in
        if PROCESS_IOMAX <=? newfd then SysRet (- EBADFD) k
        else
          let k1 := match slot k newfd with
                    | Some io => sv_ioclose sv io k
                    | None => k
                    end in
          match slot k1 oldfd with
          | Some io => SysRet 0 (set_slot (sv_ioaddref sv io k1) newfd (Some io))
          | None => SysRet 0 (set_slot k1 newfd None)
          end
    end.

(** [syscall]: the switch on [a7]; [int] arguments are the registers
    truncated to 32 bits. *)
Definition syscall (t : trap_frame) (k : kernel) : sysres :=
  let n := a7 t in
  if n =? SYSCALL_EXIT then sysexit k
  else if n =? SYSCALL_EXEC then sysexec (to_int (a0 t)) (to_int (a1 t)) (wrap64 (a2 t)) k
  else if n =? SYSCALL_WAIT then syswait (to_int (a0 t)) k
  else if n =? SYSCALL_PRINT then sysprint (wrap64 (a0 t)) k
  else if n =? SYSCALL_USLEEP then sysusleep (wrap64 (a0 t)) k
  else if n =? SYSCALL_DEVOPEN then
    sysdevopen (to_int (a0 t)) (wrap64 (a1 t)) (to_int (a2 t)) k
  else if n =? SYSCALL_FSOPEN then sysfsopen (to_int (a0 t)) (wrap64 (a1 t)) k
  else if n =? SYSCALL_FSCREATE then sysfscreate (wrap64 (a0 t)) k
  else if n =? SYSCALL_FSDELETE then sysfsdelete (wrap64 (a0 t)) k
  else if n =? SYSCALL_CLOSE then sysclose (to_int (a0 t)) k
  else if n =? SYSCALL_READ then
    sysread (to_int (a0 t)) (wrap64 (a1 t)) (wrap64 (a2 t)) k
  else if n =? SYSCALL_WRITE then
    syswrite (to_int (a0 t)) (wrap64 (a1 t)) (wrap64 (a2 t)) k
  else if n =? SYSCALL_IOCTL then
    sysioctl (to_int (a0 t)) (to_int (a1 t)) (wrap64 (a2 t)) k
  else if n =? SYSCALL_PIPE then syspipe (wrap64 (a0 t)) (wrap64 (a1 t)) k
  else if n =? SYSCALL_IODUP then sysiodup (to_int (a0 t)) (to_int (a1 t)) k
  else if n =? SYSCALL_FORK then sysfork t k
  else SysRet (- ENOTSUP) k.

(** [handle_syscall]: the frame after the call, when the dispatcher
    returns.  [sepc] is advanced before the dispatcher runs. *)
Definition handle_syscall (t : trap_frame) (k : kernel)
    : (trap_frame * kernel) + ending :=
  let t1 := set_sepc t (wrap64 (sepc t + 4)) in
  match syscall t1 k with
  | SysRet v k' => inl (set_a0 t1 v, k')
  | SysEnd e => inr e
  end.

(** The causes [excp_names] has a string for. *)
Definition has_name (cause : Z) : bool :=
  (0 <=? cause) && (cause <? 16) &&
  negb ((cause =? 10) || (cause =? 11) || (cause =? 14)).

(** [handle_umode_exception]; [stval] is the faulting address the
    handler reads from the CSR. *)
Definition handle_umode_exception (cause stval : Z) (t : trap_frame) (k : kernel)
    : outcome :=
  if has_name cause then
    if cause =? RISCV_SCAUSE_ECALL_FROM_UMODE then
      match handle_syscall t k with
      | inl (t', k') =>
          if a0 t' <? 0 then Ended (process_exit k') else Resumed t' k'
      | inr e => Ended e
      end
    else if (cause =? RISCV_SCAUSE_INSTR_PAGE_FAULT)
            || (cause =? RISCV_SCAUSE_LOAD_PAGE_FAULT)
            || (cause =? RISCV_SCAUSE_STORE_PAGE_FAULT) then
      let '(r, v') := VMem.handle_umode_page_fault (vmem k) stval in
      if r =? 1 then Resumed t (set_vmem k v')
      else Ended (process_exit (set_vmem k v'))
    else Ended (Panicked k)
  else Ended (Panicked k).

End Kernel.

Arguments mk_kernel {R}.
Arguments iotab {R}.
Arguments proc_tid {R}.
Arguments vmem {R}.
Arguments rest {R}.
Arguments Exited {R}.
Arguments Panicked {R}.
Arguments Jumped {R}.
Arguments SysRet {R}.
Arguments SysEnd {R}.
Arguments Resumed {R}.
Arguments Ended {R}.

(** *** System calls: what reaches the user process *)

Section TrapFacts.
Variable R : Type.
Variable sv : services R.

Lemma ecall_has_name : has_name RISCV_SCAUSE_ECALL_FROM_UMODE = true.
Proof. reflexivity. Qed.

(** C1 (as the code has it): when the dispatcher returns [v], the saved
    pc has been advanced by 4 and [a0] holds [v]; the process resumes at
    the next instruction when [v] is not negative, and is handed to
    [process_exit] when [v] is negative. *)
Theorem syscall_return_delivery (stval : Z) (t : trap_frame) (k k' : kernel R) (v : Z) :
  syscall R sv (set_sepc t (wrap64 (sepc t + 4))) k = SysRet v k' ->
  let t' := set_a0 (set_sepc t (wrap64 (sepc t + 4))) v in
  sepc t' = wrap64 (sepc t + 4) /\ a0 t' = v /\
  handle_syscall R sv t k = inl (t', k') /\
  (0 <= v ->
   handle_umode_exception R sv RISCV_SCAUSE_ECALL_FROM_UMODE stval t k = Resumed t' k') /\
  (v < 0 ->
   handle_umode_exception R sv RISCV_SCAUSE_ECALL_FROM_UMODE stval t k
   = Ended (process_exit R sv k')).
Proof.
  intros Hs t'. split; [reflexivity|]. split; [reflexivity|].
  assert (Hh : handle_syscall R sv t k = inl (t', k')).
  { unfold handle_syscall. now rewrite Hs. }
  split; [exact Hh|].
  unfold handle_umode_exception. rewrite ecall_has_name, Z.eqb_refl, Hh.
  change (a0 t') with v. split; intros Hv.
  - apply Z.ltb_ge in Hv. now rewrite Hv.
  - apply Z.ltb_lt in Hv. now rewrite Hv.
Qed.

(** A system call that does not return (exit, a successful exec) ends
    the handler the way the call ended. *)
Lemma syscall_no_return (stval : Z) (t : trap_frame) (k : kernel R) (e : ending R) :
  syscall R sv (set_sepc t (wrap64 (sepc t + 4))) k = SysEnd e ->
  handle_umode_exception R sv RISCV_SCAUSE_ECALL_FROM_UMODE stval t k = Ended e.
Proof.
  intros Hs. unfold handle_umode_exception, handle_syscall.
  now rewrite ecall_has_name, Z.eqb_refl, Hs.
Qed.

(** An unknown system-call number fails with [-ENOTSUP], whatever the
    services do. *)
Lemma syscall_unknown (t : trap_frame) (k : kernel R) :
  a7 t = 99 -> syscall R sv t k = SysRet (- ENOTSUP) k.
Proof. intros H. unfold syscall. now rewrite H. Qed.

(** [sysclose] on a descriptor out of range fails with [-EBADFD]. *)
Lemma sysclose_out_of_range (fd : Z) (k : kernel R) :
  fd < 0 \/ PROCESS_IOMAX <= fd -> sysclose R sv fd k = SysRet (- EBADFD) k.
Proof.
  intros H. unfold sysclose, bad_fd.
  destruct H as [H|H].
  - apply Z.ltb_lt in H. now rewrite H.
  - apply Z.leb_le in H. rewrite H. now rewrite orb_true_r.
Qed.

(** *** Page faults from user mode *)

Definition is_page_fault (cause : Z) : Prop :=
  cause = RISCV_SCAUSE_INSTR_PAGE_FAULT \/ cause = RISCV_SCAUSE_LOAD_PAGE_FAULT \/
  cause = RISCV_SCAUSE_STORE_PAGE_FAULT.

Lemma page_fault_dispatch (cause stval : Z) (t : trap_frame) (k : kernel R) :
  is_page_fault cause ->
  handle_umode_exception R sv cause stval t k
  = let '(r, v') := VMem.handle_umode_page_fault (vmem k) stval in
    if r =? 1 then Resumed t (set_vmem R k v')
    else Ended (process_exit R sv (set_vmem R k v')).
Proof.
  intros [-> | [-> | ->]]; reflexivity.
Qed.

(** C2 (as the code has it): an instruction, load or store page fault
    from user mode at an address below [2^38] (the well-formed addresses
    below [0x400000000000]), met with a free page and a page-table walk
    that reaches the leaf entry, is served: the page is taken from the
    free list, zero-filled and entered at the faulting page with R, W, U
    and G, the handler returns 1 and the frame is resumed unchanged.
    The handler returns 1 in no other case; a fault the guard refuses, or
    one met with an empty free list, leaves the memory manager as it was
    and goes to [process_exit]. *)
Theorem umode_page_fault_policy (cause stval : Z) (t : trap_frame) (k : kernel R) :
  is_page_fault cause -> 0 <= stval < 2 ^ 64 ->
  let r := fst (VMem.handle_umode_page_fault (vmem k) stval) in
  let v' := snd (VMem.handle_umode_page_fault (vmem k) stval) in
  (r = 1 -> handle_umode_exception R sv cause stval t k = Resumed t (set_vmem R k v')) /\
  (r <> 1 -> r = 0 /\
     handle_umode_exception R sv cause stval t k
     = Ended (process_exit R sv (set_vmem R k v'))) /\
  (r = 1 ->
     stval < 2 ^ 38 /\
     exists pp fl1 leaf s2,
       PageAlloc.alloc_phys_page (VMem.free_chunk_list (vmem k)) = Some (pp, fl1) /\
       VMem.walk_create
         (VMem.mk_vm (VMem.satp (vmem k)) (VMem.zero_page (VMem.mem (vmem k)) pp)
                     (PageAlloc.set_list (VMem.pools (vmem k)) fl1))
         (VMem.ROUND_DOWN stval PAGE_SIZE) true = (Some leaf, s2) /\
       VMem.mem v' leaf = VMem.leaf_pte pp VMem.MAP_RWUG /\
       VMem.pte_flags (VMem.mem v' leaf) = 247) /\
  (VMem.wellformed stval = false \/ 2 ^ 38 <= stval -> r = 0 /\ v' = vmem k) /\
  (PageAlloc.alloc_phys_page (VMem.free_chunk_list (vmem k)) = None ->
     r = 0 /\ v' = vmem k) /\
  (forall pp fl1 leaf s2,
     stval < 2 ^ 38 ->
     PageAlloc.alloc_phys_page (VMem.free_chunk_list (vmem k)) = Some (pp, fl1) ->
     VMem.walk_create
       (VMem.mk_vm (VMem.satp (vmem k)) (VMem.zero_page (VMem.mem (vmem k)) pp)
                   (PageAlloc.set_list (VMem.pools (vmem k)) fl1))
       (VMem.ROUND_DOWN stval PAGE_SIZE) true = (Some leaf, s2) ->
     r = 1 /\
     v' = VMem.mk_vm (VMem.satp s2)
            (VMem.upd (VMem.mem s2) leaf (VMem.leaf_pte pp VMem.MAP_RWUG))
            (VMem.pools s2) /\
     VMem.pte_flags (VMem.mem v' leaf) = 247 /\
     handle_umode_exception R sv cause stval t k = Resumed t (set_vmem R k v')).
Proof.
  intros Hc Hs r v'.
  pose proof (page_fault_dispatch cause stval t k Hc) as Hd.
  pose proof (VMem.page_fault_result (vmem k) stval) as Hr.
  fold r in Hr.
  destruct (VMem.handle_umode_page_fault (vmem k) stval) as [r0 v0] eqn:Hh.
  cbn [fst snd] in r, v', Hr. subst r v'.
  split; [|split; [|split; [|split; [|split]]]].
  - intros ->. exact Hd.
  - intros Hne. destruct Hr as [-> | ->]; [|done]. split; [done|exact Hd].
  - intros ->.
    destruct (VMem.page_fault_served _ _ _ Hh)
      as (Hw & Hlt & pp & fl1 & leaf & s2 & Ha & Hwalk & _ & Hleaf).
    split.
    + apply VMem.wellformed_low; [|exact Hw]. lia.
    + exists pp, fl1, leaf, s2. split; [exact Ha|]. split; [exact Hwalk|].
      split; [exact Hleaf|]. rewrite Hleaf. apply VMem.leaf_pte_flags.
  - intros Hbad.
    assert (Hg : VMem.wellformed stval = false \/ 0x400000000000 <= stval).
    { destruct Hbad as [Hb|Hb]; [now left|].
      destruct (Z.le_gt_cases 0x400000000000 stval) as [Hge|Hlt]; [now right|].
      left. destruct (VMem.wellformed stval) eqn:Hw; [|done].
      apply VMem.wellformed_low in Hw; lia. }
    rewrite (VMem.page_fault_refused _ _ Hg) in Hh. now injection Hh as <- <-.
  - intros Hnone.
    rewrite (VMem.page_fault_no_memory _ _ Hnone) in Hh. now injection Hh as <- <-.
  - intros pp fl1 leaf s2 Hlt Ha Hwalk.
    rewrite (VMem.page_fault_walk_serves (vmem k) stval pp fl1 leaf s2
               ltac:(lia) Ha Hwalk) in Hh.
    injection Hh as <- <-. split; [done|]. split; [done|]. split.
    + cbn [VMem.mem]. rewrite VMem.upd_same. apply VMem.leaf_pte_flags.
    + exact Hd.
Qed.

End TrapFacts.

(** *** Concrete runs *)

(** Services that do nothing and report success; the runs below end
    before any of them matters. *)
Definition quiet_services : services unit :=
  mk_services unit
    (fun k => k)
    (fun _ _ _ k => SysRet 0 k)
    (fun _ k => (0, k))
    (fun _ k => (0, k))
    (fun _ k => k)
    (fun _ k => k)
    (fun _ _ k => (0, None, k))
    (fun _ k => (0, None, k))
    (fun _ k => (0, k))
    (fun _ k => (0, k))
    (fun _ k => k)
    (fun _ k => k)
    (fun _ _ _ k => (0, k))
    (fun _ _ _ k => (0, k))
    (fun _ _ _ k => (0, k))
    (fun k => (None, k))
    (fun _ _ => 0)
    (fun _ _ k => k).

(** A process other than the main one, with descriptor 0 open. *)
Definition sample_kernel : kernel unit :=
  mk_kernel (Some 0x80700000 :: replicate 15 None) 3 VMem.sample_vm tt.

(** [close(7)] and [close(0)] issued at pc [0x1000]. *)
Definition close_7 : trap_frame := mk_tfr 7 0 0 0 0 0 0 SYSCALL_CLOSE 0x1000.
Definition close_0 : trap_frame := mk_tfr 0 0 0 0 0 0 0 SYSCALL_CLOSE 0x1000.

Lemma syscall_return_delivery_witness :
  syscall unit quiet_services (set_sepc close_0 (wrap64 (sepc close_0 + 4))) sample_kernel
  = SysRet 0 (set_iotab unit sample_kernel (replicate 16 None)) /\
  handle_umode_exception unit quiet_services RISCV_SCAUSE_ECALL_FROM_UMODE 0
    close_0 sample_kernel
  = Resumed (mk_tfr 0 0 0 0 0 0 0 SYSCALL_CLOSE 0x1004)
            (set_iotab unit sample_kernel (replicate 16 None)).
Proof.
  assert (H : syscall unit quiet_services
                (set_sepc close_0 (wrap64 (sepc close_0 + 4))) sample_kernel
              = SysRet 0 (set_iotab unit sample_kernel (replicate 16 None)))
    by reflexivity.
  split; [exact H|].
  refine (proj1 (proj2 (proj2 (proj2
    (syscall_return_delivery unit quiet_services 0 close_0 sample_kernel _ 0 H)))) _).
  lia.
Defined.

(** C1 as stated fails: [close] on a descriptor that is not open
    returns [-EBADFD], and the process is not resumed with that value in
    [a0] but terminated. *)
Lemma failed_syscall_ends_process :
  syscall unit quiet_services (set_sepc close_7 (wrap64 (sepc close_7 + 4))) sample_kernel
  = SysRet (- EBADFD) sample_kernel /\
  handle_umode_exception unit quiet_services RISCV_SCAUSE_ECALL_FROM_UMODE 0
    close_7 sample_kernel
  = Ended (Exited (set_iotab unit sample_kernel (replicate 16 None))) /\
  forall t' k',
    handle_umode_exception unit quiet_services RISCV_SCAUSE_ECALL_FROM_UMODE 0
      close_7 sample_kernel <> Resumed t' k'.
Proof.
  split; [reflexivity|].
  assert (H : handle_umode_exception unit quiet_services RISCV_SCAUSE_ECALL_FROM_UMODE 0
                close_7 sample_kernel
              = Ended (Exited (set_iotab unit sample_kernel (replicate 16 None))))
    by reflexivity.
  split; [exact H|]. intros t' k'. rewrite H. discriminate.
Qed.

Definition load_fault : trap_frame := mk_tfr 0 0 0 0 0 0 0 0 0x1000.

Lemma umode_page_fault_policy_witness :
  is_page_fault RISCV_SCAUSE_LOAD_PAGE_FAULT /\ 0 <= UMEM_END_VMA - 1 < 2 ^ 64 /\
  fst (VMem.handle_umode_page_fault (vmem sample_kernel) (UMEM_END_VMA - 1)) = 1 /\
  handle_umode_exception unit quiet_services RISCV_SCAUSE_LOAD_PAGE_FAULT
    (UMEM_END_VMA - 1) load_fault sample_kernel
  = Resumed load_fault
      (set_vmem unit sample_kernel
         (snd (VMem.handle_umode_page_fault (vmem sample_kernel) (UMEM_END_VMA - 1)))).
Proof.
  assert (Hc : is_page_fault RISCV_SCAUSE_LOAD_PAGE_FAULT) by (right; left; reflexivity).
  assert (Hr : 0 <= UMEM_END_VMA - 1 < 2 ^ 64) by (unfold UMEM_END_VMA; lia).
  assert (H1 : fst (VMem.handle_umode_page_fault (vmem sample_kernel) (UMEM_END_VMA - 1)) = 1)
    by (vm_compute; reflexivity).
  split; [exact Hc|]. split; [exact Hr|]. split; [exact H1|].
  exact (proj1 (umode_page_fault_policy unit quiet_services
                  RISCV_SCAUSE_LOAD_PAGE_FAULT (UMEM_END_VMA - 1) load_fault
                  sample_kernel Hc Hr) H1).
Defined.

(** C2 as stated fails: a load fault at [UMEM_END] itself is served and
    the process resumed, not terminated. *)
Lemma fault_at_umem_end_resumes :
  fst (VMem.handle_umode_page_fault (vmem sample_kernel) UMEM_END_VMA) = 1 /\
  VMem.translate (snd (VMem.handle_umode_page_fault (vmem sample_kernel) UMEM_END_VMA))
    UMEM_END_VMA = Some (VMem.leaf_pte 0x80500000 VMem.MAP_RWUG) /\
  forall e,
    handle_umode_exception unit quiet_services RISCV_SCAUSE_LOAD_PAGE_FAULT
      UMEM_END_VMA load_fault sample_kernel <> Ended e.
Proof.
  assert (H1 : fst (VMem.handle_umode_page_fault (vmem sample_kernel) UMEM_END_VMA) = 1)
    by (vm_compute; reflexivity).
  split; [exact H1|]. split; [vm_compute; reflexivity|].
  intros e.
  assert (Hc : is_page_fault RISCV_SCAUSE_LOAD_PAGE_FAULT) by (right; left; reflexivity).
  rewrite (page_fault_dispatch unit quiet_services _ UMEM_END_VMA load_fault
             sample_kernel Hc).
  destruct (VMem.handle_umode_page_fault (vmem sample_kernel) UMEM_END_VMA) as [r v'].
  cbn [fst] in H1. subst r. discriminate.
Qed.

(** *** Descriptors *)

Section Descriptors.
Variable R : Type.
Variable sv : services R.

(** The free descriptors of the current process, lowest first. *)
Definition free_fds (k : kernel R) : list Z :=
  filter (fun i => slot R k i = None) (fd_range).

Lemma scan_free_spec k fuel : forall desc d,
  scan_free R k desc fuel = d ->
  desc <= d <= desc + Z.of_nat fuel /\
  (forall i, desc <= i < d -> is_Some (slot R k i)) /\
  (d < desc + Z.of_nat fuel -> PROCESS_IOMAX <= d \/ slot R k d = None).
Proof.
  induction fuel as [|fuel IH]; intros desc d; cbn [scan_free].
  - intros <-. split; [lia|]. split; [intros i; lia | lia].
  - destruct (desc <? PROCESS_IOMAX) eqn:E1; cbn [andb].
    + destruct (bool_decide (is_Some (slot R k desc))) eqn:E2.
      * apply bool_decide_eq_true in E2. intros H.
        destruct (IH _ _ H) as (Hr & Hall & Hend). split; [lia|]. split.
        -- intros i Hi. destruct (decide (i = desc)) as [->|]; [done|]. apply Hall. lia.
        -- intros Hlt. apply Hend. lia.
      * apply bool_decide_eq_false in E2. intros <-. split; [lia|].
        split; [intros i; lia|]. intros _. right.
        destruct (slot R k desc); [exfalso; apply E2; eauto | done].
    + apply Z.ltb_ge in E1. intros <-. split; [lia|]. split; [intros i; lia|].
      intros _. now left.
Qed.

Lemma next_free_spec k :
  0 <= next_free R k <= PROCESS_IOMAX /\
  (forall i, 0 <= i < next_free R k -> is_Some (slot R k i)) /\
  (next_free R k < PROCESS_IOMAX -> slot R k (next_free R k) = None).
Proof.
  destruct (scan_free_spec k (Z.to_nat PROCESS_IOMAX) 0 (next_free R k) eq_refl)
    as (Hr & Hall & Hend).
  change (Z.of_nat (Z.to_nat PROCESS_IOMAX)) with PROCESS_IOMAX in *.
  split; [lia|]. split; [exact Hall|].
  intros Hlt. destruct (Hend ltac:(lia)); [lia | done].
Qed.

(** Opening with a negative descriptor takes the lowest free one:
    [sysdevopen] and [sysfsopen] called with [fd < 0] fail with [-EBADFD]
    when all [PROCESS_IOMAX] descriptors are in use, and otherwise open
    into the least descriptor that is free and return it, or -1 when the
    open fails (whatever its error code).  With [fd >= 0] the call fails
    with [-EBADFD], the kernel unchanged, when [fd] is out of range or in
    use. *)
Theorem open_takes_lowest_free (fd name instno : Z) (k : kernel R) :
  let d := next_free R k in
  0 <= d <= PROCESS_IOMAX /\
  (forall i, 0 <= i < d -> is_Some (slot R k i)) /\
  (fd < 0 -> d = PROCESS_IOMAX ->
     sysdevopen R sv fd name instno k = SysRet (- EBADFD) k /\
     sysfsopen R sv fd name k = SysRet (- EBADFD) k) /\
  (fd < 0 -> d < PROCESS_IOMAX ->
     slot R k d = None /\
     sysdevopen R sv fd name instno k
     = (let '(r, io, k') := sv_open_device R sv name instno k in
        SysRet (if r <? 0 then -1 else d)
               (match io with Some p => set_slot R k' d (Some p) | None => k' end)) /\
     sysfsopen R sv fd name k
     = (let '(r, io, k') := sv_fsopen R sv name k in
        SysRet (if r <? 0 then -1 else d)
               (match io with Some p => set_slot R k' d (Some p) | None => k' end))) /\
  (0 <= fd -> PROCESS_IOMAX <= fd \/ is_Some (slot R k fd) ->
     sysdevopen R sv fd name instno k = SysRet (- EBADFD) k /\
     sysfsopen R sv fd name k = SysRet (- EBADFD) k).
Proof.
  intros d. destruct (next_free_spec k) as (Hr & Hall & Hfree). fold d in Hr, Hall, Hfree.
  split; [exact Hr|]. split; [exact Hall|]. unfold sysdevopen, sysfsopen. fold d.
  split; [|split].
  - intros Hfd Hd. apply Z.ltb_lt in Hfd. rewrite Hfd, Hd.
    change (PROCESS_IOMAX <=? PROCESS_IOMAX) with true. done.
  - intros Hfd Hd. split; [auto|].
    assert (E1 : (fd <? 0) = true) by now apply Z.ltb_lt.
    assert (E2 : (PROCESS_IOMAX <=? d) = false) by now apply Z.leb_gt.
    assert (E3 : (0 <=? fd) = false) by (apply Z.leb_gt; lia).
    rewrite E1, E2, E3. cbn [orb andb]. done.
  - intros Hfd Hbad.
    assert (E1 : (fd <? 0) = false) by (apply Z.ltb_ge; lia).
    assert (E3 : (0 <=? fd) = true) by now apply Z.leb_le.
    rewrite E1, E3. cbn [andb].
    destruct Hbad as [Hbig|Hused].
    + apply Z.leb_le in Hbig. rewrite Hbig. done.
    + rewrite (bool_decide_eq_true_2 _ Hused), orb_true_r. done.
Qed.

(** The slot search of [syspipe], by the free descriptors met. *)
Lemma pipe_slots_both k fds : forall w r,
  Forall (fun i => 0 <= i) fds -> 0 <= w -> 0 <= r ->
  pipe_slots R k fds w r = (w, r).
Proof.
  induction fds as [|i fds IH]; intros w r Hf Hw Hr; cbn [pipe_slots]; [done|].
  inversion Hf; subst.
  replace (w <? 0) with false by (symmetry; apply Z.ltb_ge; lia).
  replace (r <? 0) with false by (symmetry; apply Z.ltb_ge; lia).
  cbn [andb]. now apply IH.
Qed.

Lemma pipe_slots_read k fds : forall w r,
  Forall (fun i => 0 <= i) fds -> 0 <= w -> r < 0 ->
  pipe_slots R k fds w r
  = (w, hd r (filter (fun i => slot R k i = None) fds)).
Proof.
  induction fds as [|i fds IH]; intros w r Hf Hw Hr; cbn [pipe_slots]; [done|].
  inversion Hf; subst.
  replace (w <? 0) with false by (symmetry; apply Z.ltb_ge; lia).
  replace (r <? 0) with true by (symmetry; apply Z.ltb_lt; lia).
  cbn [andb]. rewrite filter_cons.
  destruct (decide (slot R k i = None)) as [Hi|Hi].
  - rewrite (bool_decide_eq_true_2 _ Hi). cbn [hd]. now apply pipe_slots_both.
  - rewrite (bool_decide_eq_false_2 _ Hi). now apply IH.
Qed.

Lemma pipe_slots_neither k fds : forall w r,
  Forall (fun i => 0 <= i) fds -> w < 0 -> r < 0 ->
  pipe_slots R k fds w r
  = match filter (fun i => slot R k i = None) fds with
    | [] => (w, r)
    | w' :: more => (w', hd r more)
    end.
Proof.
  induction fds as [|i fds IH]; intros w r Hf Hw Hr; cbn [pipe_slots]; [done|].
  inversion Hf; subst.
  replace (w <? 0) with true by (symmetry; apply Z.ltb_lt; lia).
  cbn [andb]. rewrite filter_cons.
  destruct (decide (slot R k i = None)) as [Hi|Hi].
  - rewrite (bool_decide_eq_true_2 _ Hi). now apply pipe_slots_read.
  - rewrite (bool_decide_eq_false_2 _ Hi).
    replace (r <? 0) with true by (symmetry; apply Z.ltb_lt; lia).
    cbn [andb]. now apply IH.
Qed.

(** The first two elements of an ascending range that pass a test. *)
Lemma filter_range_two (P : Z -> Prop) `{Hdec : !forall i, Decision (P i)} n : forall a w r more,
  filter P (map Z.of_nat (seq a n)) = w :: r :: more ->
  Z.of_nat a <= w < r /\ r < Z.of_nat a + Z.of_nat n /\ P w /\ P r /\
  (forall i, Z.of_nat a <= i < r -> i <> w -> ~ P i).
Proof.
  assert (Hone : forall m b x rest, filter P (map Z.of_nat (seq b m)) = x :: rest ->
            Z.of_nat b <= x < Z.of_nat b + Z.of_nat m /\ P x /\
            (forall i, Z.of_nat b <= i < x -> ~ P i) /\
            exists c m', rest = filter P (map Z.of_nat (seq c m')) /\
                         Z.of_nat c = x + 1 /\ Z.of_nat c + Z.of_nat m' = Z.of_nat b + Z.of_nat m).
  { induction m as [|m IH]; intros b x rest; cbn [seq map]; [done|].
    rewrite filter_cons. destruct (decide (P (Z.of_nat b))) as [Hb|Hb].
    - intros [= <- <-]. split; [lia|]. split; [done|]. split; [intros i; lia|].
      exists (S b), m. split; [done|]. lia.
    - intros Hf. destruct (IH _ _ _ Hf) as (Hx & HP & Hmin & c & m' & Hrest & Hc & Hm).
      split; [lia|]. split; [done|]. split.
      + intros i Hi. destruct (decide (i = Z.of_nat b)) as [->|]; [done|]. apply Hmin. lia.
      + exists c, m'. split; [done|]. lia. }
  intros a w r more Hf.
  destruct (Hone _ _ _ _ Hf) as (Hw & HPw & Hminw & c & m' & Hrest & Hc & Hm).
  symmetry in Hrest. destruct (Hone _ _ _ _ Hrest) as (Hr & HPr & Hminr & _).
  split; [lia|]. split; [lia|]. split; [done|]. split; [done|].
  intros i Hi Hne. destruct (decide (i < w)); [apply Hminw; lia | apply Hminr; lia].
Qed.

Lemma fd_range_nonneg : Forall (fun i => 0 <= i) fd_range.
Proof. unfold fd_range. apply Forall_forall. intros i Hi.
  apply list_elem_of_fmap in Hi. destruct Hi as (n & -> & _). lia. Qed.

(** [syspipe] asked to choose both descriptors (negative values at
    the two pointers) installs the writer at the lowest free descriptor
    and the reader at the next free one, and stores the two numbers
    through the pointers; with fewer than two free descriptors it closes
    both new endpoints and fails with [-EBADFD]. *)
Theorem syspipe_takes_lowest_free (wfdptr rfdptr wio rio : Z) (k k1 : kernel R) :
  wfdptr <> 0 -> rfdptr <> 0 ->
  sv_create_pipe R sv k = (Some (wio, rio), k1) ->
  sv_load_int R sv wfdptr k1 < 0 -> sv_load_int R sv rfdptr k1 < 0 ->
  match free_fds k1 with
  | w :: r :: _ =>
      0 <= w < r /\ r < PROCESS_IOMAX /\ slot R k1 w = None /\ slot R k1 r = None /\
      (forall i, 0 <= i < r -> i <> w -> is_Some (slot R k1 i)) /\
      syspipe R sv wfdptr rfdptr k
      = SysRet 0
          (sv_store_int R sv rfdptr r
             (sv_store_int R sv wfdptr w
                (set_slot R (set_slot R k1 w (Some wio)) r (Some rio))))
  | _ =>
      syspipe R sv wfdptr rfdptr k
      = SysRet (- EBADFD) (sv_ioclose R sv rio (sv_ioclose R sv wio k1))
  end.
Proof.
  intros Hw Hr Hc Hlw Hlr. unfold syspipe.
  destruct (wfdptr =? 0) eqn:E1; [apply Z.eqb_eq in E1; done|].
  destruct (rfdptr =? 0) eqn:E2; [apply Z.eqb_eq in E2; done|].
  cbn [orb]. rewrite Hc.
  replace (sv_load_int R sv wfdptr k1 <? 0) with true by (symmetry; now apply Z.ltb_lt).
  cbn [orb]. rewrite (pipe_slots_neither k1 fd_range _ _ fd_range_nonneg Hlw Hlr).
  unfold free_fds.
  destruct (filter (fun i => slot R k1 i = None) fd_range) as [|w [|r more]] eqn:Hf.
  - replace (sv_load_int R sv wfdptr k1 <? 0) with true by (symmetry; now apply Z.ltb_lt).
    done.
  - cbn [hd].
    replace (sv_load_int R sv rfdptr k1 <? 0) with true by (symmetry; now apply Z.ltb_lt).
    now rewrite orb_true_r.
  - cbn [hd]. unfold fd_range in Hf.
    destruct (filter_range_two _ _ _ _ _ _ Hf) as (Hwr & Hrn & Hfw & Hfr & Hmin).
    change (Z.of_nat 0) with 0 in *.
    change (Z.of_nat (Z.to_nat PROCESS_IOMAX)) with PROCESS_IOMAX in *.
    split; [lia|]. split; [lia|]. split; [done|]. split; [done|]. split.
    { intros i Hi Hne. destruct (slot R k1 i) eqn:Es; [eauto|].
      exfalso. now apply (Hmin i ltac:(lia) Hne). }
    replace (w <? 0) with false by (symmetry; apply Z.ltb_ge; lia).
    replace (r <? 0) with false by (symmetry; apply Z.ltb_ge; lia).
    replace (w =? r) with false by (symmetry; apply Z.eqb_neq; lia).
    replace (PROCESS_IOMAX <=? w) with false by (symmetry; apply Z.leb_gt; lia).
    replace (PROCESS_IOMAX <=? r) with false by (symmetry; apply Z.leb_gt; lia).
    rewrite Hfw, Hfr. cbn [orb].
    rewrite bool_decide_eq_false_2 by (intros [? ?]; done). done.
Qed.

End Descriptors.

(** *** Leaving a process *)

Section Exit.
Variable R : Type.
Variable sv : services R.

(** What the endpoint layer is relied on for here: [ioclose] keeps a
    record of the endpoints it was called on and leaves the descriptor
    table alone, and the record does not depend on the table. *)
Variable closed : kernel R -> list Z.
Hypothesis ioclose_logs : forall io k,
  closed (sv_ioclose R sv io k) = closed k ++ [io] /\
  iotab (sv_ioclose R sv io k) = iotab k.
Hypothesis closed_frame : forall k tab, closed (set_iotab R k tab) = closed k.

Lemma close_all_range n : forall a k,
  (a + n <= length (iotab k))%nat ->
  let k' := close_all R sv (map Z.of_nat (seq a n)) k in
  iotab k' = take a (iotab k) ++ replicate n None ++ drop (a + n) (iotab k) /\
  closed k' = closed k ++ omap id (take n (drop a (iotab k))).
Proof.
  induction n as [|n IH]; intros a k Hlen; cbn [seq map close_all].
  - cbn. rewrite Nat.add_0_r, take_drop, app_nil_r. done.
  - destruct (lookup_lt_is_Some_2 (iotab k) a ltac:(lia)) as [x Hx].
    assert (Hd : drop a (iotab k) = x :: drop (S a) (iotab k)).
    { now apply drop_S. }
    unfold slot. rewrite Nat2Z.id, Hx.
    assert (Hmid : forall l : list (option Z), length l = length (iotab k) ->
              take a l = take a (iotab k) -> l !! a = Some None ->
              drop (S a) l = drop (S a) (iotab k) ->
              take (S a) l ++ replicate n None ++ drop (S a + n) l
              = take a (iotab k) ++ replicate (S n) None ++ drop (a + S n) (iotab k)).
    { intros l Hl Ht Ha Hdr. rewrite (take_S_r _ _ _ Ha), Ht, <- app_assoc.
      cbn [replicate app]. do 3 f_equal.
      replace (a + S n)%nat with (S a + n)%nat by lia.
      now rewrite <- !drop_drop, Hdr. }
    destruct x as [io|].
    + set (k1 := set_slot R (sv_ioclose R sv io k) (Z.of_nat a) None).
      destruct (ioclose_logs io k) as [Hlog Htab].
      assert (Ht1 : iotab k1 = <[a := None]> (iotab k)).
      { subst k1. unfold set_slot. cbn. now rewrite Nat2Z.id, Htab. }
      assert (Hc1 : closed k1 = closed k ++ [io]).
      { subst k1. unfold set_slot. now rewrite closed_frame. }
      destruct (IH (S a) k1 ltac:(rewrite Ht1, length_insert; lia)) as (Hi & Hc).
      split.
      * rewrite Hi. apply Hmid.
        -- now rewrite Ht1, length_insert.
        -- rewrite Ht1. now rewrite take_insert_ge by lia.
        -- rewrite Ht1. apply list_lookup_insert_eq. lia.
        -- rewrite Ht1. now rewrite drop_insert_lt by lia.
      * rewrite Hc, Hc1, Ht1, drop_insert_lt by lia.
        rewrite Hd. cbn [take omap id]. now rewrite <- app_assoc.
    + destruct (IH (S a) k ltac:(lia)) as (Hi & Hc).
      split.
      * rewrite Hi. now apply Hmid.
      * rewrite Hc, Hd. cbn [take omap id]. done.
Qed.

(** [process_exit] closes every open descriptor of the process once,
    in descriptor order, and leaves the table empty before the thread
    exits; in the main process (thread 0) it panics with nothing closed. *)
Theorem process_exit_closes_all (k : kernel R) :
  length (iotab k) = Z.to_nat PROCESS_IOMAX ->
  (proc_tid k = 0 -> process_exit R sv k = Panicked k) /\
  (proc_tid k <> 0 ->
     exists k', process_exit R sv k = Exited (sv_thread_exit R sv k') /\
                iotab k' = replicate (Z.to_nat PROCESS_IOMAX) None /\
                closed k' = closed k ++ omap id (iotab k)).
Proof.
  intros Hlen. unfold process_exit. split.
  - intros ->. done.
  - intros Hne. apply Z.eqb_neq in Hne. rewrite Hne.
    eexists. split; [reflexivity|]. unfold fd_range.
    change (Z.to_nat PROCESS_IOMAX) with 16%nat in *.
    assert (H16 : (0 + 16 <= length (iotab k))%nat) by (rewrite Hlen; lia).
    destruct (close_all_range 16 0 k H16) as [Hi Hc].
    split.
    + rewrite Hi. cbn [take app Nat.add]. rewrite drop_ge by lia. now rewrite app_nil_r.
    + rewrite Hc, drop_0, take_ge by lia. done.
Qed.

End Exit.

(** Services for the runs below: [create_pipe] hands out two
    endpoints, the two [int]s read through the user's pointers are -1,
    and [ioclose] appends the endpoint to a list kept in the kernel
    state. *)
Definition logging_services : services (list Z) :=
  mk_services (list Z)
    (fun k => k)
    (fun _ _ _ k => SysRet 0 k)
    (fun _ k => (0, k))
    (fun _ k => (0, k))
    (fun _ k => k)
    (fun _ k => k)
    (fun _ _ k => (0, None, k))
    (fun _ k => (0, None, k))
    (fun _ k => (0, k))
    (fun _ k => (0, k))
    (fun io k => mk_kernel (iotab k) (proc_tid k) (vmem k) (rest k ++ [io]))
    (fun _ k => k)
    (fun _ _ _ k => (0, k))
    (fun _ _ _ k => (0, k))
    (fun _ _ _ k => (0, k))
    (fun k => (Some (0x80710000, 0x80710040), k))
    (fun _ _ => -1)
    (fun _ _ k => k).

(** A process with descriptors 0 and 2 open. *)
Definition two_open : kernel (list Z) :=
  mk_kernel (Some 0x80700000 :: None :: Some 0x80700040 :: replicate 13 None)
            3 VMem.sample_vm [].

Lemma syspipe_takes_lowest_free_witness :
  0x7000 <> 0 /\ 0x7004 <> 0 /\
  syspipe (list Z) logging_services 0x7000 0x7004 two_open
  = SysRet 0
      (mk_kernel (Some 0x80700000 :: Some 0x80710000 :: Some 0x80700040
                  :: Some 0x80710040 :: replicate 12 None)
                 3 VMem.sample_vm []).
Proof.
  assert (H1 : 0x7000 <> 0) by lia.
  assert (H2 : 0x7004 <> 0) by lia.
  split; [exact H1|]. split; [exact H2|].
  pose proof (syspipe_takes_lowest_free (list Z) logging_services
                0x7000 0x7004 0x80710000 0x80710040 two_open two_open
                H1 H2 eq_refl) as H.
  cbn [sv_load_int logging_services] in H.
  specialize (H ltac:(lia) ltac:(lia)).
  exact (proj2 (proj2 (proj2 (proj2 (proj2 H))))).
Defined.

Lemma process_exit_closes_all_witness :
  length (iotab two_open) = Z.to_nat PROCESS_IOMAX /\
  exists k', process_exit (list Z) logging_services two_open
             = Exited (sv_thread_exit (list Z) logging_services k') /\
             iotab k' = replicate (Z.to_nat PROCESS_IOMAX) None /\
             rest k' = rest two_open ++ omap id (iotab two_open).
Proof.
  assert (H : length (iotab two_open) = Z.to_nat PROCESS_IOMAX) by reflexivity.
  split; [exact H|].
  refine (proj2 (process_exit_closes_all (list Z) logging_services rest _ _ two_open H) _).
  - intros io k. split; reflexivity.
  - intros k tab. reflexivity.
  - cbn. lia.
Defined.

Example exit_closes_in_order :
  process_exit (list Z) logging_services two_open
  = Exited (mk_kernel (replicate 16 None) 3 VMem.sample_vm [0x80700000; 0x80700040]).
Proof. reflexivity. Qed.

(** *** Descriptors and references *)

Section References.
Variable R : Type.
Variable sv : services R.

(** What the endpoint layer is relied on for here.  Every endpoint has
    a reference count, an [unsigned long]; [ioaddref] adds one to the
    count of its argument and leaves the other counts alone (io.c:149);
    [ioclose] takes one off the count of its argument and, while the
    count stays above zero, does nothing else (io.c:155).  When the count
    reaches zero [ioclose] runs the endpoint's [close] member, which may
    close further endpoints (the [close] of a seekable wrapper closes the
    backing endpoint), so nothing is assumed about the counts in that
    case.  Neither touches the descriptor table, and the counts do not
    depend on the table. *)
Variable refs : kernel R -> Z -> Z.
Hypothesis ioaddref_counts : forall io k,
  0 <= refs k io < 2 ^ 64 - 1 ->
  forall x, refs (sv_ioaddref R sv io k) x
            = refs k x + (if bool_decide (x = io) then 1 else 0).
Hypothesis ioaddref_table : forall io k, iotab (sv_ioaddref R sv io k) = iotab k.
Hypothesis ioclose_counts : forall io k,
  1 < refs k io < 2 ^ 64 ->
  forall x, refs (sv_ioclose R sv io k) x
            = refs k x - (if bool_decide (x = io) then 1 else 0).
Hypothesis ioclose_table : forall io k, iotab (sv_ioclose R sv io k) = iotab k.
Hypothesis refs_frame : forall k tab x, refs (set_iotab R k tab) x = refs k x.

(** The number of descriptors that hold the endpoint [x]. *)
Definition holders (k : kernel R) (x : Z) : Z :=
  Z.of_nat (length (filter (fun e => e = Some x) (iotab k))).

Lemma holders_insert (tab : list (option Z)) (n : nat) (e v : option Z) (x : Z) :
  tab !! n = Some e ->
  Z.of_nat (length (filter (fun e => e = Some x) (<[n := v]> tab)))
  = Z.of_nat (length (filter (fun e => e = Some x) tab))
    - (if bool_decide (e = Some x) then 1 else 0)
    + (if bool_decide (v = Some x) then 1 else 0).
Proof.
  intros Hn. pose proof (lookup_lt_Some _ _ _ Hn) as Hlt.
  rewrite (insert_take_drop tab n v Hlt).
  rewrite <- (take_drop_middle tab n e Hn) at 3.
  rewrite !filter_app, !filter_cons, !length_app.
  do 2 case_bool_decide.
  - rewrite !decide_True by done. cbn [length]. lia.
  - rewrite decide_False, decide_True by done. cbn [length]. lia.
  - rewrite decide_True, decide_False by done. cbn [length]. lia.
  - rewrite !decide_False by done. lia.
Qed.

Lemma slot_lookup (k : kernel R) (fd : Z) :
  (Z.to_nat fd < length (iotab k))%nat ->
  iotab k !! Z.to_nat fd = Some (slot R k fd).
Proof.
  intros Hlt. unfold slot.
  destruct (lookup_lt_is_Some_2 _ _ Hlt) as [e He]. rewrite He. now destruct e.
Qed.

Lemma holders_set_slot (k : kernel R) (fd : Z) (v : option Z) (x : Z) :
  (Z.to_nat fd < length (iotab k))%nat ->
  holders (set_slot R k fd v) x
  = holders k x - (if bool_decide (slot R k fd = Some x) then 1 else 0)
    + (if bool_decide (v = Some x) then 1 else 0).
Proof.
  intros Hlt. unfold holders, set_slot. cbn [iotab set_iotab].
  now apply holders_insert, slot_lookup.
Qed.

Lemma slot_set_slot (k : kernel R) (fd fd' : Z) (v : option Z) :
  0 <= fd -> 0 <= fd' -> (Z.to_nat fd < length (iotab k))%nat ->
  slot R (set_slot R k fd v) fd' = if bool_decide (fd' = fd) then v else slot R k fd'.
Proof.
  intros H1 H2 Hlt. unfold slot, set_slot. cbn [iotab set_iotab].
  case_bool_decide as E.
  - subst fd'. rewrite list_lookup_insert_eq by done. now destruct v.
  - rewrite list_lookup_insert_ne by lia. done.
Qed.

Lemma same_endpoint (a x : Z) :
  (if bool_decide (Some a = Some x) then 1 else 0)
  = (if bool_decide (x = a) then 1 else 0).
Proof.
  destruct (decide (x = a)) as [->|Hne].
  - now rewrite !bool_decide_true by done.
  - rewrite !bool_decide_false; [done|done|]. intros [= ->]. done.
Qed.

(** Every descriptor holds one reference.  A successful [sysiodup]
    returns 0 (not the descriptor), leaves the endpoint of [oldfd] also
    at the new descriptor (the lowest free one for a negative [newfd]),
    keeps the other descriptors, and closes what the new descriptor held
    before it takes the new reference; a successful [sysclose] closes
    the endpoint of the descriptor and clears the descriptor.  As long
    as the endpoint that is closed keeps another reference (so that its
    [close] member does not run), both change the reference count of
    every endpoint by exactly the change in the number of descriptors
    that hold it. *)
Theorem descriptors_hold_references (k : kernel R) :
  length (iotab k) = Z.to_nat PROCESS_IOMAX ->
  (forall oldfd newfd r k',
     sysiodup R sv oldfd newfd k = SysRet r k' ->
     let nfd := if newfd <? 0 then next_free R k else newfd in
     (r = 0 ->
      exists io,
        slot R k oldfd = Some io /\ slot R k' nfd = Some io /\
        0 <= nfd < PROCESS_IOMAX /\
        (forall fd, 0 <= fd -> fd <> nfd -> slot R k' fd = slot R k fd) /\
        k' = set_slot R
               (sv_ioaddref R sv io
                  (match slot R k nfd with
                   | Some was => sv_ioclose R sv was k
                   | None => k
                   end)) nfd (Some io)) /\
     (r <> 0 -> r = - EBADFD /\ k' = k) /\
     ((forall io, slot R k oldfd = Some io -> 0 <= refs k io < 2 ^ 64 - 1) ->
      (forall was, slot R k nfd = Some was -> 1 < refs k was < 2 ^ 64) ->
      forall x, refs k' x - holders k' x = refs k x - holders k x)) /\
  (forall fd r k',
     sysclose R sv fd k = SysRet r k' ->
     (r = 0 ->
      0 <= fd < PROCESS_IOMAX /\
      exists io, slot R k fd = Some io /\ slot R k' fd = None /\
                 k' = set_slot R (sv_ioclose R sv io k) fd None) /\
     (r <> 0 -> r = - EBADFD /\ k' = k) /\
     ((forall io, slot R k fd = Some io -> 1 < refs k io < 2 ^ 64) ->
      forall x, refs k' x - holders k' x = refs k x - holders k x)).
Proof.
  intros Hlen. change (Z.to_nat PROCESS_IOMAX) with 16%nat in Hlen.
  assert (Hbad : - EBADFD <> 0) by done.
  split.
  - intros oldfd newfd r k'. unfold sysiodup.
    destruct ((oldfd <? 0) || (PROCESS_IOMAX <=? oldfd)) eqn:Eold.
    { intros [= <- <-]. cbv zeta. split; [done|]. split; [done | done]. }
    apply orb_false_iff in Eold as [E1%Z.ltb_ge E2%Z.leb_gt].
    destruct (slot R k oldfd) as [old|] eqn:Hold.
    2:{ intros [= <- <-]. cbv zeta. split; [done|]. split; [done | done]. }
    pose proof (next_free_spec R k) as (Hnf & _ & _).
    set (nfd := if newfd <? 0 then next_free R k else newfd).
    assert (Hn0 : 0 <= nfd).
    { subst nfd. destruct (newfd <? 0) eqn:E; [lia|]. now apply Z.ltb_ge in E. }
    destruct (PROCESS_IOMAX <=? nfd) eqn:Enew.
    { intros [= <- <-]. cbv zeta. split; [done|]. split; [done | done]. }
    apply Z.leb_gt in Enew. unfold PROCESS_IOMAX in *.
    set (k1 := match slot R k nfd with Some io => sv_ioclose R sv io k | None => k end).
    assert (Ht1 : iotab k1 = iotab k).
    { subst k1. destruct (slot R k nfd) as [was|]; [|done]. apply ioclose_table. }
    assert (Hs1 : forall fd, slot R k1 fd = slot R k fd).
    { intros fd. unfold slot. now rewrite Ht1. }
    rewrite Hs1, Hold. intros [= <- <-]. cbv zeta.
    set (k2 := sv_ioaddref R sv old k1).
    assert (Ht2 : iotab k2 = iotab k).
    { subst k2. rewrite ioaddref_table. exact Ht1. }
    assert (Hs2 : forall fd, slot R k2 fd = slot R k fd).
    { intros fd. unfold slot. now rewrite Ht2. }
    assert (Hlt : (Z.to_nat nfd < length (iotab k2))%nat) by (rewrite Ht2; lia).
    split; [|split; [done|]].
    + intros _. exists old. split; [done|]. split.
      { rewrite slot_set_slot by (try lia; done). now rewrite bool_decide_true. }
      split; [lia|]. split; [|done].
      intros fd Hfd Hne. rewrite slot_set_slot by (try lia; done).
      rewrite bool_decide_false by done. apply Hs2.
    + intros Hold_cnt Hwas x.
      specialize (Hold_cnt old eq_refl).
      assert (Hr1 : forall y, refs k1 y
                = refs k y - (if bool_decide (slot R k nfd = Some y) then 1 else 0)).
      { intros y. subst k1. destruct (slot R k nfd) as [was|] eqn:Hw.
        - rewrite (ioclose_counts was k (Hwas was eq_refl)).
          now rewrite same_endpoint.
        - rewrite bool_decide_false by done. lia. }
      assert (Hold1 : 0 <= refs k1 old < 2 ^ 64 - 1).
      { rewrite Hr1. case_bool_decide as E; [|lia].
        pose proof (Hwas old E). lia. }
      rewrite (holders_set_slot k2 nfd (Some old) x Hlt).
      unfold set_slot. rewrite refs_frame. subst k2.
      rewrite (ioaddref_counts old k1 Hold1), Hr1.
      replace (holders (sv_ioaddref R sv old k1) x) with (holders k x)
        by (unfold holders; now rewrite Ht2).
      rewrite Hs2, same_endpoint. lia.
  - intros fd r k'. unfold sysclose, bad_fd.
    destruct ((fd <? 0) || (PROCESS_IOMAX <=? fd)) eqn:Efd; cbn [orb].
    { intros [= <- <-]. split; [done|]. split; [done | done]. }
    apply orb_false_iff in Efd as [E1%Z.ltb_ge E2%Z.leb_gt]. unfold PROCESS_IOMAX in *.
    destruct (slot R k fd) as [io|] eqn:Hio.
    2:{ rewrite bool_decide_true by done. intros [= <- <-].
        split; [done|]. split; [done | done]. }
    rewrite bool_decide_false by done. intros [= <- <-].
    pose proof (ioclose_table io k) as Ht.
    assert (Hlt : (Z.to_nat fd < length (iotab (sv_ioclose R sv io k)))%nat)
      by (rewrite Ht; lia).
    split; [|split; [done|]].
    + intros _. split; [lia|]. exists io. split; [done|]. split; [|done].
      rewrite slot_set_slot by (try lia; done). now rewrite bool_decide_true.
    + intros Hcnt x. rewrite (holders_set_slot _ fd None x Hlt).
      unfold set_slot. rewrite refs_frame.
      rewrite (ioclose_counts io k (Hcnt io eq_refl)).
      replace (holders (sv_ioclose R sv io k) x) with (holders k x)
        by (unfold holders; now rewrite Ht).
      replace (slot R (sv_ioclose R sv io k) fd) with (Some io)
        by (unfold slot in *; now rewrite Ht).
      rewrite (bool_decide_false (None = Some x)) by done.
      rewrite same_endpoint. lia.
Qed.

End References.

(** The endpoints of a process: the [struct io] of each, the backing
    endpoint of each seekable wrapper ([sio->bkgio]), and the endpoints
    whose [close] member has run, in order. *)
Record endpoints := mk_endpoints {
  obj : Z -> Endpoint.io;
  bkgio : Z -> option Z;
  closed : list Z
}.

Definition set_obj (st : endpoints) (io : Z) (o : Endpoint.io) : endpoints :=
  mk_endpoints (fun x => if bool_decide (x = io) then o else obj st x)
               (bkgio st) (closed st).

Definition ran_close (st : endpoints) (io : Z) : endpoints :=
  mk_endpoints (obj st) (bkgio st) (closed st ++ [io]).

(** [ioaddref] on the endpoint at [io]. *)
Definition ioaddref_at (io : Z) (st : endpoints) : endpoints :=
  set_obj st io (Endpoint.ioaddref (obj st io)).

(** [ioclose] on an endpoint whose [close] member closes no other
    endpoint (a device, a file of the file system).  Where the assertion
    on the count fails the kernel halts; the state is left as it is. *)
Definition ioclose_plain (io : Z) (st : endpoints) : endpoints :=
  match Endpoint.ioclose (obj st io) with
  | None => st
  | Some (o, run) =>
      let st1 := set_obj st io o in
      if run then ran_close st1 io else st1
  end.

(** [ioclose] on any endpoint: the [close] member of a seekable wrapper
    ([seekio_close]) calls [ioclose] on the backing endpoint, which is
    not a wrapper. *)
Definition ioclose_at (io : Z) (st : endpoints) : endpoints :=
  match Endpoint.ioclose (obj st io) with
  | None => st
  | Some (o, run) =>
      let st1 := set_obj st io o in
      if run then
        match bkgio st io with
        | Some b => ioclose_plain b (ran_close st1 io)
        | None => ran_close st1 io
        end
      else st1
  end.

Definition endpoint_services : services endpoints :=
  mk_services endpoints
    (fun k => k)
    (fun _ _ _ k => SysRet 0 k)
    (fun _ k => (0, k))
    (fun _ k => (0, k))
    (fun _ k => k)
    (fun _ k => k)
    (fun _ _ k => (0, None, k))
    (fun _ k => (0, None, k))
    (fun _ k => (0, k))
    (fun _ k => (0, k))
    (fun io k => mk_kernel (iotab k) (proc_tid k) (vmem k) (ioclose_at io (rest k)))
    (fun io k => mk_kernel (iotab k) (proc_tid k) (vmem k) (ioaddref_at io (rest k)))
    (fun _ _ _ k => (0, k))
    (fun _ _ _ k => (0, k))
    (fun _ _ _ k => (0, k))
    (fun k => (Some (0x80710000, 0x80710040), k))
    (fun _ _ => -1)
    (fun _ _ k => k).

Definition refcount (k : kernel endpoints) (x : Z) : Z :=
  Endpoint.refcnt (obj (rest k) x).

Lemma endpoint_ioaddref_counts (io : Z) (k : kernel endpoints) :
  0 <= refcount k io < 2 ^ 64 - 1 ->
  forall x, refcount (sv_ioaddref _ endpoint_services io k) x
            = refcount k x + (if bool_decide (x = io) then 1 else 0).
Proof.
  intros Hr x. unfold refcount in *. cbn.
  case_bool_decide as E.
  - subst x. cbn. now rewrite wrap64_small by lia.
  - lia.
Qed.

Lemma endpoint_ioclose_counts (io : Z) (k : kernel endpoints) :
  1 < refcount k io < 2 ^ 64 ->
  forall x, refcount (sv_ioclose _ endpoint_services io k) x
            = refcount k x - (if bool_decide (x = io) then 1 else 0).
Proof.
  intros Hr x. unfold refcount in *. cbn. unfold ioclose_at, Endpoint.ioclose.
  destruct (Endpoint.refcnt (obj (rest k) io) =? 0) eqn:E0;
    [apply Z.eqb_eq in E0; lia|].
  rewrite wrap64_small by lia.
  destruct (Endpoint.refcnt (obj (rest k) io) - 1 =? 0) eqn:E1;
    [apply Z.eqb_eq in E1; lia|].
  cbn. case_bool_decide as E.
  - subst x. reflexivity.
  - lia.
Qed.

(** A process with a file open at descriptors 0 and 1: both hold the
    seekable wrapper at [0x80700000] (two references), whose backing
    endpoint, the file at [0x80600000], has the wrapper's reference only;
    descriptor 2 holds a device endpoint. *)
Definition file_endpoints (wrapper_refs : Z) : endpoints :=
  mk_endpoints
    (fun x => if x =? 0x80700000 then Endpoint.mk_io wrapper_refs true
              else Endpoint.mk_io 1 true)
    (fun x => if x =? 0x80700000 then Some 0x80600000 else None)
    [].

Definition counted : kernel endpoints :=
  mk_kernel (Some 0x80700000 :: Some 0x80700000 :: Some 0x80700040 :: replicate 13 None)
            3 VMem.sample_vm (file_endpoints 2).

Lemma descriptors_hold_references_witness :
  (forall x,
     refcount (set_slot _ (sv_ioclose _ endpoint_services 0x80700000 counted) 1 None) x
     - holders _ (set_slot _ (sv_ioclose _ endpoint_services 0x80700000 counted) 1 None) x
     = refcount counted x - holders _ counted x) /\
  refcount (set_slot _ (sv_ioclose _ endpoint_services 0x80700000 counted) 1 None)
    0x80700000 = 1 /\
  refcount (set_slot _ (sv_ioclose _ endpoint_services 0x80700000 counted) 1 None)
    0x80600000 = 1.
Proof.
  split; [|split; reflexivity].
  refine (proj2 (proj2 (proj2 (descriptors_hold_references _ endpoint_services
                          refcount endpoint_ioaddref_counts _ endpoint_ioclose_counts
                          _ _ counted eq_refl)
                       1 0 _ eq_refl)) _).
  - intros io k. reflexivity.
  - intros io k. reflexivity.
  - intros k tab x. reflexivity.
  - intros io [= <-]. cbn. lia.
Defined.

(** The process above with the file open at descriptor 0 only. *)
Definition last_holder : kernel endpoints :=
  mk_kernel (Some 0x80700000 :: None :: Some 0x80700040 :: replicate 13 None)
            3 VMem.sample_vm (file_endpoints 1).

(** Closing the last descriptor of an open file runs the wrapper's
    [close], which closes the file below it: the count of the backing
    endpoint falls to zero although no descriptor held it. *)
Example last_close_reaches_backing :
  exists k',
    sysclose _ endpoint_services 0 last_holder = SysRet 0 k' /\
    closed (rest k') = [0x80700000; 0x80600000] /\
    refcount last_holder 0x80600000 = 1 /\ holders _ last_holder 0x80600000 = 0 /\
    refcount k' 0x80600000 = 0 /\ holders _ k' 0x80600000 = 0.
Proof. eexists. repeat split. Qed.

(** Duplicating a descriptor onto itself closes the endpoint before
    the new reference is taken: with a single reference the count
    passes through zero, [ioclose] runs the endpoint's [close], and the
    descriptor goes on holding the closed endpoint. *)
Example self_dup_closes_endpoint :
  exists k',
    sysiodup _ endpoint_services 2 2 last_holder = SysRet 0 k' /\
    slot _ k' 2 = Some 0x80700040 /\
    closed (rest k') = [0x80700040] /\
    refcount k' 0x80700040 = 1.
Proof. eexists. repeat split. Qed.

End Trap.

(** * I/O endpoints (io.c) *)

Module Io.

(** io.h *)
Definition IOCTL_GETBLKSZ : Z := 0.
Definition IOCTL_GETEND : Z := 2.
Definition IOCTL_SETEND : Z := 3.
Definition IOCTL_GETPOS : Z := 4.
Definition IOCTL_SETPOS : Z := 5.

Definition PIPE_BUFSZ : Z := PAGE_SIZE.

(** ** The memory endpoint *)

(** [struct memio]: the block of memory (its bytes) and [size]. *)
Record memio := mk_memio { mbuf : list Z; msize : Z }.

(** [memio_readat]: the return value and the bytes copied out.  [pos]
    is an [unsigned long long], [bufsz] a [long]; the sum is taken in
    64-bit unsigned arithmetic. *)
Definition memio_readat (m : memio) (pos bufsz : Z) : Z * list Z :=
  if (msize m <=? pos) || (bufsz <? 0) then (- EINVAL, [])
  else
    let bufsz :=
      if msize m <? wrap64 (pos + wrap64 bufsz)
      then to_long (wrap64 (msize m - pos)) else bufsz in
    (bufsz, take (Z.to_nat bufsz) (drop (Z.to_nat pos) (mbuf m))).

(** [memio_writeat]: the return value and the endpoint after the copy. *)
Definition memio_writeat (m : memio) (pos : Z) (src : list Z) (len : Z) : Z * memio :=
  if (msize m <=? pos) || (len <? 0) then (- EINVAL, m)
  else
    let len :=
      if msize m <? wrap64 (pos + wrap64 len)
      then to_long (wrap64 (msize m - pos)) else len in
    (len,
     mk_memio (take (Z.to_nat pos) (mbuf m) ++ take (Z.to_nat len) src
               ++ drop (Z.to_nat pos + Z.to_nat len) (mbuf m))
              (msize m)).

(** [memio_cntl]: the return value, the endpoint, and what is stored
    through [arg] ([arg] below is the value [*arg] on entry). *)
Definition memio_cntl (m : memio) (cmd arg : Z) : Z * memio * option Z :=
  if cmd =? IOCTL_GETBLKSZ then (1, m, None)
  else if cmd =? IOCTL_GETEND then (0, m, Some (msize m))
  else if cmd =? IOCTL_SETEND then
    if msize m <? arg then (- EINVAL, m, None)
    else (0, mk_memio (mbuf m) arg, None)
  else (- ENOTSUP, m, None).

(** ** Pipes *)

(** [struct pipe]: the ring (a page of bytes by index), the indices and
    the two flags.  The two conditions carry no data of their own; a
    call that reaches [condition_wait] is reported as blocked. *)
Record pipe := mk_pipe {
  buf : Z -> Z;
  head : Z;
  tail : Z;
  closed_read : bool;
  closed_write : bool
}.

(** A call either returns, or is suspended in [condition_wait] with
    its locals [total] and [len] (and, for a read, the bytes stored in
    the caller's buffer so far). *)
Inductive read_result :=
| RDone (ret : Z) (out : list Z)
| RBlocked (total : Z) (len : nat) (out : list Z).

Inductive write_result :=
| WDone (ret : Z)
| WBlocked (total : Z) (len : nat).

(** The loop of [pipe_read], entered with [len] bytes still wanted.
    Resuming a blocked read re-enters the loop with the saved locals. *)
Fixpoint pipe_read_loop (p : pipe) (out : list Z) (total : Z) (len : nat)
    : read_result * pipe :=
  match len with
  | O => (RDone total out, p)
  | S len' =>
      if head p =? tail p then
        if closed_write p then (RDone (if 0 <? total then total else 0) out, p)
        else (RBlocked total len out, p)
      else
        pipe_read_loop
          (mk_pipe (buf p) (head p) ((tail p + 1) mod PIPE_BUFSZ)
                   (closed_read p) (closed_write p))
          (out ++ [buf p (tail p)]) (total + 1) len'
  end.

Definition pipe_read (p : pipe) (len : Z) : read_result * pipe :=
  pipe_read_loop p [] 0 (Z.to_nat len).

(** The loop of [pipe_write]; [src] is the caller's buffer. *)
Fixpoint pipe_write_loop (p : pipe) (src : list Z) (total : Z) (len : nat)
    : write_result * pipe :=
  match len with
  | O => (WDone total, p)
  | S len' =>
      if (head p + 1) mod PIPE_BUFSZ =? tail p then
        if closed_read p then (WDone (- EPIPE), p)
        else (WBlocked total len, p)
      else
        pipe_write_loop
          (mk_pipe (fun i => if i =? head p then nth (Z.to_nat total) src 0 else buf p i)
                   ((head p + 1) mod PIPE_BUFSZ) (tail p)
                   (closed_read p) (closed_write p))
          src (total + 1) len'
  end.

Definition pipe_write (p : pipe) (src : list Z) (len : Z) : write_result * pipe :=
  pipe_write_loop p src 0 (Z.to_nat len).

(** [pipe_close] on the reader or the writer endpoint (the flags only;
    the page is freed when both are set). *)
Definition pipe_close (p : pipe) (is_writer : bool) : pipe :=
  if is_writer then mk_pipe (buf p) (head p) (tail p) (closed_read p) true
  else mk_pipe (buf p) (head p) (tail p) true (closed_write p).

(** The indices stay inside the page. *)
Definition pipe_ok (p : pipe) : Prop :=
  0 <= head p < PIPE_BUFSZ /\ 0 <= tail p < PIPE_BUFSZ.

(** Bytes written and not yet read. *)
Definition unread (p : pipe) : Z := (head p - tail p) mod PIPE_BUFSZ.

(** A fresh pipe, as [create_pipe] makes it ([kcalloc] zeroes the
    indices and flags; what the page holds does not matter). *)
Definition new_pipe : pipe := mk_pipe (fun _ => 0) 0 0 false false.

(** *** The memory endpoint: bounds *)

Lemma memio_readat_past_end m pos bufsz :
  msize m <= pos -> memio_readat m pos bufsz = (- EINVAL, []).
Proof.
  intros H. unfold memio_readat. apply Z.leb_le in H. now rewrite H.
Qed.

Lemma memio_readat_truncates m pos bufsz :
  0 <= pos < msize m -> msize m <= 2 ^ 63 -> 0 <= bufsz < 2 ^ 63 ->
  msize m < pos + bufsz ->
  memio_readat m pos bufsz
  = (msize m - pos, take (Z.to_nat (msize m - pos)) (drop (Z.to_nat pos) (mbuf m))).
Proof.
  intros Hp Hs Hb Hover. unfold memio_readat.
  assert (E1 : (msize m <=? pos) = false) by (apply Z.leb_gt; lia).
  assert (E2 : (bufsz <? 0) = false) by (apply Z.ltb_ge; lia).
  rewrite E1, E2. cbn [orb].
  rewrite (wrap64_small bufsz) by lia.
  rewrite (wrap64_small (pos + bufsz)) by lia.
  assert (E3 : (msize m <? pos + bufsz) = true) by (apply Z.ltb_lt; lia).
  rewrite E3.
  rewrite (wrap64_small (msize m - pos)) by lia.
  rewrite to_long_small by lia. reflexivity.
Qed.

Lemma memio_readat_inside m pos bufsz :
  0 <= pos < msize m -> msize m <= 2 ^ 63 -> 0 <= bufsz < 2 ^ 63 ->
  pos + bufsz <= msize m ->
  memio_readat m pos bufsz
  = (bufsz, take (Z.to_nat bufsz) (drop (Z.to_nat pos) (mbuf m))).
Proof.
  intros Hp Hs Hb Hin. unfold memio_readat.
  assert (E1 : (msize m <=? pos) = false) by (apply Z.leb_gt; lia).
  assert (E2 : (bufsz <? 0) = false) by (apply Z.ltb_ge; lia).
  rewrite E1, E2. cbn [orb].
  rewrite (wrap64_small bufsz) by lia.
  rewrite (wrap64_small (pos + bufsz)) by lia.
  assert (E3 : (msize m <? pos + bufsz) = false) by (apply Z.ltb_ge; lia).
  now rewrite E3.
Qed.

Lemma memio_setend m new_end :
  (new_end <= msize m ->
     memio_cntl m IOCTL_SETEND new_end = (0, mk_memio (mbuf m) new_end, None)) /\
  (msize m < new_end ->
     memio_cntl m IOCTL_SETEND new_end = (- EINVAL, m, None)).
Proof.
  unfold memio_cntl. change (IOCTL_SETEND =? IOCTL_GETBLKSZ) with false.
  change (IOCTL_SETEND =? IOCTL_GETEND) with false.
  change (IOCTL_SETEND =? IOCTL_SETEND) with true. cbv iota.
  split; intros H.
  - apply Z.ltb_ge in H. now rewrite H.
  - apply Z.ltb_lt in H. now rewrite H.
Qed.

(** C6 (as the code has it): a [readat] at or past the end fails with
    [-EINVAL]; one that starts inside the buffer and runs past the end
    is cut to the bytes available and returns that count; [SETEND]
    succeeds exactly when the new end does not exceed the size. *)
Theorem memio_bounds (m : memio) (pos bufsz new_end : Z) :
  0 <= pos < 2 ^ 64 -> 0 <= msize m <= 2 ^ 63 -> 0 <= bufsz < 2 ^ 63 ->
  (msize m <= pos -> fst (memio_readat m pos bufsz) = - EINVAL) /\
  (pos < msize m -> msize m < pos + bufsz ->
     memio_readat m pos bufsz
     = (msize m - pos, take (Z.to_nat (msize m - pos)) (drop (Z.to_nat pos) (mbuf m)))) /\
  (pos < msize m -> pos + bufsz <= msize m -> fst (memio_readat m pos bufsz) = bufsz) /\
  (fst (fst (memio_cntl m IOCTL_SETEND new_end)) = 0 <-> new_end <= msize m) /\
  (new_end <= msize m ->
     msize (snd (fst (memio_cntl m IOCTL_SETEND new_end))) = new_end) /\
  (msize m < new_end ->
     memio_cntl m IOCTL_SETEND new_end = (- EINVAL, m, None)).
Proof.
  intros Hp Hs Hb.
  destruct (memio_setend m new_end) as [Hle Hgt].
  split; [|split; [|split; [|split; [|split]]]].
  - intros H. now rewrite memio_readat_past_end.
  - intros H1 H2. apply memio_readat_truncates; lia.
  - intros H1 H2. rewrite memio_readat_inside; [reflexivity|lia..].
  - split.
    + intros H. destruct (Z.le_gt_cases new_end (msize m)) as [|Hlt]; [done|].
      rewrite (Hgt Hlt) in H. cbn in H. discriminate.
    + intros H. now rewrite (Hle H).
  - intros H. now rewrite (Hle H).
  - exact Hgt.
Qed.

Definition sample_memio : memio := mk_memio [10; 20; 30; 40] 4.

Lemma memio_bounds_witness :
  0 <= 2 < 2 ^ 64 /\ 0 <= msize sample_memio <= 2 ^ 63 /\ 0 <= 8 < 2 ^ 63 /\
  memio_readat sample_memio 2 8 = (2, [30; 40]).
Proof.
  assert (H1 : 0 <= 2 < 2 ^ 64) by lia.
  assert (H2 : 0 <= msize sample_memio <= 2 ^ 63) by (cbn; lia).
  assert (H3 : 0 <= 8 < 2 ^ 63) by lia.
  split; [exact H1|]. split; [exact H2|]. split; [exact H3|].
  refine (proj1 (proj2 (memio_bounds sample_memio 2 8 0 H1 H2 H3)) _ _); cbn; lia.
Defined.

(** C6 as stated fails: a [readat] at the end of the buffer returns
    [-EINVAL], not 0. *)
Lemma memio_readat_at_end_is_error :
  fst (memio_readat sample_memio 4 1) = - EINVAL /\
  fst (memio_readat sample_memio 4 1) <> 0.
Proof. split; [reflexivity | discriminate]. Qed.

(** *** Pipes: the ring *)

Ltac ring_arith :=
  unfold unread, pipe_ok, PIPE_BUFSZ, PAGE_SIZE in *; cbn [head tail] in *;
  Z.div_mod_to_equations; lia.

Lemma full_iff p :
  pipe_ok p -> ((head p + 1) mod PIPE_BUFSZ = tail p <-> unread p = 4095).
Proof. intros H. ring_arith. Qed.

Lemma empty_iff p : pipe_ok p -> (head p = tail p <-> unread p = 0).
Proof. intros H. ring_arith. Qed.

Lemma unread_bound p : 0 <= unread p <= 4095.
Proof. ring_arith. Qed.

(** What the write loop does, by the room left in the ring. *)
Lemma pipe_write_loop_spec len : forall p src total,
  pipe_ok p ->
  exists p',
    pipe_ok p' /\ tail p' = tail p /\
    closed_read p' = closed_read p /\ closed_write p' = closed_write p /\
    if Z.of_nat len <=? 4095 - unread p then
      pipe_write_loop p src total len = (WDone (total + Z.of_nat len), p') /\
      unread p' = unread p + Z.of_nat len
    else
      pipe_write_loop p src total len
      = (if closed_read p then WDone (- EPIPE)
         else WBlocked (total + (4095 - unread p))
                       (len - Z.to_nat (4095 - unread p)), p') /\
      unread p' = 4095.
Proof.
  induction len as [|n IH]; intros p src total Hok.
  - exists p. repeat (split; [done|]).
    pose proof (unread_bound p).
    replace (Z.of_nat 0 <=? 4095 - unread p) with true
      by (symmetry; apply Z.leb_le; lia).
    cbn. split; [f_equal; f_equal; lia | lia].
  - cbn [pipe_write_loop].
    pose proof (unread_bound p) as Hb.
    destruct ((head p + 1) mod PIPE_BUFSZ =? tail p) eqn:Hfull.
    + apply Z.eqb_eq in Hfull. apply (full_iff p Hok) in Hfull.
      exists p. repeat (split; [done|]).
      replace (Z.of_nat (S n) <=? 4095 - unread p) with false
        by (symmetry; apply Z.leb_gt; lia).
      rewrite Hfull. change (4095 - 4095) with 0. cbn [Z.to_nat].
      rewrite Z.add_0_r, Nat.sub_0_r. now destruct (closed_read p).
    + apply Z.eqb_neq in Hfull.
      assert (Hnf : unread p <> 4095) by (intros E; apply Hfull, (full_iff p Hok), E).
      set (p1 := mk_pipe _ _ _ _ _).
      assert (Hok1 : pipe_ok p1) by (subst p1; ring_arith).
      assert (Hu1 : unread p1 = unread p + 1) by (subst p1; ring_arith).
      destruct (IH p1 src (total + 1) Hok1) as (p' & Hok' & Ht & Hcr & Hcw & Hres).
      exists p'. split; [done|]. split; [done|]. split; [done|]. split; [done|].
      rewrite Hu1 in Hres. cbn [closed_read] in Hres.
      destruct (Z.of_nat (S n) <=? 4095 - unread p) eqn:Hfit.
      * apply Z.leb_le in Hfit.
        replace (Z.of_nat n <=? 4095 - (unread p + 1)) with true in Hres
          by (symmetry; apply Z.leb_le; lia).
        destruct Hres as [-> ->]. split; [f_equal; f_equal; lia | lia].
      * apply Z.leb_gt in Hfit.
        replace (Z.of_nat n <=? 4095 - (unread p + 1)) with false in Hres
          by (symmetry; apply Z.leb_gt; lia).
        destruct Hres as [-> ->]. split; [|done].
        replace (total + 1 + (4095 - (unread p + 1))) with (total + (4095 - unread p)) by lia.
        replace (n - Z.to_nat (4095 - (unread p + 1)))%nat
          with (S n - Z.to_nat (4095 - unread p))%nat by lia.
        done.
Qed.

(** What the read loop does, by the bytes in the ring. *)
Lemma pipe_read_loop_spec len : forall p out total,
  pipe_ok p -> 0 <= total ->
  exists p' out',
    pipe_ok p' /\ head p' = head p /\
    closed_read p' = closed_read p /\ closed_write p' = closed_write p /\
    if Z.of_nat len <=? unread p then
      pipe_read_loop p out total len = (RDone (total + Z.of_nat len) out', p') /\
      unread p' = unread p - Z.of_nat len /\
      length out' = (length out + len)%nat
    else
      pipe_read_loop p out total len
      = (if closed_write p then RDone (total + unread p) out'
         else RBlocked (total + unread p) (len - Z.to_nat (unread p)) out', p') /\
      unread p' = 0 /\
      length out' = (length out + Z.to_nat (unread p))%nat.
Proof.
  induction len as [|n IH]; intros p out total Hok Htot.
  - exists p, out. repeat (split; [done|]).
    pose proof (unread_bound p).
    replace (Z.of_nat 0 <=? unread p) with true by (symmetry; apply Z.leb_le; lia).
    cbn. split; [f_equal; f_equal; lia | split; lia].
  - cbn [pipe_read_loop].
    pose proof (unread_bound p) as Hb.
    destruct (head p =? tail p) eqn:Hemp.
    + apply Z.eqb_eq in Hemp. apply (empty_iff p Hok) in Hemp.
      exists p, out. repeat (split; [done|]).
      replace (Z.of_nat (S n) <=? unread p) with false
        by (symmetry; apply Z.leb_gt; lia).
      rewrite Hemp. cbn [Z.to_nat]. rewrite Z.add_0_r, Nat.sub_0_r, Nat.add_0_r.
      split; [|done].
      destruct (closed_write p); [|done].
      destruct (0 <? total) eqn:E; [done|].
      apply Z.ltb_ge in E. now replace total with 0 by lia.
    + apply Z.eqb_neq in Hemp.
      assert (Hne : unread p <> 0) by (intros E; apply Hemp, (empty_iff p Hok), E).
      set (p1 := mk_pipe _ _ _ _ _).
      assert (Hok1 : pipe_ok p1) by (subst p1; ring_arith).
      assert (Hu1 : unread p1 = unread p - 1) by (subst p1; ring_arith).
      destruct (IH p1 (out ++ [buf p (tail p)]) (total + 1) Hok1 ltac:(lia))
        as (p' & out' & Hok' & Hh & Hcr & Hcw & Hres).
      exists p', out'. split; [done|]. split; [done|]. split; [done|]. split; [done|].
      rewrite Hu1 in Hres. cbn [closed_write] in Hres.
      rewrite length_app in Hres. cbn [length] in Hres.
      destruct (Z.of_nat (S n) <=? unread p) eqn:Hfit.
      * apply Z.leb_le in Hfit.
        replace (Z.of_nat n <=? unread p - 1) with true in Hres
          by (symmetry; apply Z.leb_le; lia).
        destruct Hres as (-> & -> & ->).
        split; [f_equal; f_equal; lia | split; lia].
      * apply Z.leb_gt in Hfit.
        replace (Z.of_nat n <=? unread p - 1) with false in Hres
          by (symmetry; apply Z.leb_gt; lia).
        destruct Hres as (-> & -> & ->). split; [|split; [done|lia]].
        replace (total + 1 + (unread p - 1)) with (total + unread p) by lia.
        replace (n - Z.to_nat (unread p - 1))%nat
          with (S n - Z.to_nat (unread p))%nat by lia.
        done.
Qed.

Lemma pipe_read_at_eof p len :
  closed_write p = true -> head p = tail p -> 0 < len ->
  pipe_read p len = (RDone 0 [], p).
Proof.
  intros Hc He Hl. unfold pipe_read.
  destruct (Z.to_nat len) eqn:E; [lia|].
  cbn [pipe_read_loop]. apply Z.eqb_eq in He. now rewrite He, Hc.
Qed.

Lemma pipe_write_full_closed p src total len :
  closed_read p = true -> (head p + 1) mod PIPE_BUFSZ = tail p -> len <> 0%nat ->
  pipe_write_loop p src total len = (WDone (- EPIPE), p).
Proof.
  intros Hc Hf Hl. destruct len; [done|].
  cbn [pipe_write_loop]. apply Z.eqb_eq in Hf. now rewrite Hf, Hc.
Qed.

Lemma pipe_write_full_open p src total len :
  closed_read p = false -> (head p + 1) mod PIPE_BUFSZ = tail p -> len <> 0%nat ->
  pipe_write_loop p src total len = (WBlocked total len, p).
Proof.
  intros Hc Hf Hl. destruct len; [done|].
  cbn [pipe_write_loop]. apply Z.eqb_eq in Hf. now rewrite Hf, Hc.
Qed.

Lemma pipe_write_fits p src len :
  pipe_ok p -> 0 <= len <= 4095 - unread p ->
  exists p', pipe_write p src len = (WDone len, p') /\ pipe_ok p' /\
             unread p' = unread p + len /\ closed_read p' = closed_read p.
Proof.
  intros Hok Hl. unfold pipe_write.
  destruct (pipe_write_loop_spec (Z.to_nat len) p src 0 Hok)
    as (p' & Hok' & _ & Hcr & _ & Hres).
  rewrite Z2Nat.id in Hres by lia.
  replace (len <=? 4095 - unread p) with true in Hres
    by (symmetry; apply Z.leb_le; lia).
  destruct Hres as [Hr Hu]. exists p'. rewrite Hr. now rewrite Z.add_0_l.
Qed.

Lemma pipe_write_overflows p src len :
  pipe_ok p -> 4095 - unread p < len ->
  exists p',
    pipe_write p src len
    = (if closed_read p then WDone (- EPIPE)
       else WBlocked (4095 - unread p)
                     (Z.to_nat len - Z.to_nat (4095 - unread p)), p') /\
    pipe_ok p' /\ unread p' = 4095.
Proof.
  intros Hok Hl. unfold pipe_write. pose proof (unread_bound p).
  destruct (pipe_write_loop_spec (Z.to_nat len) p src 0 Hok)
    as (p' & Hok' & _ & _ & _ & Hres).
  rewrite Z2Nat.id in Hres by lia.
  replace (len <=? 4095 - unread p) with false in Hres
    by (symmetry; apply Z.leb_gt; lia).
  destruct Hres as [Hr Hu]. exists p'. rewrite Hr. now rewrite Z.add_0_l.
Qed.

(** C7 (as the code has it): with the writer closed a read returns the
    bytes it could take, 0 at end of file; with the reader closed a write
    returns [-EPIPE] when it finds the ring full, and otherwise completes
    as if the reader were there. *)
Theorem pipe_eof_and_epipe (p : pipe) :
  pipe_ok p ->
  (closed_write p = true -> forall len out total, 0 <= total ->
     exists p' out',
       pipe_read_loop p out total len
       = (RDone (total + Z.min (Z.of_nat len) (unread p)) out', p') /\
       unread p' = unread p - Z.min (Z.of_nat len) (unread p)) /\
  (closed_write p = true -> head p = tail p -> forall len, 0 < len ->
     pipe_read p len = (RDone 0 [], p)) /\
  (closed_read p = true -> (head p + 1) mod PIPE_BUFSZ = tail p ->
     forall src total len, len <> 0%nat ->
     pipe_write_loop p src total len = (WDone (- EPIPE), p)) /\
  (closed_read p = true -> forall src len, 0 <= len <= 4095 - unread p ->
     fst (pipe_write p src len) = WDone len) /\
  (closed_read p = true -> forall src len, 4095 - unread p < len ->
     fst (pipe_write p src len) = WDone (- EPIPE)).
Proof.
  intros Hok. split; [|split; [|split; [|split]]].
  - intros Hc len out total Htot.
    destruct (pipe_read_loop_spec len p out total Hok Htot)
      as (p' & out' & _ & _ & _ & _ & Hres).
    exists p', out'. rewrite Hc in Hres.
    destruct (Z.of_nat len <=? unread p) eqn:E.
    + apply Z.leb_le in E. rewrite Z.min_l by lia. now destruct Hres as (-> & -> & _).
    + apply Z.leb_gt in E. rewrite Z.min_r by lia.
      destruct Hres as (-> & -> & _). split; [done|lia].
  - intros Hc He len Hl. now apply pipe_read_at_eof.
  - intros Hc Hf src total len Hl. now apply pipe_write_full_closed.
  - intros Hc src len Hl.
    destruct (pipe_write_fits p src len Hok Hl) as (p' & -> & _). done.
  - intros Hc src len Hl.
    destruct (pipe_write_overflows p src len Hok Hl) as (p' & -> & _).
    now rewrite Hc.
Qed.

(** A pipe whose reader end has been closed while the ring is empty. *)
Definition orphan_pipe : pipe := pipe_close new_pipe false.

Lemma new_pipe_ok : pipe_ok new_pipe.
Proof. unfold pipe_ok, new_pipe, PIPE_BUFSZ, PAGE_SIZE. cbn. lia. Qed.

Lemma orphan_pipe_ok : pipe_ok orphan_pipe.
Proof. unfold pipe_ok, orphan_pipe, new_pipe, PIPE_BUFSZ, PAGE_SIZE. cbn. lia. Qed.

Lemma pipe_eof_and_epipe_witness :
  pipe_ok orphan_pipe /\ fst (pipe_write orphan_pipe [104; 105] 2) = WDone 2.
Proof.
  split; [exact orphan_pipe_ok|].
  refine (proj1 (proj2 (proj2 (proj2 (pipe_eof_and_epipe orphan_pipe orphan_pipe_ok))))
            _ [104; 105] 2 _).
  - reflexivity.
  - change (unread orphan_pipe) with 0. lia.
Defined.

(** C7 as stated fails: a write issued after the reader was closed,
    into a ring with room, returns the byte count, not [-EPIPE]. *)
Lemma write_after_reader_closed_succeeds :
  closed_read orphan_pipe = true /\
  fst (pipe_write orphan_pipe [104; 105] 2) = WDone 2 /\
  fst (pipe_write orphan_pipe [104; 105] 2) <> WDone (- EPIPE).
Proof. split; [reflexivity|]. split; [reflexivity | discriminate]. Qed.

(** C10: the ring never holds more than [PAGE_SIZE - 1 = 4095] unread
    bytes.  A write of up to 4095 bytes into an empty pipe returns
    without blocking; the writer takes the ring for full when
    [(head + 1) mod PAGE_SIZE = tail], that is with 4095 bytes unread, so
    a write that would buffer one byte more is suspended there (reader
    still open) with the ring holding 4095 bytes, and goes on once the
    reader has taken bytes out. *)
Theorem pipe_ring_capacity (p : pipe) :
  pipe_ok p ->
  unread p <= PIPE_BUFSZ - 1 /\ PIPE_BUFSZ - 1 = 4095 /\
  ((head p + 1) mod PIPE_BUFSZ = tail p <-> unread p = 4095) /\
  (head p = tail p -> forall src len, 0 <= len <= 4095 ->
     exists p', pipe_write p src len = (WDone len, p') /\
                pipe_ok p' /\ unread p' = len) /\
  (closed_read p = false -> forall src len, 4095 - unread p < len ->
     exists p',
       pipe_write p src len
       = (WBlocked (4095 - unread p)
                   (Z.to_nat len - Z.to_nat (4095 - unread p)), p') /\
       pipe_ok p' /\ unread p' = 4095) /\
  (closed_read p = false -> unread p = 4095 ->
     forall src total len, len <> 0%nat ->
     pipe_write_loop p src total len = (WBlocked total len, p)) /\
  (unread p = 4095 -> forall k src total len,
     (1 <= k <= 4095)%nat -> (len <= k)%nat ->
     exists out p1 p2,
       pipe_read p (Z.of_nat k) = (RDone (Z.of_nat k) out, p1) /\
       pipe_write_loop p1 src total len = (WDone (total + Z.of_nat len), p2) /\
       unread p2 = 4095 - Z.of_nat k + Z.of_nat len).
Proof.
  intros Hok. pose proof (unread_bound p) as Hb.
  split; [unfold PIPE_BUFSZ, PAGE_SIZE; lia|].
  split; [reflexivity|].
  split; [exact (full_iff p Hok)|].
  split; [|split; [|split]].
  - intros He src len Hl. apply (empty_iff p Hok) in He.
    destruct (pipe_write_fits p src len Hok ltac:(lia)) as (p' & Hr & Hok' & Hu & _).
    exists p'. split; [done|]. split; [done|]. lia.
  - intros Hc src len Hl.
    destruct (pipe_write_overflows p src len Hok Hl) as (p' & Hr & Hok' & Hu).
    exists p'. rewrite Hc in Hr. done.
  - intros Hc Hu src total len Hl.
    apply pipe_write_full_open; [done| |done]. now apply (full_iff p Hok).
  - intros Hu k src total len Hk Hl. unfold pipe_read.
    destruct (pipe_read_loop_spec (Z.to_nat (Z.of_nat k)) p [] 0 Hok ltac:(lia))
      as (p1 & out & Hok1 & _ & _ & _ & Hres).
    rewrite Nat2Z.id in *.
    replace (Z.of_nat k <=? unread p) with true in Hres
      by (symmetry; apply Z.leb_le; lia).
    destruct Hres as (Hr & Hu1 & _).
    destruct (pipe_write_loop_spec len p1 src total Hok1)
      as (p2 & _ & _ & _ & _ & Hres2).
    replace (Z.of_nat len <=? 4095 - unread p1) with true in Hres2
      by (symmetry; apply Z.leb_le; lia).
    destruct Hres2 as [Hw Hu2].
    exists out, p1, p2. rewrite Hr, Z.add_0_l. split; [done|]. split; [done|]. lia.
Qed.

Lemma pipe_ring_capacity_witness :
  pipe_ok new_pipe /\
  exists p', pipe_write new_pipe [1; 2; 3] 3 = (WDone 3, p') /\
             pipe_ok p' /\ unread p' = 3.
Proof.
  split; [exact new_pipe_ok|].
  refine (proj1 (proj2 (proj2 (proj2 (pipe_ring_capacity new_pipe new_pipe_ok))))
            _ [1; 2; 3] 3 _).
  - reflexivity.
  - lia.
Defined.

(** The scenario of the specification: the writer puts "hello" and
    closes; the reader gets the five bytes and then end of file. *)
Example hello_then_eof :
  let p1 := pipe_close (snd (pipe_write new_pipe [104; 101; 108; 108; 111] 5)) true in
  fst (pipe_read p1 16) = RDone 5 [104; 101; 108; 108; 111] /\
  fst (pipe_read (snd (pipe_read p1 16)) 16) = RDone 0 [].
Proof. split; reflexivity. Qed.

(** *** The memory endpoint: what a write leaves *)

(** [memio_writeat] then [memio_readat] at the same place: the write
    stores the first [min len (size - pos)] bytes of [src], keeps the size
    and every byte outside that range, and the read gives those bytes
    back. *)
Theorem memio_write_then_read (m : memio) (pos len : Z) (src : list Z) :
  0 <= pos < msize m -> msize m <= 2 ^ 63 -> msize m = Z.of_nat (length (mbuf m)) ->
  0 <= len < 2 ^ 63 -> Z.to_nat len = length src ->
  let n := Z.min len (msize m - pos) in
  let m' := snd (memio_writeat m pos src len) in
  fst (memio_writeat m pos src len) = n /\
  msize m' = msize m /\ length (mbuf m') = length (mbuf m) /\
  memio_readat m' pos len = (n, take (Z.to_nat n) src) /\
  (forall i, (i < Z.to_nat pos \/ Z.to_nat pos + Z.to_nat n <= i)%nat ->
     mbuf m' !! i = mbuf m !! i).
Proof.
  intros Hp Hs Hlen Hl Hsrc n m'.
  assert (E1 : (msize m <=? pos) = false) by (apply Z.leb_gt; lia).
  assert (E2 : (len <? 0) = false) by (apply Z.ltb_ge; lia).
  assert (Hw : memio_writeat m pos src len
               = (n, mk_memio (take (Z.to_nat pos) (mbuf m) ++ take (Z.to_nat n) src
                               ++ drop (Z.to_nat pos + Z.to_nat n) (mbuf m)) (msize m))).
  { unfold memio_writeat. rewrite E1, E2. cbn [orb].
    rewrite (wrap64_small len), (wrap64_small (pos + len)) by lia.
    destruct (msize m <? pos + len) eqn:E3.
    - apply Z.ltb_lt in E3. rewrite wrap64_small, to_long_small by lia.
      subst n. now rewrite Z.min_r by lia.
    - apply Z.ltb_ge in E3. subst n. now rewrite Z.min_l by lia. }
  subst m'. rewrite Hw. cbn [fst snd msize mbuf].
  assert (Hn : 0 <= n <= len /\ n <= msize m - pos) by (subst n; lia).
  assert (Hlen' : length (take (Z.to_nat pos) (mbuf m) ++ take (Z.to_nat n) src
                          ++ drop (Z.to_nat pos + Z.to_nat n) (mbuf m))
                  = length (mbuf m)).
  { rewrite !length_app, !length_take, length_drop. lia. }
  split; [done|]. split; [done|]. split; [exact Hlen'|]. split.
  - unfold memio_readat. cbn [msize mbuf]. rewrite E1, E2. cbn [orb].
    rewrite (wrap64_small len), (wrap64_small (pos + len)) by lia.
    assert (Hd : take (Z.to_nat n)
                   (drop (Z.to_nat pos)
                      (take (Z.to_nat pos) (mbuf m) ++ take (Z.to_nat n) src
                       ++ drop (Z.to_nat pos + Z.to_nat n) (mbuf m)))
                 = take (Z.to_nat n) src).
    { rewrite drop_app_length' by (rewrite length_take; lia).
      rewrite take_app_length' by (rewrite length_take; lia). done. }
    destruct (msize m <? pos + len) eqn:E3.
    + apply Z.ltb_lt in E3. rewrite wrap64_small, to_long_small by lia.
      replace (msize m - pos) with n by (subst n; lia). now rewrite Hd.
    + apply Z.ltb_ge in E3. replace len with n at 1 2 by (subst n; lia). now rewrite Hd.
  - intros i [Hi|Hi].
    + rewrite lookup_app_l by (rewrite length_take; lia).
      now rewrite lookup_take_lt.
    + rewrite lookup_app_r by (rewrite length_take; lia).
      rewrite lookup_app_r by (rewrite !length_take; lia).
      rewrite lookup_drop, !length_take. f_equal. lia.
Qed.

Lemma memio_write_then_read_witness :
  0 <= 2 < msize sample_memio /\ msize sample_memio <= 2 ^ 63 /\
  msize sample_memio = Z.of_nat (length (mbuf sample_memio)) /\
  0 <= 3 < 2 ^ 63 /\ Z.to_nat 3 = length [7; 8; 9] /\
  memio_readat (snd (memio_writeat sample_memio 2 [7; 8; 9] 3)) 2 3 = (2, [7; 8]).
Proof.
  assert (H1 : 0 <= 2 < msize sample_memio) by (cbn; lia).
  assert (H2 : msize sample_memio <= 2 ^ 63) by (cbn; lia).
  assert (H3 : msize sample_memio = Z.of_nat (length (mbuf sample_memio))) by reflexivity.
  assert (H4 : 0 <= 3 < 2 ^ 63) by lia.
  assert (H5 : Z.to_nat 3 = length [7; 8; 9]) by reflexivity.
  split; [exact H1|]. split; [exact H2|]. split; [exact H3|].
  split; [exact H4|]. split; [exact H5|].
  exact (proj1 (proj2 (proj2 (proj2
    (memio_write_then_read sample_memio 2 3 [7; 8; 9] H1 H2 H3 H4 H5))))).
Defined.

(** *** Pipes: the bytes in the ring *)

(** The unread bytes, oldest first. *)
Definition contents (p : pipe) : list Z :=
  map (fun k => buf p ((tail p + Z.of_nat k) mod PIPE_BUFSZ))
      (seq 0 (Z.to_nat (unread p))).

Lemma contents_length p : length (contents p) = Z.to_nat (unread p).
Proof. unfold contents. now rewrite length_map, length_seq. Qed.

(** One byte stored at [head]. *)
Lemma contents_put p x :
  pipe_ok p -> (head p + 1) mod PIPE_BUFSZ <> tail p ->
  contents (mk_pipe (fun i => if i =? head p then x else buf p i)
                    ((head p + 1) mod PIPE_BUFSZ) (tail p)
                    (closed_read p) (closed_write p))
  = contents p ++ [x].
Proof.
  intros Hok Hnf. unfold contents.
  set (p1 := mk_pipe _ _ _ _ _).
  assert (Hu : unread p1 = unread p + 1) by (subst p1; ring_arith).
  pose proof (unread_bound p) as Hb.
  rewrite Hu. replace (Z.to_nat (unread p + 1)) with (S (Z.to_nat (unread p))) by lia.
  rewrite seq_S, map_app. cbn [map]. f_equal.
  - apply map_ext_in. intros k Hk. apply in_seq in Hk. subst p1. cbn [buf tail].
    replace ((tail p + Z.of_nat k) mod PIPE_BUFSZ =? head p) with false; [done|].
    symmetry. apply Z.eqb_neq. ring_arith.
  - f_equal. subst p1. cbn [buf tail Nat.add].
    replace ((tail p + Z.of_nat (Z.to_nat (unread p))) mod PIPE_BUFSZ =? head p) with true;
      [done|].
    symmetry. apply Z.eqb_eq. rewrite Z2Nat.id by lia. ring_arith.
Qed.

(** One byte taken at [tail]. *)
Lemma contents_get p :
  pipe_ok p -> head p <> tail p ->
  contents p
  = buf p (tail p)
    :: contents (mk_pipe (buf p) (head p) ((tail p + 1) mod PIPE_BUFSZ)
                         (closed_read p) (closed_write p)).
Proof.
  intros Hok Hne. unfold contents.
  set (p1 := mk_pipe _ _ _ _ _).
  assert (Hu : unread p = unread p1 + 1) by (subst p1; ring_arith).
  pose proof (unread_bound p1) as Hb.
  rewrite Hu. replace (Z.to_nat (unread p1 + 1)) with (S (Z.to_nat (unread p1))) by lia.
  cbn [seq map]. f_equal.
  - f_equal. destruct Hok as [_ Ht]. cbn [Z.of_nat]. rewrite Z.add_0_r.
    apply Z.mod_small. exact Ht.
  - rewrite <- seq_shift, map_map. apply map_ext. intros k. subst p1. cbn [buf tail].
    f_equal. unfold PIPE_BUFSZ, PAGE_SIZE. rewrite Nat2Z.inj_succ.
    rewrite Zplus_mod_idemp_l. f_equal. lia.
Qed.

Lemma pipe_write_loop_contents len : forall p src total,
  pipe_ok p -> Z.of_nat len <= 4095 - unread p -> 0 <= total ->
  exists p',
    pipe_write_loop p src total len = (WDone (total + Z.of_nat len), p') /\
    pipe_ok p' /\
    contents p' = contents p ++ map (fun k => nth (Z.to_nat total + k) src 0) (seq 0 len).
Proof.
  induction len as [|n IH]; intros p src total Hok Hfit Htot.
  - exists p. cbn. rewrite Z.add_0_r, app_nil_r. done.
  - cbn [pipe_write_loop].
    pose proof (unread_bound p) as Hb.
    assert (Hnf : (head p + 1) mod PIPE_BUFSZ <> tail p).
    { intros E. apply (full_iff p Hok) in E. lia. }
    destruct ((head p + 1) mod PIPE_BUFSZ =? tail p) eqn:Hfull;
      [apply Z.eqb_eq in Hfull; done|].
    pose proof (contents_put p (nth (Z.to_nat total) src 0) Hok Hnf) as Hc.
    set (p1 := mk_pipe _ _ _ _ _) in *.
    assert (Hok1 : pipe_ok p1) by (subst p1; ring_arith).
    assert (Hu1 : unread p1 = unread p + 1) by (subst p1; ring_arith).
    destruct (IH p1 src (total + 1) Hok1 ltac:(lia) ltac:(lia)) as (p' & Hr & Hok' & Hc').
    exists p'. split; [rewrite Hr; f_equal; f_equal; lia|]. split; [done|].
    rewrite Hc', Hc, <- app_assoc. f_equal. cbn [seq map app]. f_equal.
    + f_equal. lia.
    + rewrite <- seq_shift, map_map. apply map_ext. intros k. f_equal. lia.
Qed.

Lemma pipe_read_loop_contents len : forall p out total,
  pipe_ok p -> Z.of_nat len <= unread p ->
  exists p',
    pipe_read_loop p out total len
    = (RDone (total + Z.of_nat len) (out ++ take len (contents p)), p') /\
    pipe_ok p' /\ contents p' = drop len (contents p).
Proof.
  induction len as [|n IH]; intros p out total Hok Hfit.
  - exists p. cbn. rewrite Z.add_0_r, app_nil_r. done.
  - cbn [pipe_read_loop].
    assert (Hne : head p <> tail p).
    { intros E. apply (empty_iff p Hok) in E. lia. }
    destruct (head p =? tail p) eqn:Hemp; [apply Z.eqb_eq in Hemp; done|].
    rewrite (contents_get p Hok Hne).
    set (p1 := mk_pipe _ _ _ _ _) in *.
    assert (Hok1 : pipe_ok p1) by (subst p1; ring_arith).
    assert (Hu1 : unread p1 = unread p - 1) by (subst p1; ring_arith).
    destruct (IH p1 (out ++ [buf p (tail p)]) (total + 1) Hok1 ltac:(lia))
      as (p' & Hr & Hok' & Hc').
    exists p'. split; [|split; [done|]].
    + rewrite Hr. cbn [take]. rewrite <- app_assoc. cbn [app]. f_equal. f_equal. lia.
    + now rewrite Hc'.
Qed.

Lemma nth_seq_all (src : list Z) :
  map (fun k => nth (Z.to_nat 0 + k) src 0) (seq 0 (length src)) = src.
Proof.
  apply list_eq. intros i. change (map ?f ?l) with (f <$> l).
  rewrite list_lookup_fmap.
  destruct (decide (i < length src)%nat) as [Hlt|Hge].
  - rewrite lookup_seq_lt by done. cbn.
    destruct (lookup_lt_is_Some_2 src i Hlt) as [x Hx].
    rewrite Hx. f_equal. rewrite nth_lookup.
    change (Z.to_nat 0 + i)%nat with i. now rewrite Hx.
  - rewrite lookup_seq_ge by lia. cbn. symmetry. apply lookup_ge_None. lia.
Qed.

(** The pipe is first-in first-out and loses nothing: a write that
    fits appends its bytes to the unread bytes, a read takes the oldest
    ones, in order; what is written into an empty pipe is what the next
    read of that length returns. *)
Theorem pipe_fifo (p : pipe) :
  pipe_ok p ->
  (forall src len, 0 <= len <= 4095 - unread p -> Z.to_nat len = length src ->
     exists p', pipe_write p src len = (WDone len, p') /\ pipe_ok p' /\
                contents p' = contents p ++ src) /\
  (forall len, 0 <= len <= unread p ->
     exists p', pipe_read p len = (RDone len (take (Z.to_nat len) (contents p)), p') /\
                pipe_ok p' /\ contents p' = drop (Z.to_nat len) (contents p)) /\
  (head p = tail p -> forall src len, 0 <= len <= 4095 -> Z.to_nat len = length src ->
     exists p1 p2, pipe_write p src len = (WDone len, p1) /\
                   pipe_read p1 len = (RDone len src, p2) /\
                   head p2 = tail p2).
Proof.
  intros Hok.
  assert (Hw : forall q src len, pipe_ok q -> 0 <= len <= 4095 - unread q ->
            Z.to_nat len = length src ->
            exists p', pipe_write q src len = (WDone len, p') /\ pipe_ok p' /\
                       contents p' = contents q ++ src).
  { intros q src len Hq Hl Hs. unfold pipe_write.
    destruct (pipe_write_loop_contents (Z.to_nat len) q src 0 Hq ltac:(lia) ltac:(lia))
      as (p' & Hr & Hok' & Hc).
    exists p'. rewrite Hr, Hc, Z2Nat.id, Z.add_0_l by lia.
    split; [done|]. split; [done|]. f_equal. rewrite Hs. apply nth_seq_all. }
  assert (Hrd : forall q len, pipe_ok q -> 0 <= len <= unread q ->
            exists p', pipe_read q len
                       = (RDone len (take (Z.to_nat len) (contents q)), p') /\
                       pipe_ok p' /\ contents p' = drop (Z.to_nat len) (contents q)).
  { intros q len Hq Hl. unfold pipe_read.
    destruct (pipe_read_loop_contents (Z.to_nat len) q [] 0 Hq ltac:(lia))
      as (p' & Hr & Hok' & Hc).
    exists p'. rewrite Hr, Z2Nat.id, Z.add_0_l by lia. done. }
  split; [intros src len; now apply Hw|]. split; [intros len; now apply Hrd|].
  intros He src len Hl Hs. apply (empty_iff p Hok) in He.
  destruct (Hw p src len Hok ltac:(lia) Hs) as (p1 & Hr1 & Hok1 & Hc1).
  assert (Hc0 : contents p = []).
  { apply length_zero_iff_nil. rewrite contents_length, He. done. }
  rewrite Hc0 in Hc1. cbn [app] in Hc1.
  assert (Hu1 : unread p1 = len).
  { pose proof (contents_length p1) as Hl1. rewrite Hc1 in Hl1.
    pose proof (unread_bound p1). lia. }
  destruct (Hrd p1 len Hok1 ltac:(lia)) as (p2 & Hr2 & Hok2 & Hc2).
  exists p1, p2. split; [done|]. split.
  - rewrite Hr2, Hc1, Hs. now rewrite firstn_all.
  - apply (empty_iff p2 Hok2).
    pose proof (contents_length p2) as Hl2. rewrite Hc2, Hc1, Hs, drop_all in Hl2.
    pose proof (unread_bound p2). cbn in Hl2. lia.
Qed.

Lemma pipe_fifo_witness :
  pipe_ok new_pipe /\
  exists p', pipe_write new_pipe [104; 105] 2 = (WDone 2, p') /\ pipe_ok p' /\
             contents p' = contents new_pipe ++ [104; 105].
Proof.
  split; [exact new_pipe_ok|].
  refine (proj1 (pipe_fifo new_pipe new_pipe_ok) [104; 105] 2 _ _).
  - change (unread new_pipe) with 0. lia.
  - reflexivity.
Defined.

End Io.

(** * Threads, conditions and locks (thread.c) *)

Module Thread.

Definition MAIN_TID : Z := 0.
Definition IDLE_TID : Z := NTHR - 1.

Inductive thread_state :=
| THREAD_UNINITIALIZED
| THREAD_WAITING
| THREAD_RUNNING
| THREAD_READY
| THREAD_EXITED.

#[export] Instance thread_state_eq_dec : EqDecision thread_state.
Proof. solve_decision. Defined.

(** The conditions of this module: a thread's [child_exit] and a
    lock's [cv]. *)
Inductive cond :=
| ChildExit (tid : Z)
| LockCv (l : Z).

(** [struct thread].  A pointer to a thread is the index of its slot in
    [thrtab] (the table owns every thread); the lock list and the wait
    lists are the lists of the linked nodes, head first. *)
Record thread := mk_thread {
  id : Z;
  state : thread_state;
  parent : option Z;
  wait_cond : option cond;
  child_exit : list Z;
  lock_list : list Z
}.

(** [struct lock]; [count] is an [unsigned]. *)
Record lock := mk_lock {
  owner : option Z;
  count : Z;
  cv : list Z
}.

(** The thread manager: [thrtab], the locks in memory by address, the
    ready list, and the running thread (the [tp] register). *)
Record tstate := mk_tstate {
  thrtab : gmap Z thread;
  locks : gmap Z lock;
  ready_list : list Z;
  tp : Z
}.

Definition set_thrtab (s : tstate) (tab : gmap Z thread) : tstate :=
  mk_tstate tab (locks s) (ready_list s) (tp s).
Definition set_locks (s : tstate) (ls : gmap Z lock) : tstate :=
  mk_tstate (thrtab s) ls (ready_list s) (tp s).
Definition set_ready (s : tstate) (rl : list Z) : tstate :=
  mk_tstate (thrtab s) (locks s) rl (tp s).
Definition set_tp (s : tstate) (t : Z) : tstate :=
  mk_tstate (thrtab s) (locks s) (ready_list s) t.

Definition set_state (st : thread_state) (t : thread) : thread :=
  mk_thread (id t) st (parent t) (wait_cond t) (child_exit t) (lock_list t).
Definition set_parent (p : option Z) (t : thread) : thread :=
  mk_thread (id t) (state t) p (wait_cond t) (child_exit t) (lock_list t).
Definition set_wait_cond (c : option cond) (t : thread) : thread :=
  mk_thread (id t) (state t) (parent t) c (child_exit t) (lock_list t).
Definition set_child_exit (w : list Z) (t : thread) : thread :=
  mk_thread (id t) (state t) (parent t) (wait_cond t) w (lock_list t).
Definition set_lock_list (l : list Z) (t : thread) : thread :=
  mk_thread (id t) (state t) (parent t) (wait_cond t) (child_exit t) l.

Definition upd_thread (f : thread -> thread) (t : Z) (s : tstate) : tstate :=
  set_thrtab s (alter f t (thrtab s)).
Definition upd_lock (f : lock -> lock) (l : Z) (s : tstate) : tstate :=
  set_locks s (alter f l (locks s)).

(** The wait list of a condition. *)
Definition waiters (s : tstate) (c : cond) : list Z :=
  match c with
  | ChildExit t => match thrtab s !! t with Some th => child_exit th | None => [] end
  | LockCv l => match locks s !! l with Some lk => cv lk | None => [] end
  end.

Definition set_waiters (c : cond) (w : list Z) (s : tstate) : tstate :=
  match c with
  | ChildExit t => upd_thread (set_child_exit w) t s
  | LockCv l => upd_lock (fun lk => mk_lock (owner lk) (count lk) w) l s
  end.

(** [running_thread_suspend]: the running thread goes to the tail of
    the ready list if it is still RUNNING; the head of the ready list (or
    the idle thread) runs next. *)
Definition running_thread_suspend (s : tstate) : tstate :=
  let s1 :=
    match thrtab s !! tp s with
    | Some cur =>
        if decide (state cur = THREAD_RUNNING)
        then set_ready (upd_thread (set_state THREAD_READY) (tp s) s)
                       (ready_list s ++ [tp s])
        else s
    | None => s
    end in
  let '(next, rl) :=
    match ready_list s1 with
    | [] => (IDLE_TID, [])
    | t :: r => (t, r)
    end in
  set_tp (upd_thread (set_state THREAD_RUNNING) next (set_ready s1 rl)) next.

(** [condition_wait]; the caller is the running thread, which the
    function asserts to be RUNNING. *)
Definition condition_wait (c : cond) (s : tstate) : tstate :=
  let s1 := upd_thread (fun t => set_wait_cond (Some c) (set_state THREAD_WAITING t))
                       (tp s) s in
  running_thread_suspend (set_waiters c (waiters s1 c ++ [tp s]) s1).

(** [condition_broadcast]: every waiter becomes READY and joins the
    ready list, in order. *)
Definition condition_broadcast (c : cond) (s : tstate) : tstate :=
  let w := waiters s c in
  let s1 := set_waiters c [] s in
  let s2 := fold_left
              (fun acc t => upd_thread (fun th => set_wait_cond None (set_state THREAD_READY th)) t acc)
              w s1 in
  set_ready s2 (ready_list s2 ++ w).

(** *** Locks *)

Inductive acquire_result := Acquired | AcqBlocked.

(** [lock_acquire] up to its first suspension; a thread woken from the
    lock's condition runs the same test again. *)
Definition lock_acquire (l : Z) (s : tstate) : option (acquire_result * tstate) :=
  match locks s !! l with
  | None => None
  | Some lk =>
      if decide (owner lk = Some (tp s)) then
        Some (Acquired,
              upd_lock (fun lk => mk_lock (owner lk) (wrap32 (count lk + 1)) (cv lk)) l s)
      else
        match owner lk with
        | Some _ => Some (AcqBlocked, condition_wait (LockCv l) s)
        | None =>
            let s1 := upd_lock (fun lk => mk_lock (Some (tp s)) 1 (cv lk)) l s in
            Some (Acquired,
                  upd_thread (fun t => set_lock_list (l :: lock_list t) t) (tp s) s1)
        end
  end.

(** The unlinking walk of [lock_release]: the list without the first
    occurrence of [l]; [None] when the walk runs off the end. *)
Fixpoint unlink (l : Z) (ls : list Z) : option (list Z) :=
  match ls with
  | [] => None
  | x :: rest =>
      if decide (x = l) then Some rest
      else match unlink l rest with
           | Some r => Some (x :: r)
           | None => None
           end
  end.

(** [lock_release]; [None] is a walk through a NULL link. *)
Definition lock_release (l : Z) (s : tstate) : option tstate :=
  match locks s !! l with
  | None => None
  | Some lk =>
      if decide (owner lk = Some (tp s)) then
        let c := wrap32 (count lk - 1) in
        if 0 <? c then
          Some (upd_lock (fun lk => mk_lock (owner lk) c (cv lk)) l s)
        else
          match thrtab s !! tp s with
          | None => None
          | Some me =>
              match unlink l (lock_list me) with
              | None => None
              | Some rest =>
                  let s1 := upd_thread (set_lock_list rest) (tp s) s in
                  let s2 := upd_lock (fun lk => mk_lock None c (cv lk)) l s1 in
                  Some (condition_broadcast (LockCv l) s2)
              end
          end
      else Some s
  end.

(** *** Thread creation, exit and join *)

(** The slot search of [create_thread]: [tid] from 1, the first free
    slot, [NTHR] when there is none. *)
Fixpoint free_slot (tab : gmap Z thread) (tid : Z) (fuel : nat) : Z :=
  match fuel with
  | O => tid
  | S f =>
      if (tid <? NTHR) && bool_decide (is_Some (tab !! tid))
      then free_slot tab (tid + 1) f else tid
  end.

(** [thread_spawn]: the new thread's id, or [-EMTHR]. *)
Definition thread_spawn (s : tstate) : Z * tstate :=
  let tid := free_slot (thrtab s) 1 (Z.to_nat NTHR) in
  if NTHR <=? tid then (- EMTHR, s)
  else
    let child := mk_thread tid THREAD_READY (Some (tp s)) None [] [] in
    (tid, set_ready (set_thrtab s (<[tid := child]> (thrtab s)))
                    (ready_list s ++ [tid])).

(** The lock loop of [thread_exit]. *)
Fixpoint release_held (held : list Z) (s : tstate) : tstate :=
  match held with
  | [] => s
  | l :: rest =>
      let s1 := upd_thread (set_lock_list rest) (tp s) s in
      let s2 := upd_lock (fun lk => mk_lock None 0 (cv lk)) l s1 in
      release_held rest (condition_broadcast (LockCv l) s2)
  end.

Inductive exit_result :=
| Halted (s : tstate)       (* the main thread: halt_success *)
| Switched (s : tstate).    (* EXITED, another thread runs *)

(** [thread_exit] *)
Definition thread_exit (s : tstate) : exit_result :=
  let held := match thrtab s !! tp s with Some me => lock_list me | None => [] end in
  let s1 := release_held held s in
  match thrtab s1 !! tp s1 with
  | Some me =>
      if id me =? MAIN_TID then Halted s1
      else
        let s2 := upd_thread (set_state THREAD_EXITED) (tp s1) s1 in
        Switched (running_thread_suspend (condition_broadcast (ChildExit (tp s1)) s2))
  | None => Halted s1
  end.

(** [thread_reclaim] *)
Definition thread_reclaim (tid : Z) (s : tstate) : tstate :=
  match thrtab s !! tid with
  | None => s
  | Some thr =>
      let tab :=
        fold_left
          (fun tab ctid =>
             match tab !! ctid with
             | Some c =>
                 if decide (parent c = Some tid)
                 then <[ctid := set_parent (parent thr) c]> tab else tab
             | None => tab
             end)
          (map Z.of_nat (seq 1 (Z.to_nat NTHR - 1))) (thrtab s) in
      set_thrtab s (delete tid tab)
  end.

Inductive join_result :=
| JoinRet (v : Z)
| JoinBlocked (child : Z)   (* suspended on the child's child_exit *)
| JoinFault.                (* [child] is NULL where it is dereferenced *)

(** The tail of [thread_join], from the wait loop on; [child] is the
    pointer (a slot, or NULL).  A joiner woken from [child_exit] runs it
    again. *)
Definition join_wait (child : option Z) (tid : Z) (s : tstate)
    : join_result * tstate :=
  match child with
  | None => (JoinFault, s)
  | Some c =>
      match thrtab s !! c with
      | Some now =>
          if decide (state now = THREAD_EXITED)
          then (JoinRet tid, thread_reclaim tid s)
          else (JoinBlocked c, condition_wait (ChildExit c) s)
      | None => (JoinFault, s)
      end
  end.

(** The search of [thread_join] for [tid == 0]: the first slot whose
    thread has the caller as parent. *)
Fixpoint first_child (s : tstate) (slots : list Z) : option (Z * thread) :=
  match slots with
  | [] => None
  | i :: more =>
      match thrtab s !! i with
      | Some c =>
          if decide (parent c = Some (tp s)) then Some (i, c) else first_child s more
      | None => first_child s more
      end
  end.

(** [thread_join].  [child] starts as NULL and is assigned from
    [thrtab[tid]] only when [0 < tid < NTHR]. *)
Definition thread_join (tid : Z) (s : tstate) : join_result * tstate :=
  let child :=
    if (0 <? tid) && (tid <? NTHR)
    then match thrtab s !! tid with Some _ => Some tid | None => None end
    else None in
  let not_ours :=
    match child with
    | Some c =>
        match thrtab s !! c with
        | Some th => negb (bool_decide (parent th = Some (tp s)))
        | None => false
        end
    | None => false
    end in
  if not_ours then (JoinRet (- EINVAL), s)
  else if tid =? 0 then
    match first_child s (map Z.of_nat (seq 0 (Z.to_nat NTHR))) with
    | None => (JoinRet (- EINVAL), s)
    | Some (i, c) => join_wait (Some i) (id c) s
    end
  else join_wait child tid s.

(** [n] calls of [lock_acquire] that all return, [n] calls of
    [lock_release]. *)
Fixpoint acquire_n (n : nat) (l : Z) (s : tstate) : option tstate :=
  match n with
  | O => Some s
  | S n' =>
      match lock_acquire l s with
      | Some (Acquired, s') => acquire_n n' l s'
      | _ => None
      end
  end.

Fixpoint release_n (n : nat) (l : Z) (s : tstate) : option tstate :=
  match n with
  | O => Some s
  | S n' =>
      match lock_release l s with
      | Some s' => release_n n' l s'
      | None => None
      end
  end.

(** *** The lock invariant *)

Definition lock_ok (lk : lock) : Prop :=
  (0 < count lk <-> owner lk <> None) /\ 0 <= count lk < 2 ^ 32.

Definition lock_inv (s : tstate) : Prop :=
  forall l lk, locks s !! l = Some lk -> lock_ok lk.

(** Thread [t] runs and holds [l], taken [n] times. *)
Definition holding (s : tstate) (t l n : Z) : Prop :=
  tp s = t /\
  (exists lk, locks s !! l = Some lk /\ owner lk = Some t /\ count lk = n) /\
  (exists th, thrtab s !! t = Some th /\ l ∈ lock_list th).

Definition lock_free (s : tstate) (l : Z) : Prop :=
  exists lk, locks s !! l = Some lk /\ owner lk = None /\ count lk = 0.

Lemma lock_inv_same s s' : locks s' = locks s -> lock_inv s -> lock_inv s'.
Proof. intros E H l lk Hl. rewrite E in Hl. eauto. Qed.

Lemma lock_inv_upd_lock f l s :
  (forall lk, locks s !! l = Some lk -> lock_ok lk -> lock_ok (f lk)) ->
  lock_inv s -> lock_inv (upd_lock f l s).
Proof.
  intros Hf H l' lk' Hl. cbn in Hl.
  destruct (decide (l = l')) as [<-|Hne].
  - rewrite lookup_alter_eq in Hl.
    destruct (locks s !! l) as [lk|] eqn:E; [|done].
    injection Hl as <-. eauto.
  - rewrite lookup_alter_ne in Hl by done. eauto.
Qed.

Lemma locks_wake w : forall s,
  locks (fold_left
           (fun acc t => upd_thread (fun th => set_wait_cond None (set_state THREAD_READY th)) t acc)
           w s) = locks s.
Proof. induction w as [|t w IH]; intros s; cbn; [done|]. now rewrite IH. Qed.

Lemma locks_suspend s : locks (running_thread_suspend s) = locks s.
Proof.
  unfold running_thread_suspend.
  destruct (thrtab s !! tp s) as [cur|]; [destruct (decide _)|];
    cbn; destruct (ready_list s); cbn; try done;
    match goal with |- context [match ?l ++ _ with _ => _ end] => destruct l end; done.
Qed.

Lemma lock_inv_set_waiters c w s : lock_inv s -> lock_inv (set_waiters c w s).
Proof.
  intros H. destruct c as [t|l]; cbn.
  - exact H.
  - apply lock_inv_upd_lock; [|done]. intros lk _ Hk. exact Hk.
Qed.

Lemma lock_inv_broadcast c s : lock_inv s -> lock_inv (condition_broadcast c s).
Proof.
  intros H. unfold condition_broadcast.
  eapply lock_inv_same; [|apply (lock_inv_set_waiters c []), H].
  cbn. apply locks_wake.
Qed.

Lemma lock_inv_wait c s : lock_inv s -> lock_inv (condition_wait c s).
Proof.
  intros H. unfold condition_wait.
  eapply lock_inv_same; [apply locks_suspend|].
  apply lock_inv_set_waiters. exact H.
Qed.

(** [lock_acquire] keeps the invariant, as long as the counter does
    not wrap around. *)
Lemma lock_inv_acquire l s r s' :
  lock_inv s ->
  (forall lk, locks s !! l = Some lk -> owner lk = Some (tp s) -> count lk < 2 ^ 32 - 1) ->
  lock_acquire l s = Some (r, s') -> lock_inv s'.
Proof.
  intros H Hc. unfold lock_acquire.
  destruct (locks s !! l) as [lk|] eqn:E; [|done].
  destruct (decide (owner lk = Some (tp s))) as [Ho|Ho].
  - intros [= <- <-]. apply lock_inv_upd_lock; [|done].
    intros lk' El [Hiff Hr]. rewrite E in El. injection El as <-.
    specialize (Hc lk eq_refl Ho).
    assert (0 < count lk) by (apply Hiff; congruence).
    unfold lock_ok. cbn. rewrite wrap32_small by lia.
    split; [|lia]. split; [intros _; congruence | lia].
  - destruct (owner lk) as [o|] eqn:Eo.
    + intros [= <- <-]. now apply lock_inv_wait.
    + intros [= <- <-].
      eapply lock_inv_same; [reflexivity|].
      apply lock_inv_upd_lock; [|done].
      intros lk' _ _. unfold lock_ok. cbn. split; [split; [done|lia]|lia].
Qed.

Lemma lock_inv_release l s s' :
  lock_inv s -> lock_release l s = Some s' -> lock_inv s'.
Proof.
  intros H. unfold lock_release.
  destruct (locks s !! l) as [lk|] eqn:E; [|done].
  destruct (decide (owner lk = Some (tp s))) as [Ho|Ho]; [|now intros [= <-]].
  destruct (H l lk E) as [Hiff Hr].
  assert (Hpos : 0 < count lk) by (apply Hiff; congruence).
  rewrite wrap32_small by lia.
  destruct (0 <? count lk - 1) eqn:Hc.
  - apply Z.ltb_lt in Hc. intros [= <-]. apply lock_inv_upd_lock; [|done].
    intros lk' El _. rewrite E in El. injection El as <-. unfold lock_ok. cbn.
    split; [|lia]. split; [intros _; congruence | lia].
  - apply Z.ltb_ge in Hc.
    destruct (thrtab s !! tp s) as [me|]; [|done].
    destruct (unlink l (lock_list me)) as [rest|]; [|done].
    intros [= <-]. apply lock_inv_broadcast.
    apply lock_inv_upd_lock.
    + intros lk' _ _. unfold lock_ok. cbn. split; [split; [lia|done]|lia].
    + eapply lock_inv_same; [reflexivity|done].
Qed.

Lemma lock_inv_release_held held : forall s,
  lock_inv s -> lock_inv (release_held held s).
Proof.
  induction held as [|l rest IH]; intros s H; cbn; [done|].
  apply IH, lock_inv_broadcast, lock_inv_upd_lock.
  - intros lk' _ _. unfold lock_ok. cbn. split; [split; [lia|done]|lia].
  - eapply lock_inv_same; [reflexivity|done].
Qed.

Definition exit_state (r : exit_result) : tstate :=
  match r with Halted s => s | Switched s => s end.

Lemma lock_inv_exit s : lock_inv s -> lock_inv (exit_state (thread_exit s)).
Proof.
  intros H. unfold thread_exit.
  set (s1 := release_held _ s).
  assert (H1 : lock_inv s1) by now apply lock_inv_release_held.
  destruct (thrtab s1 !! tp s1) as [me|]; [|done].
  destruct (id me =? MAIN_TID); [done|]. cbn.
  eapply lock_inv_same; [apply locks_suspend|].
  apply lock_inv_broadcast. eapply lock_inv_same; [reflexivity|done].
Qed.

(** *** What the scheduler calls leave alone *)

Lemma tp_wake w : forall s,
  tp (fold_left
        (fun acc t => upd_thread (fun th => set_wait_cond None (set_state THREAD_READY th)) t acc)
        w s) = tp s.
Proof. induction w as [|t w IH]; intros s; cbn; [done|]. now rewrite IH. Qed.

Lemma ready_wake w : forall s,
  ready_list (fold_left
        (fun acc t => upd_thread (fun th => set_wait_cond None (set_state THREAD_READY th)) t acc)
        w s) = ready_list s.
Proof. induction w as [|t w IH]; intros s; cbn; [done|]. now rewrite IH. Qed.

Lemma locks_set_waiters_cv l w s :
  locks (set_waiters (LockCv l) w s)
  = alter (fun lk => mk_lock (owner lk) (count lk) w) l (locks s).
Proof. reflexivity. Qed.

Lemma locks_broadcast_cv l s :
  locks (condition_broadcast (LockCv l) s)
  = alter (fun lk => mk_lock (owner lk) (count lk) []) l (locks s).
Proof. unfold condition_broadcast. cbn. now rewrite locks_wake. Qed.

Lemma locks_broadcast_child t s :
  locks (condition_broadcast (ChildExit t) s) = locks s.
Proof. unfold condition_broadcast. cbn. now rewrite locks_wake. Qed.

Lemma tp_broadcast c s : tp (condition_broadcast c s) = tp s.
Proof.
  unfold condition_broadcast. cbn. rewrite tp_wake. now destruct c.
Qed.

Lemma ready_broadcast c s :
  ready_list (condition_broadcast c s) = ready_list s ++ waiters s c.
Proof.
  unfold condition_broadcast. cbn. rewrite ready_wake. now destruct c.
Qed.

Lemma locks_wait_cv l s :
  locks (condition_wait (LockCv l) s)
  = alter (fun lk => mk_lock (owner lk) (count lk) (cv lk ++ [tp s])) l (locks s).
Proof.
  unfold condition_wait. rewrite locks_suspend, locks_set_waiters_cv. cbn.
  apply map_eq. intros i. destruct (decide (l = i)) as [<-|Hne].
  - rewrite !lookup_alter_eq. now destruct (locks s !! l).
  - now rewrite !lookup_alter_ne.
Qed.

(** *** Taking and giving back a lock *)

Lemma unlink_in l ls : l ∈ ls -> is_Some (unlink l ls).
Proof.
  induction ls as [|x ls IH]; intros H; [by apply elem_of_nil in H|].
  cbn. destruct (decide (x = l)); [eauto|].
  apply elem_of_cons in H as [->|H]; [done|].
  destruct (IH H) as [r ->]. eauto.
Qed.

Lemma acquire_free s t l :
  tp s = t -> lock_free s l -> is_Some (thrtab s !! t) ->
  exists s', lock_acquire l s = Some (Acquired, s') /\ holding s' t l 1.
Proof.
  intros Ht (lk & El & Eo & Ec) [th Eth]. unfold lock_acquire. rewrite El.
  destruct (decide (owner lk = Some (tp s))) as [Ho|_]; [congruence|].
  rewrite Eo. eexists. split; [reflexivity|]. subst t.
  split; [reflexivity|]. split.
  - exists (mk_lock (Some (tp s)) 1 (cv lk)). cbn.
    rewrite lookup_alter_eq, El. done.
  - exists (set_lock_list (l :: lock_list th) th). cbn.
    rewrite lookup_alter_eq, Eth. split; [done|]. cbn. apply elem_of_cons. now left.
Qed.

Lemma acquire_again s t l n :
  holding s t l n -> 0 <= n < 2 ^ 32 - 1 ->
  exists s', lock_acquire l s = Some (Acquired, s') /\ holding s' t l (n + 1).
Proof.
  intros (Ht & (lk & El & Eo & Ec) & (th & Eth & Hin)) Hn.
  unfold lock_acquire. rewrite El.
  destruct (decide (owner lk = Some (tp s))) as [_|Ho]; [|congruence].
  eexists. split; [reflexivity|]. split; [done|]. split.
  - exists (mk_lock (owner lk) (wrap32 (count lk + 1)) (cv lk)). cbn.
    rewrite lookup_alter_eq, El. split; [done|]. split; [done|].
    rewrite wrap32_small; lia.
  - exists th. done.
Qed.

Lemma release_more s t l n :
  holding s t l n -> 1 < n < 2 ^ 32 ->
  exists s', lock_release l s = Some s' /\ holding s' t l (n - 1).
Proof.
  intros (Ht & (lk & El & Eo & Ec) & (th & Eth & Hin)) Hn.
  unfold lock_release. rewrite El.
  destruct (decide (owner lk = Some (tp s))) as [_|Ho]; [|congruence].
  rewrite wrap32_small by lia.
  replace (0 <? count lk - 1) with true by (symmetry; apply Z.ltb_lt; lia).
  eexists. split; [reflexivity|]. split; [done|]. split.
  - exists (mk_lock (owner lk) (count lk - 1) (cv lk)). cbn.
    rewrite lookup_alter_eq, El. split; [done|]. split; [done|]. cbn. lia.
  - exists th. done.
Qed.

Lemma release_last s t l :
  holding s t l 1 ->
  exists s', lock_release l s = Some s' /\ tp s' = t /\ lock_free s' l.
Proof.
  intros (Ht & (lk & El & Eo & Ec) & (th & Eth & Hin)).
  unfold lock_release. rewrite El.
  destruct (decide (owner lk = Some (tp s))) as [_|Ho]; [|congruence].
  rewrite Ec. change (0 <? wrap32 (1 - 1)) with false. cbv iota.
  rewrite Ht, Eth. destruct (unlink_in _ _ Hin) as [rest ->].
  eexists. split; [reflexivity|]. split.
  - now rewrite tp_broadcast.
  - exists (mk_lock None 0 []). rewrite locks_broadcast_cv. cbn.
    rewrite !lookup_alter_eq, El. done.
Qed.

Lemma release_not_owner s l lk :
  locks s !! l = Some lk -> owner lk <> Some (tp s) -> lock_release l s = Some s.
Proof.
  intros El Ho. unfold lock_release. rewrite El.
  destruct (decide (owner lk = Some (tp s))); [done|reflexivity].
Qed.

Lemma acquire_blocked s t l n u :
  holding s t l n -> u <> t ->
  exists s', lock_acquire l (set_tp s u) = Some (AcqBlocked, s') /\
    exists lk, locks s' !! l = Some lk /\ owner lk = Some t /\ count lk = n.
Proof.
  intros (Ht & (lk & El & Eo & Ec) & _) Hu.
  unfold lock_acquire. cbn [locks set_tp tp]. rewrite El.
  destruct (decide (owner lk = Some u)) as [Ho|_]; [congruence|].
  rewrite Eo. eexists. split; [reflexivity|].
  exists (mk_lock (owner lk) (count lk) (cv lk ++ [u])).
  rewrite locks_wait_cv. cbn. rewrite lookup_alter_eq, El. done.
Qed.

Lemma acquire_when_free s l u :
  lock_free s l ->
  exists s', lock_acquire l (set_tp s u) = Some (Acquired, s') /\
    exists lk, locks s' !! l = Some lk /\ owner lk = Some u /\ count lk = 1.
Proof.
  intros (lk & El & Eo & Ec).
  unfold lock_acquire. cbn [locks set_tp tp]. rewrite El.
  destruct (decide (owner lk = Some u)) as [Ho|_]; [congruence|].
  rewrite Eo. eexists. split; [reflexivity|].
  exists (mk_lock (Some u) 1 (cv lk)). cbn. rewrite lookup_alter_eq, El. done.
Qed.

Lemma acquire_n_holding n : forall s t l c,
  holding s t l c -> 0 <= c -> c + Z.of_nat n < 2 ^ 32 ->
  exists s', acquire_n n l s = Some s' /\ holding s' t l (c + Z.of_nat n).
Proof.
  induction n as [|n IH]; intros s t l c H Hc Hn.
  - exists s. split; [done|]. now replace (c + Z.of_nat 0) with c by lia.
  - destruct (acquire_again s t l c H ltac:(lia)) as (s1 & E1 & H1).
    destruct (IH s1 t l (c + 1) H1 ltac:(lia) ltac:(lia)) as (s2 & E2 & H2).
    exists s2. cbn [acquire_n]. rewrite E1. split; [done|].
    now replace (c + Z.of_nat (S n)) with (c + 1 + Z.of_nat n) by lia.
Qed.

Lemma release_n_holding k : forall s t l c,
  holding s t l c -> Z.of_nat k < c < 2 ^ 32 ->
  exists s', release_n k l s = Some s' /\ holding s' t l (c - Z.of_nat k).
Proof.
  induction k as [|k IH]; intros s t l c H Hc.
  - exists s. split; [done|]. now replace (c - Z.of_nat 0) with c by lia.
  - destruct (release_more s t l c H ltac:(lia)) as (s1 & E1 & H1).
    destruct (IH s1 t l (c - 1) H1 ltac:(lia)) as (s2 & E2 & H2).
    exists s2. cbn [release_n]. rewrite E1. split; [done|].
    now replace (c - Z.of_nat (S k)) with (c - 1 - Z.of_nat k) by lia.
Qed.

Lemma release_n_all n : forall s t l,
  holding s t l (Z.of_nat (S n)) -> Z.of_nat (S n) < 2 ^ 32 ->
  exists s', release_n (S n) l s = Some s' /\ tp s' = t /\ lock_free s' l.
Proof.
  induction n as [|n IH]; intros s t l H Hc.
  - destruct (release_last s t l H) as (s1 & E1 & H1).
    exists s1. cbn [release_n]. now rewrite E1.
  - destruct (release_more s t l _ H ltac:(lia)) as (s1 & E1 & H1).
    replace (Z.of_nat (S (S n)) - 1) with (Z.of_nat (S n)) in H1 by lia.
    destruct (IH s1 t l H1 ltac:(lia)) as (s2 & E2 & H2).
    exists s2. change (release_n (S (S n)) l s)
      with (match lock_release l s with Some s' => release_n (S n) l s' | None => None end).
    now rewrite E1.
Qed.

(** *** The lock loop of [thread_exit] *)

Lemma release_held_step_lookup l l0 rest s :
  locks (condition_broadcast (LockCv l)
           (upd_lock (fun lk => mk_lock None 0 (cv lk)) l
              (upd_thread (set_lock_list rest) (tp s) s))) !! l0
  = if decide (l = l0) then (fun _ => mk_lock None 0 []) <$> locks s !! l0
    else locks s !! l0.
Proof.
  rewrite locks_broadcast_cv. cbn.
  destruct (decide (l = l0)) as [<-|Hne].
  - rewrite !lookup_alter_eq. now destruct (locks s !! l).
  - now rewrite !lookup_alter_ne.
Qed.

Lemma release_held_stable held : forall s l0,
  locks s !! l0 = Some (mk_lock None 0 []) ->
  locks (release_held held s) !! l0 = Some (mk_lock None 0 []).
Proof.
  induction held as [|l rest IH]; intros s l0 H; cbn [release_held]; [done|].
  apply IH. rewrite release_held_step_lookup.
  destruct (decide (l = l0)); [now rewrite H | done].
Qed.

Lemma release_held_locks held : forall s l0,
  l0 ∈ held -> is_Some (locks s !! l0) ->
  locks (release_held held s) !! l0 = Some (mk_lock None 0 []).
Proof.
  induction held as [|l rest IH]; intros s l0 Hin [lk El]; [by apply elem_of_nil in Hin|].
  cbn [release_held].
  destruct (decide (l = l0)) as [->|Hne].
  - apply release_held_stable. rewrite release_held_step_lookup.
    rewrite decide_True by done. now rewrite El.
  - apply elem_of_cons in Hin as [->|Hin]; [done|].
    apply IH; [done|]. rewrite release_held_step_lookup.
    rewrite decide_False by done. eauto.
Qed.

Lemma release_held_ready_mono held : forall s w,
  w ∈ ready_list s -> w ∈ ready_list (release_held held s).
Proof.
  induction held as [|l rest IH]; intros s w H; cbn [release_held]; [done|].
  apply IH. rewrite ready_broadcast. apply elem_of_app. now left.
Qed.

Lemma release_held_wakes held : forall s l0 w,
  l0 ∈ held -> w ∈ waiters s (LockCv l0) ->
  w ∈ ready_list (release_held held s).
Proof.
  induction held as [|l rest IH]; intros s l0 w Hin Hw; [by apply elem_of_nil in Hin|].
  cbn [release_held].
  destruct (decide (l = l0)) as [->|Hne].
  - apply release_held_ready_mono. rewrite ready_broadcast.
    apply elem_of_app. right. cbn in *.
    rewrite lookup_alter_eq. destruct (locks s !! l0); [done|].
    by apply elem_of_nil in Hw.
  - apply elem_of_cons in Hin as [->|Hin]; [done|].
    apply (IH _ l0); [done|].
    unfold waiters. rewrite release_held_step_lookup.
    rewrite decide_False by done. exact Hw.
Qed.

Lemma locks_exit s :
  locks (exit_state (thread_exit s))
  = locks (release_held
             (match thrtab s !! tp s with Some me => lock_list me | None => [] end) s).
Proof.
  unfold thread_exit. set (s1 := release_held _ s).
  destruct (thrtab s1 !! tp s1) as [me|]; [|done].
  destruct (id me =? MAIN_TID); [done|]. cbn [exit_state].
  now rewrite locks_suspend, locks_broadcast_child.
Qed.

(** Runs of lock operations by whichever thread the scheduler has
    put on the processor.  A run stops ([None]) where a lock passed is
    not a lock, where an unlinking walk fails, or where a nested
    acquisition would wrap the counter. *)
Inductive lock_op :=
| OpAcquire (l : Z)
| OpRelease (l : Z)
| OpExit
| OpYield.

Definition would_wrap (l : Z) (s : tstate) : bool :=
  match locks s !! l with
  | Some lk => bool_decide (owner lk = Some (tp s)) && (2 ^ 32 - 1 <=? count lk)
  | None => false
  end.

Definition run_op (s : tstate) (o : lock_op) : option tstate :=
  match o with
  | OpAcquire l =>
      if would_wrap l s then None else snd <$> lock_acquire l s
  | OpRelease l => lock_release l s
  | OpExit => Some (exit_state (thread_exit s))
  | OpYield => Some (running_thread_suspend s)
  end.

Fixpoint run_ops (s : tstate) (ops : list lock_op) : option tstate :=
  match ops with
  | [] => Some s
  | o :: more =>
      match run_op s o with
      | Some s' => run_ops s' more
      | None => None
      end
  end.

Lemma lock_inv_run_op s o s' : lock_inv s -> run_op s o = Some s' -> lock_inv s'.
Proof.
  intros H. destruct o as [l|l| |]; cbn.
  - destruct (would_wrap l s) eqn:Hw; [done|].
    destruct (lock_acquire l s) as [[r s1]|] eqn:Ha; [|done].
    intros [= <-]. eapply lock_inv_acquire; [exact H| |exact Ha].
    intros lk El Eo. unfold would_wrap in Hw. rewrite El in Hw.
    rewrite bool_decide_true in Hw by done. cbn in Hw. apply Z.leb_gt in Hw. lia.
  - intros Hr. eapply lock_inv_release; eauto.
  - intros [= <-]. now apply lock_inv_exit.
  - intros [= <-]. eapply lock_inv_same; [apply locks_suspend|done].
Qed.

Lemma lock_inv_run ops : forall s s',
  lock_inv s -> run_ops s ops = Some s' -> lock_inv s'.
Proof.
  induction ops as [|o ops IH]; intros s s' H; cbn.
  - now intros [= <-].
  - destruct (run_op s o) as [s1|] eqn:E; [|done].
    intros Hr. eapply IH; [|exact Hr]. eapply lock_inv_run_op; eauto.
Qed.

(** C8: every lock has [count > 0] exactly when it has an owner, and
    [lock_acquire] (short of 2^32 nested acquisitions), [lock_release]
    and [thread_exit] keep it so, along any run of them; a release by a
    thread that is not the
    owner changes nothing; a thread that took a free lock [N] times
    still owns it after fewer than [N] releases (another thread that
    tries is suspended) and has given it up after [N]; [thread_exit]
    leaves every lock of the exiting thread's list without owner, with
    count 0, its waiters moved to the ready list. *)
Theorem recursive_lock_discipline (s : tstate) (l t : Z) (N : nat) :
  lock_inv s -> tp s = t -> lock_free s l -> is_Some (thrtab s !! t) ->
  (1 <= N)%nat -> Z.of_nat N < 2 ^ 32 ->
  (forall l0 r s',
     (forall lk, locks s !! l0 = Some lk -> owner lk = Some (tp s) ->
                 count lk < 2 ^ 32 - 1) ->
     lock_acquire l0 s = Some (r, s') -> lock_inv s') /\
  (forall l0 s', lock_release l0 s = Some s' -> lock_inv s') /\
  lock_inv (exit_state (thread_exit s)) /\
  (forall ops s', run_ops s ops = Some s' -> lock_inv s') /\
  (forall l0 lk, locks s !! l0 = Some lk -> owner lk <> Some (tp s) ->
     lock_release l0 s = Some s) /\
  (exists s1,
     acquire_n N l s = Some s1 /\ holding s1 t l (Z.of_nat N) /\
     (forall k, (k < N)%nat ->
        exists s2, release_n k l s1 = Some s2 /\
          holding s2 t l (Z.of_nat N - Z.of_nat k) /\
          forall u, u <> t ->
            exists s3, lock_acquire l (set_tp s2 u) = Some (AcqBlocked, s3)) /\
     (exists s4, release_n N l s1 = Some s4 /\ lock_free s4 l /\
        forall u, exists s5, lock_acquire l (set_tp s4 u) = Some (Acquired, s5))) /\
  (forall th l0, thrtab s !! tp s = Some th -> l0 ∈ lock_list th ->
     is_Some (locks s !! l0) ->
     locks (exit_state (thread_exit s)) !! l0 = Some (mk_lock None 0 []) /\
     forall w, w ∈ waiters s (LockCv l0) ->
       w ∈ ready_list (release_held (lock_list th) s)).
Proof.
  intros Hinv Ht Hfree Hth HN1 HN.
  split; [|split; [|split; [|split; [|split; [|split]]]]].
  - intros l0 r s' Hc Ha. eapply lock_inv_acquire; eauto.
  - intros l0 s' Hr. eapply lock_inv_release; eauto.
  - now apply lock_inv_exit.
  - intros ops s' Hr. eapply lock_inv_run; eauto.
  - intros l0 lk El Ho. eapply release_not_owner; eauto.
  - destruct N as [|n]; [lia|].
    destruct (acquire_free s t l Ht Hfree Hth) as (s0 & E0 & H0).
    destruct (acquire_n_holding n s0 t l 1 H0 ltac:(lia) ltac:(lia)) as (s1 & E1 & H1).
    replace (1 + Z.of_nat n) with (Z.of_nat (S n)) in H1 by lia.
    exists s1. cbn [acquire_n]. rewrite E0. split; [done|]. split; [done|]. split.
    + intros k Hk.
      destruct (release_n_holding k s1 t l _ H1 ltac:(lia)) as (s2 & E2 & H2).
      exists s2. split; [done|]. split; [done|].
      intros u Hu. destruct (acquire_blocked s2 t l _ u H2 Hu) as (s3 & E3 & _).
      eauto.
    + destruct (release_n_all n s1 t l H1 HN) as (s4 & E4 & _ & H4).
      exists s4. split; [done|]. split; [done|].
      intros u. destruct (acquire_when_free s4 l u H4) as (s5 & E5 & _). eauto.
  - intros th l0 Eth Hin Hex. split.
    + rewrite locks_exit, Eth. now apply release_held_locks.
    + intros w Hw. eapply release_held_wakes; eauto.
Qed.

(** The boot state of the thread manager with one lock at [0x9000]:
    [main] runs, [idle] is ready. *)
Definition boot_threads : gmap Z thread :=
  <[ MAIN_TID := mk_thread MAIN_TID THREAD_RUNNING None None [] [] ]>
  (<[ IDLE_TID := mk_thread IDLE_TID THREAD_READY (Some MAIN_TID) None [] [] ]> ∅).

Definition boot_state : tstate :=
  mk_tstate boot_threads (<[ 0x9000 := mk_lock None 0 [] ]> ∅) [IDLE_TID] MAIN_TID.

Lemma boot_lock_inv : lock_inv boot_state.
Proof.
  intros l lk H. cbn in H. apply lookup_insert_Some in H as [[_ <-]|[_ H]].
  - unfold lock_ok. cbn. split; [split; [lia|done]|lia].
  - rewrite lookup_empty in H. done.
Qed.

Lemma recursive_lock_discipline_witness :
  lock_inv boot_state /\ lock_free boot_state 0x9000 /\
  exists s1, acquire_n 3 0x9000 boot_state = Some s1 /\
             holding s1 MAIN_TID 0x9000 (Z.of_nat 3).
Proof.
  assert (Hf : lock_free boot_state 0x9000)
    by (exists (mk_lock None 0 []); repeat split; reflexivity).
  assert (Hth : is_Some (thrtab boot_state !! MAIN_TID))
    by (eexists; vm_compute; reflexivity).
  split; [exact boot_lock_inv|]. split; [exact Hf|].
  destruct (proj1 (proj2 (proj2 (proj2 (proj2 (proj2
    (recursive_lock_discipline boot_state 0x9000 MAIN_TID 3
       boot_lock_inv eq_refl Hf Hth ltac:(lia) ltac:(lia))))))))
    as (s1 & E1 & H1 & _).
  exists s1. split; [exact E1 | exact H1].
Defined.

Example three_acquires_two_releases :
  let s1 := default boot_state (acquire_n 3 0x9000 boot_state) in
  let s2 := default boot_state (release_n 2 0x9000 s1) in
  let s3 := default boot_state (release_n 3 0x9000 s1) in
  locks s1 !! 0x9000 = Some (mk_lock (Some MAIN_TID) 3 []) /\
  locks s2 !! 0x9000 = Some (mk_lock (Some MAIN_TID) 1 []) /\
  locks s3 !! 0x9000 = Some (mk_lock None 0 []).
Proof. vm_compute. done. Qed.

(** *** Joining *)

Lemma join_not_a_child s tid th :
  0 < tid < NTHR -> thrtab s !! tid = Some th -> parent th <> Some (tp s) ->
  thread_join tid s = (JoinRet (- EINVAL), s).
Proof.
  intros Hr Eth Hp. unfold thread_join.
  replace ((0 <? tid) && (tid <? NTHR)) with true
    by (symmetry; apply andb_true_iff; split; apply Z.ltb_lt; lia).
  rewrite Eth. cbn. rewrite Eth. now rewrite bool_decide_false.
Qed.

Lemma join_exited_child s tid th :
  0 < tid < NTHR -> thrtab s !! tid = Some th -> parent th = Some (tp s) ->
  state th = THREAD_EXITED ->
  thread_join tid s = (JoinRet tid, thread_reclaim tid s) /\
  thrtab (thread_reclaim tid s) !! tid = None /\
  tp (thread_reclaim tid s) = tp s.
Proof.
  intros Hr Eth Hp Hs. unfold thread_join.
  replace ((0 <? tid) && (tid <? NTHR)) with true
    by (symmetry; apply andb_true_iff; split; apply Z.ltb_lt; lia).
  rewrite Eth. cbn. rewrite Eth. rewrite bool_decide_true by done. cbn.
  replace (tid =? 0) with false by (symmetry; apply Z.eqb_neq; lia).
  rewrite decide_True by done.
  split; [done|]. unfold thread_reclaim. rewrite Eth. cbn.
  split; [apply lookup_delete_eq | done].
Qed.

Lemma join_waits_for_child s tid th :
  0 < tid < NTHR -> thrtab s !! tid = Some th -> parent th = Some (tp s) ->
  state th <> THREAD_EXITED ->
  thread_join tid s = (JoinBlocked tid, condition_wait (ChildExit tid) s).
Proof.
  intros Hr Eth Hp Hs. unfold thread_join.
  replace ((0 <? tid) && (tid <? NTHR)) with true
    by (symmetry; apply andb_true_iff; split; apply Z.ltb_lt; lia).
  rewrite Eth. cbn. rewrite Eth. rewrite bool_decide_true by done. cbn.
  replace (tid =? 0) with false by (symmetry; apply Z.eqb_neq; lia).
  now rewrite decide_False.
Qed.

(** An empty slot: [child] stays NULL, the first test does not fire,
    and the wait loop reads [child->state]. *)
Lemma join_empty_slot_faults s tid :
  0 < tid < NTHR -> thrtab s !! tid = None -> thread_join tid s = (JoinFault, s).
Proof.
  intros Hr Eth. unfold thread_join.
  replace ((0 <? tid) && (tid <? NTHR)) with true
    by (symmetry; apply andb_true_iff; split; apply Z.ltb_lt; lia).
  rewrite Eth. cbn.
  replace (tid =? 0) with false by (symmetry; apply Z.eqb_neq; lia).
  done.
Qed.

Lemma join_out_of_range_faults s tid :
  tid < 0 \/ NTHR <= tid -> thread_join tid s = (JoinFault, s).
Proof.
  intros Hr. unfold thread_join.
  replace ((0 <? tid) && (tid <? NTHR)) with false.
  2:{ symmetry. apply andb_false_iff. destruct Hr; [left; apply Z.ltb_ge|right; apply Z.ltb_ge]; lia. }
  cbn. replace (tid =? 0) with false; [done|].
  symmetry. apply Z.eqb_neq. unfold NTHR in *. lia.
Qed.

Lemma join_second_time_faults s tid th :
  0 < tid < NTHR -> thrtab s !! tid = Some th -> parent th = Some (tp s) ->
  state th = THREAD_EXITED ->
  thread_join tid (snd (thread_join tid s)) = (JoinFault, thread_reclaim tid s).
Proof.
  intros Hr Eth Hp Hs.
  destruct (join_exited_child s tid th Hr Eth Hp Hs) as (-> & Hgone & _).
  cbn [snd]. now apply join_empty_slot_faults.
Qed.

(** [main] spawns a thread and yields; the thread (slot 1) runs and
    exits; [main] runs again. *)
Definition after_child_exit : tstate :=
  let s1 := snd (thread_spawn boot_state) in
  let s2 := running_thread_suspend s1 in          (* main yields, idle runs *)
  let s3 := running_thread_suspend s2 in          (* idle yields, the child runs *)
  let s4 := exit_state (thread_exit s3) in        (* the child exits, main runs *)
  s4.

(** C5, the code at the failing input: the first [thread_join(1)] in
    the parent returns 1 and frees the slot; the second finds the slot
    empty and, instead of returning [-EINVAL], dereferences the NULL
    [child]. *)
Theorem second_join_dereferences_null :
  fst (thread_spawn boot_state) = 1 /\
  tp after_child_exit = MAIN_TID /\
  fst (thread_join 1 after_child_exit) = JoinRet 1 /\
  fst (thread_join 1 (snd (thread_join 1 after_child_exit))) = JoinFault /\
  fst (thread_join 1 (snd (thread_join 1 after_child_exit))) <> JoinRet (- EINVAL).
Proof. vm_compute. repeat split; done. Qed.

(** *** Spawning *)

Lemma free_slot_spec tab fuel : forall tid d,
  free_slot tab tid fuel = d ->
  tid <= d <= tid + Z.of_nat fuel /\
  (forall i, tid <= i < d -> is_Some (tab !! i)) /\
  (d < tid + Z.of_nat fuel -> NTHR <= d \/ tab !! d = None).
Proof.
  induction fuel as [|fuel IH]; intros tid d; cbn [free_slot].
  - intros <-. split; [lia|]. split; [intros i; lia | lia].
  - destruct (tid <? NTHR) eqn:E1; cbn [andb].
    + destruct (bool_decide (is_Some (tab !! tid))) eqn:E2.
      * apply bool_decide_eq_true in E2. intros H.
        destruct (IH _ _ H) as (Hr & Hall & Hend). split; [lia|]. split.
        -- intros i Hi. destruct (decide (i = tid)) as [->|]; [done|]. apply Hall. lia.
        -- intros Hlt. apply Hend. lia.
      * apply bool_decide_eq_false in E2. intros <-. split; [lia|].
        split; [intros i; lia|]. intros _. right.
        destruct (tab !! tid); [exfalso; apply E2; eauto | done].
    + apply Z.ltb_ge in E1. intros <-. split; [lia|]. split; [intros i; lia|].
      intros _. now left.
Qed.

Lemma spawn_effect (s : tstate) :
  let r := fst (thread_spawn s) in
  let s' := snd (thread_spawn s) in
  ((forall i, 1 <= i < NTHR -> is_Some (thrtab s !! i)) -> r = - EMTHR /\ s' = s) /\
  ((exists i, 1 <= i < NTHR /\ thrtab s !! i = None) ->
     1 <= r < NTHR /\ thrtab s !! r = None /\
     (forall i, 1 <= i < r -> is_Some (thrtab s !! i)) /\
     thrtab s' !! r = Some (mk_thread r THREAD_READY (Some (tp s)) None [] []) /\
     (forall i, i <> r -> thrtab s' !! i = thrtab s !! i) /\
     ready_list s' = ready_list s ++ [r] /\
     tp s' = tp s /\ locks s' = locks s).
Proof.
  intros r s'. subst r s'. unfold thread_spawn.
  destruct (free_slot_spec (thrtab s) (Z.to_nat NTHR) 1 _ eq_refl) as (Hr & Hall & Hend).
  set (d := free_slot (thrtab s) 1 (Z.to_nat NTHR)) in *.
  change (Z.of_nat (Z.to_nat NTHR)) with NTHR in *.
  split.
  - intros Hfull. destruct (NTHR <=? d) eqn:E; [done|]. apply Z.leb_gt in E.
    destruct (Hend ltac:(lia)) as [|Hnone]; [lia|].
    destruct (Hfull d ltac:(lia)) as [x Hx]. congruence.
  - intros (i & Hi & Hnone).
    assert (Hd : d < NTHR).
    { destruct (Z.lt_ge_cases d NTHR) as [|Hge]; [done|].
      destruct (Hall i ltac:(lia)) as [x Hx]. congruence. }
    replace (NTHR <=? d) with false by (symmetry; apply Z.leb_gt; lia).
    cbn [fst snd thrtab ready_list tp locks set_ready set_thrtab].
    destruct (Hend ltac:(unfold NTHR in *; lia)) as [|Hfree]; [lia|].
    split; [lia|]. split; [done|]. split; [exact Hall|].
    split; [apply lookup_insert_eq|]. split; [|done].
    intros j Hj. now rewrite lookup_insert_ne.
Qed.

(** [thread_spawn] gives the new thread the lowest free slot among
    1 .. NTHR-1 (slot 0 is the main thread's and is never handed out),
    makes it READY with the caller as parent and puts it at the tail of
    the ready list; with those slots all taken it returns [-EMTHR] and
    changes nothing. *)
Theorem thread_spawn_lowest_slot (s : tstate) :
  let r := fst (thread_spawn s) in
  let s' := snd (thread_spawn s) in
  ((forall i, 1 <= i < NTHR -> is_Some (thrtab s !! i)) -> r = - EMTHR /\ s' = s) /\
  ((exists i, 1 <= i < NTHR /\ thrtab s !! i = None) ->
     1 <= r < NTHR /\ thrtab s !! r = None /\
     (forall i, 1 <= i < r -> is_Some (thrtab s !! i)) /\
     thrtab s' !! r = Some (mk_thread r THREAD_READY (Some (tp s)) None [] []) /\
     (forall i, i <> r -> thrtab s' !! i = thrtab s !! i) /\
     ready_list s' = ready_list s ++ [r] /\
     tp s' = tp s /\ locks s' = locks s).
Proof. exact (spawn_effect s). Qed.

(** *** Waking the waiters of a condition *)

#[export] Instance cond_eq_dec : EqDecision cond.
Proof. solve_decision. Defined.

Definition wake (th : thread) : thread := set_wait_cond None (set_state THREAD_READY th).

Lemma wake_fold_lookup w : forall s t,
  thrtab (fold_left (fun acc t => upd_thread wake t acc) w s) !! t
  = (if bool_decide (t ∈ w) then wake else fun th => th) <$> thrtab s !! t.
Proof.
  induction w as [|x w IH]; intros s t; cbn [fold_left].
  - rewrite bool_decide_false by apply not_elem_of_nil. now destruct (thrtab s !! t).
  - rewrite IH. unfold upd_thread. cbn [thrtab set_thrtab].
    destruct (decide (t = x)) as [->|Hne].
    + rewrite lookup_alter_eq.
      rewrite (bool_decide_true (x ∈ x :: w)) by (apply elem_of_cons; now left).
      destruct (thrtab s !! x) as [th|]; cbn; [|done].
      destruct (bool_decide (x ∈ w)); cbn; done.
    + rewrite lookup_alter_ne by done.
      destruct (decide (t ∈ w)) as [Hin|Hnin].
      * rewrite (bool_decide_true (t ∈ w)) by done.
        rewrite (bool_decide_true (t ∈ x :: w)) by (apply elem_of_cons; now right).
        done.
      * rewrite (bool_decide_false (t ∈ w)) by done.
        rewrite (bool_decide_false (t ∈ x :: w)); [done|].
        intros [?|?]%elem_of_cons; done.
Qed.

Lemma broadcast_effect (c : cond) (s : tstate) :
  let s' := condition_broadcast c s in
  ready_list s' = ready_list s ++ waiters s c /\
  waiters s' c = [] /\
  (forall c', c' <> c -> waiters s' c' = waiters s c') /\
  tp s' = tp s /\
  (forall t th, thrtab s !! t = Some th ->
     exists th', thrtab s' !! t = Some th' /\
       id th' = id th /\ parent th' = parent th /\ lock_list th' = lock_list th /\
       (t ∈ waiters s c -> state th' = THREAD_READY /\ wait_cond th' = None) /\
       (t ∉ waiters s c -> state th' = state th /\ wait_cond th' = wait_cond th)) /\
  (forall t, thrtab s !! t = None -> thrtab s' !! t = None).
Proof.
  intros s'.
  assert (Htab : forall t, thrtab s' !! t
            = (if bool_decide (t ∈ waiters s c) then wake else fun th => th)
              <$> thrtab (set_waiters c [] s) !! t).
  { intros t. subst s'. unfold condition_broadcast. cbn [thrtab set_ready].
    apply wake_fold_lookup. }
  assert (Hset : forall t, thrtab (set_waiters c [] s) !! t
            = (fun th => if bool_decide (c = ChildExit t) then set_child_exit [] th else th)
              <$> thrtab s !! t).
  { intros t. destruct c as [t0|l]; cbn.
    - destruct (decide (t0 = t)) as [->|Hne].
      + rewrite lookup_alter_eq, bool_decide_true by done. done.
      + rewrite lookup_alter_ne by done.
        rewrite bool_decide_false by congruence. now destruct (thrtab s !! t).
    - rewrite bool_decide_false by done. now destruct (thrtab s !! t). }
  split; [apply ready_broadcast|]. split.
  { destruct c as [t0|l]; cbn [waiters].
    - rewrite Htab, Hset. destruct (thrtab s !! t0) as [th|]; cbn; [|done].
      repeat case_bool_decide; done.
    - subst s'. rewrite locks_broadcast_cv, lookup_alter_eq.
      now destruct (locks s !! l). }
  split.
  { intros c' Hne. destruct c' as [t1|l1]; cbn [waiters].
    - rewrite Htab, Hset. destruct (thrtab s !! t1) as [th|]; cbn; [|done].
      repeat case_bool_decide; congruence || done.
    - subst s'. destruct c as [t0|l].
      + now rewrite locks_broadcast_child.
      + rewrite locks_broadcast_cv, lookup_alter_ne by congruence. done. }
  split; [apply tp_broadcast|]. split.
  - intros t th Ht. rewrite Htab, Hset, Ht. cbn.
    eexists. split; [reflexivity|].
    destruct (decide (t ∈ waiters s c)) as [Hin|Hnin].
    + rewrite (bool_decide_true (t ∈ waiters s c)) by done.
      destruct (bool_decide (c = ChildExit t)); cbn; repeat split; done.
    + rewrite (bool_decide_false (t ∈ waiters s c)) by done.
      destruct (bool_decide (c = ChildExit t)); cbn; repeat split; done.
  - intros t Ht. now rewrite Htab, Hset, Ht.
Qed.

(** [condition_broadcast] wakes every thread waiting on the condition,
    in the order they went to sleep: the wait list is appended to the
    ready list and left empty, each waiter becomes READY with no wait
    condition, and no other thread changes state; the wait lists of
    the other conditions, the running thread and the locks' owners are
    as before. *)
Theorem broadcast_wakes_in_order (c : cond) (s : tstate) :
  let s' := condition_broadcast c s in
  ready_list s' = ready_list s ++ waiters s c /\
  waiters s' c = [] /\
  (forall c', c' <> c -> waiters s' c' = waiters s c') /\
  tp s' = tp s /\
  (forall t th, thrtab s !! t = Some th ->
     exists th', thrtab s' !! t = Some th' /\
       id th' = id th /\ parent th' = parent th /\ lock_list th' = lock_list th /\
       (t ∈ waiters s c -> state th' = THREAD_READY /\ wait_cond th' = None) /\
       (t ∉ waiters s c -> state th' = state th /\ wait_cond th' = wait_cond th)) /\
  (forall t, thrtab s !! t = None -> thrtab s' !! t = None).
Proof. exact (broadcast_effect c s). Qed.

(** *** Reclaiming a thread *)

Lemma reparent_fold tid p slots : forall (tab : gmap Z thread) c,
  NoDup slots ->
  fold_left
    (fun tab ctid =>
       match tab !! ctid with
       | Some ch =>
           if decide (parent ch = Some tid) then <[ctid := set_parent p ch]> tab else tab
       | None => tab
       end) slots tab !! c
  = (fun ch => if bool_decide (c ∈ slots) && bool_decide (parent ch = Some tid)
               then set_parent p ch else ch) <$> tab !! c.
Proof.
  induction slots as [|x slots IH]; intros tab c Hnd; cbn [fold_left].
  - destruct (tab !! c); cbn; [|done]. now rewrite bool_decide_false by apply not_elem_of_nil.
  - apply NoDup_cons in Hnd as [Hx Hnd]. rewrite IH by done.
    destruct (decide (c = x)) as [->|Hne].
    + rewrite (bool_decide_false (x ∈ slots)) by done.
      rewrite (bool_decide_true (x ∈ x :: slots)) by (apply elem_of_cons; now left).
      cbn [andb]. destruct (tab !! x) as [ch|] eqn:E; [|now rewrite E].
      destruct (decide (parent ch = Some tid)) as [Hp|Hp].
      * rewrite lookup_insert_eq. cbn. now rewrite bool_decide_true.
      * rewrite E. cbn. now rewrite bool_decide_false.
    + assert (Hsame : bool_decide (c ∈ x :: slots) = bool_decide (c ∈ slots)).
      { apply bool_decide_ext. rewrite elem_of_cons. tauto. }
      rewrite Hsame.
      destruct (tab !! x) as [ch|] eqn:E; [|done].
      destruct (decide (parent ch = Some tid)); [|done].
      now rewrite lookup_insert_ne.
Qed.

Lemma reclaim_effect (tid : Z) (s : tstate) (thr : thread) :
  thrtab s !! tid = Some thr ->
  let s' := thread_reclaim tid s in
  thrtab s' !! tid = None /\
  (forall c ch, c <> tid -> thrtab s !! c = Some ch ->
     thrtab s' !! c
     = Some (if bool_decide (1 <= c < NTHR) && bool_decide (parent ch = Some tid)
             then set_parent (parent thr) ch else ch)) /\
  (forall c, thrtab s !! c = None -> thrtab s' !! c = None) /\
  ready_list s' = ready_list s /\ tp s' = tp s /\ locks s' = locks s.
Proof.
  intros Hthr s'. subst s'. unfold thread_reclaim. rewrite Hthr.
  cbn [thrtab ready_list tp locks set_thrtab].
  assert (Hnd : NoDup (map Z.of_nat (seq 1 (Z.to_nat NTHR - 1)))).
  { apply NoDup_fmap; [intros a b; lia | apply NoDup_seq]. }
  assert (Hin : forall c, c ∈ map Z.of_nat (seq 1 (Z.to_nat NTHR - 1)) <-> 1 <= c < NTHR).
  { intros c. change (map ?f ?l) with (f <$> l). rewrite list_elem_of_fmap. split.
    - intros (n & -> & Hn). apply elem_of_seq in Hn. unfold NTHR in *. lia.
    - intros Hc. exists (Z.to_nat c). split; [lia|]. apply elem_of_seq.
      unfold NTHR in *. lia. }
  split; [apply lookup_delete_eq|]. split; [|split; [|done]].
  - intros c ch Hne Hc. rewrite lookup_delete_ne by done.
    rewrite (reparent_fold tid (parent thr) _ _ c Hnd), Hc. cbn. f_equal.
    now rewrite (bool_decide_ext _ _ (Hin c)).
  - intros c Hc. destruct (decide (c = tid)) as [->|Hne]; [apply lookup_delete_eq|].
    rewrite lookup_delete_ne by done.
    now rewrite (reparent_fold tid (parent thr) _ _ c Hnd), Hc.
Qed.

(** [thread_reclaim] hands the children of the reclaimed thread to its
    own parent: the slot is emptied, every thread in slots
    1 .. NTHR-1 whose parent was the reclaimed thread now has that
    thread's parent as its parent (so that it can still be joined), and
    nothing else in the table changes. *)
Theorem reclaim_reparents (tid : Z) (s : tstate) (thr : thread) :
  thrtab s !! tid = Some thr ->
  let s' := thread_reclaim tid s in
  thrtab s' !! tid = None /\
  (forall c ch, c <> tid -> thrtab s !! c = Some ch ->
     thrtab s' !! c
     = Some (if bool_decide (1 <= c < NTHR) && bool_decide (parent ch = Some tid)
             then set_parent (parent thr) ch else ch)) /\
  (forall c, thrtab s !! c = None -> thrtab s' !! c = None) /\
  ready_list s' = ready_list s /\ tp s' = tp s /\ locks s' = locks s.
Proof. exact (reclaim_effect tid s thr). Qed.

Lemma reclaim_reparents_witness :
  thrtab after_child_exit !! 1
  = Some (mk_thread 1 THREAD_EXITED (Some MAIN_TID) None [] []) /\
  thrtab (thread_reclaim 1 after_child_exit) !! 1 = None.
Proof.
  assert (H : thrtab after_child_exit !! 1
              = Some (mk_thread 1 THREAD_EXITED (Some MAIN_TID) None [] []))
    by (vm_compute; reflexivity).
  split; [exact H|].
  exact (proj1 (reclaim_reparents 1 after_child_exit _ H)).
Defined.

Example spawn_after_boot :
  fst (thread_spawn boot_state) = 1 /\
  ready_list (snd (thread_spawn boot_state)) = [IDLE_TID; 1].
Proof. vm_compute. done. Qed.

(** *** The scheduler's bookkeeping *)

(** What the scheduler looks at in a thread: its state and the
    condition it waits on. *)
Definition look (s : tstate) (t : Z) : option (thread_state * option cond) :=
  (fun th => (state th, wait_cond th)) <$> thrtab s !! t.

(** One thread runs, and it is the one [tp] points to; the ready list
    holds exactly the READY threads, each once; a thread on the wait list
    of a condition is WAITING on that condition, and is there once. *)
Definition sched_ok (s : tstate) : Prop :=
  (exists w, look s (tp s) = Some (THREAD_RUNNING, w)) /\
  (forall t w, look s t = Some (THREAD_RUNNING, w) -> t = tp s) /\
  (forall t, t ∈ ready_list s <-> exists w, look s t = Some (THREAD_READY, w)) /\
  NoDup (ready_list s) /\
  (forall c t, t ∈ waiters s c -> look s t = Some (THREAD_WAITING, Some c)) /\
  (forall c, NoDup (waiters s c)).

(** The idle thread is there, READY or RUNNING: it never waits and
    never exits. *)
Definition idle_ok (s : tstate) : Prop :=
  exists w, look s IDLE_TID = Some (THREAD_RUNNING, w) \/
            look s IDLE_TID = Some (THREAD_READY, w).

Lemma look_upd_thread f t s x :
  look (upd_thread f t s) x
  = if decide (x = t)
    then (fun th => (state (f th), wait_cond (f th))) <$> thrtab s !! t
    else look s x.
Proof.
  unfold look, upd_thread. cbn [thrtab set_thrtab].
  destruct (decide (x = t)) as [->|Hne].
  - rewrite lookup_alter_eq. now destruct (thrtab s !! t).
  - now rewrite lookup_alter_ne.
Qed.

Lemma look_set_state X t s x :
  look (upd_thread (set_state X) t s) x
  = if decide (x = t) then (fun p => (X, snd p)) <$> look s t else look s x.
Proof.
  rewrite look_upd_thread. destruct (decide (x = t)); [|done].
  unfold look. now destruct (thrtab s !! t).
Qed.

Lemma waiters_upd_thread f t s c :
  (forall th, child_exit (f th) = child_exit th) ->
  waiters (upd_thread f t s) c = waiters s c.
Proof.
  intros Hf. destruct c as [t0|l]; cbn; [|done].
  destruct (decide (t0 = t)) as [->|Hne].
  - rewrite lookup_alter_eq. destruct (thrtab s !! t); cbn; [apply Hf|done].
  - now rewrite lookup_alter_ne.
Qed.

Lemma waiters_upd_lock f l s c :
  (forall lk, cv (f lk) = cv lk) ->
  waiters (upd_lock f l s) c = waiters s c.
Proof.
  intros Hf. destruct c as [t0|l0]; cbn; [done|].
  destruct (decide (l0 = l)) as [->|Hne].
  - rewrite lookup_alter_eq. destruct (locks s !! l); cbn; [apply Hf|done].
  - now rewrite lookup_alter_ne.
Qed.

Lemma look_upd_lock f l s x : look (upd_lock f l s) x = look s x.
Proof. reflexivity. Qed.

Lemma look_set_waiters c w s x : look (set_waiters c w s) x = look s x.
Proof.
  destruct c as [t0|l]; [|reflexivity]. cbn [set_waiters].
  rewrite look_upd_thread. destruct (decide (x = t0)) as [->|]; [|done].
  unfold look. now destruct (thrtab s !! t0).
Qed.

(** The owner of a condition is there: the thread of a [child_exit],
    the lock of a [cv]. *)
Definition cond_there (s : tstate) (c : cond) : Prop :=
  match c with
  | ChildExit t => is_Some (thrtab s !! t)
  | LockCv l => is_Some (locks s !! l)
  end.

Lemma waiters_set_waiters_eq c w s :
  cond_there s c -> waiters (set_waiters c w s) c = w.
Proof.
  destruct c as [t0|l]; cbn; intros [x Hx].
  - rewrite lookup_alter_eq, Hx. done.
  - rewrite lookup_alter_eq, Hx. done.
Qed.

Lemma waiters_set_waiters_gone c w s :
  ~ cond_there s c -> waiters (set_waiters c w s) c = [].
Proof.
  destruct c as [t0|l]; cbn; intros Hn.
  - rewrite lookup_alter_eq. destruct (thrtab s !! t0) eqn:E; [|done].
    exfalso. apply Hn. eauto.
  - rewrite lookup_alter_eq. destruct (locks s !! l) eqn:E; [|done].
    exfalso. apply Hn. eauto.
Qed.

Lemma waiters_set_waiters_ne c c' w s :
  c' <> c -> waiters (set_waiters c w s) c' = waiters s c'.
Proof.
  intros Hne. destruct c as [t0|l], c' as [t1|l1]; cbn; try done.
  - rewrite lookup_alter_ne by congruence. done.
  - rewrite lookup_alter_ne by congruence. done.
Qed.

Lemma waiters_gone s c : ~ cond_there s c -> waiters s c = [].
Proof.
  destruct c as [t0|l]; cbn; intros Hn.
  - destruct (thrtab s !! t0) eqn:E; [|done]. exfalso. apply Hn. eauto.
  - destruct (locks s !! l) eqn:E; [|done]. exfalso. apply Hn. eauto.
Qed.

Lemma waiters_set_ready s rl c : waiters (set_ready s rl) c = waiters s c.
Proof. now destruct c. Qed.

Lemma waiters_set_tp s t c : waiters (set_tp s t) c = waiters s c.
Proof. now destruct c. Qed.

(** [running_thread_suspend], by what the caller's state is. *)
Lemma suspend_running s w :
  look s (tp s) = Some (THREAD_RUNNING, w) ->
  let s' := running_thread_suspend s in
  (forall c, waiters s' c = waiters s c) /\ locks s' = locks s /\
  match ready_list s with
  | [] =>
      (forall x, look s' x = look s x) /\ ready_list s' = [] /\ tp s' = tp s
  | t :: r =>
      t <> tp s ->
      (forall x, look s' x
         = if decide (x = t) then (fun p => (THREAD_RUNNING, snd p)) <$> look s t
           else if decide (x = tp s) then Some (THREAD_READY, w)
           else look s x) /\
      ready_list s' = r ++ [tp s] /\ tp s' = t
  end.
Proof.
  intros Hcur s'. subst s'. unfold running_thread_suspend.
  unfold look in Hcur. destruct (thrtab s !! tp s) as [cur|] eqn:Ecur; [|done].
  cbn in Hcur. injection Hcur as Hst Hw.
  rewrite decide_True by done.
  set (s1 := set_ready (upd_thread (set_state THREAD_READY) (tp s) s)
                       (ready_list s ++ [tp s])).
  assert (Hl1 : forall x, thrtab s1 !! x
            = if decide (x = tp s) then Some (set_state THREAD_READY cur) else thrtab s !! x).
  { intros x. subst s1. cbn [thrtab set_ready upd_thread set_thrtab].
    destruct (decide (x = tp s)) as [->|Hne].
    - now rewrite lookup_alter_eq, Ecur.
    - now rewrite lookup_alter_ne. }
  assert (Hw1 : forall c, waiters s1 c = waiters s c).
  { intros c. subst s1. rewrite waiters_set_ready. now apply waiters_upd_thread. }
  change (ready_list s1) with (ready_list s ++ [tp s]).
  destruct (ready_list s) as [|t r] eqn:Erl; cbn [app].
  - split; [|split; [done|]].
    { intros c. rewrite waiters_set_tp, waiters_upd_thread, waiters_set_ready by done.
      apply Hw1. }
    split; [|done]. intros x. unfold look.
    cbn [thrtab set_tp set_ready upd_thread set_thrtab].
    destruct (decide (x = tp s)) as [->|Hne].
    + rewrite lookup_alter_eq, Hl1, decide_True, Ecur by done. cbn.
      now rewrite Hst, Hw.
    + rewrite lookup_alter_ne, Hl1, decide_False by done. done.
  - split; [|split; [done|]].
    { intros c. rewrite waiters_set_tp, waiters_upd_thread, waiters_set_ready by done.
      apply Hw1. }
    intros Hne. split; [|done]. intros x. unfold look.
    cbn [thrtab set_tp set_ready upd_thread set_thrtab].
    destruct (decide (x = t)) as [->|Hxt].
    + rewrite lookup_alter_eq, Hl1, decide_False by done.
      now destruct (thrtab s !! t).
    + rewrite lookup_alter_ne, Hl1 by done.
      destruct (decide (x = tp s)) as [->|Hxc]; [|done].
      cbn. now rewrite Hw.
Qed.

Lemma suspend_blocked s X w t r :
  look s (tp s) = Some (X, w) -> X <> THREAD_RUNNING ->
  ready_list s = t :: r ->
  let s' := running_thread_suspend s in
  (forall c, waiters s' c = waiters s c) /\ locks s' = locks s /\
  (forall x, look s' x
     = if decide (x = t) then (fun p => (THREAD_RUNNING, snd p)) <$> look s t
       else look s x) /\
  ready_list s' = r /\ tp s' = t.
Proof.
  intros Hcur HX Hrl s'. subst s'. unfold running_thread_suspend.
  unfold look in Hcur. destruct (thrtab s !! tp s) as [cur|] eqn:Ecur; [|done].
  cbn in Hcur. injection Hcur as Hst Hw.
  rewrite decide_False by congruence. rewrite Hrl.
  split; [|split; [done|]].
  { intros c. now rewrite waiters_set_tp, waiters_upd_thread, waiters_set_ready. }
  split; [|done]. intros x. unfold look.
  cbn [thrtab set_tp set_ready upd_thread set_thrtab].
  destruct (decide (x = t)) as [->|Hxt].
  - rewrite lookup_alter_eq. now destruct (thrtab s !! t).
  - now rewrite lookup_alter_ne.
Qed.

Lemma sched_ok_yield s : sched_ok s -> sched_ok (running_thread_suspend s).
Proof.
  intros ((w & Hcur) & Hone & Hrdy & Hnd & Hwait & Hwnd).
  destruct (suspend_running s w Hcur) as (Hw' & _ & Hcase).
  destruct (ready_list s) as [|t r] eqn:Erl.
  - destruct Hcase as (Hl & Hr & Ht).
    split; [exists w; now rewrite Hl, Ht|]. split.
    { intros x w0. rewrite Hl, Ht. apply Hone. }
    split.
    { intros x. rewrite Hr. setoid_rewrite Hl. rewrite <- Hrdy. done. }
    split; [rewrite Hr; constructor|]. split.
    + intros c x. rewrite Hw', Hl. apply Hwait.
    + intros c. rewrite Hw'. apply Hwnd.
  - assert (Ht : exists wt, look s t = Some (THREAD_READY, wt)).
    { apply Hrdy. apply elem_of_cons. now left. }
    destruct Ht as [wt Ht].
    assert (Hne : t <> tp s) by (intros ->; congruence).
    destruct (Hcase Hne) as (Hl & Hr & Htp).
    apply NoDup_cons in Hnd as [Htr Hndr].
    assert (Hcr : tp s ∉ r).
    { intros Hin. assert (Hin' : tp s ∈ t :: r) by (apply elem_of_cons; now right).
      apply Hrdy in Hin' as [w1 H1]. congruence. }
    split; [exists wt; rewrite Htp, Hl, decide_True, Ht by done; done|]. split.
    { intros x w0. rewrite Hl, Htp. destruct (decide (x = t)); [done|].
      destruct (decide (x = tp s)); [done|]. intros Hx. now apply Hone in Hx. }
    split.
    { intros x. rewrite Hr, elem_of_app, list_elem_of_singleton. setoid_rewrite Hl.
      destruct (decide (x = t)) as [->|Hxt].
      - rewrite Ht. cbn. split; [intros [?|?]; done | intros [? ?]; done].
      - destruct (decide (x = tp s)) as [->|Hxc].
        + split; [eauto | now right].
        + rewrite <- Hrdy, elem_of_cons. tauto. }
    split.
    { rewrite Hr. apply NoDup_app. split; [done|]. split; [|apply NoDup_singleton].
      intros x Hx ->%list_elem_of_singleton. done. }
    split.
    + intros c x Hx. rewrite Hw' in Hx. apply Hwait in Hx. rewrite Hl.
      destruct (decide (x = t)) as [->|]; [congruence|].
      destruct (decide (x = tp s)) as [->|]; [congruence|]. done.
    + intros c. rewrite Hw'. apply Hwnd.
Qed.

Definition sleep (c : cond) (th : thread) : thread :=
  set_wait_cond (Some c) (set_state THREAD_WAITING th).

Lemma cond_there_dec s c : Decision (cond_there s c).
Proof. destruct c; cbn; apply _. Defined.

(** [condition_wait] called by the running thread while another
    thread is ready. *)
Lemma wait_effect c s w t r :
  look s (tp s) = Some (THREAD_RUNNING, w) -> ready_list s = t :: r -> t <> tp s ->
  let s' := condition_wait c s in
  (forall x, look s' x
     = if decide (x = t) then (fun p => (THREAD_RUNNING, snd p)) <$> look s t
       else if decide (x = tp s) then Some (THREAD_WAITING, Some c)
       else look s x) /\
  waiters s' c = (if cond_there_dec s c then waiters s c ++ [tp s] else []) /\
  (forall c', c' <> c -> waiters s' c' = waiters s c') /\
  ready_list s' = r /\ tp s' = t.
Proof.
  intros Hcur Hrl Hne s'. subst s'. unfold condition_wait.
  fold (sleep c).
  set (s1 := upd_thread (sleep c) (tp s) s).
  set (s2 := set_waiters c (waiters s1 c ++ [tp s]) s1).
  assert (Hl1 : forall x, look s1 x
            = if decide (x = tp s) then Some (THREAD_WAITING, Some c) else look s x).
  { intros x. subst s1. rewrite look_upd_thread. destruct (decide (x = tp s)); [|done].
    unfold look in Hcur. destruct (thrtab s !! tp s); [done|done]. }
  assert (Hw1 : forall c0, waiters s1 c0 = waiters s c0).
  { intros c0. now apply waiters_upd_thread. }
  assert (Hthere : cond_there s1 c <-> cond_there s c).
  { destruct c as [t0|l]; cbn; [|done].
    destruct (decide (t0 = tp s)) as [->|Hx].
    - rewrite lookup_alter_eq. unfold is_Some. split; intros [x Hx].
      + destruct (thrtab s !! tp s); [eauto|done].
      + rewrite Hx. eauto.
    - now rewrite lookup_alter_ne. }
  assert (Htp2 : tp s2 = tp s) by (subst s2 s1; now destruct c).
  assert (Hrl2 : ready_list s2 = t :: r) by (subst s2 s1; now destruct c).
  assert (Hl2 : forall x, look s2 x = look s1 x) by (intros x; apply look_set_waiters).
  destruct (suspend_blocked s2 THREAD_WAITING (Some c) t r) as (Hw' & _ & Hl' & Hr' & Ht').
  { rewrite Htp2, Hl2, Hl1. now rewrite decide_True. }
  { done. }
  { done. }
  split; [|split; [|split; [|done]]].
  - intros x. rewrite Hl', !Hl2, !Hl1. rewrite (decide_False (P := t = tp s)) by done. done.
  - rewrite Hw'. subst s2. destruct (cond_there_dec s c) as [Hc|Hc].
    + rewrite waiters_set_waiters_eq by now apply Hthere. now rewrite Hw1.
    + apply waiters_set_waiters_gone. now rewrite Hthere.
  - intros c' Hc'. rewrite Hw'. subst s2. rewrite waiters_set_waiters_ne by done. apply Hw1.
Qed.

Lemma sched_ok_wait c s :
  sched_ok s -> ready_list s <> [] -> sched_ok (condition_wait c s).
Proof.
  intros ((w & Hcur) & Hone & Hrdy & Hnd & Hwait & Hwnd) Hrl.
  destruct (ready_list s) as [|t r] eqn:Erl; [done|].
  assert (Ht : exists wt, look s t = Some (THREAD_READY, wt)).
  { apply Hrdy. apply elem_of_cons. now left. }
  destruct Ht as [wt Ht].
  assert (Hne : t <> tp s) by (intros ->; congruence).
  destruct (wait_effect c s w t r Hcur Erl Hne) as (Hl & Hwc & Hwo & Hr & Htp).
  apply NoDup_cons in Hnd as [Htr Hndr].
  assert (Hcr : tp s ∉ r).
  { intros Hin. assert (Hin' : tp s ∈ t :: r) by (apply elem_of_cons; now right).
    apply Hrdy in Hin' as [w1 H1]. congruence. }
  assert (Hcw : forall c0, tp s ∉ waiters s c0).
  { intros c0 Hin. apply Hwait in Hin. congruence. }
  assert (Htw : forall c0, t ∉ waiters s c0).
  { intros c0 Hin. apply Hwait in Hin. congruence. }
  split; [exists wt; rewrite Htp, Hl, decide_True, Ht by done; done|]. split.
  { intros x w0. rewrite Hl, Htp. destruct (decide (x = t)); [done|].
    destruct (decide (x = tp s)); [done|]. intros Hx. now apply Hone in Hx. }
  split.
  { intros x. rewrite Hr. setoid_rewrite Hl.
    destruct (decide (x = t)) as [->|Hxt].
    - rewrite Ht. cbn. split; [done | intros [? ?]; done].
    - destruct (decide (x = tp s)) as [->|Hxc].
      + split; [done | intros [? ?]; done].
      + rewrite <- Hrdy, elem_of_cons. tauto. }
  split; [now rewrite Hr|].
  assert (Hin : forall c0 x, x ∈ waiters (condition_wait c s) c0 ->
            (x ∈ waiters s c0) \/ (x = tp s /\ c0 = c)).
  { intros c0 x. destruct (decide (c0 = c)) as [->|Hc0].
    - rewrite Hwc. destruct (cond_there_dec s c); [|intros []%elem_of_nil].
      rewrite elem_of_app, list_elem_of_singleton. tauto.
    - rewrite Hwo by done. tauto. }
  split.
  - intros c0 x Hx. rewrite Hl. destruct (Hin _ _ Hx) as [Hold|[-> ->]].
    + destruct (decide (x = t)) as [->|]; [now apply Htw in Hold|].
      destruct (decide (x = tp s)) as [->|]; [now apply Hcw in Hold|].
      now apply Hwait.
    + rewrite decide_False by done. now rewrite decide_True.
  - intros c0. destruct (decide (c0 = c)) as [->|Hc0].
    + rewrite Hwc. destruct (cond_there_dec s c); [|constructor].
      apply NoDup_app. split; [apply Hwnd|]. split; [|apply NoDup_singleton].
      intros x Hx ->%list_elem_of_singleton. now apply Hcw in Hx.
    + rewrite Hwo by done. apply Hwnd.
Qed.

Lemma broadcast_look c s x :
  look (condition_broadcast c s) x
  = if decide (x ∈ waiters s c) then (fun _ => (THREAD_READY, None)) <$> look s x
    else look s x.
Proof.
  destruct (broadcast_effect c s) as (_ & _ & _ & _ & Hsome & Hnone).
  unfold look. destruct (thrtab s !! x) as [th|] eqn:E.
  - destruct (Hsome x th E) as (th' & -> & _ & _ & _ & Hin & Hout). cbn.
    destruct (decide (x ∈ waiters s c)) as [H|H].
    + destruct (Hin H) as [-> ->]. done.
    + destruct (Hout H) as [-> ->]. done.
  - rewrite (Hnone x E). now destruct (decide (x ∈ waiters s c)).
Qed.

Lemma sched_ok_broadcast c s : sched_ok s -> sched_ok (condition_broadcast c s).
Proof.
  intros ((w & Hcur) & Hone & Hrdy & Hnd & Hwait & Hwnd).
  destruct (broadcast_effect c s) as (Hr & Hwc & Hwo & Htp & _).
  assert (Hcw : tp s ∉ waiters s c).
  { intros Hin. apply Hwait in Hin. congruence. }
  split; [exists w; rewrite Htp, broadcast_look, decide_False by done; done|]. split.
  { intros x w0. rewrite broadcast_look, Htp.
    destruct (decide (x ∈ waiters s c)) as [Hin|Hin].
    - rewrite (Hwait _ _ Hin). done.
    - apply Hone. }
  split.
  { intros x. rewrite Hr, elem_of_app. setoid_rewrite broadcast_look.
    destruct (decide (x ∈ waiters s c)) as [Hin|Hin].
    - rewrite (Hwait _ _ Hin). cbn. split; [eauto | now right].
    - rewrite <- Hrdy. tauto. }
  split.
  { rewrite Hr. apply NoDup_app. split; [done|]. split; [|apply Hwnd].
    intros x Hx Hin. apply Hrdy in Hx as [w1 H1]. apply Hwait in Hin. congruence. }
  split.
  - intros c0 x. destruct (decide (c0 = c)) as [->|Hc0].
    + rewrite Hwc. intros []%elem_of_nil.
    + rewrite Hwo by done. intros Hx. rewrite broadcast_look.
      pose proof (Hwait _ _ Hx) as Hlx.
      destruct (decide (x ∈ waiters s c)) as [Hin|Hin]; [|done].
      apply Hwait in Hin. congruence.
  - intros c0. destruct (decide (c0 = c)) as [->|Hc0].
    + rewrite Hwc. constructor.
    + rewrite Hwo by done. apply Hwnd.
Qed.

Lemma idle_ok_broadcast c s : sched_ok s -> idle_ok s -> idle_ok (condition_broadcast c s).
Proof.
  intros (_ & _ & _ & _ & Hwait & _) [w Hi]. exists w.
  rewrite !broadcast_look.
  destruct (decide (IDLE_TID ∈ waiters s c)) as [Hin|Hin]; [|done].
  apply Hwait in Hin. destruct Hi; congruence.
Qed.

Lemma idle_ok_yield s : sched_ok s -> idle_ok s -> idle_ok (running_thread_suspend s).
Proof.
  intros ((w & Hcur) & Hone & Hrdy & Hnd & _) [wi Hi].
  destruct (suspend_running s w Hcur) as (_ & _ & Hcase).
  destruct (ready_list s) as [|t r] eqn:Erl.
  - destruct Hcase as (Hl & _). exists wi. now rewrite !Hl.
  - assert (Ht : exists wt, look s t = Some (THREAD_READY, wt)).
    { apply Hrdy. apply elem_of_cons. now left. }
    destruct Ht as [wt Ht].
    assert (Hne : t <> tp s) by (intros ->; congruence).
    destruct (Hcase Hne) as (Hl & _).
    destruct (decide (IDLE_TID = t)) as [E|E].
    + exists wt. left. rewrite Hl, decide_True, <- E by done.
      rewrite E, Ht. done.
    + destruct (decide (IDLE_TID = tp s)) as [E2|E2].
      * exists w. right. rewrite Hl, decide_False, decide_True by done. done.
      * exists wi. rewrite !Hl. repeat rewrite decide_False by done. done.
Qed.

(** With the idle thread READY or RUNNING, some thread is ready
    whenever another thread than the idle one runs. *)
Lemma ready_not_empty s :
  sched_ok s -> idle_ok s -> tp s <> IDLE_TID -> ready_list s <> [].
Proof.
  intros (_ & Hone & Hrdy & _) [w [Hi|Hi]] Hne Hnil.
  - apply Hone in Hi. congruence.
  - assert (Hin : IDLE_TID ∈ ready_list s) by (apply Hrdy; eauto).
    rewrite Hnil in Hin. now apply elem_of_nil in Hin.
Qed.

Lemma idle_ok_wait c s :
  sched_ok s -> idle_ok s -> tp s <> IDLE_TID -> idle_ok (condition_wait c s).
Proof.
  intros Hok Hidle Hne.
  pose proof (ready_not_empty s Hok Hidle Hne) as Hrl.
  destruct Hok as ((w & Hcur) & Hone & Hrdy & Hnd & _). destruct Hidle as [wi Hi].
  destruct (ready_list s) as [|t r] eqn:Erl; [done|].
  assert (Ht : exists wt, look s t = Some (THREAD_READY, wt)).
  { apply Hrdy. apply elem_of_cons. now left. }
  destruct Ht as [wt Ht].
  assert (Hnt : t <> tp s) by (intros ->; congruence).
  destruct (wait_effect c s w t r Hcur Erl Hnt) as (Hl & _).
  destruct (decide (IDLE_TID = t)) as [E|E].
  - exists wt. left. rewrite Hl, decide_True, <- E by done. rewrite E, Ht. done.
  - exists wi. rewrite !Hl. repeat rewrite decide_False by done. done.
Qed.

(** Two states the scheduler cannot tell apart. *)
Definition same_view (s s' : tstate) : Prop :=
  (forall x, look s' x = look s x) /\ (forall c, waiters s' c = waiters s c) /\
  ready_list s' = ready_list s /\ tp s' = tp s.

Lemma sched_ok_same_view s s' : same_view s s' -> sched_ok s -> sched_ok s'.
Proof.
  intros (Hl & Hw & Hr & Ht) ((w & Hcur) & Hone & Hrdy & Hnd & Hwait & Hwnd).
  split; [exists w; now rewrite Ht, Hl|]. split.
  { intros x w0. rewrite Hl, Ht. apply Hone. }
  split.
  { intros x. rewrite Hr. setoid_rewrite Hl. apply Hrdy. }
  split; [now rewrite Hr|]. split.
  - intros c x. rewrite Hw, Hl. apply Hwait.
  - intros c. rewrite Hw. apply Hwnd.
Qed.

Lemma idle_ok_same_view s s' : same_view s s' -> idle_ok s -> idle_ok s'.
Proof. intros (Hl & _) [w Hi]. exists w. now rewrite !Hl. Qed.

Lemma same_view_upd_lock f l s :
  (forall lk, cv (f lk) = cv lk) -> same_view s (upd_lock f l s).
Proof.
  intros Hf. split; [done|]. split; [|done]. intros c. now apply waiters_upd_lock.
Qed.

Lemma same_view_lock_list f t s :
  (forall th, state (f th) = state th /\ wait_cond (f th) = wait_cond th /\
              child_exit (f th) = child_exit th) ->
  same_view s (upd_thread f t s).
Proof.
  intros Hf. split; [|split; [|done]].
  - intros x. rewrite look_upd_thread. destruct (decide (x = t)) as [->|]; [|done].
    unfold look. destruct (thrtab s !! t) as [th|]; [|done]. cbn.
    destruct (Hf th) as (-> & -> & _). done.
  - intros c. apply waiters_upd_thread. intros th. apply Hf.
Qed.

Lemma same_view_trans s1 s2 s3 : same_view s1 s2 -> same_view s2 s3 -> same_view s1 s3.
Proof.
  intros (Hl & Hw & Hr & Ht) (Hl' & Hw' & Hr' & Ht').
  split; [intros x; now rewrite Hl', Hl|]. split; [intros c; now rewrite Hw', Hw|].
  split; congruence.
Qed.

(** The thread in slot [t] has id [t]. *)
Definition ids_ok (s : tstate) : Prop :=
  forall t th, thrtab s !! t = Some th -> id th = t.

Lemma ids_ok_upd_thread f t s :
  (forall th, id (f th) = id th) -> ids_ok s -> ids_ok (upd_thread f t s).
Proof.
  intros Hf Hid x th. unfold upd_thread. cbn [thrtab set_thrtab].
  destruct (decide (x = t)) as [->|Hne].
  - rewrite lookup_alter_eq. destruct (thrtab s !! t) as [th0|] eqn:E; [|done].
    cbn. intros [= <-]. rewrite Hf. now apply Hid.
  - rewrite lookup_alter_ne by done. apply Hid.
Qed.

Lemma ids_ok_same_tab s s' : thrtab s' = thrtab s -> ids_ok s -> ids_ok s'.
Proof. intros E H x th. rewrite E. apply H. Qed.

Lemma ids_ok_suspend s : ids_ok s -> ids_ok (running_thread_suspend s).
Proof.
  intros Hid. unfold running_thread_suspend.
  set (s1 := match thrtab s !! tp s with
             | Some cur => if decide (state cur = THREAD_RUNNING) then _ else s
             | None => s
             end).
  assert (H1 : ids_ok s1).
  { subst s1. destruct (thrtab s !! tp s) as [cur|]; [|done].
    destruct (decide (state cur = THREAD_RUNNING)); [|done].
    apply (ids_ok_same_tab (upd_thread (set_state THREAD_READY) (tp s) s)); [done|].
    now apply ids_ok_upd_thread. }
  destruct (ready_list s1) as [|t r].
  - apply (ids_ok_same_tab (upd_thread (set_state THREAD_RUNNING) IDLE_TID (set_ready s1 []))); [done|].
    apply ids_ok_upd_thread; [done|]. now apply (ids_ok_same_tab s1).
  - apply (ids_ok_same_tab (upd_thread (set_state THREAD_RUNNING) t (set_ready s1 r))); [done|].
    apply ids_ok_upd_thread; [done|]. now apply (ids_ok_same_tab s1).
Qed.

Lemma ids_ok_set_waiters c w s : ids_ok s -> ids_ok (set_waiters c w s).
Proof.
  intros Hid. destruct c as [t0|l]; cbn [set_waiters].
  - now apply ids_ok_upd_thread.
  - now apply (ids_ok_same_tab s).
Qed.

Lemma ids_ok_wait c s : ids_ok s -> ids_ok (condition_wait c s).
Proof.
  intros Hid. unfold condition_wait. apply ids_ok_suspend, ids_ok_set_waiters.
  now apply ids_ok_upd_thread.
Qed.

Lemma ids_ok_broadcast c s : ids_ok s -> ids_ok (condition_broadcast c s).
Proof.
  intros Hid x th Hx.
  destruct (broadcast_effect c s) as (_ & _ & _ & _ & Hsome & Hnone).
  destruct (thrtab s !! x) as [th0|] eqn:E.
  - destruct (Hsome x th0 E) as (th' & Hth' & Hi & _). rewrite Hth' in Hx.
    injection Hx as <-. rewrite Hi. now apply Hid.
  - rewrite (Hnone x E) in Hx. done.
Qed.

Definition thr_inv (s : tstate) : Prop := sched_ok s /\ idle_ok s /\ ids_ok s.

Lemma thr_inv_same_view s s' :
  same_view s s' -> (ids_ok s -> ids_ok s') -> thr_inv s -> thr_inv s'.
Proof.
  intros Hv Hid (H1 & H2 & H3).
  split; [eapply sched_ok_same_view; eauto|].
  split; [eapply idle_ok_same_view; eauto | auto].
Qed.

Lemma thr_inv_yield s : thr_inv s -> thr_inv (running_thread_suspend s).
Proof.
  intros (H1 & H2 & H3). split; [now apply sched_ok_yield|].
  split; [now apply idle_ok_yield | now apply ids_ok_suspend].
Qed.

Lemma thr_inv_wait c s : thr_inv s -> tp s <> IDLE_TID -> thr_inv (condition_wait c s).
Proof.
  intros (H1 & H2 & H3) Hne. split.
  - apply sched_ok_wait; [done|]. now apply ready_not_empty.
  - split; [now apply idle_ok_wait | now apply ids_ok_wait].
Qed.

Lemma thr_inv_broadcast c s : thr_inv s -> thr_inv (condition_broadcast c s).
Proof.
  intros (H1 & H2 & H3). split; [now apply sched_ok_broadcast|].
  split; [now apply idle_ok_broadcast | now apply ids_ok_broadcast].
Qed.

Lemma thr_inv_spawn s : thr_inv s -> thr_inv (snd (thread_spawn s)).
Proof.
  intros (Hok & Hidle & Hid).
  destruct (spawn_effect s) as [_ Hfree].
  destruct (NTHR <=? free_slot (thrtab s) 1 (Z.to_nat NTHR)) eqn:Efull.
  { unfold thread_spawn. rewrite Efull. done. }
  assert (Hex : exists i, 1 <= i < NTHR /\ thrtab s !! i = None).
  { apply Z.leb_gt in Efull.
    destruct (free_slot_spec (thrtab s) (Z.to_nat NTHR) 1 _ eq_refl) as (Hr & _ & Hend).
    exists (free_slot (thrtab s) 1 (Z.to_nat NTHR)). split; [lia|].
    destruct Hend as [Hbad|Hn]; [unfold NTHR in *; lia | lia | done]. }
  destruct (Hfree Hex) as (Hr & Hnone & _ & Hnew & Hold & Hrl & Htp & Hlk).
  set (r := fst (thread_spawn s)) in *. set (s' := snd (thread_spawn s)) in *.
  assert (Hl : forall x, look s' x = if decide (x = r) then Some (THREAD_READY, None) else look s x).
  { intros x. unfold look. destruct (decide (x = r)) as [->|Hne].
    - now rewrite Hnew.
    - now rewrite Hold. }
  assert (Hlr : look s r = None) by (unfold look; now rewrite Hnone).
  assert (Hw : forall c, waiters s' c = waiters s c).
  { intros [t0|l]; cbn [waiters]; [|now rewrite Hlk].
    destruct (decide (t0 = r)) as [->|Hne].
    - now rewrite Hnew, Hnone.
    - now rewrite Hold. }
  destruct Hok as ((w & Hcur) & Hone & Hrdy & Hnd & Hwait & Hwnd).
  assert (Htr : tp s <> r) by (intros E; rewrite E in Hcur; congruence).
  split; [|split].
  - split; [exists w; rewrite Htp, Hl, decide_False by done; done|]. split.
    { intros x w0. rewrite Hl, Htp. destruct (decide (x = r)); [done|]. apply Hone. }
    split.
    { intros x. rewrite Hrl, elem_of_app, list_elem_of_singleton. setoid_rewrite Hl.
      destruct (decide (x = r)) as [->|Hne].
      - split; [eauto | now right].
      - rewrite <- Hrdy. tauto. }
    split.
    { rewrite Hrl. apply NoDup_app. split; [done|]. split; [|apply NoDup_singleton].
      intros x Hx ->%list_elem_of_singleton. apply Hrdy in Hx as [w1 H1]. congruence. }
    split.
    + intros c x. rewrite Hw, Hl. intros Hx. apply Hwait in Hx.
      destruct (decide (x = r)) as [->|]; [congruence | done].
    + intros c. rewrite Hw. apply Hwnd.
  - destruct Hidle as [wi Hi]. exists wi. rewrite !Hl.
    destruct (decide (IDLE_TID = r)) as [E|]; [|done].
    rewrite E in Hi. destruct Hi; congruence.
  - intros x th. destruct (decide (x = r)) as [->|Hne].
    + rewrite Hnew. now intros [= <-].
    + rewrite Hold by done. apply Hid.
Qed.

Lemma thr_inv_acquire l s r s' :
  thr_inv s -> tp s <> IDLE_TID -> lock_acquire l s = Some (r, s') -> thr_inv s'.
Proof.
  intros Hinv Hne. unfold lock_acquire.
  destruct (locks s !! l) as [lk|]; [|done].
  destruct (decide (owner lk = Some (tp s))).
  - intros [= <- <-]. eapply thr_inv_same_view; [now apply same_view_upd_lock| |done].
    now apply ids_ok_same_tab.
  - destruct (owner lk).
    + intros [= <- <-]. now apply thr_inv_wait.
    + intros [= <- <-].
      eapply thr_inv_same_view; [| |exact Hinv].
      * apply (same_view_trans _ (upd_lock (fun lk => mk_lock (Some (tp s)) 1 (cv lk)) l s));
          [now apply same_view_upd_lock|].
        now apply same_view_lock_list.
      * intros Hid. apply ids_ok_upd_thread; [done|]. now apply (ids_ok_same_tab s).
Qed.

Lemma thr_inv_release l s s' : thr_inv s -> lock_release l s = Some s' -> thr_inv s'.
Proof.
  intros Hinv. unfold lock_release.
  destruct (locks s !! l) as [lk|]; [|done].
  destruct (decide (owner lk = Some (tp s))); [|now intros [= <-]].
  destruct (0 <? wrap32 (count lk - 1)).
  - intros [= <-]. eapply thr_inv_same_view; [now apply same_view_upd_lock| |done].
    now apply ids_ok_same_tab.
  - destruct (thrtab s !! tp s) as [me|]; [|done].
    destruct (unlink l (lock_list me)) as [rest|]; [|done].
    intros [= <-]. apply thr_inv_broadcast.
    eapply thr_inv_same_view; [| |exact Hinv].
    + apply (same_view_trans _ (upd_thread (set_lock_list rest) (tp s) s));
        [now apply same_view_lock_list|].
      now apply same_view_upd_lock.
    + intros Hid. apply (ids_ok_same_tab (upd_thread (set_lock_list rest) (tp s) s)); [done|].
      now apply ids_ok_upd_thread.
Qed.

Lemma thr_inv_release_held held : forall s,
  thr_inv s -> thr_inv (release_held held s) /\ tp (release_held held s) = tp s.
Proof.
  induction held as [|l rest IH]; intros s Hinv; cbn [release_held]; [done|].
  set (s2 := upd_lock _ l (upd_thread (set_lock_list rest) (tp s) s)).
  assert (H2 : thr_inv s2).
  { eapply thr_inv_same_view; [| |exact Hinv].
    - apply (same_view_trans _ (upd_thread (set_lock_list rest) (tp s) s));
        [now apply same_view_lock_list|].
      now apply same_view_upd_lock.
    - intros Hid. apply (ids_ok_same_tab (upd_thread (set_lock_list rest) (tp s) s)); [done|].
      now apply ids_ok_upd_thread. }
  destruct (IH (condition_broadcast (LockCv l) s2) (thr_inv_broadcast _ _ H2)) as [H3 Ht].
  split; [done|]. rewrite Ht, tp_broadcast. done.
Qed.

(** The state between the moment the running thread marks itself
    EXITED and the switch to the next thread: no thread is RUNNING. *)
Definition leaving (s : tstate) : Prop :=
  (exists w, look s (tp s) = Some (THREAD_EXITED, w)) /\
  (forall t w, look s t <> Some (THREAD_RUNNING, w)) /\
  (forall t, t ∈ ready_list s <-> exists w, look s t = Some (THREAD_READY, w)) /\
  NoDup (ready_list s) /\
  (forall c t, t ∈ waiters s c -> look s t = Some (THREAD_WAITING, Some c)) /\
  (forall c, NoDup (waiters s c)) /\
  (exists w, look s IDLE_TID = Some (THREAD_READY, w)).

Lemma leaving_set_exited s :
  sched_ok s -> idle_ok s -> tp s <> IDLE_TID ->
  leaving (upd_thread (set_state THREAD_EXITED) (tp s) s).
Proof.
  intros ((w & Hcur) & Hone & Hrdy & Hnd & Hwait & Hwnd) [wi Hi] Hne.
  set (s2 := upd_thread (set_state THREAD_EXITED) (tp s) s).
  assert (Hl : forall x, look s2 x
            = if decide (x = tp s) then Some (THREAD_EXITED, w) else look s x).
  { intros x. subst s2. rewrite look_upd_thread. destruct (decide (x = tp s)); [|done].
    unfold look in Hcur. destruct (thrtab s !! tp s); [|done]. cbn in *. congruence. }
  assert (Hw : forall c, waiters s2 c = waiters s c).
  { intros c. now apply waiters_upd_thread. }
  split; [exists w; change (tp s2) with (tp s); now rewrite Hl, decide_True|]. split.
  { intros x w0. rewrite Hl. destruct (decide (x = tp s)); [done|].
    intros Hx. now apply Hone in Hx. }
  split.
  { intros x. change (ready_list s2) with (ready_list s). setoid_rewrite Hl.
    destruct (decide (x = tp s)) as [->|].
    - rewrite Hrdy. split; intros [w1 H1]; congruence.
    - apply Hrdy. }
  split; [done|]. split.
  { intros c x. rewrite Hw, Hl. intros Hx. apply Hwait in Hx.
    destruct (decide (x = tp s)) as [->|]; [congruence | done]. }
  split; [intros c; rewrite Hw; apply Hwnd|].
  exists wi. rewrite Hl, decide_False by done.
  destruct Hi as [Hi|Hi]; [|done]. apply Hone in Hi. congruence.
Qed.

Lemma leaving_broadcast c s : leaving s -> leaving (condition_broadcast c s).
Proof.
  intros ((w & Hcur) & Hone & Hrdy & Hnd & Hwait & Hwnd & (wi & Hi)).
  destruct (broadcast_effect c s) as (Hr & Hwc & Hwo & Htp & _).
  assert (Hcw : tp s ∉ waiters s c).
  { intros Hin. apply Hwait in Hin. congruence. }
  split; [exists w; rewrite Htp, broadcast_look, decide_False by done; done|]. split.
  { intros x w0. rewrite broadcast_look.
    destruct (decide (x ∈ waiters s c)) as [Hin|Hin].
    - rewrite (Hwait _ _ Hin). done.
    - apply Hone. }
  split.
  { intros x. rewrite Hr, elem_of_app. setoid_rewrite broadcast_look.
    destruct (decide (x ∈ waiters s c)) as [Hin|Hin].
    - rewrite (Hwait _ _ Hin). cbn. split; [eauto | now right].
    - rewrite <- Hrdy. tauto. }
  split.
  { rewrite Hr. apply NoDup_app. split; [done|]. split; [|apply Hwnd].
    intros x Hx Hin. apply Hrdy in Hx as [w1 H1]. apply Hwait in Hin. congruence. }
  split.
  { intros c0 x. destruct (decide (c0 = c)) as [->|Hc0].
    + rewrite Hwc. intros []%elem_of_nil.
    + rewrite Hwo by done. intros Hx. rewrite broadcast_look.
      pose proof (Hwait _ _ Hx) as Hlx.
      destruct (decide (x ∈ waiters s c)) as [Hin|Hin]; [|done].
      apply Hwait in Hin. congruence. }
  split.
  { intros c0. destruct (decide (c0 = c)) as [->|Hc0].
    + rewrite Hwc. constructor.
    + rewrite Hwo by done. apply Hwnd. }
  exists wi. rewrite broadcast_look.
  destruct (decide (IDLE_TID ∈ waiters s c)) as [Hin|Hin]; [|done].
  apply Hwait in Hin. congruence.
Qed.

Lemma sched_ok_leave s :
  leaving s -> sched_ok (running_thread_suspend s) /\ idle_ok (running_thread_suspend s).
Proof.
  intros ((w & Hcur) & Hone & Hrdy & Hnd & Hwait & Hwnd & (wi & Hi)).
  destruct (ready_list s) as [|t r] eqn:Erl.
  { assert (Hin : IDLE_TID ∈ @nil Z) by (apply Hrdy; eauto).
    now apply elem_of_nil in Hin. }
  assert (Ht : exists wt, look s t = Some (THREAD_READY, wt)).
  { apply Hrdy. apply elem_of_cons. now left. }
  destruct Ht as [wt Ht].
  destruct (suspend_blocked s THREAD_EXITED w t r Hcur ltac:(done) Erl)
    as (Hw' & _ & Hl & Hr & Htp).
  apply NoDup_cons in Hnd as [Htr Hndr].
  split.
  - split; [exists wt; rewrite Htp, Hl, decide_True, Ht by done; done|]. split.
    { intros x w0. rewrite Hl, Htp. destruct (decide (x = t)); [done|].
      intros Hx. now apply Hone in Hx. }
    split.
    { intros x. rewrite Hr. setoid_rewrite Hl.
      destruct (decide (x = t)) as [->|Hxt].
      - rewrite Ht. cbn. split; [done | intros [? ?]; done].
      - rewrite <- Hrdy, elem_of_cons. tauto. }
    split; [now rewrite Hr|]. split.
    + intros c x. rewrite Hw', Hl. intros Hx. apply Hwait in Hx.
      destruct (decide (x = t)) as [->|]; [congruence | done].
    + intros c. rewrite Hw'. apply Hwnd.
  - destruct (decide (IDLE_TID = t)) as [E|E].
    + exists wt. left. rewrite Hl, decide_True, <- E by done. rewrite E, Ht. done.
    + exists wi. right. rewrite Hl, decide_False by done. done.
Qed.

Lemma thr_inv_exit s :
  thr_inv s -> tp s <> IDLE_TID ->
  match thread_exit s with
  | Switched s' => thr_inv s'
  | Halted s' => thr_inv s'
  end.
Proof.
  intros Hinv Hne. unfold thread_exit.
  set (held := match thrtab s !! tp s with Some me => lock_list me | None => [] end).
  destruct (thr_inv_release_held held s Hinv) as [H1 Htp].
  set (s1 := release_held held s) in *.
  destruct (thrtab s1 !! tp s1) as [me|] eqn:Eme; [|done].
  destruct (id me =? MAIN_TID); [done|].
  destruct H1 as (Hok & Hidle & Hid).
  set (s2 := upd_thread (set_state THREAD_EXITED) (tp s1) s1).
  assert (Hlv : leaving s2) by (apply leaving_set_exited; [done|done|congruence]).
  apply (leaving_broadcast (ChildExit (tp s1))) in Hlv.
  destruct (sched_ok_leave _ Hlv) as [Hok' Hidle'].
  split; [done|]. split; [done|].
  apply ids_ok_suspend, ids_ok_broadcast. now apply ids_ok_upd_thread.
Qed.

Lemma thr_inv_reclaim tid s thr :
  thr_inv s -> thrtab s !! tid = Some thr -> state thr = THREAD_EXITED ->
  thr_inv (thread_reclaim tid s).
Proof.
  intros (Hok & Hidle & Hid) Hthr Hex.
  destruct (reclaim_effect tid s thr Hthr) as (Hgone & Hkeep & Hnone & Hrl & Htp & Hlk).
  set (s' := thread_reclaim tid s) in *.
  assert (Hl : forall x, look s' x = if decide (x = tid) then None else look s x).
  { intros x. unfold look. destruct (decide (x = tid)) as [->|Hne]; [now rewrite Hgone|].
    destruct (thrtab s !! x) as [ch|] eqn:E.
    - rewrite (Hkeep x ch Hne E). cbn.
      now destruct (bool_decide (1 <= x < NTHR) && bool_decide (parent ch = Some tid)).
    - now rewrite (Hnone x E). }
  assert (Hw : forall c x, x ∈ waiters s' c -> x ∈ waiters s c).
  { intros [t|l] x; cbn [waiters]; [|now rewrite Hlk].
    destruct (decide (t = tid)) as [->|Hne]; [rewrite Hgone; now intros ?%elem_of_nil|].
    destruct (thrtab s !! t) as [ch|] eqn:E.
    - rewrite (Hkeep t ch Hne E).
      now destruct (bool_decide (1 <= t < NTHR) && bool_decide (parent ch = Some tid)).
    - now rewrite (Hnone t E). }
  assert (Hwn : forall c, NoDup (waiters s c) -> NoDup (waiters s' c)).
  { intros [t|l]; cbn [waiters]; [|now rewrite Hlk].
    destruct (decide (t = tid)) as [->|Hne]; [rewrite Hgone; intros _; constructor|].
    destruct (thrtab s !! t) as [ch|] eqn:E.
    - rewrite (Hkeep t ch Hne E).
      now destruct (bool_decide (1 <= t < NTHR) && bool_decide (parent ch = Some tid)).
    - now rewrite (Hnone t E). }
  assert (Hlt : look s tid = Some (THREAD_EXITED, wait_cond thr)).
  { unfold look. rewrite Hthr. cbn. now rewrite Hex. }
  destruct Hok as ((w & Hcur) & Hone & Hrdy & Hnd & Hwait & Hwnd).
  split; [|split].
  - split.
    { exists w. rewrite Htp, Hl. destruct (decide (tp s = tid)) as [E|]; [|done].
      rewrite E in Hcur. congruence. }
    split.
    { intros x w0. rewrite Hl, Htp. destruct (decide (x = tid)); [done|]. apply Hone. }
    split.
    { intros x. rewrite Hrl. setoid_rewrite Hl. rewrite Hrdy.
      destruct (decide (x = tid)) as [->|]; [|done].
      split; intros [w1 H1]; congruence. }
    split; [now rewrite Hrl|]. split.
    + intros c x Hx. apply Hw, Hwait in Hx. rewrite Hl.
      destruct (decide (x = tid)) as [->|]; [congruence | done].
    + intros c. apply Hwn, Hwnd.
  - destruct Hidle as [wi Hi]. exists wi. rewrite Hl.
    destruct (decide (IDLE_TID = tid)) as [E|]; [|done].
    rewrite E in Hi. destruct Hi; congruence.
  - intros x th. destruct (decide (x = tid)) as [->|Hne]; [now rewrite Hgone|].
    destruct (thrtab s !! x) as [ch|] eqn:E.
    + rewrite (Hkeep x ch Hne E). intros [= <-].
      pose proof (Hid x ch E) as Hx.
      now destruct (bool_decide (1 <= x < NTHR) && bool_decide (parent ch = Some tid)).
    + now rewrite (Hnone x E).
Qed.

Lemma first_child_slot s slots i c :
  first_child s slots = Some (i, c) -> thrtab s !! i = Some c.
Proof.
  induction slots as [|j more IH]; cbn [first_child]; [done|].
  destruct (thrtab s !! j) as [cj|] eqn:E; [|done].
  destruct (decide (parent cj = Some (tp s))); [|done].
  now intros [= <- <-].
Qed.

Lemma thr_inv_join_wait child tid s :
  thr_inv s -> tp s <> IDLE_TID -> child = None \/ child = Some tid ->
  thr_inv (snd (join_wait child tid s)).
Proof.
  intros Hinv Hne [->| ->]; cbn [join_wait]; [done|].
  destruct (thrtab s !! tid) as [now|] eqn:E; [|done].
  destruct (decide (state now = THREAD_EXITED)); cbn [snd].
  - now apply (thr_inv_reclaim tid s now).
  - now apply thr_inv_wait.
Qed.

Lemma thr_inv_join tid s :
  thr_inv s -> tp s <> IDLE_TID -> thr_inv (snd (thread_join tid s)).
Proof.
  intros Hinv Hne. unfold thread_join.
  match goal with |- context [if ?b then (JoinRet (- EINVAL), s) else _] =>
    destruct b end; [done|].
  destruct (tid =? 0) eqn:E0.
  - destruct (first_child s _) as [[i c]|] eqn:Ef; [|done].
    apply first_child_slot in Ef.
    destruct Hinv as (Hok & Hidle & Hid). rewrite (Hid i c Ef).
    apply thr_inv_join_wait; [done|done|now right].
  - apply thr_inv_join_wait; [done|done|].
    destruct ((0 <? tid) && (tid <? NTHR)); [|now left].
    destruct (thrtab s !! tid); [now right | now left].
Qed.

Inductive sched_op :=
| SYield
| SWait (c : cond)
| SBroadcast (c : cond)
| SSpawn
| SExit
| SJoin (tid : Z)
| SAcquire (l : Z)
| SRelease (l : Z).

(** The calls that can leave the caller off the ready list. *)
Definition may_block (o : sched_op) : bool :=
  match o with
  | SWait _ | SExit | SJoin _ | SAcquire _ => true
  | _ => false
  end.

(** One call made by the running thread.  The idle thread only yields
    (its body is a loop around [thread_yield] and [wfi]), so a blocking
    call made by it is no step. *)
Definition sched_step (s : tstate) (o : sched_op) : option tstate :=
  if may_block o && bool_decide (tp s = IDLE_TID) then None
  else
    match o with
    | SYield => Some (running_thread_suspend s)
    | SWait c => Some (condition_wait c s)
    | SBroadcast c => Some (condition_broadcast c s)
    | SSpawn => Some (snd (thread_spawn s))
    | SExit => Some (exit_state (thread_exit s))
    | SJoin tid => Some (snd (thread_join tid s))
    | SAcquire l => snd <$> lock_acquire l s
    | SRelease l => lock_release l s
    end.

Fixpoint sched_run (s : tstate) (ops : list sched_op) : option tstate :=
  match ops with
  | [] => Some s
  | o :: more =>
      match sched_step s o with
      | Some s' => sched_run s' more
      | None => None
      end
  end.

Lemma thr_inv_step s o s' : thr_inv s -> sched_step s o = Some s' -> thr_inv s'.
Proof.
  intros Hinv. unfold sched_step.
  destruct (may_block o && bool_decide (tp s = IDLE_TID)) eqn:Eb; [done|].
  assert (Hne : may_block o = true -> tp s <> IDLE_TID).
  { intros Hm. rewrite Hm in Eb. cbn in Eb. now apply bool_decide_eq_false in Eb. }
  destruct o; cbn [may_block] in Hne.
  - intros [= <-]. now apply thr_inv_yield.
  - intros [= <-]. apply thr_inv_wait; auto.
  - intros [= <-]. now apply thr_inv_broadcast.
  - intros [= <-]. now apply thr_inv_spawn.
  - intros [= <-]. pose proof (thr_inv_exit s Hinv (Hne eq_refl)) as H.
    now destruct (thread_exit s).
  - intros [= <-]. apply thr_inv_join; auto.
  - destruct (lock_acquire l s) as [[r s1]|] eqn:E; [|done].
    intros [= <-]. eapply thr_inv_acquire; eauto.
  - intros E. eapply thr_inv_release; eauto.
Qed.

Lemma boot_thr_inv : thr_inv boot_state.
Proof.
  assert (Hl : forall x, look boot_state x
            = if decide (x = MAIN_TID) then Some (THREAD_RUNNING, None)
              else if decide (x = IDLE_TID) then Some (THREAD_READY, None) else None).
  { intros x. unfold look, boot_state, boot_threads. cbn [thrtab].
    destruct (decide (x = MAIN_TID)) as [->|H1]; [now rewrite lookup_insert_eq|].
    rewrite lookup_insert_ne by done.
    destruct (decide (x = IDLE_TID)) as [->|H2]; [now rewrite lookup_insert_eq|].
    now rewrite lookup_insert_ne by done. }
  assert (Hw : forall c, waiters boot_state c = []).
  { intros [t|l]; cbn [waiters].
    - specialize (Hl t). unfold look in Hl.
      destruct (thrtab boot_state !! t) as [th|] eqn:E; [|done].
      revert E. unfold boot_state, boot_threads. cbn [thrtab].
      destruct (decide (t = MAIN_TID)) as [->|H1];
        [rewrite lookup_insert_eq; now intros [= <-]|].
      rewrite lookup_insert_ne by done.
      destruct (decide (t = IDLE_TID)) as [->|H2];
        [rewrite lookup_insert_eq; now intros [= <-]|].
      now rewrite lookup_insert_ne by done.
    - unfold boot_state. cbn [locks].
      destruct (decide (l = 0x9000)) as [->|H1]; [now rewrite lookup_insert_eq|].
      now rewrite lookup_insert_ne by done. }
  split; [|split].
  - split; [exists None; now rewrite Hl|]. split.
    { intros x w. rewrite Hl. destruct (decide (x = MAIN_TID)); [done|].
      now destruct (decide (x = IDLE_TID)). }
    split.
    { intros x. setoid_rewrite Hl. change (ready_list boot_state) with [IDLE_TID].
      rewrite list_elem_of_singleton.
      destruct (decide (x = MAIN_TID)) as [->|]; [split; [done | intros [? ?]; done]|].
      destruct (decide (x = IDLE_TID)); [split; eauto|].
      split; [done | intros [? ?]; done]. }
    split; [apply NoDup_singleton|]. split.
    + intros c x. rewrite Hw. now intros ?%elem_of_nil.
    + intros c. rewrite Hw. constructor.
  - exists None. right. now rewrite Hl.
  - intros x th. unfold boot_state, boot_threads. cbn [thrtab].
    destruct (decide (x = MAIN_TID)) as [->|H1];
      [rewrite lookup_insert_eq; now intros [= <-]|].
    rewrite lookup_insert_ne by done.
    destruct (decide (x = IDLE_TID)) as [->|H2];
      [rewrite lookup_insert_eq; now intros [= <-]|].
    now rewrite lookup_insert_ne by done.
Qed.

(** The scheduler's bookkeeping stays consistent, whatever the threads
    call: after any sequence of [thread_yield], [condition_wait],
    [condition_broadcast], [thread_spawn], [thread_exit], [thread_join],
    [lock_acquire] and [lock_release] in which the idle thread only
    yields, exactly one thread is RUNNING and it is the current one, the
    ready list holds the READY threads and no other, each once, a
    thread on a condition's wait list is WAITING on that condition and
    is there once, the idle thread is READY or RUNNING (so there is
    always a thread to switch to), and every slot holds the thread with
    that id. *)
Theorem scheduler_invariant (s : tstate) (ops : list sched_op) (s' : tstate) :
  thr_inv s -> sched_run s ops = Some s' -> thr_inv s'.
Proof.
  revert s. induction ops as [|o more IH]; intros s Hinv; cbn [sched_run].
  - now intros [= <-].
  - destruct (sched_step s o) as [s1|] eqn:E; [|done].
    apply IH. eapply thr_inv_step; eauto.
Qed.

Definition sample_ops : list sched_op :=
  [SSpawn; SAcquire 0x9000; SSpawn; SYield; SYield; SAcquire 0x9000; SYield;
   SRelease 0x9000; SJoin 1; SYield; SExit; SAcquire 0x9000; SExit; SYield;
   SJoin 1; SJoin 0].

Lemma scheduler_invariant_witness :
  match sched_run boot_state sample_ops with
  | Some s' => thr_inv s'
  | None => False
  end.
Proof.
  destruct (sched_run boot_state sample_ops) as [s'|] eqn:E.
  - exact (scheduler_invariant boot_state sample_ops s' boot_thr_inv E).
  - vm_compute in E. discriminate E.
Defined.

End Thread.

(** * The seekable wrapper (io.c) *)

Module Seekio.
Import Io.

Section Backing.

(** The state behind the backing endpoint. *)
Variable B : Type.

(** [struct iointf], the members the wrapper calls; a member may be
    NULL.  [cntl] gets the value [*arg] and returns what it stores
    through [arg], if anything. *)
Record iointf := mk_iointf {
  cntl : option (B -> Z -> Z -> Z * B * option Z);
  readat : option (B -> Z -> Z -> Z * B * list Z);
  writeat : option (B -> Z -> list Z -> Z -> Z * B)
}.

Variable intf : iointf.

(** [ioctl] *)
Definition ioctl (b : B) (cmd arg : Z) : Z * B * option Z :=
  match cntl intf with
  | Some f => f b cmd arg
  | None => if cmd =? IOCTL_GETBLKSZ then (1, b, None) else (- ENOTSUP, b, None)
  end.

(** [ioreadat], [iowriteat] *)
Definition ioreadat (b : B) (pos bufsz : Z) : Z * B * list Z :=
  match readat intf with
  | None => (- ENOTSUP, b, [])
  | Some f => if bufsz <? 0 then (- EINVAL, b, []) else f b pos bufsz
  end.

Definition iowriteat (b : B) (pos : Z) (buf : list Z) (len : Z) : Z * B :=
  match writeat intf with
  | None => (- ENOTSUP, b)
  | Some f => if len <? 0 then (- EINVAL, b) else f b pos buf len
  end.

(** [struct seekio] without the pointer to the backing endpoint. *)
Record seekio := mk_seekio { pos : Z; end_ : Z; blksz : Z }.

(** [seekio_write]: the return value, the wrapper and the backing
    state after the call.  [pos] and [end] are [unsigned long long],
    [len] is a [long]. *)
Definition seekio_write (sio : seekio) (b : B) (buf : list Z) (len : Z)
    : Z * seekio * B :=
  if len =? 0 then (0, sio, b)
  else if len <? blksz sio then (- EINVAL, sio, b)
  else
    let len := Z.land len (Z.lnot (blksz sio - 1)) in
    let finish (sio1 : seekio) (b1 : B) :=
      let '(wcnt, b2) := iowriteat b1 (pos sio1) buf len in
      (wcnt,
       mk_seekio (wrap64 (pos sio + (if wcnt <? 0 then 0 else wcnt)))
                 (end_ sio1) (blksz sio1),
       b2) in
    if wrap64 (end_ sio - pos sio) <? wrap64 len then
      if 2 ^ 64 - 1 - pos sio <? wrap64 len then (- EINVAL, sio, b)
      else
        let e := wrap64 (pos sio + len) in
        let '(result, b1, out) := ioctl b IOCTL_SETEND e in
        if result =? 0
        then finish (mk_seekio (pos sio) (default e out) (blksz sio)) b1
        else (result, sio, b1)
    else finish sio b.

(** [seekio_writeat]: passed through to the backing endpoint. *)
Definition seekio_writeat (b : B) (p : Z) (buf : list Z) (len : Z) : Z * B :=
  iowriteat b p buf len.

End Backing.

Arguments mk_iointf {B}.
Arguments cntl {B}.
Arguments readat {B}.
Arguments writeat {B}.
Arguments ioctl {B}.
Arguments iowriteat {B}.
Arguments seekio_write {B}.
Arguments seekio_writeat {B}.

Arguments ioreadat {B}.

Section Seeking.

Variable B : Type.
Variable intf : iointf B.

(** [seekio_read]: the return value, the wrapper, the backing state and
    the bytes read.  [end - pos < bufsz] is an unsigned comparison. *)
Definition seekio_read (sio : seekio) (b : B) (bufsz : Z) : Z * seekio * B * list Z :=
  let bufsz :=
    if wrap64 (end_ sio - pos sio) <? wrap64 bufsz
    then to_long (wrap64 (end_ sio - pos sio)) else bufsz in
  if bufsz =? 0 then (0, sio, b, [])
  else if bufsz <? blksz sio then (- EINVAL, sio, b, [])
  else
    let bufsz := Z.land bufsz (Z.lnot (blksz sio - 1)) in
    let '(rcnt, b1, data) := ioreadat intf b (pos sio) bufsz in
    (rcnt,
     mk_seekio (wrap64 (pos sio + (if rcnt <? 0 then 0 else rcnt)))
               (end_ sio) (blksz sio),
     b1, data).

(** [seekio_readat]: passed through to the backing endpoint. *)
Definition seekio_readat (b : B) (p bufsz : Z) : Z * B * list Z :=
  ioreadat intf b p bufsz.

(** [seekio_cntl]; [arg] is the value [*arg] on entry, the last
    component what is stored through [arg]. *)
Definition seekio_cntl (sio : seekio) (b : B) (cmd arg : Z)
    : Z * seekio * B * option Z :=
  if cmd =? IOCTL_GETBLKSZ then (blksz sio, sio, b, None)
  else if cmd =? IOCTL_GETPOS then (0, sio, b, Some (pos sio))
  else if cmd =? IOCTL_SETPOS then
    if negb (Z.land arg (wrap64 (blksz sio - 1)) =? 0) then (- EINVAL, sio, b, None)
    else if end_ sio <? arg then (- EINVAL, sio, b, None)
    else (0, mk_seekio arg (end_ sio) (blksz sio), b, None)
  else if cmd =? IOCTL_GETEND then (0, sio, b, Some (end_ sio))
  else if cmd =? IOCTL_SETEND then
    let '(result, b1, out) := ioctl intf b IOCTL_SETEND arg in
    if result =? 0
    then (result, mk_seekio (pos sio) (default arg out) (blksz sio), b1, out)
    else (result, sio, b1, out)
  else
    let '(result, b1, out) := ioctl intf b cmd arg in (result, sio, b1, out).

(** [ioseek] on the wrapper. *)
Definition ioseek (sio : seekio) (b : B) (p : Z) : Z * seekio :=
  let '(r, sio', _, _) := seekio_cntl sio b IOCTL_SETPOS p in (r, sio').

(** The wrapper as [create_seekable_io] leaves it and the calls keep
    it: a block size that is a power of two, the position a multiple of
    it and not past the end. *)
Definition seekio_ok (sio : seekio) : Prop :=
  (exists k, 0 <= k < 31 /\ blksz sio = 2 ^ k) /\
  0 <= pos sio <= end_ sio /\ end_ sio < 2 ^ 63.

End Seeking.

Arguments seekio_read {B}.
Arguments seekio_readat {B}.
Arguments seekio_cntl {B}.
Arguments ioseek {B}.

Section SeekingFacts.

Variable B : Type.
Variable intf : iointf B.

Lemma land_block_mask x k :
  0 <= k -> Z.land x (Z.lnot (2 ^ k - 1)) = x - x mod 2 ^ k.
Proof.
  intros Hk. replace (2 ^ k - 1) with (Z.ones k) by (rewrite Z.ones_equiv; lia).
  rewrite <- Z.ldiff_land, Z.ldiff_ones_r by done.
  rewrite Z.shiftl_mul_pow2, Z.shiftr_div_pow2 by done.
  pose proof (Z.div_mod x (2 ^ k) ltac:(lia)). lia.
Qed.

Lemma land_block_low x k :
  0 <= k < 31 -> Z.land x (wrap64 (2 ^ k - 1)) = x mod 2 ^ k.
Proof.
  intros Hk.
  assert (2 ^ k <= 2 ^ 30) by (apply Z.pow_le_mono_r; lia).
  rewrite wrap64_small by lia.
  replace (2 ^ k - 1) with (Z.ones k) by (rewrite Z.ones_equiv; lia).
  apply Z.land_ones. lia.
Qed.

(** Seeking: [IOCTL_SETPOS] takes a position exactly when it is a
    multiple of the block size and not past the end, and [IOCTL_GETPOS]
    then reports it; any other position is refused with [-EINVAL] and the
    wrapper keeps its position. *)
Theorem seek_then_tell (sio : seekio) (b : B) (p : Z) :
  seekio_ok sio -> 0 <= p < 2 ^ 64 ->
  (p mod blksz sio = 0 -> p <= end_ sio ->
     ioseek intf sio b p = (0, mk_seekio p (end_ sio) (blksz sio)) /\
     seekio_cntl intf (mk_seekio p (end_ sio) (blksz sio)) b IOCTL_GETPOS 0
     = (0, mk_seekio p (end_ sio) (blksz sio), b, Some p) /\
     seekio_ok (mk_seekio p (end_ sio) (blksz sio))) /\
  (p mod blksz sio <> 0 \/ end_ sio < p -> ioseek intf sio b p = (- EINVAL, sio)).
Proof.
  intros ((k & Hk & Hblk) & Hpos & Hend) Hp.
  unfold ioseek, seekio_cntl.
  change (IOCTL_SETPOS =? IOCTL_GETBLKSZ) with false.
  change (IOCTL_SETPOS =? IOCTL_GETPOS) with false.
  change (IOCTL_SETPOS =? IOCTL_SETPOS) with true.
  change (IOCTL_GETPOS =? IOCTL_GETBLKSZ) with false.
  change (IOCTL_GETPOS =? IOCTL_GETPOS) with true. cbv iota.
  rewrite Hblk, land_block_low by done. split.
  - intros Hm Hle. rewrite Hm. cbn [Z.eqb negb].
    apply Z.ltb_ge in Hle. rewrite Hle. split; [done|]. split; [done|].
    apply Z.ltb_ge in Hle. split; [exists k; done|]. cbn. lia.
  - intros [Hm|Hgt].
    + apply Z.eqb_neq in Hm. now rewrite Hm.
    + destruct (p mod 2 ^ k =? 0); cbn [negb]; [|done].
      apply Z.ltb_lt in Hgt. now rewrite Hgt.
Qed.

(** Reading through the wrapper never goes past the end: with
    [avail] the smaller of the bytes asked for and the bytes left before
    the end, a read with nothing available returns 0 and one with less
    than a block available fails with [-EINVAL], both without a call to
    the backing endpoint; otherwise the backing endpoint is asked for
    [avail] rounded down to whole blocks, at the current position, and the
    position advances by what it returned. *)
Theorem seekio_read_bounds (sio : seekio) (b : B) (bufsz : Z) :
  seekio_ok sio -> 0 <= bufsz < 2 ^ 63 ->
  let avail := Z.min bufsz (end_ sio - pos sio) in
  (avail = 0 -> seekio_read intf sio b bufsz = (0, sio, b, [])) /\
  (0 < avail < blksz sio -> seekio_read intf sio b bufsz = (- EINVAL, sio, b, [])) /\
  (blksz sio <= avail ->
     let n := avail - avail mod blksz sio in
     0 < n <= end_ sio - pos sio /\ n mod blksz sio = 0 /\
     seekio_read intf sio b bufsz
     = (let '(rcnt, b1, data) := ioreadat intf b (pos sio) n in
        (rcnt,
         mk_seekio (wrap64 (pos sio + Z.max 0 rcnt)) (end_ sio) (blksz sio),
         b1, data)) /\
     (fst (fst (ioreadat intf b (pos sio) n)) <= n ->
      seekio_ok (snd (fst (fst (seekio_read intf sio b bufsz)))))).
Proof.
  intros ((k & Hk & Hblk) & Hpos & Hend) Hb avail.
  assert (Hpow : 1 <= 2 ^ k <= 2 ^ 30).
  { split; [pose proof (Z.pow_pos_nonneg 2 k); lia | apply Z.pow_le_mono_r; lia]. }
  assert (Hclamp : (if wrap64 (end_ sio - pos sio) <? wrap64 bufsz
                    then to_long (wrap64 (end_ sio - pos sio)) else bufsz) = avail).
  { rewrite !wrap64_small by lia. subst avail.
    destruct (end_ sio - pos sio <? bufsz) eqn:E.
    - apply Z.ltb_lt in E. rewrite to_long_small by lia. lia.
    - apply Z.ltb_ge in E. lia. }
  unfold seekio_read. rewrite Hclamp. split; [|split].
  - intros ->. done.
  - intros [H1 H2]. destruct (avail =? 0) eqn:E0; [apply Z.eqb_eq in E0; lia|].
    apply Z.ltb_lt in H2. now rewrite H2.
  - intros Hge. set (n := avail - avail mod blksz sio).
    destruct (avail =? 0) eqn:E0; [apply Z.eqb_eq in E0; lia|].
    destruct (avail <? blksz sio) eqn:E1; [apply Z.ltb_lt in E1; lia|].
    rewrite Hblk, land_block_mask by lia. fold n. rewrite <- Hblk.
    assert (Hn : 0 < n <= end_ sio - pos sio /\ n mod blksz sio = 0).
    { subst n. rewrite Hblk in *.
      pose proof (Z.mod_pos_bound avail (2 ^ k) ltac:(lia)).
      split; [subst avail; lia|].
      rewrite Zminus_mod, Zmod_mod, Z.sub_diag. now rewrite Z.mod_0_l by lia. }
    split; [apply Hn|]. split; [apply Hn|].
    destruct (ioreadat intf b (pos sio) n) as [[rcnt b1] data] eqn:Er.
    assert (Hpos' : forall r, wrap64 (pos sio + (if r <? 0 then 0 else r))
                              = wrap64 (pos sio + Z.max 0 r)).
    { intros r. destruct (r <? 0) eqn:E; [apply Z.ltb_lt in E|apply Z.ltb_ge in E];
        f_equal; lia. }
    change (avail - avail mod blksz sio) with n. rewrite Er.
    cbn [fst snd]. split.
    + now rewrite Hpos'.
    + intros Hle. split; [exists k; done|]. cbn [pos end_ blksz].
      rewrite Hpos', wrap64_small by lia. lia.
Qed.

End SeekingFacts.


(** The interface [create_memory_io] installs, and a seekable wrapper
    on a four-byte memory endpoint. *)
Definition memio_intf : iointf memio :=
  mk_iointf
    (Some memio_cntl)
    (Some (fun m p n => let '(r, data) := memio_readat m p n in (r, m, data)))
    (Some memio_writeat).

Definition sample_seekio : seekio := mk_seekio 0 4 1.

Lemma sample_seekio_ok : seekio_ok sample_seekio.
Proof.
  split; [exists 0; split; [lia|reflexivity]|]. cbn. lia.
Qed.

Lemma seek_then_tell_witness :
  seekio_ok sample_seekio /\ 0 <= 3 < 2 ^ 64 /\
  ioseek memio_intf sample_seekio sample_memio 3 = (0, mk_seekio 3 4 1).
Proof.
  assert (H : 0 <= 3 < 2 ^ 64) by lia.
  split; [exact sample_seekio_ok|]. split; [exact H|].
  refine (proj1 (proj1 (seek_then_tell memio memio_intf sample_seekio sample_memio 3
                          sample_seekio_ok H) _ _)).
  - reflexivity.
  - cbn. lia.
Defined.

Lemma seekio_read_bounds_witness :
  seekio_ok (mk_seekio 3 4 1) /\ 0 <= 8 < 2 ^ 63 /\
  seekio_read memio_intf (mk_seekio 3 4 1) sample_memio 8
  = (1, mk_seekio 4 4 1, sample_memio, [40]).
Proof.
  assert (H : 0 <= 8 < 2 ^ 63) by lia.
  assert (Hok : seekio_ok (mk_seekio 3 4 1)).
  { split; [exists 0; split; [lia|reflexivity]|]. cbn. lia. }
  split; [exact Hok|]. split; [exact H|].
  refine (proj1 (proj2 (proj2 (proj2 (proj2
    (seekio_read_bounds memio memio_intf (mk_seekio 3 4 1) sample_memio 8 Hok H)) _)))).
  cbn. lia.
Defined.

Example read_at_end_is_zero :
  seekio_read memio_intf (mk_seekio 4 4 1) sample_memio 8
  = (0, mk_seekio 4 4 1, sample_memio, []).
Proof. reflexivity. Qed.

End Seekio.

(** * The KTFS file system (ktfs.c) *)

Module Ktfs.
Import Io Seekio.

Definition KTFS_BLKSZ : Z := 512.
Definition KTFS_INOSZ : Z := 32.
Definition KTFS_NUM_DIRECT_DATA_BLOCKS : Z := 3.
Definition KTFS_NUM_INDIRECT_BLOCKS : Z := 1.
Definition KTFS_NUM_DINDIRECT_BLOCKS : Z := 2.
Definition PTRS_PER_BLOCK : Z := 128.          (* KTFS_BLKSZ / sizeof(uint32_t) *)
Definition BLOCKS_PER_DIND : Z := 128 * 128.
Definition INODES_PER_BLOCK : Z := 16.

(** [struct ktfs_superblock] *)
Record superblock := mk_sb {
  block_count : Z;
  bitmap_block_count : Z;
  inode_block_count : Z;
  root_directory_inode : Z
}.

(** [struct ktfs_inode] *)
Record inode := mk_inode {
  i_size : Z;
  i_flags : Z;
  i_block0 : Z; i_block1 : Z; i_block2 : Z;
  i_indirect : Z;
  i_dind0 : Z; i_dind1 : Z
}.

(** [struct ktfs_file]: the size and the inode number of its
    directory entry. *)
Record ktfs_file := mk_file { f_size : Z; f_inode : Z; f_flags : Z }.

(** The file system: the file records by the address of their [io]
    member, the list of open files (pointers to those records), the
    superblock, and the bytes of the device as the block cache shows them
    (a block obtained from the cache is the device block, a block
    released dirty is stored; eviction and the per-block locks are not
    part of this model). *)
Record ktfs := mk_ktfs {
  files : gmap Z ktfs_file;
  open_files : list Z;
  sb : superblock;
  disk : Z -> Z
}.

Definition set_disk (fs : ktfs) (d : Z -> Z) : ktfs :=
  mk_ktfs (files fs) (open_files fs) (sb fs) d.
Definition set_files (fs : ktfs) (m : gmap Z ktfs_file) : ktfs :=
  mk_ktfs m (open_files fs) (sb fs) (disk fs).

(** Little-endian 32-bit loads and stores, as [memcpy] to and from a
    [uint32_t] does them. *)
Definition load32 (d : Z -> Z) (a : Z) : Z :=
  d a + 2 ^ 8 * d (a + 1) + 2 ^ 16 * d (a + 2) + 2 ^ 24 * d (a + 3).

Definition store32 (d : Z -> Z) (a v : Z) : Z -> Z :=
  fun x =>
    if x =? a then v mod 256
    else if x =? a + 1 then (v / 2 ^ 8) mod 256
    else if x =? a + 2 then (v / 2 ^ 16) mod 256
    else if x =? a + 3 then (v / 2 ^ 24) mod 256
    else d x.

(** [memcpy(dst, src + from, cnt)] into the bytes at [dst]. *)
Definition store_bytes (d : Z -> Z) (dst : Z) (src : list Z) (from cnt : Z) : Z -> Z :=
  fun x =>
    if (dst <=? x) && (x <? dst + cnt)
    then nth (Z.to_nat (from + (x - dst))) src 0 else d x.

Definition load_inode (d : Z -> Z) (a : Z) : inode :=
  mk_inode (load32 d a) (load32 d (a + 4))
           (load32 d (a + 8)) (load32 d (a + 12)) (load32 d (a + 16))
           (load32 d (a + 20)) (load32 d (a + 24)) (load32 d (a + 28)).

Definition store_inode (d : Z -> Z) (a : Z) (i : inode) : Z -> Z :=
  store32 (store32 (store32 (store32 (store32 (store32 (store32 (store32 d
    a (i_size i)) (a + 4) (i_flags i)) (a + 8) (i_block0 i)) (a + 12) (i_block1 i))
    (a + 16) (i_block2 i)) (a + 20) (i_indirect i)) (a + 24) (i_dind0 i))
    (a + 28) (i_dind1 i).

(** The first data block: [1 + bitmap_block_count + inode_block_count]
    in [uint32_t] arithmetic. *)
Definition data_base (s : superblock) : Z :=
  wrap32 (1 + bitmap_block_count s + inode_block_count s).

(** The device offset of data block [idx]. *)
Definition data_offset (s : superblock) (idx : Z) : Z :=
  wrap32 (KTFS_BLKSZ * wrap32 (data_base s + idx)).

(** Where the inode of a file lives: the device offset of its inode
    block (a 64-bit product, [1 + bitmap_block_count] being a
    [uint32_t] sum) and the byte offset in the block. *)
Definition inode_block_offset (s : superblock) (ino : Z) : Z :=
  wrap64 (KTFS_BLKSZ * (wrap32 (1 + bitmap_block_count s) + ino / INODES_PER_BLOCK)).
Definition inode_slot (ino : Z) : Z := KTFS_INOSZ * (ino mod INODES_PER_BLOCK).

(** The data block index of block [n] of a file, through the direct,
    indirect and double-indirect pointers. *)
Definition file_block (fs : ktfs) (ino : inode) (n : Z) : Z :=
  if n <? KTFS_NUM_DIRECT_DATA_BLOCKS then
    (if n =? 0 then i_block0 ino else if n =? 1 then i_block1 ino else i_block2 ino)
  else if n <? KTFS_NUM_DIRECT_DATA_BLOCKS + PTRS_PER_BLOCK then
    load32 (disk fs)
      (data_offset (sb fs) (i_indirect ino) + 4 * (n - KTFS_NUM_DIRECT_DATA_BLOCKS))
  else
    let idx_dind := wrap32 (n - (KTFS_NUM_DIRECT_DATA_BLOCKS + PTRS_PER_BLOCK)) in
    let dind := if idx_dind / BLOCKS_PER_DIND =? 0 then i_dind0 ino else i_dind1 ino in
    let ind_blockidx :=
      load32 (disk fs)
        (data_offset (sb fs) dind
         + 4 * ((idx_dind mod BLOCKS_PER_DIND) / PTRS_PER_BLOCK)) in
    load32 (disk fs)
      (data_offset (sb fs) ind_blockidx + 4 * (idx_dind mod PTRS_PER_BLOCK)).

(** The number of blocks [ktfs_readat] and [ktfs_writeat] touch. *)
Definition numblks_of (len blkoff : Z) : Z :=
  let n := len / KTFS_BLKSZ in
  let n := if negb (blkoff =? 0) || negb (len mod KTFS_BLKSZ =? 0) then n + 1 else n in
  if negb (len mod KTFS_BLKSZ =? 0) && (KTFS_BLKSZ <? len mod KTFS_BLKSZ + blkoff)
  then n + 1 else n.

(** The block loop of [ktfs_writeat], from iteration [i], with [todo]
    iterations left. *)
Fixpoint write_blocks (fs : ktfs) (ino : inode) (pos len blkno numblks : Z)
    (buf : list Z) (i bytes : Z) (todo : nat) : ktfs :=
  match todo with
  | O => fs
  | S todo' =>
      let blockidx := file_block fs ino (i + blkno) in
      let base := data_offset (sb fs) blockidx in
      let '(blkoff, cpycnt) :=
        if numblks =? 1 then (wrap32 (pos mod KTFS_BLKSZ), len)
        else if i =? 0 then
          (wrap32 (pos mod KTFS_BLKSZ), KTFS_BLKSZ - wrap32 (pos mod KTFS_BLKSZ))
        else if i =? numblks - 1 then (0, wrap64 (len - bytes))
        else (0, KTFS_BLKSZ) in
      let d := store_bytes (disk fs) (base + blkoff) buf bytes cpycnt in
      write_blocks (set_disk fs d) ino pos len blkno numblks buf
                   (i + 1) (wrap64 (bytes + cpycnt)) todo'
  end.

(** [ktfs_writeat] *)
Definition ktfs_writeat (io : Z) (fs : ktfs) (pos : Z) (buf : list Z) (len : Z)
    : Z * ktfs :=
  if bool_decide (io ∈ open_files fs) then
    match files fs !! io with
    | None => (- EMFILE, fs)
    | Some file =>
        if f_size file <? pos then (- EINVAL, fs)
        else if len <? 0 then (- EINVAL, fs)
        else if len =? 0 then (0, fs)
        else
          let len :=
            if f_size file <? wrap64 (len + pos)
            then to_long (wrap64 (f_size file - pos)) else len in
          let blkno := wrap32 (pos / KTFS_BLKSZ) in
          let blkoff := wrap32 (pos mod KTFS_BLKSZ) in
          let numblks := numblks_of len blkoff in
          let ino := load_inode (disk fs)
                       (inode_block_offset (sb fs) (f_inode file)
                        + inode_slot (f_inode file)) in
          (len, write_blocks fs ino pos len blkno numblks buf 0 0 (Z.to_nat numblks))
    end
  else (- EMFILE, fs).

(** The block loop of [ktfs_readat]: the bytes copied to the caller. *)
Fixpoint read_blocks (fs : ktfs) (ino : inode) (pos len blkno numblks : Z)
    (i bytes : Z) (todo : nat) : list Z :=
  match todo with
  | O => []
  | S todo' =>
      let blockidx := file_block fs ino (i + blkno) in
      let base := data_offset (sb fs) blockidx in
      let '(blkoff, cpycnt) :=
        if numblks =? 1 then (wrap32 (pos mod KTFS_BLKSZ), len)
        else if i =? 0 then
          (wrap32 (pos mod KTFS_BLKSZ), KTFS_BLKSZ - wrap32 (pos mod KTFS_BLKSZ))
        else if i =? numblks - 1 then (0, wrap64 (len - bytes))
        else (0, KTFS_BLKSZ) in
      map (fun k => disk fs (base + blkoff + Z.of_nat k)) (seq 0 (Z.to_nat cpycnt))
      ++ read_blocks fs ino pos len blkno numblks (i + 1) (wrap64 (bytes + cpycnt)) todo'
  end.

(** [ktfs_readat] *)
Definition ktfs_readat (io : Z) (fs : ktfs) (pos len : Z) : Z * ktfs * list Z :=
  if bool_decide (io ∈ open_files fs) then
    match files fs !! io with
    | None => (- EMFILE, fs, [])
    | Some file =>
        if f_size file <? pos then (- EINVAL, fs, [])
        else if len <? 0 then (- EINVAL, fs, [])
        else if len =? 0 then (0, fs, [])
        else
          let len :=
            if f_size file <? wrap64 (len + pos)
            then to_long (wrap64 (f_size file - pos)) else len in
          let blkno := wrap32 (pos / KTFS_BLKSZ) in
          let blkoff := wrap32 (pos mod KTFS_BLKSZ) in
          let numblks := numblks_of len blkoff in
          let ino := load_inode (disk fs)
                       (inode_block_offset (sb fs) (f_inode file)
                        + inode_slot (f_inode file)) in
          (len, fs, read_blocks fs ino pos len blkno numblks 0 0 (Z.to_nat numblks))
    end
  else (- EMFILE, fs, []).

(** [find_available_block]: the scan of one bitmap block from bit [j],
    [inr] when the block has no free bit below [block_count]. *)
Fixpoint scan_bits (d : Z -> Z) (s : superblock) (i j : Z) (todo : nat)
    : (Z * (Z -> Z)) + unit :=
  match todo with
  | O => inr tt
  | S todo' =>
      if block_count s <? wrap32 (j + i * KTFS_BLKSZ * 8) then inl (0, d)
      else
        let a := wrap32 (KTFS_BLKSZ * (1 + i)) + j / 8 in
        if Z.land (Z.shiftr (d a) (j mod 8)) 1 =? 0 then
          inl (wrap32 (i * KTFS_BLKSZ * 8 + j),
               fun x => if x =? a then Z.lor (d a) (Z.shiftl 1 (j mod 8)) else d x)
        else scan_bits d s i (j + 1) todo'
  end.

Fixpoint scan_bitmaps (d : Z -> Z) (s : superblock) (i : Z) (todo : nat)
    : Z * (Z -> Z) :=
  match todo with
  | O => (0, d)
  | S todo' =>
      match scan_bits d s i 0 (Z.to_nat (KTFS_BLKSZ * 8)) with
      | inl r => r
      | inr _ => scan_bitmaps d s (i + 1) todo'
      end
  end.

Definition find_available_block (fs : ktfs) : Z * ktfs :=
  let '(r, d) := scan_bitmaps (disk fs) (sb fs) 0 (Z.to_nat (bitmap_block_count (sb fs))) in
  (r, set_disk fs d).

Definition set_block (ino : inode) (i v : Z) : inode :=
  if i =? 0 then
    mk_inode (i_size ino) (i_flags ino) v (i_block1 ino) (i_block2 ino)
             (i_indirect ino) (i_dind0 ino) (i_dind1 ino)
  else if i =? 1 then
    mk_inode (i_size ino) (i_flags ino) (i_block0 ino) v (i_block2 ino)
             (i_indirect ino) (i_dind0 ino) (i_dind1 ino)
  else
    mk_inode (i_size ino) (i_flags ino) (i_block0 ino) (i_block1 ino) v
             (i_indirect ino) (i_dind0 ino) (i_dind1 ino).
Definition set_indirect (ino : inode) (v : Z) : inode :=
  mk_inode (i_size ino) (i_flags ino) (i_block0 ino) (i_block1 ino) (i_block2 ino)
           v (i_dind0 ino) (i_dind1 ino).
Definition set_dind (ino : inode) (k v : Z) : inode :=
  if k =? 0 then
    mk_inode (i_size ino) (i_flags ino) (i_block0 ino) (i_block1 ino) (i_block2 ino)
             (i_indirect ino) v (i_dind1 ino)
  else
    mk_inode (i_size ino) (i_flags ino) (i_block0 ino) (i_block1 ino) (i_block2 ino)
             (i_indirect ino) (i_dind0 ino) v.
Definition set_size (ino : inode) (v : Z) : inode :=
  mk_inode v (i_flags ino) (i_block0 ino) (i_block1 ino) (i_block2 ino)
           (i_indirect ino) (i_dind0 ino) (i_dind1 ino).
Definition get_dind (ino : inode) (k : Z) : Z :=
  if k =? 0 then i_dind0 ino else i_dind1 ino.

(** A newly found block as a data-block index; [None] when the bitmap
    has no free block. *)
Definition new_data_block (fs : ktfs) : option Z * ktfs :=
  let '(r, fs') := find_available_block fs in
  if r =? 0 then (None, fs') else (Some (wrap32 (r - data_base (sb fs))), fs').

(** One iteration of the allocation loop of [set_file_size], for file
    block [i]; [inl] is the early return. *)
Definition grow_block (fs : ktfs) (ino : inode) (i : Z) : (Z * ktfs) + (inode * ktfs) :=
  if i <? KTFS_NUM_DIRECT_DATA_BLOCKS then
    match new_data_block fs with
    | (None, fs1) => inl (- EACCESS, fs1)
    | (Some nb, fs1) => inr (set_block ino i nb, fs1)
    end
  else if i <? KTFS_NUM_DIRECT_DATA_BLOCKS + PTRS_PER_BLOCK then
    let with_indirect (ino1 : inode) (fs1 : ktfs) :=
      match new_data_block fs1 with
      | (None, fs2) => inl (- EACCESS, fs2)
      | (Some nb, fs2) =>
          let a := data_offset (sb fs) (i_indirect ino1)
                   + 4 * (i - KTFS_NUM_DIRECT_DATA_BLOCKS) in
          inr (ino1, set_disk fs2 (store32 (disk fs2) a nb))
      end in
    if i =? KTFS_NUM_DIRECT_DATA_BLOCKS then
      match new_data_block fs with
      | (None, fs1) => inl (- EACCESS, fs1)
      | (Some ib, fs1) => with_indirect (set_indirect ino ib) fs1
      end
    else with_indirect ino fs
  else
    let idx_dind := wrap32 (i - (KTFS_NUM_DIRECT_DATA_BLOCKS + PTRS_PER_BLOCK)) in
    let k := idx_dind / BLOCKS_PER_DIND in
    let slot1 := (idx_dind mod BLOCKS_PER_DIND) / PTRS_PER_BLOCK in
    let with_dind (ino1 : inode) (fs1 : ktfs) :=
      let off := data_offset (sb fs) (get_dind ino1 k) in
      let with_ind (fs2 : ktfs) :=
        let ind_blk_idx := load32 (disk fs2) (off + 4 * slot1) in
        match new_data_block fs2 with
        | (None, fs3) => inl (- EACCESS, fs3)
        | (Some nb, fs3) =>
            let a := data_offset (sb fs) ind_blk_idx + 4 * (idx_dind mod PTRS_PER_BLOCK) in
            inr (ino1, set_disk fs3 (store32 (disk fs3) a nb))
        end in
      if idx_dind mod PTRS_PER_BLOCK =? 0 then
        match new_data_block fs1 with
        | (None, fs2) => inl (- EACCESS, fs2)
        | (Some nb, fs2) =>
            with_ind (set_disk fs2 (store32 (disk fs2) (off + 4 * slot1) nb))
        end
      else with_ind fs1 in
    if idx_dind mod BLOCKS_PER_DIND =? 0 then
      match new_data_block fs with
      | (None, fs1) => inl (- EACCESS, fs1)
      | (Some db, fs1) => with_dind (set_dind ino k db) fs1
      end
    else with_dind ino fs.

Fixpoint grow_blocks (fs : ktfs) (ino : inode) (i : Z) (todo : nat)
    : (Z * ktfs) + (inode * ktfs) :=
  match todo with
  | O => inr (ino, fs)
  | S todo' =>
      match grow_block fs ino i with
      | inl e => inl e
      | inr (ino1, fs1) => grow_blocks fs1 ino1 (i + 1) todo'
      end
  end.

Definition max_file_size : Z :=
  KTFS_BLKSZ * (KTFS_NUM_DIRECT_DATA_BLOCKS + KTFS_NUM_INDIRECT_BLOCKS * PTRS_PER_BLOCK
                + KTFS_NUM_DINDIRECT_BLOCKS * BLOCKS_PER_DIND).

Definition blocks_for (size : Z) : Z :=
  wrap32 (if size mod KTFS_BLKSZ =? 0 then size / KTFS_BLKSZ else size / KTFS_BLKSZ + 1).

(** [set_file_size] *)
Definition set_file_size (io : Z) (fs : ktfs) (arg : Z) : Z * ktfs :=
  match files fs !! io with
  | None => (- EINVAL, fs)        (* no file record behind [io] *)
  | Some file =>
      if max_file_size <? arg then (- EINVAL, fs)
      else
        let old_numblks := blocks_for (f_size file) in
        let new_numblks := blocks_for arg in
        let a := wrap32 (inode_block_offset (sb fs) (f_inode file))
                 + inode_slot (f_inode file) in
        let ino := load_inode (disk fs) a in
        match grow_blocks fs ino old_numblks (Z.to_nat (new_numblks - old_numblks)) with
        | inl (err, fs1) => (err, fs1)
        | inr (ino1, fs1) =>
            let file' := mk_file (wrap32 arg) (f_inode file) (f_flags file) in
            let d := store_inode (disk fs1) a (set_size ino1 (wrap32 arg)) in
            (0, set_disk (set_files fs1 (<[io := file']> (files fs1))) d)
        end
  end.

(** [ktfs_cntl]; GETEND stores the size as a [uint32_t]. *)
Definition ktfs_cntl (io : Z) (fs : ktfs) (cmd arg : Z) : Z * ktfs * option Z :=
  if cmd =? IOCTL_GETBLKSZ then (1, fs, None)
  else if cmd =? IOCTL_GETEND then
    match files fs !! io with
    | Some file => (0, fs, Some (f_size file))
    | None => (0, fs, None)
    end
  else if cmd =? IOCTL_SETEND then
    let '(r, fs') := set_file_size io fs arg in (r, fs', None)
  else (- ENOTSUP, fs, None).

(** The operation table [ktfs_open] installs, for the file at [io]. *)
Definition ktfs_intf (io : Z) : iointf ktfs :=
  mk_iointf (Some (ktfs_cntl io)) (Some (ktfs_readat io)) (Some (ktfs_writeat io)).

(** *** What writing and growing leave alone *)

Definition same_meta (fs fs' : ktfs) : Prop :=
  files fs' = files fs /\ open_files fs' = open_files fs /\ sb fs' = sb fs.

Lemma same_meta_refl fs : same_meta fs fs.
Proof. done. Qed.

Lemma same_meta_trans fs1 fs2 fs3 :
  same_meta fs1 fs2 -> same_meta fs2 fs3 -> same_meta fs1 fs3.
Proof. intros (?&?&?) (?&?&?). repeat split; congruence. Qed.

Lemma same_meta_set_disk fs fs' d : same_meta fs fs' -> same_meta fs (set_disk fs' d).
Proof. intros (?&?&?). repeat split; cbn; congruence. Qed.

Lemma new_data_block_meta fs r fs' :
  new_data_block fs = (r, fs') -> same_meta fs fs'.
Proof.
  unfold new_data_block, find_available_block.
  destruct (scan_bitmaps _ _ _ _) as [v d].
  destruct (v =? 0); intros [= <- <-]; done.
Qed.

Lemma grow_block_meta fs ino i :
  match grow_block fs ino i with
  | inl (e, fs') => e = - EACCESS /\ same_meta fs fs'
  | inr (_, fs') => same_meta fs fs'
  end.
Proof.
  unfold grow_block.
  repeat case_match; simplify_eq;
    try match goal with |- _ = - EACCESS /\ _ => split; [reflexivity|] end;
    repeat match goal with
           | H : new_data_block _ = _ |- _ => apply new_data_block_meta in H
           end;
    repeat match goal with
           | |- same_meta _ (set_disk _ _) => apply same_meta_set_disk
           end;
    eauto using same_meta_refl, same_meta_trans, same_meta_set_disk.
Qed.

Lemma grow_blocks_meta todo : forall fs ino i,
  match grow_blocks fs ino i todo with
  | inl (e, fs') => e = - EACCESS /\ same_meta fs fs'
  | inr (_, fs') => same_meta fs fs'
  end.
Proof.
  induction todo as [|todo IH]; intros fs ino i; cbn [grow_blocks]; [done|].
  pose proof (grow_block_meta fs ino i) as H1.
  destruct (grow_block fs ino i) as [[e fs1]|[ino1 fs1]]; [done|].
  specialize (IH fs1 ino1 (i + 1)).
  destruct (grow_blocks fs1 ino1 (i + 1) todo) as [[e fs2]|[ino2 fs2]].
  - destruct IH as [-> IH]. eauto using same_meta_trans.
  - eauto using same_meta_trans.
Qed.

Lemma write_blocks_meta todo : forall fs ino pos len blkno numblks buf i bytes,
  same_meta fs (write_blocks fs ino pos len blkno numblks buf i bytes todo).
Proof.
  induction todo as [|todo IH]; intros; cbn [write_blocks]; [done|].
  destruct (if numblks =? 1 then _ else _) as [blkoff cpycnt].
  eapply same_meta_trans; [|apply IH]. now apply same_meta_set_disk.
Qed.

(** *** Positional writes *)

(** A [ktfs_writeat] that starts inside the file: the count is cut to
    what is left before the end, and the file keeps its size. *)
Lemma ktfs_writeat_clamps io fs file pos buf len :
  io ∈ open_files fs -> files fs !! io = Some file ->
  0 <= pos <= f_size file -> f_size file < 2 ^ 32 -> 0 < len < 2 ^ 63 ->
  fst (ktfs_writeat io fs pos buf len) = Z.min len (f_size file - pos) /\
  files (snd (ktfs_writeat io fs pos buf len)) !! io = Some file.
Proof.
  intros Hopen Hfile Hpos Hsz Hlen. unfold ktfs_writeat.
  rewrite bool_decide_true by done. rewrite Hfile.
  replace (f_size file <? pos) with false by (symmetry; apply Z.ltb_ge; lia).
  replace (len <? 0) with false by (symmetry; apply Z.ltb_ge; lia).
  replace (len =? 0) with false by (symmetry; apply Z.eqb_neq; lia).
  cbn [fst snd].
  rewrite (wrap64_small (len + pos)) by lia.
  rewrite (wrap64_small (f_size file - pos)) by lia.
  rewrite to_long_small by lia.
  split.
  - destruct (f_size file <? len + pos) eqn:E.
    + apply Z.ltb_lt in E. lia.
    + apply Z.ltb_ge in E. lia.
  - destruct (write_blocks_meta
                (Z.to_nat (numblks_of
                   (if f_size file <? len + pos then f_size file - pos else len)
                   (wrap32 (pos mod KTFS_BLKSZ))))
                fs
                (load_inode (disk fs)
                   (inode_block_offset (sb fs) (f_inode file) + inode_slot (f_inode file)))
                pos
                (if f_size file <? len + pos then f_size file - pos else len)
                (wrap32 (pos / KTFS_BLKSZ))
                (numblks_of
                   (if f_size file <? len + pos then f_size file - pos else len)
                   (wrap32 (pos mod KTFS_BLKSZ)))
                buf 0 0) as (Hf & _ & _).
    rewrite Hf. exact Hfile.
Qed.

(** *** SETEND *)

Lemma set_file_size_ok io fs arg fs' :
  0 <= arg -> set_file_size io fs arg = (0, fs') ->
  arg <= max_file_size /\
  open_files fs' = open_files fs /\ sb fs' = sb fs /\
  exists file', files fs' !! io = Some file' /\ f_size file' = arg.
Proof.
  intros Harg. unfold set_file_size.
  destruct (files fs !! io) as [file|] eqn:Hfile; [|intros [=]].
  destruct (max_file_size <? arg) eqn:Hmax; [intros [=]|].
  apply Z.ltb_ge in Hmax.
  pose proof (grow_blocks_meta
    (Z.to_nat (blocks_for arg - blocks_for (f_size file))) fs
    (load_inode (disk fs)
       (wrap32 (inode_block_offset (sb fs) (f_inode file)) + inode_slot (f_inode file)))
    (blocks_for (f_size file))) as Hm.
  destruct (grow_blocks _ _ _ _) as [[e fs1]|[ino1 fs1]].
  - destruct Hm as [-> _]. intros [=].
  - intros [= <-]. destruct Hm as (Hf & Ho & Hs).
    split; [done|]. cbn. split; [done|]. split; [done|].
    eexists. rewrite lookup_insert_eq. split; [done|]. cbn.
    apply wrap32_small. change max_file_size with 16844288 in Hmax. lia.
Qed.

(** *** The block loops of [ktfs_readat] and [ktfs_writeat] *)

(** The pair [(blkoff, cpycnt)] of iteration [i] of the two block
    loops, [bytes] being what the iterations before have copied. *)
Definition chunk (pos len numblks i bytes : Z) : Z * Z :=
  if numblks =? 1 then (wrap32 (pos mod KTFS_BLKSZ), len)
  else if i =? 0 then
    (wrap32 (pos mod KTFS_BLKSZ), KTFS_BLKSZ - wrap32 (pos mod KTFS_BLKSZ))
  else if i =? numblks - 1 then (0, wrap64 (len - bytes))
  else (0, KTFS_BLKSZ).

(** Where byte [q] of the file lies on the device. *)
Definition byte_addr (fs : ktfs) (ino : inode) (q : Z) : Z :=
  data_offset (sb fs) (file_block fs ino (q / KTFS_BLKSZ)) + q mod KTFS_BLKSZ.

(** What the iterations before [i] have copied. *)
Definition copied (blkoff i : Z) : Z := if i =? 0 then 0 else KTFS_BLKSZ * i - blkoff.

Ltac zbool :=
  repeat match goal with
  | H : (_ =? _) = true |- _ => apply Z.eqb_eq in H
  | H : (_ =? _) = false |- _ => apply Z.eqb_neq in H
  | H : (_ <? _) = true |- _ => apply Z.ltb_lt in H
  | H : (_ <? _) = false |- _ => apply Z.ltb_ge in H
  | H : (_ <=? _) = true |- _ => apply Z.leb_le in H
  | H : (_ <=? _) = false |- _ => apply Z.leb_gt in H
  end.

Lemma numblks_of_spec len blkoff :
  0 < len -> 0 <= blkoff < KTFS_BLKSZ ->
  numblks_of len blkoff = (blkoff + len + KTFS_BLKSZ - 1) / KTFS_BLKSZ.
Proof.
  unfold numblks_of, KTFS_BLKSZ. intros Hlen Hoff.
  destruct (blkoff =? 0) eqn:E0; destruct (len mod 512 =? 0) eqn:E1; cbn [negb orb andb];
    try destruct (512 <? len mod 512 + blkoff) eqn:E2;
    zbool; Z.div_mod_to_equations; lia.
Qed.

Lemma chunk_spec pos len blkno blkoff numblks i :
  pos = KTFS_BLKSZ * blkno + blkoff -> 0 <= blkoff < KTFS_BLKSZ ->
  0 < len < 2 ^ 63 ->
  numblks = (blkoff + len + KTFS_BLKSZ - 1) / KTFS_BLKSZ ->
  0 <= i < numblks ->
  exists boff cnt,
    chunk pos len numblks i (copied blkoff i) = (boff, cnt) /\
    boff = (if i =? 0 then blkoff else 0) /\
    0 < cnt /\ boff + cnt <= KTFS_BLKSZ /\
    copied blkoff i + cnt <= len /\
    (i + 1 < numblks -> copied blkoff i + cnt = copied blkoff (i + 1)) /\
    (i + 1 = numblks -> copied blkoff i + cnt = len) /\
    pos + copied blkoff i = KTFS_BLKSZ * (blkno + i) + boff.
Proof.
  unfold chunk, copied, KTFS_BLKSZ. intros Hpos Hoff Hlen Hn Hi.
  assert (Hm : pos mod 512 = blkoff) by (Z.div_mod_to_equations; lia).
  rewrite Hm, (wrap32_small blkoff) by lia.
  assert (Hi1 : (i + 1 =? 0) = false) by (apply Z.eqb_neq; lia).
  rewrite Hi1.
  destruct (numblks =? 1) eqn:E1.
  - apply Z.eqb_eq in E1. assert (i = 0) by lia. subst i. cbn [Z.eqb].
    eexists _, _. split; [reflexivity|]. split; [done|].
    split; [lia|]. split; [Z.div_mod_to_equations; lia|]. split; [lia|].
    split; [lia|]. split; [lia|]. lia.
  - apply Z.eqb_neq in E1. destruct (i =? 0) eqn:E0.
    + apply Z.eqb_eq in E0. subst i.
      eexists _, _. split; [reflexivity|]. split; [done|].
      split; [lia|]. split; [lia|]. split; [Z.div_mod_to_equations; lia|].
      split; [lia|]. split; [lia|]. lia.
    + apply Z.eqb_neq in E0. destruct (i =? numblks - 1) eqn:E2.
      * apply Z.eqb_eq in E2.
        rewrite wrap64_small by (Z.div_mod_to_equations; lia).
        eexists _, _. split; [reflexivity|]. split; [done|].
        split; [Z.div_mod_to_equations; lia|]. split; [Z.div_mod_to_equations; lia|].
        split; [lia|]. split; [lia|]. split; [lia|]. lia.
      * apply Z.eqb_neq in E2.
        eexists _, _. split; [reflexivity|]. split; [done|].
        split; [lia|]. split; [lia|]. split; [Z.div_mod_to_equations; lia|].
        split; [lia|]. split; [lia|]. lia.
Qed.

Lemma read_blocks_S fs ino pos len blkno numblks i bytes todo :
  read_blocks fs ino pos len blkno numblks i bytes (S todo)
  = (let '(blkoff, cpycnt) := chunk pos len numblks i bytes in
     map (fun k => disk fs (data_offset (sb fs) (file_block fs ino (i + blkno))
                            + blkoff + Z.of_nat k))
         (seq 0 (Z.to_nat cpycnt))
     ++ read_blocks fs ino pos len blkno numblks (i + 1) (wrap64 (bytes + cpycnt)) todo).
Proof. reflexivity. Qed.

Lemma write_blocks_S fs ino pos len blkno numblks buf i bytes todo :
  write_blocks fs ino pos len blkno numblks buf i bytes (S todo)
  = (let '(blkoff, cpycnt) := chunk pos len numblks i bytes in
     write_blocks
       (set_disk fs
          (store_bytes (disk fs)
             (data_offset (sb fs) (file_block fs ino (i + blkno)) + blkoff)
             buf bytes cpycnt))
       ino pos len blkno numblks buf (i + 1) (wrap64 (bytes + cpycnt)) todo).
Proof. reflexivity. Qed.

Section ReadWrite.
Variables (fs0 : ktfs) (ino : inode).
Variables (pos len blkno blkoff numblks : Z).
Hypothesis Hpos : pos = KTFS_BLKSZ * blkno + blkoff.
Hypothesis Hoff : 0 <= blkoff < KTFS_BLKSZ.
Hypothesis Hblk : 0 <= blkno.
Hypothesis Hlen : 0 < len < 2 ^ 63.
Hypothesis Hnum : numblks = (blkoff + len + KTFS_BLKSZ - 1) / KTFS_BLKSZ.

Lemma chunk_addr fs i boff k :
  pos + copied blkoff i = KTFS_BLKSZ * (blkno + i) + boff ->
  0 <= boff -> 0 <= k -> boff + k < KTFS_BLKSZ -> 0 <= i ->
  data_offset (sb fs) (file_block fs ino (i + blkno)) + boff + k
  = byte_addr fs ino (pos + copied blkoff i + k).
Proof.
  intros He Hb Hk Hlt Hi. unfold byte_addr.
  assert (Hq : (pos + copied blkoff i + k) / KTFS_BLKSZ = i + blkno).
  { rewrite He. unfold KTFS_BLKSZ in *. Z.div_mod_to_equations. lia. }
  assert (Hr : (pos + copied blkoff i + k) mod KTFS_BLKSZ = boff + k).
  { rewrite He. unfold KTFS_BLKSZ in *. Z.div_mod_to_equations. lia. }
  rewrite Hq, Hr. lia.
Qed.

Lemma numblks_pos : 0 < numblks.
Proof. rewrite Hnum. unfold KTFS_BLKSZ in *. Z.div_mod_to_equations. lia. Qed.

Lemma read_blocks_from fs todo : forall i,
  Z.of_nat todo = numblks - i -> 0 <= i ->
  read_blocks fs ino pos len blkno numblks i (copied blkoff i) todo
  = map (fun k => disk fs (byte_addr fs ino (pos + copied blkoff i + Z.of_nat k)))
        (seq 0 (Z.to_nat (len - copied blkoff i))).
Proof.
  induction todo as [|todo IH]; intros i Htodo Hi.
  - cbn [read_blocks]. pose proof numblks_pos.
    replace (Z.to_nat (len - copied blkoff i)) with 0%nat; [done|].
    assert (i = numblks) by lia. subst i. unfold copied.
    rewrite (proj2 (Z.eqb_neq numblks 0)) by lia.
    rewrite Hnum. unfold KTFS_BLKSZ in *. Z.div_mod_to_equations. lia.
  - rewrite read_blocks_S.
    destruct (chunk_spec pos len blkno blkoff numblks i Hpos Hoff Hlen Hnum ltac:(lia))
      as (boff & cnt & Hch & Hboff & Hcnt & Hfit & Hle & Hnext & Hlast & Haddr).
    rewrite Hch.
    assert (Hb0 : 0 <= boff) by (rewrite Hboff; destruct (i =? 0); lia).
    replace (Z.to_nat (len - copied blkoff i))
      with (Z.to_nat cnt + Z.to_nat (len - copied blkoff i - cnt))%nat by lia.
    rewrite seq_app, map_app. f_equal.
    + apply map_ext_in. intros k Hk%in_seq. f_equal.
      apply chunk_addr; try lia; done.
    + assert (Hc0 : 0 <= copied blkoff i).
      { unfold copied, KTFS_BLKSZ in *. destruct (i =? 0) eqn:E; zbool; lia. }
      rewrite wrap64_small by lia.
      destruct todo as [|todo'].
      * cbn [read_blocks]. pose proof (Hlast ltac:(lia)) as Hl.
        now replace (Z.to_nat (len - copied blkoff i - cnt)) with 0%nat by lia.
      * rewrite Hnext by lia. rewrite IH by lia.
        rewrite <- Hnext by lia.
        replace (len - (copied blkoff i + cnt)) with (len - copied blkoff i - cnt) by lia.
        replace (0 + Z.to_nat cnt)%nat with (Z.to_nat cnt + 0)%nat by lia.
        rewrite <- (fmap_add_seq (Z.to_nat cnt)).
        change (map ?f (?g <$> ?l)) with (map f (map g l)). rewrite map_map.
        apply map_ext. intros k. do 2 f_equal. lia.
Qed.

(** The device bytes of the blocks [blkno .. blkno + numblks - 1] of
    the file. *)
Definition in_blocks (x : Z) : Prop :=
  exists n, blkno <= n < blkno + numblks /\
    data_offset (sb fs0) (file_block fs0 ino n) <= x
    < data_offset (sb fs0) (file_block fs0 ino n) + KTFS_BLKSZ.

(** The blocks lie apart on the device, and the pointers that lead to
    them are not stored in them. *)
Hypothesis Hapart : forall a b,
  blkno <= a < blkno + numblks -> blkno <= b < blkno + numblks -> a <> b ->
  data_offset (sb fs0) (file_block fs0 ino a) + KTFS_BLKSZ
    <= data_offset (sb fs0) (file_block fs0 ino b) \/
  data_offset (sb fs0) (file_block fs0 ino b) + KTFS_BLKSZ
    <= data_offset (sb fs0) (file_block fs0 ino a).
Hypothesis Hstable : forall d,
  (forall x, ~ in_blocks x -> d x = disk fs0 x) ->
  forall n, blkno <= n < blkno + numblks ->
    file_block (set_disk fs0 d) ino n = file_block fs0 ino n.

Lemma offset_block k :
  0 <= k < len ->
  blkno <= (pos + k) / KTFS_BLKSZ < blkno + numblks /\
  0 <= (pos + k) mod KTFS_BLKSZ < KTFS_BLKSZ.
Proof.
  intros Hk. rewrite Hpos, Hnum. unfold KTFS_BLKSZ in *.
  Z.div_mod_to_equations. lia.
Qed.

Lemma addr_in_blocks k : 0 <= k < len -> in_blocks (byte_addr fs0 ino (pos + k)).
Proof.
  intros Hk. destruct (offset_block k Hk) as [Hn Hm].
  exists ((pos + k) / KTFS_BLKSZ). split; [done|]. unfold byte_addr. lia.
Qed.

Lemma addr_inj k1 k2 :
  0 <= k1 < len -> 0 <= k2 < len ->
  byte_addr fs0 ino (pos + k1) = byte_addr fs0 ino (pos + k2) -> k1 = k2.
Proof.
  intros H1 H2. unfold byte_addr.
  destruct (offset_block k1 H1) as [Hn1 Hm1]. destruct (offset_block k2 H2) as [Hn2 Hm2].
  destruct (Z.eq_dec ((pos + k1) / KTFS_BLKSZ) ((pos + k2) / KTFS_BLKSZ)) as [E|E].
  - rewrite E. intros Hm. unfold KTFS_BLKSZ in *. Z.div_mod_to_equations. lia.
  - destruct (Hapart _ _ Hn1 Hn2 E); lia.
Qed.

(** The first [n] bytes of [buf] are on the device, nothing else has
    changed. *)
Definition written (d : Z -> Z) (buf : list Z) (n : Z) : Prop :=
  (forall k, 0 <= k < n -> d (byte_addr fs0 ino (pos + k)) = nth (Z.to_nat k) buf 0) /\
  (forall x, (forall k, 0 <= k < n -> x <> byte_addr fs0 ino (pos + k)) -> d x = disk fs0 x).

Lemma written_stable d buf n :
  0 <= n <= len -> written d buf n ->
  forall q, blkno <= q < blkno + numblks ->
    file_block (set_disk fs0 d) ino q = file_block fs0 ino q.
Proof.
  intros Hn [_ Hw]. apply Hstable. intros x Hx. apply Hw.
  intros k Hk ->. apply Hx, addr_in_blocks. lia.
Qed.

(** What iteration [i] starts from. *)
Definition progress (i : Z) : Z := if i <? numblks then copied blkoff i else len.

Lemma write_blocks_from buf todo : forall i d,
  Z.of_nat todo = numblks - i -> 0 <= i ->
  written d buf (progress i) ->
  exists d',
    write_blocks (set_disk fs0 d) ino pos len blkno numblks buf i (progress i) todo
    = set_disk fs0 d' /\
    written d' buf len.
Proof.
  induction todo as [|todo IH]; intros i d Htodo Hi Hw.
  - exists d. split; [done|]. unfold progress in Hw.
    now rewrite (proj2 (Z.ltb_ge i numblks)) in Hw by lia.
  - rewrite write_blocks_S.
    assert (Hpi : progress i = copied blkoff i).
    { unfold progress. now rewrite (proj2 (Z.ltb_lt i numblks)) by lia. }
    destruct (chunk_spec pos len blkno blkoff numblks i Hpos Hoff Hlen Hnum ltac:(lia))
      as (boff & cnt & Hch & Hboff & Hcnt & Hfit & Hle & Hnext & Hlast & Haddr).
    rewrite Hpi, Hch.
    assert (Hb0 : 0 <= boff) by (rewrite Hboff; destruct (i =? 0); lia).
    assert (Hc0 : 0 <= copied blkoff i).
    { unfold copied, KTFS_BLKSZ in *. destruct (i =? 0) eqn:E; zbool; lia. }
    rewrite wrap64_small by lia.
    assert (Hpn : copied blkoff i + cnt = progress (i + 1)).
    { unfold progress. destruct (i + 1 <? numblks) eqn:E; zbool.
      - now apply Hnext.
      - apply Hlast. lia. }
    rewrite Hpi in Hw.
    assert (Hfb : file_block (set_disk fs0 d) ino (i + blkno) = file_block fs0 ino (i + blkno)).
    { apply (written_stable d buf (copied blkoff i)); [lia | done | lia]. }
    cbn [sb set_disk disk]. rewrite Hfb.
    set (base := data_offset (sb fs0) (file_block fs0 ino (i + blkno)) + boff).
    assert (Hbase : forall j, 0 <= j < cnt ->
              base + j = byte_addr fs0 ino (pos + (copied blkoff i + j))).
    { intros j Hj. subst base. rewrite Z.add_assoc.
      apply chunk_addr; try lia; done. }
    set (d1 := store_bytes d base buf (copied blkoff i) cnt).
    assert (Hw1 : written d1 buf (copied blkoff i + cnt)).
    { destruct Hw as [Hwa Hwb]. split.
      - intros k Hk. subst d1. unfold store_bytes.
        destruct (Z_lt_le_dec k (copied blkoff i)) as [Hold|Hnew].
        + assert (Hout : ~ (base <= byte_addr fs0 ino (pos + k) < base + cnt)).
          { intros Hin.
            pose proof (Hbase (byte_addr fs0 ino (pos + k) - base) ltac:(lia)) as He.
            replace (base + (byte_addr fs0 ino (pos + k) - base))
              with (byte_addr fs0 ino (pos + k)) in He by lia.
            apply addr_inj in He; lia. }
          destruct ((base <=? byte_addr fs0 ino (pos + k))
                    && (byte_addr fs0 ino (pos + k) <? base + cnt)) eqn:E.
          * apply andb_true_iff in E as [E1 E2]. zbool. lia.
          * apply Hwa. lia.
        + replace (pos + k) with (pos + (copied blkoff i + (k - copied blkoff i))) by lia.
          rewrite <- (Hbase (k - copied blkoff i)) by lia.
          rewrite (proj2 (Z.leb_le _ _)), (proj2 (Z.ltb_lt _ _)) by lia. cbn [andb].
          f_equal. lia.
      - intros x Hx. subst d1. unfold store_bytes.
        destruct ((base <=? x) && (x <? base + cnt)) eqn:E.
        + apply andb_true_iff in E as [E1 E2]. zbool. exfalso.
          apply (Hx (copied blkoff i + (x - base)) ltac:(lia)).
          rewrite <- Hbase by lia. lia.
        + apply Hwb. intros k Hk. apply Hx. lia. }
    rewrite Hpn in *.
    destruct (IH (i + 1) d1 ltac:(lia) ltac:(lia) Hw1) as (d' & Hr & Hw').
    exists d'. split; [exact Hr | exact Hw'].
Qed.

End ReadWrite.

Lemma map_nth_all (l : list Z) :
  map (fun k => nth k l 0) (seq 0 (length l)) = l.
Proof.
  induction l as [|a l IH]; [done|].
  cbn [length seq map nth]. f_equal.
  rewrite <- seq_shift, map_map. exact IH.
Qed.

(** What the round trip asks of the image, for the blocks that hold the
    bytes [pos .. pos + len - 1] of the file whose inode is at [ia]: the
    blocks lie apart on the device, and neither the inode nor the pointers
    that lead to the blocks are stored in them. *)
Definition layout_ok (fs : ktfs) (ia pos len : Z) : Prop :=
  let ino := load_inode (disk fs) ia in
  let blkno := pos / KTFS_BLKSZ in
  let numblks := (pos mod KTFS_BLKSZ + len + KTFS_BLKSZ - 1) / KTFS_BLKSZ in
  (forall a b,
     blkno <= a < blkno + numblks -> blkno <= b < blkno + numblks -> a <> b ->
     data_offset (sb fs) (file_block fs ino a) + KTFS_BLKSZ
       <= data_offset (sb fs) (file_block fs ino b) \/
     data_offset (sb fs) (file_block fs ino b) + KTFS_BLKSZ
       <= data_offset (sb fs) (file_block fs ino a)) /\
  (forall d,
     (forall x, ~ in_blocks fs ino blkno numblks x -> d x = disk fs x) ->
     load_inode d ia = ino /\
     forall n, blkno <= n < blkno + numblks ->
       file_block (set_disk fs d) ino n = file_block fs ino n).

(** What a write inside the file followed by a read of the same range
    does. *)
Lemma read_after_write_effect (io : Z) (fs : ktfs) (file : ktfs_file)
    (pos : Z) (buf : list Z) (len : Z) :
  io ∈ open_files fs -> files fs !! io = Some file ->
  0 <= pos -> 0 < len -> pos + len <= f_size file -> f_size file < 2 ^ 41 ->
  length buf = Z.to_nat len ->
  layout_ok fs (inode_block_offset (sb fs) (f_inode file) + inode_slot (f_inode file))
            pos len ->
  exists fs',
    ktfs_writeat io fs pos buf len = (len, fs') /\
    ktfs_readat io fs' pos len = (len, fs', buf) /\
    files fs' = files fs /\ open_files fs' = open_files fs /\
    forall x,
      (forall k, 0 <= k < len ->
         x <> byte_addr fs
                (load_inode (disk fs)
                   (inode_block_offset (sb fs) (f_inode file) + inode_slot (f_inode file)))
                (pos + k)) ->
      disk fs' x = disk fs x.
Proof.
  intros Hopen Hfile Hp Hl Hend Hsz Hbuf.
  set (ia := inode_block_offset (sb fs) (f_inode file) + inode_slot (f_inode file)).
  intros [Hapart Hst].
  set (ino := load_inode (disk fs) ia) in *.
  set (blkno := pos / KTFS_BLKSZ) in *.
  set (blkoff := pos mod KTFS_BLKSZ).
  set (numblks := (pos mod KTFS_BLKSZ + len + KTFS_BLKSZ - 1) / KTFS_BLKSZ) in *.
  assert (Hpos : pos = KTFS_BLKSZ * blkno + blkoff).
  { subst blkno blkoff. unfold KTFS_BLKSZ. Z.div_mod_to_equations. lia. }
  assert (Hoff : 0 <= blkoff < KTFS_BLKSZ).
  { subst blkoff. unfold KTFS_BLKSZ. Z.div_mod_to_equations. lia. }
  assert (Hblk : 0 <= blkno).
  { subst blkno. unfold KTFS_BLKSZ. Z.div_mod_to_equations. lia. }
  assert (Hblk32 : blkno < 2 ^ 32).
  { subst blkno. unfold KTFS_BLKSZ. Z.div_mod_to_equations. lia. }
  assert (Hlen : 0 < len < 2 ^ 63) by lia.
  assert (Hnum : numblks = (blkoff + len + KTFS_BLKSZ - 1) / KTFS_BLKSZ) by done.
  assert (Hnp : 0 < numblks)
    by exact (numblks_pos len blkoff numblks Hoff Hlen Hnum).
  assert (Hstable : forall d,
            (forall x, ~ in_blocks fs ino blkno numblks x -> d x = disk fs x) ->
            forall n, blkno <= n < blkno + numblks ->
              file_block (set_disk fs d) ino n = file_block fs ino n).
  { intros d Hd. exact (proj2 (Hst d Hd)). }
  assert (Hhead : forall g : ktfs, files g = files fs -> open_files g = open_files fs ->
            forall (A : Type) (e1 e2 e3 : A) (body : ktfs_file -> A),
              (if bool_decide (io ∈ open_files g) then
                 match files g !! io with None => e1 | Some f => body f end
               else e2) = body file).
  { intros g Hf Ho A e1 e2 e3 body. rewrite Ho, Hf, Hfile.
    now rewrite bool_decide_eq_true_2. }
  assert (Hw0 : written fs ino pos (disk fs) buf (progress len blkoff numblks 0)).
  { unfold progress, copied. rewrite (proj2 (Z.ltb_lt 0 numblks)) by lia.
    cbn [Z.eqb]. split; intros; [lia | done]. }
  destruct (write_blocks_from fs ino pos len blkno blkoff numblks Hpos Hoff Hlen Hnum
              Hapart Hstable buf (Z.to_nat numblks) 0 (disk fs) ltac:(lia) ltac:(lia) Hw0)
    as (d' & Hwr & Hw').
  assert (Hp0 : progress len blkoff numblks 0 = 0).
  { unfold progress, copied. now rewrite (proj2 (Z.ltb_lt 0 numblks)) by lia. }
  rewrite Hp0 in Hwr.
  assert (Hfs : set_disk fs (disk fs) = fs) by now destruct fs.
  rewrite Hfs in Hwr.
  assert (Hcond : forall g : ktfs,
            (f_size file <? pos) = false /\ (len <? 0) = false /\ (len =? 0) = false /\
            (f_size file <? wrap64 (len + pos)) = false /\
            wrap32 (pos / KTFS_BLKSZ) = blkno /\
            numblks_of len (wrap32 (pos mod KTFS_BLKSZ)) = numblks).
  { intros _. rewrite (wrap64_small (len + pos)) by lia.
    assert (E32 : wrap32 (pos mod KTFS_BLKSZ) = blkoff).
    { apply wrap32_small. fold blkoff. unfold KTFS_BLKSZ in *. lia. }
    rewrite E32, numblks_of_spec by (unfold KTFS_BLKSZ in *; lia).
    repeat split; try (apply Z.ltb_ge; lia); try (apply Z.eqb_neq; lia).
    apply wrap32_small. fold blkno. lia. }
  destruct (Hcond fs) as (C1 & C2 & C3 & C4 & C5 & C6).
  assert (Hout : forall x, ~ in_blocks fs ino blkno numblks x -> d' x = disk fs x).
  { intros x Hx. apply (proj2 Hw'). intros k Hk ->. apply Hx.
    apply (addr_in_blocks fs ino pos len blkno blkoff numblks Hpos Hoff Hnum).
    lia. }
  exists (set_disk fs d'). split; [|split; [|split; [done|split; [done|]]]].
  - unfold ktfs_writeat.
    rewrite (Hhead fs eq_refl eq_refl _ _ _ (- EMFILE, fs)).
    rewrite C1, C2, C3, C4. cbn zeta. rewrite C5, C6. fold ia. fold ino.
    now rewrite Hwr.
  - unfold ktfs_readat.
    rewrite (Hhead (set_disk fs d') eq_refl eq_refl _ _ _ (- EMFILE, set_disk fs d', [])).
    rewrite C1, C2, C3, C4. cbn zeta. rewrite C5, C6.
    cbn [disk sb set_disk]. fold ia. rewrite (proj1 (Hst d' Hout)).
    f_equal.
    pose proof (read_blocks_from ino pos len blkno blkoff numblks Hpos Hoff Hlen Hnum
                  (set_disk fs d') (Z.to_nat numblks) 0 ltac:(lia) ltac:(lia)) as Hrd.
    unfold copied in Hrd. cbn [Z.eqb] in Hrd. rewrite Hrd.
    rewrite Z.sub_0_r, <- Hbuf.
    rewrite <- (map_nth_all buf) at 2.
    apply map_ext_in. intros k Hk. apply in_seq in Hk.
    rewrite Z.add_0_r.
    assert (Hkz : 0 <= Z.of_nat k < len) by lia.
    assert (Hba : byte_addr (set_disk fs d') ino (pos + Z.of_nat k)
                  = byte_addr fs ino (pos + Z.of_nat k)).
    { unfold byte_addr. cbn [sb set_disk].
      rewrite (Hstable d' Hout); [done|].
      exact (proj1 (offset_block pos len blkno blkoff numblks Hpos Hoff Hnum
                      (Z.of_nat k) Hkz)). }
    rewrite Hba. cbn [disk set_disk].
    rewrite (proj1 Hw' (Z.of_nat k) Hkz). now rewrite Nat2Z.id.
  - intros x Hx. cbn [disk set_disk]. apply (proj2 Hw'). exact Hx.
Qed.

(** *** Writing through the seekable wrapper *)

(** A [seekio_write] on a KTFS file (block size 1) whose range ends
    past [end]: SETEND goes to the file system first, and only when it
    returns 0 does the data go to [ktfs_writeat]. *)
Lemma seekio_write_extends io fs sio buf len :
  blksz sio = 1 -> 0 <= pos sio <= end_ sio -> end_ sio < 2 ^ 64 ->
  0 < len < 2 ^ 63 -> end_ sio - pos sio < len -> pos sio + len < 2 ^ 64 ->
  seekio_write (ktfs_intf io) sio fs buf len
  = let '(r, fs1) := set_file_size io fs (pos sio + len) in
    if r =? 0 then
      let '(w, fs2) := ktfs_writeat io fs1 (pos sio) buf len in
      (w, mk_seekio (wrap64 (pos sio + (if w <? 0 then 0 else w))) (pos sio + len) 1, fs2)
    else (r, sio, fs1).
Proof.
  intros Hb Hp He Hl Hx Ho. unfold seekio_write. rewrite Hb.
  replace (len =? 0) with false by (symmetry; apply Z.eqb_neq; lia).
  replace (len <? 1) with false by (symmetry; apply Z.ltb_ge; lia).
  change (Z.lnot (1 - 1)) with (-1). rewrite Z.land_m1_r.
  rewrite (wrap64_small (end_ sio - pos sio)) by lia.
  rewrite (wrap64_small len) by lia.
  replace (end_ sio - pos sio <? len) with true by (symmetry; apply Z.ltb_lt; lia).
  replace (2 ^ 64 - 1 - pos sio <? len) with false by (symmetry; apply Z.ltb_ge; lia).
  rewrite (wrap64_small (pos sio + len)) by lia.
  unfold ioctl, iowriteat. cbn [cntl writeat ktfs_intf].
  unfold ktfs_cntl.
  change (IOCTL_SETEND =? IOCTL_GETBLKSZ) with false.
  change (IOCTL_SETEND =? IOCTL_GETEND) with false.
  change (IOCTL_SETEND =? IOCTL_SETEND) with true. cbv iota.
  destruct (set_file_size io fs (pos sio + len)) as [r fs1].
  destruct (r =? 0); [|reflexivity].
  cbn [default Seekio.pos end_ blksz].
  replace (len <? 0) with false by (symmetry; apply Z.ltb_ge; lia).
  reflexivity.
Qed.

(** C4 (as the code has it): a write through the seekable wrapper
    whose range crosses the end first sends SETEND to the file system
    and, when that succeeds, transfers all [len] bytes, the file and the
    wrapper ending at [pos + len]: the bytes of [buf] are on the device
    at the file offsets [pos .. pos + len - 1] (a read of the range
    returns them) and no other device byte has changed since SETEND, on a
    layout where the blocks of the range lie apart and hold neither the
    inode nor the pointers to them.  When SETEND fails its error is the
    result and nothing is written.  A positional [writeat] that runs past
    the end of the file is cut to the old size, and the file is not
    extended. *)
Theorem write_past_end (io : Z) (fs : ktfs) (sio : seekio) (buf : list Z) (len : Z) :
  io ∈ open_files fs -> blksz sio = 1 ->
  0 <= pos sio <= end_ sio -> end_ sio < 2 ^ 64 ->
  0 < len < 2 ^ 63 -> end_ sio - pos sio < len -> pos sio + len < 2 ^ 64 ->
  (forall r fs1, set_file_size io fs (pos sio + len) = (r, fs1) -> r <> 0 ->
     seekio_write (ktfs_intf io) sio fs buf len = (r, sio, fs1)) /\
  (forall fs1, set_file_size io fs (pos sio + len) = (0, fs1) ->
     exists fs2 file',
       ktfs_writeat io fs1 (pos sio) buf len = (len, fs2) /\
       seekio_write (ktfs_intf io) sio fs buf len
       = (len, mk_seekio (pos sio + len) (pos sio + len) 1, fs2) /\
       files fs2 !! io = Some file' /\ f_size file' = pos sio + len /\
       files fs1 !! io = Some file' /\
       (length buf = Z.to_nat len ->
        layout_ok fs1
          (inode_block_offset (sb fs1) (f_inode file') + inode_slot (f_inode file'))
          (pos sio) len ->
        ktfs_readat io fs2 (pos sio) len = (len, fs2, buf) /\
        forall x,
          (forall k, 0 <= k < len ->
             x <> byte_addr fs1
                    (load_inode (disk fs1)
                       (inode_block_offset (sb fs1) (f_inode file')
                        + inode_slot (f_inode file')))
                    (pos sio + k)) ->
          disk fs2 x = disk fs1 x)) /\
  (forall file p n, files fs !! io = Some file ->
     0 <= p <= f_size file -> f_size file < 2 ^ 32 -> 0 < n < 2 ^ 63 ->
     f_size file < p + n ->
     fst (ktfs_writeat io fs p buf n) = f_size file - p /\
     files (snd (ktfs_writeat io fs p buf n)) !! io = Some file /\
     seekio_writeat (ktfs_intf io) fs p buf n = ktfs_writeat io fs p buf n).
Proof.
  intros Hopen Hb Hp He Hl Hx Ho.
  pose proof (seekio_write_extends io fs sio buf len Hb Hp He Hl Hx Ho) as Hw.
  split; [|split].
  - intros r fs1 Hs Hr. rewrite Hw, Hs.
    now replace (r =? 0) with false by (symmetry; apply Z.eqb_neq; lia).
  - intros fs1 Hs. rewrite Hw, Hs. change (0 =? 0) with true. cbv iota.
    destruct (set_file_size_ok io fs (pos sio + len) fs1 ltac:(lia) Hs)
      as (Hmax & Hopen1 & _ & file' & Hfile' & Hsz').
    change max_file_size with 16844288 in Hmax.
    assert (Hopen' : io ∈ open_files fs1) by now rewrite Hopen1.
    destruct (ktfs_writeat_clamps io fs1 file' (pos sio) buf len Hopen' Hfile'
                ltac:(lia) ltac:(lia) Hl) as [Hret Hkeep].
    destruct (ktfs_writeat io fs1 (pos sio) buf len) as [w fs2] eqn:Hwr.
    cbn [fst snd] in Hret, Hkeep.
    assert (w = len) as -> by lia.
    exists fs2, file'. split; [done|]. split.
    { replace (len <? 0) with false by (symmetry; apply Z.ltb_ge; lia).
      now rewrite wrap64_small by lia. }
    split; [done|]. split; [done|]. split; [done|].
    intros Hbuf Hlay.
    destruct (read_after_write_effect io fs1 file' (pos sio) buf len Hopen' Hfile'
                ltac:(lia) ltac:(lia) ltac:(lia) ltac:(lia) Hbuf Hlay)
      as (fs' & Hwr' & Hrd & _ & _ & Hframe).
    rewrite Hwr in Hwr'. injection Hwr' as <-. done.
  - intros file p n Hfile Hpp Hsz Hn Hover.
    destruct (ktfs_writeat_clamps io fs file p buf n Hopen Hfile Hpp Hsz Hn)
      as [Hret Hkeep].
    split; [rewrite Hret; lia|]. split; [done|].
    unfold seekio_writeat, iowriteat. cbn [writeat ktfs_intf].
    now replace (n <? 0) with false by (symmetry; apply Z.ltb_ge; lia).
Qed.

(** A small image: superblock, one bitmap block, one inode block, data
    blocks from device block 3.  Inode 1 is the file "hello.txt" of five
    bytes in data block 0; device blocks 0 to 3 are taken. *)
Definition sample_sb : superblock := mk_sb 64 1 1 0.

Definition sample_disk : Z -> Z :=
  store_bytes
    (store_inode (fun x => if x =? 512 then 15 else 0) (1024 + 32)
                 (mk_inode 5 0 0 0 0 0 0 0))
    1536 [72; 101; 108; 108; 111] 0 5.

(** The file is open; its record's [io] member is at [0x5000]. *)
Definition sample_fs : ktfs :=
  mk_ktfs (<[ 0x5000 := mk_file 5 1 1 ]> ∅) [0x5000] sample_sb sample_disk.

Definition sample_sio : seekio := mk_seekio 0 5 1.

Definition eight_bytes : list Z := [72; 101; 108; 108; 111; 33; 33; 33].

Lemma sample_open : 0x5000 ∈ open_files sample_fs.
Proof. cbn. apply elem_of_cons. now left. Qed.

(** The image after SETEND(8): the same blocks, the size in the inode
    and in the file record is 8. *)
Definition sample_grown : ktfs := snd (set_file_size 0x5000 sample_fs 8).

Lemma sample_grown_layout : layout_ok sample_grown 1056 0 8.
Proof.
  assert (Hino : load_inode (disk sample_grown) 1056 = mk_inode 8 0 0 0 0 0 0 0)
    by (vm_compute; reflexivity).
  unfold layout_ok. rewrite Hino.
  change (0 / KTFS_BLKSZ) with 0.
  change ((0 mod KTFS_BLKSZ + 8 + KTFS_BLKSZ - 1) / KTFS_BLKSZ) with 1.
  split; [intros; lia|].
  intros d Hd.
  assert (Hfb : forall g n, 0 <= n < 0 + 1 ->
            file_block g (mk_inode 8 0 0 0 0 0 0 0) n = 0).
  { intros g n Hn. assert (n = 0) as -> by lia. reflexivity. }
  assert (Hlow : forall x, x < 1536 -> d x = disk sample_grown x).
  { intros x Hx. apply Hd. intros (n & Hn & Hr).
    rewrite (Hfb _ n Hn) in Hr.
    change (data_offset (sb sample_grown) 0) with 1536 in Hr. lia. }
  split.
  - rewrite <- Hino. unfold load_inode, load32.
    rewrite !Hlow by lia. reflexivity.
  - intros n Hn. now rewrite !Hfb.
Qed.

Lemma write_past_end_witness :
  0x5000 ∈ open_files sample_fs /\ end_ sample_sio - pos sample_sio < 8 /\
  set_file_size 0x5000 sample_fs 8 = (0, sample_grown) /\
  fst (fst (seekio_write (ktfs_intf 0x5000) sample_sio sample_fs eight_bytes 8)) = 8 /\
  snd (ktfs_readat 0x5000
         (snd (seekio_write (ktfs_intf 0x5000) sample_sio sample_fs eight_bytes 8)) 0 8)
  = eight_bytes.
Proof.
  assert (Hs : set_file_size 0x5000 sample_fs (pos sample_sio + 8) = (0, sample_grown))
    by (vm_compute; reflexivity).
  split; [exact sample_open|]. split; [cbn; lia|].
  split; [exact Hs|].
  destruct (proj1 (proj2 (write_past_end 0x5000 sample_fs sample_sio eight_bytes 8
              sample_open eq_refl ltac:(cbn; lia) ltac:(cbn; lia) ltac:(lia)
              ltac:(cbn; lia) ltac:(cbn; lia))) _ Hs)
    as (fs2 & file' & _ & Hw & _ & _ & Hf1 & Hread).
  assert (Hfile : files sample_grown !! 0x5000 = Some (mk_file 8 1 1))
    by (vm_compute; reflexivity).
  rewrite Hfile in Hf1. injection Hf1 as <-.
  destruct (Hread eq_refl sample_grown_layout) as [Hrd _].
  rewrite Hw. cbn [fst snd]. split; [reflexivity|].
  change (pos sample_sio) with 0 in Hrd. now rewrite Hrd.
Defined.

(** C4 as stated fails: a positional [writeat] of eight bytes at
    offset 2 of the five-byte file writes three bytes and leaves the size
    at 5. *)
Lemma positional_write_is_cut :
  fst (seekio_writeat (ktfs_intf 0x5000) sample_fs 2 eight_bytes 8) = 3 /\
  files (snd (seekio_writeat (ktfs_intf 0x5000) sample_fs 2 eight_bytes 8)) !! 0x5000
  = Some (mk_file 5 1 1) /\
  fst (seekio_writeat (ktfs_intf 0x5000) sample_fs 2 eight_bytes 8) <> 8.
Proof. vm_compute. repeat split; done. Qed.

(** Scenario 2 of the specification: after [writeat(2, "bye", 3)] the
    first five bytes read "Hebye". *)
Example hello_bye :
  let fs1 := snd (ktfs_writeat 0x5000 sample_fs 2 [98; 121; 101] 3) in
  ktfs_readat 0x5000 sample_fs 0 5 = (5, sample_fs, [72; 101; 108; 108; 111]) /\
  snd (ktfs_readat 0x5000 fs1 0 5) = [72; 101; 98; 121; 101].
Proof. split; vm_compute; reflexivity. Qed.

(** Growing the file to 600 bytes takes the first free block of the
    bitmap (device block 4, data block 1) as its second block. *)
Example grow_allocates :
  let fs1 := snd (set_file_size 0x5000 sample_fs 600) in
  fst (set_file_size 0x5000 sample_fs 600) = 0 /\
  files fs1 !! 0x5000 = Some (mk_file 600 1 1) /\
  load_inode (disk fs1) 1056 = mk_inode 600 0 0 1 0 0 0 0 /\
  disk fs1 512 = 31.
Proof. vm_compute. repeat split; done. Qed.

(** *** Reading back what was written *)

(** Read after write: on an open file, [ktfs_writeat] of [len] bytes
    that end within the file's size stores all of them, [ktfs_readat] of
    the same range then returns exactly these bytes, and no device byte
    outside the range has changed. *)
Theorem ktfs_read_after_write (io : Z) (fs : ktfs) (file : ktfs_file)
    (pos : Z) (buf : list Z) (len : Z) :
  io ∈ open_files fs -> files fs !! io = Some file ->
  0 <= pos -> 0 < len -> pos + len <= f_size file -> f_size file < 2 ^ 41 ->
  length buf = Z.to_nat len ->
  layout_ok fs (inode_block_offset (sb fs) (f_inode file) + inode_slot (f_inode file))
            pos len ->
  exists fs',
    ktfs_writeat io fs pos buf len = (len, fs') /\
    ktfs_readat io fs' pos len = (len, fs', buf) /\
    files fs' = files fs /\ open_files fs' = open_files fs /\
    forall x,
      (forall k, 0 <= k < len ->
         x <> byte_addr fs
                (load_inode (disk fs)
                   (inode_block_offset (sb fs) (f_inode file) + inode_slot (f_inode file)))
                (pos + k)) ->
      disk fs' x = disk fs x.
Proof.
  intros Hopen Hfile Hp Hl Hend Hsz Hbuf Hlay.
  exact (read_after_write_effect io fs file pos buf len Hopen Hfile Hp Hl Hend Hsz Hbuf Hlay).
Qed.

Lemma sample_layout : layout_ok sample_fs 1056 2 3.
Proof.
  assert (Hino : load_inode sample_disk 1056 = mk_inode 5 0 0 0 0 0 0 0)
    by (vm_compute; reflexivity).
  unfold layout_ok. cbn [disk sb sample_fs]. rewrite Hino.
  change (2 / KTFS_BLKSZ) with 0.
  change ((2 mod KTFS_BLKSZ + 3 + KTFS_BLKSZ - 1) / KTFS_BLKSZ) with 1.
  split; [intros; lia|].
  intros d Hd.
  assert (Hfb : forall g n, 0 <= n < 0 + 1 ->
            file_block g (mk_inode 5 0 0 0 0 0 0 0) n = 0).
  { intros g n Hn. assert (n = 0) as -> by lia. reflexivity. }
  assert (Hlow : forall x, x < 1536 -> d x = sample_disk x).
  { intros x Hx. apply Hd. intros (n & Hn & Hr).
    rewrite (Hfb _ n Hn) in Hr.
    change (data_offset (sb sample_fs) 0) with 1536 in Hr. lia. }
  split.
  - rewrite <- Hino. unfold load_inode, load32.
    rewrite !Hlow by lia. reflexivity.
  - intros n Hn. now rewrite !Hfb.
Qed.

Lemma ktfs_read_after_write_witness :
  exists fs',
    ktfs_writeat 0x5000 sample_fs 2 [98; 121; 101] 3 = (3, fs') /\
    ktfs_readat 0x5000 fs' 2 3 = (3, fs', [98; 121; 101]) /\
    files fs' = files sample_fs /\ open_files fs' = open_files sample_fs /\
    forall x,
      (forall k, 0 <= k < 3 ->
         x <> byte_addr sample_fs (load_inode (disk sample_fs) 1056) (2 + k)) ->
      disk fs' x = disk sample_fs x.
Proof.
  exact (ktfs_read_after_write 0x5000 sample_fs (mk_file 5 1 1) 2 [98; 121; 101] 3
           sample_open eq_refl ltac:(lia) ltac:(lia) ltac:(cbn; lia) ltac:(cbn; lia)
           eq_refl sample_layout).
Defined.

End Ktfs.

(** * The VirtIO block driver (dev/vioblk.c) *)

Module Vioblk.

Definition VIOBLK_DESC_COUNT : Z := 8.
Definition VIRTQ_DESC_F_NEXT : Z := 1.
Definition VIRTQ_DESC_F_WRITE : Z := 2.
Definition VIRTIO_BLK_T_IN : Z := 0.
Definition VIRTIO_BLK_T_OUT : Z := 1.

(** [struct virtq_desc], [struct vioblk_reqinfo], [struct virtio_blk_req] *)
Record virtq_desc := mk_desc { d_addr : Z; d_len : Z; d_flags : Z; d_next : Z }.
Record vioblk_reqinfo := mk_req { in_use : Z; result : Z; status : Z }.
Record virtio_blk_req := mk_hdr { r_type : Z; r_reserved : Z; r_sector : Z }.

(** The rings of the virtqueue: [used] is written by the device. *)
Record virtq := mk_vq {
  desc : list virtq_desc;
  avail_idx : Z;
  avail_ring : list Z;
  used_idx : Z;
  used_ring : list (Z * Z);        (* id, len *)
  last_used_idx : Z
}.

(** [struct vioblk_device] with the registers the request path reads:
    [seg_max] of the configuration space and [interrupt_status].
    [hdr_base] and [status_base] are the addresses of [reqhdrs] and
    [status_bytes]. *)
Record vioblk_device := mk_dev {
  capacity : Z;
  blk_size : Z;
  seg_max : Z;
  interrupt_status : Z;
  vq : virtq;
  reqhdrs : list virtio_blk_req;
  status_bytes : list Z;
  requests : list vioblk_reqinfo;
  desc_free : list Z;
  hdr_base : Z;
  status_base : Z
}.

Definition set_vq (d : vioblk_device) (q : virtq) : vioblk_device :=
  mk_dev (capacity d) (blk_size d) (seg_max d) (interrupt_status d) q
         (reqhdrs d) (status_bytes d) (requests d) (desc_free d)
         (hdr_base d) (status_base d).
Definition set_reqhdrs (d : vioblk_device) (h : list virtio_blk_req) : vioblk_device :=
  mk_dev (capacity d) (blk_size d) (seg_max d) (interrupt_status d) (vq d)
         h (status_bytes d) (requests d) (desc_free d) (hdr_base d) (status_base d).
Definition set_status_bytes (d : vioblk_device) (b : list Z) : vioblk_device :=
  mk_dev (capacity d) (blk_size d) (seg_max d) (interrupt_status d) (vq d)
         (reqhdrs d) b (requests d) (desc_free d) (hdr_base d) (status_base d).
Definition set_requests (d : vioblk_device) (r : list vioblk_reqinfo) : vioblk_device :=
  mk_dev (capacity d) (blk_size d) (seg_max d) (interrupt_status d) (vq d)
         (reqhdrs d) (status_bytes d) r (desc_free d) (hdr_base d) (status_base d).
Definition set_desc_free (d : vioblk_device) (f : list Z) : vioblk_device :=
  mk_dev (capacity d) (blk_size d) (seg_max d) (interrupt_status d) (vq d)
         (reqhdrs d) (status_bytes d) (requests d) f (hdr_base d) (status_base d).
Definition set_interrupt_status (d : vioblk_device) (v : Z) : vioblk_device :=
  mk_dev (capacity d) (blk_size d) (seg_max d) v (vq d)
         (reqhdrs d) (status_bytes d) (requests d) (desc_free d)
         (hdr_base d) (status_base d).

Definition set_desc (d : vioblk_device) (i : Z) (e : virtq_desc) : vioblk_device :=
  set_vq d (mk_vq (<[Z.to_nat i := e]> (desc (vq d))) (avail_idx (vq d))
                  (avail_ring (vq d)) (used_idx (vq d)) (used_ring (vq d))
                  (last_used_idx (vq d))).
Definition mark_desc (d : vioblk_device) (i v : Z) : vioblk_device :=
  set_desc_free d (<[Z.to_nat i := v]> (desc_free d)).

Definition at_ {A} (l : list A) (i : Z) (dflt : A) : A := nth (Z.to_nat i) l dflt.

Definition null_desc : virtq_desc := mk_desc 0 0 0 0.

(** The loop that collects free descriptor indices into [chain]. *)
Fixpoint collect_free (free : list Z) (i : Z) (need : Z) (chain : list Z) : list Z :=
  match free with
  | [] => chain
  | f :: more =>
      if (i <? VIOBLK_DESC_COUNT) && (Z.of_nat (length chain) <? need) then
        collect_free more (i + 1) need (if f =? 0 then chain else chain ++ [i])
      else chain
  end.

(** The loop that fills the data descriptors, from [j], with
    [remaining] bytes to describe from address [data_ptr]. *)
Fixpoint fill_data (d : vioblk_device) (chain : list Z) (flags max_seg : Z)
    (num_data_desc total_desc_needed : Z) (j data_ptr remaining : Z) (todo : nat)
    : vioblk_device :=
  match todo with
  | O => d
  | S todo' =>
      let idx := at_ chain j 0 in
      let seg_len := wrap32 (if max_seg <? remaining then max_seg else remaining) in
      let next := if j <? num_data_desc then at_ chain (j + 1) 0
                  else at_ chain (total_desc_needed - 1) 0 in
      let d1 := set_desc (mark_desc d idx 0) idx
                  (mk_desc data_ptr seg_len (Z.lor flags VIRTQ_DESC_F_NEXT) next) in
      fill_data d1 chain flags max_seg num_data_desc total_desc_needed
                (j + 1) (wrap64 (data_ptr + seg_len)) (remaining - seg_len) todo'
  end.

(** A call either returns or is suspended on [io_done] for a slot. *)
Inductive io_result := IoRet (v : Z) | IoWaiting (slot : Z).

(** The request path common to the two functions, up to the wait
    loop: [type] is the request type and [data_flags] the flags of a
    data descriptor besides NEXT. *)
Definition submit (type data_flags : Z) (d : vioblk_device) (pos buf len : Z)
    : io_result * vioblk_device :=
  if (buf =? 0) || (len <=? 0) then (IoRet (- EINVAL), d)
  else if negb (pos mod blk_size d =? 0) || negb (len mod blk_size d =? 0)
  then (IoRet (- EINVAL), d)
  else if wrap64 (capacity d * blk_size d) <? pos then (IoRet (- EINVAL), d)
  else
    let start_sector := pos / blk_size d in
    let total_blocks := len / blk_size d in
    let len :=
      if capacity d <? wrap64 (start_sector + total_blocks)
      then to_long (wrap64 (capacity d - start_sector)) * blk_size d
      else len in
    let max_seg := if seg_max d =? 0 then wrap32 len else seg_max d in
    let num_data_desc := to_int ((len + max_seg - 1) / max_seg) in
    let total_desc_needed := 1 + num_data_desc + 1 in
    let chain := collect_free (desc_free d) 0 total_desc_needed [] in
    if Z.of_nat (length chain) <? total_desc_needed then (IoRet (- EBUSY), d)
    else
      let slot := at_ chain 0 0 in
      let d1 := set_requests d (<[Z.to_nat slot := mk_req 1 0 0xFF]> (requests d)) in
      let d2 := set_reqhdrs d1
                  (<[Z.to_nat slot := mk_hdr type 0 start_sector]> (reqhdrs d1)) in
      let d3 := set_desc (mark_desc d2 slot 0) slot
                  (if 1 <? total_desc_needed
                   then mk_desc (hdr_base d + 16 * slot) 16 VIRTQ_DESC_F_NEXT
                                (at_ chain 1 0)
                   else mk_desc (hdr_base d + 16 * slot) 16 0 0) in
      let d4 := fill_data d3 chain data_flags max_seg num_data_desc
                  total_desc_needed 1 buf len (Z.to_nat num_data_desc) in
      let stat_idx := at_ chain (total_desc_needed - 1) 0 in
      let d5 := set_desc (mark_desc d4 stat_idx 0) stat_idx
                  (mk_desc (status_base d + slot) 1 VIRTQ_DESC_F_WRITE 0) in
      let q := vq d5 in
      let q' := mk_vq (desc q) (wrap16 (avail_idx q + 1))
                  (<[Z.to_nat (avail_idx q mod VIOBLK_DESC_COUNT) := slot]> (avail_ring q))
                  (used_idx q) (used_ring q) (last_used_idx q) in
      (IoWaiting slot, set_vq d5 q').

(** [vioblk_readat] and [vioblk_writeat] up to the wait loop. *)
Definition vioblk_readat (d : vioblk_device) (pos buf bufsz : Z) :=
  submit VIRTIO_BLK_T_IN VIRTQ_DESC_F_WRITE d pos buf bufsz.
Definition vioblk_writeat (d : vioblk_device) (pos buf len : Z) :=
  submit VIRTIO_BLK_T_OUT 0 d pos buf len.

(** The wait loop and the return of [vioblk_readat]: the recorded
    length less one. *)
Definition vioblk_readat_resume (d : vioblk_device) (slot : Z) : io_result :=
  let r := at_ (requests d) slot (mk_req 0 0 0) in
  if in_use r =? 0 then IoRet (result r - 1) else IoWaiting slot.

(** The wait loop and the return of [vioblk_writeat]: the recorded
    length. *)
Definition vioblk_writeat_resume (d : vioblk_device) (slot : Z) : io_result :=
  let r := at_ (requests d) slot (mk_req 0 0 0) in
  if in_use r =? 0 then IoRet (result r) else IoWaiting slot.

(** The descriptor-freeing walk of the ISR along a chain. *)
Fixpoint free_chain (d : vioblk_device) (i : Z) (fuel : nat) : vioblk_device :=
  match fuel with
  | O => d
  | S fuel' =>
      let d1 := mark_desc d i 1 in
      let e := at_ (desc (vq d1)) i null_desc in
      if Z.land (d_flags e) VIRTQ_DESC_F_NEXT =? 0 then d1
      else free_chain d1 (wrap16 (d_next e)) fuel'
  end.

(** The used-ring loop of [vioblk_isr]. *)
Fixpoint isr_loop (d : vioblk_device) (fuel : nat) : vioblk_device :=
  match fuel with
  | O => d
  | S fuel' =>
      let q := vq d in
      if used_idx q =? last_used_idx q then d
      else
        let '(id, len) := at_ (used_ring q) (last_used_idx q mod VIOBLK_DESC_COUNT) (0, 0) in
        let desc_idx := wrap16 id in
        let len := wrap16 len in
        let d1 := set_requests d
                    (<[Z.to_nat desc_idx :=
                         mk_req 0 len (at_ (status_bytes d) desc_idx 0)]> (requests d)) in
        let d2 := free_chain d1 desc_idx (Z.to_nat VIOBLK_DESC_COUNT) in
        let q2 := vq d2 in
        isr_loop (set_vq d2 (mk_vq (desc q2) (avail_idx q2) (avail_ring q2)
                                   (used_idx q2) (used_ring q2)
                                   (wrap16 (last_used_idx q2 + 1))))
                 fuel'
  end.

(** [vioblk_isr]: the interrupt is acknowledged by writing the status
    back. *)
Definition vioblk_isr (d : vioblk_device) : vioblk_device :=
  if interrupt_status d =? 0 then d
  else set_interrupt_status (isr_loop d (Z.to_nat (2 ^ 16))) 0.

(** The device side, as virtio.h describes the used length ("total
    length of the descriptor chain which was written to"): the bytes of
    the device-writable descriptors of the chain. *)
Fixpoint written_len (q : virtq) (i : Z) (fuel : nat) : Z :=
  match fuel with
  | O => 0
  | S fuel' =>
      let e := at_ (desc q) i null_desc in
      (if Z.land (d_flags e) VIRTQ_DESC_F_WRITE =? 0 then 0 else d_len e)
      + (if Z.land (d_flags e) VIRTQ_DESC_F_NEXT =? 0 then 0
         else written_len q (d_next e) fuel')
  end.

(** The device completes the request whose chain starts at [head]: it
    stores the status byte, adds the used element with length [len] and
    raises the interrupt. *)
Definition device_completes (d : vioblk_device) (head len st : Z) : vioblk_device :=
  let q := vq d in
  let d1 := set_status_bytes d (<[Z.to_nat head := st]> (status_bytes d)) in
  set_interrupt_status
    (set_vq d1 (mk_vq (desc q) (avail_idx q) (avail_ring q)
                      (wrap16 (used_idx q + 1))
                      (<[Z.to_nat (used_idx q mod VIOBLK_DESC_COUNT) := (head, len)]>
                         (used_ring q))
                      (last_used_idx q)))
    1.

(** The device after [vioblk_attach]: 64 sectors of 512 bytes, no
    segment limit, every descriptor free. *)
Definition attached : vioblk_device :=
  mk_dev 64 512 0 0
    (mk_vq (replicate 8 null_desc) 0 (replicate 8 0) 0 (replicate 8 (0, 0)) 0)
    (replicate 8 (mk_hdr 0 0 0)) (replicate 8 0)
    (replicate 8 (mk_req 0 0 0xFF)) (replicate 8 1)
    0x80010000 0x80010080.

(** *** What the two paths return *)

(** Once the ISR has recorded a length for the slot, the read path
    returns that length less one and the write path the length itself;
    the recorded status byte plays no part. *)
Lemma resume_results d slot len st :
  at_ (requests d) slot (mk_req 0 0 0) = mk_req 0 len st ->
  vioblk_readat_resume d slot = IoRet (len - 1) /\
  vioblk_writeat_resume d slot = IoRet len.
Proof.
  intros H. unfold vioblk_readat_resume, vioblk_writeat_resume.
  rewrite H. cbn. done.
Qed.

Lemma resume_results_differ d slot len st :
  at_ (requests d) slot (mk_req 0 0 0) = mk_req 0 len st ->
  vioblk_readat_resume d slot <> vioblk_writeat_resume d slot.
Proof.
  intros H. destruct (resume_results d slot len st H) as [-> ->].
  intros [= E]. lia.
Qed.

(** The guards in front of the request: no buffer or no bytes, a
    misaligned position or length, a position past the capacity. *)
Lemma submit_rejects type flags d pos buf len :
  buf = 0 \/ len <= 0 \/ pos mod blk_size d <> 0 \/ len mod blk_size d <> 0 \/
  wrap64 (capacity d * blk_size d) < pos ->
  submit type flags d pos buf len = (IoRet (- EINVAL), d).
Proof.
  intros H. unfold submit.
  destruct ((buf =? 0) || (len <=? 0)) eqn:E1; [done|].
  apply orb_false_iff in E1 as [Eb El].
  apply Z.eqb_neq in Eb. apply Z.leb_gt in El.
  destruct (negb (pos mod blk_size d =? 0) || negb (len mod blk_size d =? 0)) eqn:E2;
    [done|].
  apply orb_false_iff in E2 as [Ep Em].
  apply negb_false_iff, Z.eqb_eq in Ep. apply negb_false_iff, Z.eqb_eq in Em.
  destruct (wrap64 (capacity d * blk_size d) <? pos) eqn:E3; [done|].
  apply Z.ltb_ge in E3. lia.
Qed.

(** C3, the code at the failing input: one block (512 bytes at
    position 0) read and written on the freshly attached device, each
    request completed by the device with status OK and the used length
    virtio.h prescribes (513 for the read, 1 for the write).  The read
    returns 512, the write returns 1; a status byte that is not OK
    changes nothing; and whatever length the device reports, the two
    paths return values one apart. *)
Theorem vioblk_counts_disagree :
  let rd := vioblk_readat attached 0 0x80300000 512 in
  let wr := vioblk_writeat attached 0 0x80300000 512 in
  fst rd = IoWaiting 0 /\ fst wr = IoWaiting 0 /\
  written_len (vq (snd rd)) 0 8 = 513 /\
  written_len (vq (snd wr)) 0 8 = 1 /\
  vioblk_readat_resume (vioblk_isr (device_completes (snd rd) 0 513 0)) 0 = IoRet 512 /\
  vioblk_writeat_resume (vioblk_isr (device_completes (snd wr) 0 1 0)) 0 = IoRet 1 /\
  vioblk_readat_resume (vioblk_isr (device_completes (snd rd) 0 513 1)) 0 = IoRet 512 /\
  vioblk_writeat_resume (vioblk_isr (device_completes (snd wr) 0 1 1)) 0 = IoRet 1 /\
  forall len st,
    vioblk_readat_resume (vioblk_isr (device_completes (snd rd) 0 len st)) 0
    = IoRet (wrap16 len - 1) /\
    vioblk_writeat_resume (vioblk_isr (device_completes (snd wr) 0 len st)) 0
    = IoRet (wrap16 len).
Proof.
  cbv zeta. repeat split; vm_compute; reflexivity.
Qed.

(** A request of no bytes, aligned and in range, gets [-EINVAL]
    although the device was never asked. *)
Example empty_request_rejected :
  vioblk_readat attached 0 0x80300000 0 = (IoRet (- EINVAL), attached).
Proof. reflexivity. Qed.

(** *** Descriptors are taken and given back *)

Lemma at_insert_eq {A} (l : list A) (i : Z) (v dflt : A) :
  0 <= i < Z.of_nat (length l) -> at_ (<[Z.to_nat i := v]> l) i dflt = v.
Proof.
  intros H. unfold at_. rewrite nth_lookup, list_lookup_insert_eq by lia. done.
Qed.

Lemma at_insert_ne {A} (l : list A) (i j : Z) (v dflt : A) :
  0 <= i -> 0 <= j -> i <> j -> at_ (<[Z.to_nat i := v]> l) j dflt = at_ l j dflt.
Proof.
  intros Hi Hj Hne. unfold at_. rewrite !nth_lookup, list_lookup_insert_ne by lia. done.
Qed.

(** The descriptors found free are distinct, in range and free, and no
    more than asked for. *)
Lemma collect_free_spec (free : list Z) : forall i need chain0,
  0 <= i ->
  exists extra,
    collect_free free i need chain0 = chain0 ++ extra /\
    Forall (fun c => i <= c < VIOBLK_DESC_COUNT /\ c < i + Z.of_nat (length free) /\
                     nth (Z.to_nat (c - i)) free 0 <> 0) extra /\
    NoDup extra /\
    Z.of_nat (length (chain0 ++ extra)) <= Z.max need (Z.of_nat (length chain0)).
Proof.
  induction free as [|f more IH]; intros i need chain0 Hi.
  - exists []. rewrite app_nil_r. repeat split; [constructor | constructor | lia].
  - cbn [collect_free].
    destruct ((i <? VIOBLK_DESC_COUNT) && (Z.of_nat (length chain0) <? need)) eqn:Ec.
    2:{ exists []. rewrite app_nil_r. repeat split; [constructor | constructor | lia]. }
    apply andb_true_iff in Ec as [Ei%Z.ltb_lt En%Z.ltb_lt].
    assert (Hshift : forall c, i + 1 <= c ->
              nth (Z.to_nat (c - i)) (f :: more) 0 = nth (Z.to_nat (c - (i + 1))) more 0).
    { intros c Hc. replace (Z.to_nat (c - i)) with (S (Z.to_nat (c - (i + 1)))) by lia.
      reflexivity. }
    destruct (f =? 0) eqn:Ef.
    + destruct (IH (i + 1) need chain0 ltac:(lia)) as (extra & -> & Hall & Hnd & Hlen).
      exists extra. split; [done|]. split; [|split; [done|done]].
      eapply Forall_impl; [exact Hall|]. cbn beta. intros c (Hc1 & Hc2 & Hc3).
      rewrite Hshift by lia. cbn [length]. repeat split; try lia; done.
    + apply Z.eqb_neq in Ef.
      destruct (IH (i + 1) need (chain0 ++ [i]) ltac:(lia)) as (extra & -> & Hall & Hnd & Hlen).
      exists (i :: extra). split; [now rewrite <- app_assoc|].
      split; [|split].
      * constructor.
        -- replace (Z.to_nat (i - i)) with 0%nat by lia. cbn [nth length]. repeat split; lia || done.
        -- eapply Forall_impl; [exact Hall|]. cbn beta. intros c (Hc1 & Hc2 & Hc3).
           rewrite Hshift by lia. cbn [length]. repeat split; try lia; done.
      * constructor; [|done]. intros Hin.
        rewrite Forall_forall in Hall. specialize (Hall i Hin). lia.
      * rewrite <- app_assoc in Hlen. cbn [app] in Hlen.
        rewrite !length_app in *. cbn [length] in *. lia.
Qed.

Ltac devsimp :=
  cbn [desc vq set_desc mark_desc set_vq set_desc_free desc_free set_requests
       set_reqhdrs set_status_bytes set_interrupt_status requests status_bytes
       interrupt_status used_idx used_ring last_used_idx avail_idx avail_ring
       reqhdrs capacity blk_size seg_max hdr_base status_base] in *.

(** What the request path reads and the ISR needs besides descriptors. *)
Definition rest (d : vioblk_device) :=
  (requests d, status_bytes d, interrupt_status d,
   used_idx (vq d), used_ring (vq d), last_used_idx (vq d)).

Section Chain.
Variable chain : list Z.
Variable total : Z.
Hypothesis Hrange : forall k, 0 <= k < total -> 0 <= at_ chain k 0 < VIOBLK_DESC_COUNT.
Hypothesis Hinj : forall k k', 0 <= k < total -> 0 <= k' < total ->
  at_ chain k 0 = at_ chain k' 0 -> k = k'.

Lemma fill_data_spec (flags max_seg num : Z) :
  total = num + 2 ->
  forall todo j d ptr rem,
    Z.of_nat todo = num + 1 - j -> 1 <= j ->
    length (desc (vq d)) = 8%nat -> length (desc_free d) = 8%nat ->
    let d' := fill_data d chain flags max_seg num total j ptr rem todo in
    rest d' = rest d /\
    length (desc (vq d')) = 8%nat /\ length (desc_free d') = 8%nat /\
    (forall k, j <= k <= num ->
       d_flags (at_ (desc (vq d')) (at_ chain k 0) null_desc)
         = Z.lor flags VIRTQ_DESC_F_NEXT /\
       d_next (at_ (desc (vq d')) (at_ chain k 0) null_desc) = at_ chain (k + 1) 0 /\
       at_ (desc_free d') (at_ chain k 0) 0 = 0) /\
    (forall i, 0 <= i -> (forall k, j <= k <= num -> i <> at_ chain k 0) ->
       at_ (desc (vq d')) i null_desc = at_ (desc (vq d)) i null_desc /\
       at_ (desc_free d') i 0 = at_ (desc_free d) i 0).
Proof.
  intros Htot. induction todo as [|todo IH]; intros j d ptr rem Htodo Hj Hl1 Hl2.
  - cbn. split; [done|]. split; [done|]. split; [done|]. split; [intros; lia | done].
  - cbn [fill_data]. cbn zeta.
    set (idx := at_ chain j 0).
    set (seg := wrap32 (if max_seg <? rem then max_seg else rem)).
    set (e := mk_desc ptr seg _ _).
    set (d1 := set_desc (mark_desc d idx 0) idx e).
    assert (Hidx : 0 <= idx < VIOBLK_DESC_COUNT) by (apply Hrange; lia).
    unfold VIOBLK_DESC_COUNT in Hidx.
    assert (Hl1' : length (desc (vq d1)) = 8%nat).
    { subst d1. cbn. now rewrite length_insert. }
    assert (Hl2' : length (desc_free d1) = 8%nat).
    { subst d1. cbn. now rewrite length_insert. }
    destruct (IH (j + 1) d1 (wrap64 (ptr + seg)) (rem - seg)
                ltac:(lia) ltac:(lia) Hl1' Hl2') as (Hr & Ha & Hb & Hin & Hout).
    split; [now rewrite Hr|]. split; [done|]. split; [done|].
    assert (Hat1 : at_ (desc (vq d1)) idx null_desc = e).
    { subst d1. cbn. apply at_insert_eq. lia. }
    assert (Hat2 : at_ (desc_free d1) idx 0 = 0).
    { subst d1. cbn. apply at_insert_eq. lia. }
    assert (Hnext : d_next e = at_ chain (j + 1) 0).
    { subst e. cbn [d_next]. destruct (j <? num) eqn:E; [done|].
      apply Z.ltb_ge in E. f_equal. lia. }
    split.
    + intros k Hk. destruct (Z.eq_dec k j) as [->|Hne].
      * destruct (Hout idx ltac:(lia)) as [H1 H2].
        { intros k Hk' Heq. apply Hinj in Heq; lia. }
        fold idx. rewrite H1, H2, Hat1, Hat2, <- Hnext. done.
      * apply Hin. lia.
    + intros i Hi Hne.
      destruct (Hout i Hi) as [H1 H2]; [intros k Hk; apply Hne; lia|].
      rewrite H1, H2. subst d1. devsimp.
      assert (i <> idx) by (apply Hne; lia).
      rewrite !at_insert_ne by lia. done.
Qed.

(** The ISR's walk along a chain whose descriptors are linked in the
    order of [chain]: it marks them free and changes nothing else. *)
Lemma free_chain_spec (descs : list virtq_desc) :
  (forall k, 0 <= k < total - 1 ->
     Z.land (d_flags (at_ descs (at_ chain k 0) null_desc)) VIRTQ_DESC_F_NEXT <> 0 /\
     wrap16 (d_next (at_ descs (at_ chain k 0) null_desc)) = at_ chain (k + 1) 0) ->
  Z.land (d_flags (at_ descs (at_ chain (total - 1) 0) null_desc)) VIRTQ_DESC_F_NEXT = 0 ->
  forall fuel k d,
    desc (vq d) = descs -> length (desc_free d) = 8%nat ->
    0 <= k < total -> total - k <= Z.of_nat fuel ->
    exists f,
      free_chain d (at_ chain k 0) fuel = set_desc_free d f /\ length f = 8%nat /\
      (forall k', k <= k' < total -> at_ f (at_ chain k' 0) 0 = 1) /\
      (forall i, 0 <= i -> (forall k', k <= k' < total -> i <> at_ chain k' 0) ->
         at_ f i 0 = at_ (desc_free d) i 0).
Proof.
  intros Hlink Hlast.
  induction fuel as [|fuel IH]; intros k d Hd Hl Hk Hfuel; [lia|].
  cbn [free_chain]. cbn zeta.
  set (c := at_ chain k 0).
  assert (Hc : 0 <= c < VIOBLK_DESC_COUNT) by (apply Hrange; lia).
  unfold VIOBLK_DESC_COUNT in Hc.
  set (d1 := mark_desc d c 1).
  assert (Hd1 : desc (vq d1) = descs) by done.
  assert (Hl1 : length (desc_free d1) = 8%nat).
  { subst d1. cbn. now rewrite length_insert. }
  assert (Hc1 : at_ (desc_free d1) c 0 = 1).
  { subst d1. cbn. apply at_insert_eq. lia. }
  rewrite Hd1.
  destruct (Z.eq_dec k (total - 1)) as [Ek|Ek].
  - subst k. subst c. rewrite Hlast. cbn [Z.eqb].
    exists (desc_free d1). split; [done|]. split; [done|]. split.
    + intros k' Hk'. assert (k' = total - 1) as -> by lia. done.
    + intros i Hi Hne. subst d1. devsimp. apply at_insert_ne; try lia.
      intros E. apply (Hne (total - 1)); [lia | done].
  - destruct (Hlink k ltac:(lia)) as [Hn Hnx]. fold c in Hn, Hnx.
    rewrite (proj2 (Z.eqb_neq _ _) Hn), Hnx.
    destruct (IH (k + 1) d1 Hd1 Hl1 ltac:(lia) ltac:(lia)) as (f & Hf & Hlf & Hin & Hout).
    exists f. split; [now rewrite Hf|]. split; [done|]. split.
    + intros k' Hk'. destruct (Z.eq_dec k' k) as [->|Hne]; [|apply Hin; lia].
      fold c. rewrite Hout; [done | lia |].
      intros k' Hk'' E. subst c. apply Hinj in E; lia.
    + intros i Hi Hne. rewrite Hout; [|done|intros k' Hk'; apply Hne; lia].
      subst d1. devsimp. apply at_insert_ne; try lia.
      intros E. apply (Hne k); [lia | done].
Qed.

End Chain.

Lemma next_bit_set (f : Z) : Z.land (Z.lor f VIRTQ_DESC_F_NEXT) VIRTQ_DESC_F_NEXT <> 0.
Proof.
  unfold VIRTQ_DESC_F_NEXT. rewrite Z.land_lor_distr_l. change (Z.land 1 1) with 1.
  change 1 with (Z.ones 1) at 1. rewrite Z.land_ones by lia.
  assert (H : f mod 2 ^ 1 = 0 \/ f mod 2 ^ 1 = 1)
    by (pose proof (Z.mod_pos_bound f (2 ^ 1)); lia).
  destruct H as [-> | ->]; done.
Qed.

Lemma isr_loop_S (d : vioblk_device) (fuel : nat) :
  isr_loop d (S fuel) =
  let q := vq d in
  if used_idx q =? last_used_idx q then d
  else
    let e := at_ (used_ring q) (last_used_idx q mod VIOBLK_DESC_COUNT) (0, 0) in
    let desc_idx := wrap16 (fst e) in
    let len := wrap16 (snd e) in
    let d1 := set_requests d
                (<[Z.to_nat desc_idx :=
                     mk_req 0 len (at_ (status_bytes d) desc_idx 0)]> (requests d)) in
    let d2 := free_chain d1 desc_idx (Z.to_nat VIOBLK_DESC_COUNT) in
    let q2 := vq d2 in
    isr_loop (set_vq d2 (mk_vq (desc q2) (avail_idx q2) (avail_ring q2)
                               (used_idx q2) (used_ring q2)
                               (wrap16 (last_used_idx q2 + 1))))
             fuel.
Proof.
  cbn [isr_loop]. cbn zeta. destruct (used_idx (vq d) =? last_used_idx (vq d)); [done|].
  now destruct (at_ (used_ring (vq d)) (last_used_idx (vq d) mod VIOBLK_DESC_COUNT) (0, 0)).
Qed.

(** The segment size and the number of descriptors of a request, as
    the request path computes them. *)
Definition max_seg_of (d : vioblk_device) (len : Z) : Z :=
  if seg_max d =? 0 then wrap32 len else seg_max d.
Definition descs_needed (d : vioblk_device) (len : Z) : Z :=
  1 + to_int ((len + max_seg_of d len - 1) / max_seg_of d len) + 1.

(** The driver's tables have [VIOBLK_DESC_COUNT] entries and no
    completion is waiting for the ISR. *)
Definition dev_ok (d : vioblk_device) : Prop :=
  length (desc (vq d)) = 8%nat /\ length (desc_free d) = 8%nat /\
  length (requests d) = 8%nat /\ length (status_bytes d) = 8%nat /\
  length (used_ring (vq d)) = 8%nat /\
  0 <= used_idx (vq d) < 2 ^ 16 /\ last_used_idx (vq d) = used_idx (vq d).

Lemma submit_effect (type flags : Z) (d : vioblk_device) (pos buf len slot : Z)
    (d1 : vioblk_device) :
  dev_ok d ->
  0 <= seg_max d < 2 ^ 32 -> len < 2 ^ 31 ->
  wrap64 (pos / blk_size d + len / blk_size d) <= capacity d ->
  submit type flags d pos buf len = (IoWaiting slot, d1) ->
  let total := descs_needed d len in
  let chain := collect_free (desc_free d) 0 total [] in
  3 <= total /\ Z.of_nat (length chain) = total /\ NoDup chain /\
  slot = at_ chain 0 0 /\
  (forall c, c ∈ chain -> 0 <= c < VIOBLK_DESC_COUNT /\ at_ (desc_free d) c 0 <> 0) /\
  dev_ok d1 /\
  requests d1 = <[Z.to_nat slot := mk_req 1 0 0xFF]> (requests d) /\
  status_bytes d1 = status_bytes d /\ used_idx (vq d1) = used_idx (vq d) /\
  used_ring (vq d1) = used_ring (vq d) /\
  (forall k, 0 <= k < total - 1 ->
     Z.land (d_flags (at_ (desc (vq d1)) (at_ chain k 0) null_desc)) VIRTQ_DESC_F_NEXT <> 0 /\
     wrap16 (d_next (at_ (desc (vq d1)) (at_ chain k 0) null_desc)) = at_ chain (k + 1) 0) /\
  Z.land (d_flags (at_ (desc (vq d1)) (at_ chain (total - 1) 0) null_desc))
         VIRTQ_DESC_F_NEXT = 0 /\
  (forall i, 0 <= i ->
     at_ (desc_free d1) i 0 = if bool_decide (i ∈ chain) then 0 else at_ (desc_free d) i 0).
Proof.
  intros (L1 & L2 & L3 & L4 & L5 & Hu & Hlast) Hseg Hlen Hcap Hsub total chain.
  unfold submit in Hsub.
  destruct ((buf =? 0) || (len <=? 0)) eqn:E1; [done|].
  apply orb_false_iff in E1 as [_ E1%Z.leb_gt].
  destruct (negb (pos mod blk_size d =? 0) || negb (len mod blk_size d =? 0)); [done|].
  destruct (wrap64 (capacity d * blk_size d) <? pos); [done|].
  rewrite (proj2 (Z.ltb_ge _ _) Hcap) in Hsub.
  fold (max_seg_of d len) in Hsub. cbn zeta in Hsub.
  fold (descs_needed d len) in Hsub.
  set (m := max_seg_of d len) in *.
  set (num := to_int ((len + m - 1) / m)) in *.
  fold total in Hsub. fold chain in Hsub.
  assert (Hm : 0 < m < 2 ^ 32).
  { subst m. unfold max_seg_of. destruct (seg_max d =? 0) eqn:E; [|apply Z.eqb_neq in E; lia].
    rewrite wrap32_small; lia. }
  assert (Hnum : 1 <= num <= len).
  { subst num. rewrite to_int_small.
    - split.
      + apply Z.div_le_lower_bound; lia.
      + apply Z.div_le_upper_bound; nia.
    - split.
      + transitivity 0; [lia|]. apply Z.div_pos; lia.
      + apply Z.div_lt_upper_bound; nia. }
  assert (Htot : total = num + 2) by (subst total; unfold descs_needed; fold m; fold num; lia).
  clearbody total.
  destruct (Z.of_nat (length chain) <? total) eqn:Ech; [done|].
  apply Z.ltb_ge in Ech.
  destruct (collect_free_spec (desc_free d) 0 total [] ltac:(lia))
    as (extra & Hex & Hall & Hnd & Hle).
  cbn [app length] in Hex, Hle. fold chain in Hex. rewrite <- Hex in *. clear extra Hex.
  clearbody chain.
  assert (Hlc : Z.of_nat (length chain) = total) by lia.
  rewrite Forall_forall in Hall.
  assert (Hmem : forall k, 0 <= k < total -> at_ chain k 0 ∈ chain).
  { intros k Hk. apply list_elem_of_In. apply nth_In. lia. }
  assert (Hrange : forall k, 0 <= k < total -> 0 <= at_ chain k 0 < VIOBLK_DESC_COUNT).
  { intros k Hk. destruct (Hall _ (Hmem k Hk)). lia. }
  assert (Hinj : forall k k', 0 <= k < total -> 0 <= k' < total ->
            at_ chain k 0 = at_ chain k' 0 -> k = k').
  { intros k k' Hk Hk' E. apply NoDup_ListNoDup in Hnd.
    pose proof (proj1 (NoDup_nth chain 0) Hnd (Z.to_nat k) (Z.to_nat k')
                  ltac:(lia) ltac:(lia) E). lia. }
  assert (Hfind : forall i, i ∈ chain -> exists k, 0 <= k < total /\ i = at_ chain k 0).
  { intros i Hi. apply list_elem_of_In in Hi. apply (In_nth _ _ 0) in Hi as (n & Hn & <-).
    exists (Z.of_nat n). split; [lia|]. unfold at_. now rewrite Nat2Z.id. }
  set (slot0 := at_ chain 0 0) in *.
  set (d2 := set_reqhdrs (set_requests d _) _) in Hsub.
  set (hd := if 1 <? total then _ else _) in Hsub.
  set (d3 := set_desc (mark_desc d2 slot0 0) slot0 hd) in Hsub.
  set (d4 := fill_data d3 chain flags m num total 1 buf len (Z.to_nat num)) in Hsub.
  set (stat := at_ chain (total - 1) 0) in *.
  set (sd := mk_desc (status_base d + slot0) 1 VIRTQ_DESC_F_WRITE 0) in Hsub.
  set (d5 := set_desc (mark_desc d4 stat 0) stat sd) in Hsub.
  injection Hsub as Hslot Hd1. subst slot.
  assert (Hs0 : 0 <= slot0 < 8) by (apply Hrange; lia).
  assert (Hst : 0 <= stat < 8) by (apply Hrange; lia).
  assert (L13 : length (desc (vq d3)) = 8%nat).
  { subst d3 d2. devsimp. now rewrite length_insert. }
  assert (L23 : length (desc_free d3) = 8%nat).
  { subst d3 d2. devsimp. now rewrite length_insert. }
  destruct (fill_data_spec chain total Hrange Hinj flags m num Htot (Z.to_nat num) 1 d3
              buf len ltac:(lia) ltac:(lia) L13 L23) as (Hr4 & L14 & L24 & Hin4 & Hout4).
  fold d4 in Hr4, L14, L24, Hin4, Hout4.
  unfold rest in Hr4. injection Hr4 as Rq Rs Ri Ru Rr Rl.
  assert (Hhd : hd = mk_desc (hdr_base d + 16 * slot0) 16 VIRTQ_DESC_F_NEXT (at_ chain 1 0)).
  { subst hd. now rewrite (proj2 (Z.ltb_lt 1 total)) by lia. }
  assert (Hw16 : forall k, 0 <= k < total -> wrap16 (at_ chain k 0) = at_ chain k 0).
  { intros k Hk. unfold wrap16. pose proof (Hrange k Hk). unfold VIOBLK_DESC_COUNT in *.
    rewrite Z.mod_small; lia. }
  assert (Hne0 : forall k, 1 <= k < total -> slot0 <> at_ chain k 0).
  { intros k Hk E. apply Hinj in E; lia. }
  assert (Hnes : forall k, 0 <= k < total - 1 -> stat <> at_ chain k 0).
  { intros k Hk E. apply Hinj in E; lia. }
  subst d1 d5. split; [lia|]. split; [done|]. split; [done|]. split; [done|].
  split.
  { intros c Hc. destruct (Hall c Hc) as (Hc1 & _ & Hc3).
    rewrite Z.sub_0_r in Hc3. split; [lia | exact Hc3]. }
  split.
  { unfold dev_ok. devsimp. rewrite !length_insert, Rq, Rs, Ru, Rr, Rl.
    subst d3 d2. devsimp. rewrite !length_insert. done. }
  split; [devsimp; rewrite Rq; subst d3 d2; now devsimp|].
  split; [devsimp; rewrite Rs; subst d3 d2; now devsimp|].
  split; [devsimp; rewrite Ru; subst d3 d2; now devsimp|].
  split; [devsimp; rewrite Rr; subst d3 d2; now devsimp|].
  split; [|split].
  - intros k Hk. devsimp. pose proof (Hrange k ltac:(lia)) as Hck.
    rewrite at_insert_ne by (try lia; apply Hnes; lia).
    destruct (Z.eq_dec k 0) as [->|Hk0].
    + fold slot0. destruct (Hout4 slot0 ltac:(lia)) as [H1 _].
      { intros k' Hk'. apply Hne0. lia. }
      rewrite H1. subst d3 d2. devsimp. rewrite at_insert_eq by lia.
      rewrite Hhd. cbn [d_flags d_next]. split; [done|]. apply Hw16. lia.
    + destruct (Hin4 k ltac:(lia)) as (H1 & H2 & _).
      rewrite H1, H2. split; [apply next_bit_set | apply Hw16; lia].
  - devsimp. fold stat. rewrite at_insert_eq by lia. reflexivity.
  - intros i Hi. devsimp. case_bool_decide as Hin.
    + destruct (Hfind i Hin) as (k & Hk & ->).
      destruct (Z.eq_dec k (total - 1)) as [->|Hkl].
      { fold stat. rewrite at_insert_eq by lia. done. }
      pose proof (Hrange k ltac:(lia)) as Hck.
      rewrite at_insert_ne by (try lia; apply Hnes; lia).
      destruct (Z.eq_dec k 0) as [->|Hk0].
      * fold slot0. destruct (Hout4 slot0 ltac:(lia)) as [_ H2].
        { intros k' Hk'. apply Hne0. lia. }
        rewrite H2. subst d3 d2. devsimp. now rewrite at_insert_eq by lia.
      * now destruct (Hin4 k ltac:(lia)) as (_ & _ & H3).
    + assert (Hni : forall k, 0 <= k < total -> i <> at_ chain k 0).
      { intros k Hk ->. apply Hin, Hmem, Hk. }
      rewrite at_insert_ne by (try lia; apply not_eq_sym, Hni; lia).
      destruct (Hout4 i Hi) as [_ H2]; [intros k Hk; apply Hni; lia|].
      rewrite H2. subst d3 d2. devsimp.
      rewrite at_insert_ne by (try lia; apply not_eq_sym, Hni; lia). done.
Qed.

(** Descriptors are taken and given back.  A request accepted by
    [vioblk_readat] or [vioblk_writeat] (both are [submit]) that lies
    within the device takes the lowest free descriptors, one for the
    header, one per data segment and one for the status byte, and waits;
    when the device has completed it and [vioblk_isr] has run, exactly
    these descriptors are free again, every other descriptor is as
    before, and the waiting call returns: the write path the 16-bit used
    length, the read path that length less one. *)
Theorem request_descriptors_return (type flags : Z) (d : vioblk_device)
    (pos buf len slot : Z) (d1 : vioblk_device) (n st : Z) :
  dev_ok d ->
  0 <= seg_max d < 2 ^ 32 -> len < 2 ^ 31 ->
  wrap64 (pos / blk_size d + len / blk_size d) <= capacity d ->
  submit type flags d pos buf len = (IoWaiting slot, d1) ->
  let chain := collect_free (desc_free d) 0 (descs_needed d len) [] in
  let d2 := vioblk_isr (device_completes d1 slot n st) in
  3 <= descs_needed d len /\ Z.of_nat (length chain) = descs_needed d len /\
  NoDup chain /\ head chain = Some slot /\
  (forall c, c ∈ chain -> 0 <= c < VIOBLK_DESC_COUNT /\ at_ (desc_free d) c 0 <> 0) /\
  (forall i, 0 <= i ->
     at_ (desc_free d1) i 0 = if bool_decide (i ∈ chain) then 0 else at_ (desc_free d) i 0) /\
  vioblk_readat_resume d1 slot = IoWaiting slot /\
  vioblk_writeat_resume d1 slot = IoWaiting slot /\
  (forall i, 0 <= i ->
     at_ (desc_free d2) i 0 = if bool_decide (i ∈ chain) then 1 else at_ (desc_free d) i 0) /\
  vioblk_readat_resume d2 slot = IoRet (wrap16 n - 1) /\
  vioblk_writeat_resume d2 slot = IoRet (wrap16 n) /\
  dev_ok d2 /\ interrupt_status d2 = 0.
Proof.
  intros Hok Hseg Hlen Hcap Hsub.
  destruct (submit_effect type flags d pos buf len slot d1 Hok Hseg Hlen Hcap Hsub)
    as (Ht & Hlc & Hnd & Hslot & Hfree & Hok1 & Hrq & Hsb & Hui & Hur & Hlink & Hend & Hdf).
  destruct Hok as (L1 & L2 & L3 & L4 & L5 & Hu & Hlast).
  destruct Hok1 as (M1 & M2 & M3 & M4 & M5 & Hu1 & Hlast1).
  set (total := descs_needed d len) in *.
  set (chain := collect_free (desc_free d) 0 total []) in *.
  intros chain' d2. subst chain'.
  assert (Hmem : forall k, 0 <= k < total -> at_ chain k 0 ∈ chain).
  { intros k Hk. apply list_elem_of_In. apply nth_In. lia. }
  assert (Hrange : forall k, 0 <= k < total -> 0 <= at_ chain k 0 < VIOBLK_DESC_COUNT).
  { intros k Hk. now destruct (Hfree _ (Hmem k Hk)). }
  assert (Hinj : forall k k', 0 <= k < total -> 0 <= k' < total ->
            at_ chain k 0 = at_ chain k' 0 -> k = k').
  { intros k k' Hk Hk' E. pose proof (proj1 (NoDup_ListNoDup _) Hnd) as Hnd'.
    pose proof (proj1 (NoDup_nth chain 0) Hnd' (Z.to_nat k) (Z.to_nat k')
                  ltac:(lia) ltac:(lia) E). lia. }
  assert (Hfind : forall i, i ∈ chain -> exists k, 0 <= k < total /\ i = at_ chain k 0).
  { intros i Hi. apply list_elem_of_In in Hi. apply (In_nth _ _ 0) in Hi as (j & Hj & <-).
    exists (Z.of_nat j). split; [lia|]. unfold at_. now rewrite Nat2Z.id. }
  assert (Hs : 0 <= slot < 8) by (rewrite Hslot; apply Hrange; lia).
  assert (Hw1 : at_ (requests d1) slot (mk_req 0 0 0) = mk_req 1 0 0xFF).
  { rewrite Hrq. apply at_insert_eq. lia. }
  assert (Htot8 : total <= 8).
  { pose proof (proj1 (NoDup_ListNoDup _) Hnd) as Hnd'.
    pose proof (NoDup_incl_length (l' := [0; 1; 2; 3; 4; 5; 6; 7]) Hnd') as Hle.
    cbn [length] in Hle. cut (length chain <= 8)%nat; [lia|]. apply Hle.
    intros c Hc. apply list_elem_of_In in Hc. destruct (Hfree c Hc) as [Hc8 _].
    unfold VIOBLK_DESC_COUNT in Hc8.
    assert (c = 0 \/ c = 1 \/ c = 2 \/ c = 3 \/ c = 4 \/ c = 5 \/ c = 6 \/ c = 7)
      as Hcase by lia.
    cbn [In]. intuition. }
  set (u := used_idx (vq d1)) in *.
  set (dc := device_completes d1 slot n st).
  assert (Hd2 : exists f,
            d2 = set_interrupt_status
                   (set_vq (set_desc_free
                              (set_requests dc
                                 (<[Z.to_nat slot := mk_req 0 (wrap16 n) st]> (requests d1))) f)
                      (mk_vq (desc (vq d1)) (avail_idx (vq d1)) (avail_ring (vq d1))
                             (wrap16 (u + 1)) (<[Z.to_nat (u mod VIOBLK_DESC_COUNT) := (slot, n)]>
                                                 (used_ring (vq d1)))
                             (wrap16 (u + 1)))) 0 /\
            length f = 8%nat /\
            (forall k, 0 <= k < total -> at_ f (at_ chain k 0) 0 = 1) /\
            (forall i, 0 <= i -> (forall k, 0 <= k < total -> i <> at_ chain k 0) ->
               at_ f i 0 = at_ (desc_free d1) i 0)).
  { subst d2. fold dc. unfold vioblk_isr.
    assert (Hi1 : interrupt_status dc = 1) by done.
    rewrite Hi1. cbn [Z.eqb].
    change (2 ^ 16) with 65536.
    replace (Z.to_nat 65536) with (S (S (Z.to_nat 65534))) by lia.
    rewrite isr_loop_S. cbn zeta.
    assert (Hq1 : used_idx (vq dc) = wrap16 (u + 1)) by done.
    assert (Hq2 : last_used_idx (vq dc) = u) by (subst dc u; cbn; lia).
    assert (Hq3 : used_ring (vq dc)
                  = <[Z.to_nat (u mod VIOBLK_DESC_COUNT) := (slot, n)]> (used_ring (vq d1)))
      by done.
    rewrite Hq1, Hq2, Hq3.
    assert (Hneq : wrap16 (u + 1) <> u).
    { unfold wrap16. destruct (Z.eq_dec u 65535) as [->|]; [done|].
      rewrite Z.mod_small; lia. }
    rewrite (proj2 (Z.eqb_neq _ _) Hneq).
    rewrite at_insert_eq
      by (rewrite M5; unfold VIOBLK_DESC_COUNT; pose proof (Z.mod_pos_bound u 8); lia).
    cbn [fst snd].
    assert (Hws : wrap16 slot = slot) by (unfold wrap16; rewrite Z.mod_small; lia).
    rewrite Hws.
    assert (Hsb1 : at_ (status_bytes dc) slot 0 = st).
    { subst dc. unfold device_completes. devsimp. apply at_insert_eq. lia. }
    rewrite Hsb1.
    assert (Hrq1 : requests dc = requests d1) by done.
    rewrite Hrq1.
    set (dr := set_requests dc _).
    destruct (free_chain_spec chain total Hrange Hinj (desc (vq d1)) Hlink Hend
                (Z.to_nat VIOBLK_DESC_COUNT) 0 dr eq_refl M2 ltac:(lia)
                ltac:(unfold VIOBLK_DESC_COUNT; lia))
      as (f & Hf & Hlf & Hin & Hout).
    rewrite <- Hslot in Hf. rewrite Hf.
    rewrite isr_loop_S. cbn zeta. subst dr dc. unfold device_completes. devsimp.
    rewrite Hlast1, Z.eqb_refl.
    exists f. split; [reflexivity|]. split; [done|]. split; [done|]. exact Hout. }
  destruct Hd2 as (f & Hd2 & Hlf & Hin & Hout).
  assert (Hr2 : at_ (requests d2) slot (mk_req 0 0 0) = mk_req 0 (wrap16 n) st).
  { rewrite Hd2. devsimp. apply at_insert_eq. lia. }
  split; [done|]. split; [done|]. split; [done|].
  split.
  { destruct chain as [|c0 more]; [cbn [length] in Hlc; lia|]. cbn. now rewrite Hslot. }
  split; [done|]. split; [done|].
  split; [unfold vioblk_readat_resume; now rewrite Hw1|].
  split; [unfold vioblk_writeat_resume; now rewrite Hw1|].
  split.
  { intros i Hi. rewrite Hd2. devsimp. case_bool_decide as Hic.
    - destruct (Hfind i Hic) as (k & Hk & ->). now apply Hin.
    - rewrite Hout; [|done|intros k Hk ->; apply Hic, Hmem, Hk].
      rewrite (Hdf i Hi). now rewrite bool_decide_eq_false_2. }
  split; [unfold vioblk_readat_resume; now rewrite Hr2|].
  split; [unfold vioblk_writeat_resume; now rewrite Hr2|].
  split; [|now rewrite Hd2].
  rewrite Hd2. unfold dev_ok. subst dc. unfold device_completes. devsimp.
  rewrite !length_insert.
  repeat split; try done.
  - unfold wrap16. pose proof (Z.mod_pos_bound (u + 1) (2 ^ 16)). lia.
  - unfold wrap16. pose proof (Z.mod_pos_bound (u + 1) (2 ^ 16)). lia.
Qed.

(** Two requests on the freshly attached device. *)
Lemma attached_ok : dev_ok attached.
Proof. unfold dev_ok. cbn. repeat split; lia. Qed.

Definition sample_waiting : vioblk_device :=
  snd (vioblk_readat attached 512 0x80200000 1024).

Lemma request_descriptors_return_witness :
  vioblk_readat attached 512 0x80200000 1024 = (IoWaiting 0, sample_waiting) /\
  desc_free sample_waiting = [0; 0; 0; 1; 1; 1; 1; 1] /\
  vioblk_readat_resume sample_waiting 0 = IoWaiting 0 /\
  (forall i, 0 <= i ->
     at_ (desc_free (vioblk_isr (device_completes sample_waiting 0 1025 0))) i 0
     = if bool_decide (i ∈ [0; 1; 2]) then 1 else at_ (desc_free attached) i 0) /\
  vioblk_readat_resume (vioblk_isr (device_completes sample_waiting 0 1025 0)) 0
  = IoRet 1024.
Proof.
  assert (Hsub : vioblk_readat attached 512 0x80200000 1024 = (IoWaiting 0, sample_waiting))
    by (vm_compute; reflexivity).
  pose proof (request_descriptors_return VIRTIO_BLK_T_IN VIRTQ_DESC_F_WRITE attached
                512 0x80200000 1024 0 sample_waiting 1025 0 attached_ok
                ltac:(cbn; lia) ltac:(lia) ltac:(vm_compute; discriminate) Hsub) as H.
  cbn zeta in H.
  destruct H as (_ & _ & _ & _ & _ & _ & Hw & _ & Hfree & Hrd & _).
  split; [exact Hsub|]. split; [vm_compute; reflexivity|].
  split; [exact Hw|]. split; [exact Hfree | exact Hrd].
Defined.

End Vioblk.

(** * The sleep list (timer.c) *)
Module Timer.

Definition UINT64_MAX : Z := 2 ^ 64 - 1.
Definition TIMER_FREQ : Z := 10000000.

(** [struct alarm]: the alarm is known by its address (which is also
    the address of its condition); [next] is the rest of the list it
    heads. *)
Record alarm := mk_alarm { addr : Z; twake : Z }.

(** [sleep_list], the timer compare register, the timer interrupt
    enable bit of [sie], and the conditions broadcast so far. *)
Record timer := mk_timer {
  sleep_list : list alarm;
  stcmp : Z;
  stie : bool;
  woken : list Z
}.

(** [alarm_init] *)
Definition alarm_init (a now : Z) : alarm := mk_alarm a now.

(** The insertion loop of [alarm_sleep]:
    [while ( *curr && ( *curr)->twake < al->twake) curr = &( *curr)->next;] *)
Fixpoint insert_alarm (al : alarm) (l : list alarm) : list alarm :=
  match l with
  | [] => [al]
  | a :: rest =>
      if twake a <? twake al then a :: insert_alarm al rest else al :: l
  end.

Inductive sleep_result :=
| Returned (al : alarm) (t : timer)   (* no sleep *)
| Sleeping (al : alarm) (t : timer).  (* in [condition_wait] on the alarm *)

(** [alarm_sleep], up to its [condition_wait]; [now] is [rdtime()]. *)
Definition alarm_sleep (al : alarm) (tcnt now : Z) (t : timer) : sleep_result :=
  if tcnt =? 0 then Returned al t
  else
    let al :=
      mk_alarm (addr al)
        (if UINT64_MAX - twake al <? tcnt then UINT64_MAX
         else twake al + tcnt) in
    if twake al <? now then Returned al t
    else
      let l := insert_alarm al (sleep_list t) in
      let cmp :=
        match l with
        | a :: _ =>
            if (addr a =? addr al) || (twake al <? twake a)
            then twake al else stcmp t
        | [] => stcmp t
        end in
      Sleeping al (mk_timer l cmp (stie t) (woken t)).

(** The rest of [alarm_sleep], once the thread runs again. *)
Definition alarm_wakeup (t : timer) : timer :=
  mk_timer (sleep_list t) (stcmp t) true (woken t).

Definition alarm_sleep_us (al : alarm) (us now : Z) (t : timer) : sleep_result :=
  alarm_sleep al (wrap64 (us * (TIMER_FREQ / 1000 / 1000))) now t.

Definition sleep_us (a us now : Z) (t : timer) : sleep_result :=
  alarm_sleep_us (alarm_init a now) us now t.

(** The loop of [handle_timer_interrupt]. *)
Fixpoint wake_due (now : Z) (l : list alarm) (w : list Z) : list alarm * list Z :=
  match l with
  | a :: rest =>
      if twake a <=? now then wake_due now rest (w ++ [addr a]) else (l, w)
  | [] => ([], w)
  end.

(** [handle_timer_interrupt]; [now] is [rdtime()]. *)
Definition handle_timer_interrupt (now : Z) (t : timer) : timer :=
  match sleep_list t with
  | [] => t
  | _ =>
      let '(rest, w) := wake_due now (sleep_list t) (woken t) in
      match rest with
      | a :: _ => mk_timer rest (twake a) (stie t) w
      | [] => mk_timer rest UINT64_MAX false w
      end
  end.

(** *** The list stays in order *)

(** The sleep list in wake-up order. *)
Fixpoint ordered (l : list alarm) : Prop :=
  match l with
  | [] => True
  | a :: rest => (forall b, b ∈ rest -> twake a <= twake b) /\ ordered rest
  end.

(** The compare register holds the first wake-up time. *)
Definition armed (t : timer) : Prop :=
  ordered (sleep_list t) /\
  match sleep_list t with
  | a :: _ => stcmp t = twake a
  | [] => True
  end.

Lemma insert_alarm_split al l :
  ordered l ->
  exists l1 l2, l = l1 ++ l2 /\ insert_alarm al l = l1 ++ al :: l2 /\
    (forall a, a ∈ l1 -> twake a < twake al) /\
    (forall a, a ∈ l2 -> twake al <= twake a).
Proof.
  induction l as [|a rest IH]; cbn [insert_alarm ordered].
  - intros _. exists [], []. repeat split; intros a []%elem_of_nil.
  - intros [Hhd Htl]. destruct (twake a <? twake al) eqn:E.
    + apply Z.ltb_lt in E. destruct (IH Htl) as (l1 & l2 & -> & -> & H1 & H2).
      exists (a :: l1), l2. repeat split; [|done].
      intros b [->|Hb]%elem_of_cons; auto.
    + apply Z.ltb_ge in E. exists [], (a :: rest). repeat split.
      * intros b []%elem_of_nil.
      * intros b [->|Hb]%elem_of_cons; [done|]. specialize (Hhd b Hb). lia.
Qed.

Lemma ordered_insert al l1 l2 :
  ordered (l1 ++ l2) ->
  (forall a, a ∈ l1 -> twake a < twake al) ->
  (forall a, a ∈ l2 -> twake al <= twake a) ->
  ordered (l1 ++ al :: l2).
Proof.
  induction l1 as [|a l1 IH]; cbn [app ordered]; intros Ho H1 H2.
  - split; [done|done].
  - destruct Ho as [Hhd Htl]. split.
    + intros b [Hb|[->|Hb]%elem_of_cons]%elem_of_app.
      * apply Hhd. apply elem_of_app. now left.
      * assert (twake a < twake al) by (apply H1; now left). lia.
      * apply Hhd. apply elem_of_app. now right.
    + apply IH; [done| |done]. intros b Hb. apply H1. now right.
Qed.

Lemma wake_due_spec now l : forall w,
  ordered l ->
  wake_due now l w
  = (filter (fun a => now < twake a) l,
     w ++ map addr (filter (fun a => twake a <= now) l)).
Proof.
  induction l as [|a rest IH]; intros w; cbn [wake_due ordered].
  - intros _. now rewrite app_nil_r.
  - intros [Hhd Htl]. rewrite !filter_cons. destruct (twake a <=? now) eqn:E.
    + apply Z.leb_le in E. rewrite decide_False by lia. rewrite decide_True by done.
      rewrite IH by done. cbn [map]. now rewrite <- app_assoc.
    + apply Z.leb_gt in E. rewrite decide_True by done. rewrite decide_False by lia.
      assert (Hall : Forall (fun b => now < twake b) rest).
      { apply Forall_forall. intros b Hb. specialize (Hhd b Hb). lia. }
      f_equal.
      * f_equal. symmetry. clear -Hall. induction Hall as [|b r Hb _ IHr]; [done|].
        rewrite filter_cons, decide_True by done. now f_equal.
      * clear -Hall. induction Hall as [|b r Hb _ IHr]; [now rewrite app_nil_r|].
        rewrite filter_cons, decide_False by lia. done.
Qed.

Lemma ordered_filter (P : alarm -> Prop) `{Hdec : !forall a, Decision (P a)} l :
  ordered l -> ordered (filter P l).
Proof.
  induction l as [|a rest IH]; [done|]. intros [Hhd Htl]. rewrite filter_cons.
  destruct (decide (P a)); [|auto]. split; [|auto].
  intros b Hb. apply Hhd. apply list_elem_of_filter in Hb. tauto.
Qed.

(** The sleep list is kept in wake-up order, and the timer interrupt
    wakes what is due: [alarm_sleep] moves the wake-up time on by [tcnt]
    ticks (stopping at [UINT64_MAX]) and, unless that time is past, puts
    the alarm behind the alarms that wake earlier and in front of the
    others; [handle_timer_interrupt] broadcasts the conditions of exactly
    the alarms whose time has come, in list order, keeps the others, and
    leaves the compare register at the first wake-up time left, or at
    [UINT64_MAX] with the timer interrupt disabled when none is. *)
Theorem sleep_list_in_order (t : timer) (now : Z) :
  armed t ->
  (forall al tcnt,
     0 <= twake al <= UINT64_MAX -> 0 < tcnt <= UINT64_MAX ->
     addr al ∉ map addr (sleep_list t) ->
     let al' := mk_alarm (addr al) (Z.min UINT64_MAX (twake al + tcnt)) in
     (twake al' < now -> alarm_sleep al tcnt now t = Returned al' t) /\
     (now <= twake al' ->
        exists l1 l2 t',
          alarm_sleep al tcnt now t = Sleeping al' t' /\
          sleep_list t = l1 ++ l2 /\ sleep_list t' = l1 ++ al' :: l2 /\
          (forall a, a ∈ l1 -> twake a < twake al') /\
          (forall a, a ∈ l2 -> twake al' <= twake a) /\
          armed t' /\ woken t' = woken t /\ stie t' = stie t)) /\
  let t' := handle_timer_interrupt now t in
  woken t' = woken t ++ map addr (filter (fun a => twake a <= now) (sleep_list t)) /\
  sleep_list t' = filter (fun a => now < twake a) (sleep_list t) /\
  armed t' /\
  (sleep_list t <> [] -> sleep_list t' = [] ->
     stcmp t' = UINT64_MAX /\ stie t' = false).
Proof.
  intros [Hord Hcmp]. split.
  - intros al tcnt Htw Htc Hnew al'.
    assert (Hal : mk_alarm (addr al)
              (if UINT64_MAX - twake al <? tcnt then UINT64_MAX else twake al + tcnt)
            = al').
    { subst al'. f_equal. destruct (UINT64_MAX - twake al <? tcnt) eqn:E.
      - apply Z.ltb_lt in E. lia.
      - apply Z.ltb_ge in E. lia. }
    unfold alarm_sleep. rewrite (proj2 (Z.eqb_neq tcnt 0)) by lia. rewrite Hal.
    split.
    + intros Hpast. now rewrite (proj2 (Z.ltb_lt _ _) Hpast).
    + intros Hfut. rewrite (proj2 (Z.ltb_ge _ _) Hfut).
      destruct (insert_alarm_split al' (sleep_list t) Hord) as (l1 & l2 & E & Ei & H1 & H2).
      eexists l1, l2, _. split; [reflexivity|]. cbn [sleep_list woken stie stcmp].
      split; [done|]. split; [done|]. split; [done|]. split; [done|].
      split; [|done]. split.
      * rewrite Ei. apply ordered_insert; [now rewrite <- E|done|done].
      * rewrite Ei. destruct l1 as [|a l1]; cbn [app].
        -- now rewrite Z.eqb_refl.
        -- rewrite E in Hcmp. cbn [app] in Hcmp.
           assert (Ha : twake a < twake al') by (apply H1; now left).
           rewrite (proj2 (Z.ltb_ge _ _)) by lia.
           assert (Hne : addr a <> addr al).
           { intros Heq. apply Hnew. rewrite E. cbn [app map].
             rewrite <- Heq. now left. }
           change (addr al') with (addr al).
           rewrite (proj2 (Z.eqb_neq _ _) Hne). done.
  - intros t'. subst t'. unfold handle_timer_interrupt.
    destruct (sleep_list t) as [|a0 l0] eqn:El.
    { rewrite !filter_nil. cbn [map]. rewrite app_nil_r.
      split; [done|]. split; [done|]. split; [|done].
      split; rewrite El; done. }
    rewrite <- El in *. rewrite (wake_due_spec now _ _ Hord).
    pose proof (ordered_filter (fun a => now < twake a) _ Hord) as Hof.
    destruct (filter (fun a => now < twake a) (sleep_list t)) as [|a rest] eqn:Ef;
      cbn [sleep_list woken stcmp stie].
    + split; [done|]. split; [done|]. split; [|done]. split; done.
    + split; [done|]. split; [done|]. split; [|intros _ [=]]. split; done.
Qed.

Definition sample_timer : timer :=
  mk_timer [mk_alarm 0x100 50; mk_alarm 0x200 70; mk_alarm 0x300 70] 50 true [].

Lemma sample_timer_armed : armed sample_timer.
Proof.
  split; [|done]. cbn. repeat split; try done.
  - intros b [->|[->|[]%elem_of_nil]%elem_of_cons]%elem_of_cons; cbn; lia.
  - intros b [->|[]%elem_of_nil]%elem_of_cons; cbn; lia.
  - intros b []%elem_of_nil.
Qed.

Lemma sleep_list_in_order_witness :
  woken (handle_timer_interrupt 60 sample_timer) = [0x100] /\
  sleep_list (handle_timer_interrupt 60 sample_timer)
  = [mk_alarm 0x200 70; mk_alarm 0x300 70].
Proof.
  destruct (sleep_list_in_order sample_timer 60 sample_timer_armed) as (_ & Hw & Hl & _).
  split; [exact Hw | exact Hl].
Defined.

(** Sleeping until tick 70 with two alarms already set for tick 70:
    the new alarm goes in front of them. *)
Example equal_times_newest_first :
  alarm_sleep (mk_alarm 0x400 60) 10 55 sample_timer
  = Sleeping (mk_alarm 0x400 70)
      (mk_timer [mk_alarm 0x100 50; mk_alarm 0x400 70; mk_alarm 0x200 70;
                 mk_alarm 0x300 70] 50 true []).
Proof. reflexivity. Qed.

End Timer.

(** * Strings (string.c) *)
Module Str.

(** A [char *] is the list of the bytes from the pointer on; past the
    end of the list the memory reads as the terminator.  [char] is
    unsigned on this target, so a byte is in 0 .. 255. *)
Definition peek (s : list Z) : Z := hd 0 s.

(** The string a pointer denotes: the bytes before the first NUL. *)
Fixpoint cstring (s : list Z) : list Z :=
  match s with
  | [] => []
  | c :: r => if c =? 0 then [] else c :: cstring r
  end.

Definition bytes (s : list Z) : Prop := Forall (fun c => 0 <= c < 256) s.

(** The loop and the tail of [strcmp]. *)
Fixpoint strcmp_loop (s1 s2 : list Z) : Z :=
  match s1 with
  | c1 :: r1 =>
      if (c1 =? peek s2) && negb (c1 =? 0) then strcmp_loop r1 (tl s2)
      else if c1 <? peek s2 then -1
      else if peek s2 <? c1 then 1
      else 0
  | [] =>
      if 0 <? peek s2 then -1
      else if peek s2 <? 0 then 1
      else 0
  end.

(** [strcmp]; [None] is the NULL pointer. *)
Definition strcmp (s1 s2 : option (list Z)) : Z :=
  match s1, s2 with
  | None, None => 0
  | None, Some _ => -1
  | Some _, None => 1
  | Some a, Some b => strcmp_loop a b
  end.

(** [strncmp]: [n] counts down from a [size_t]; the result is the
    difference of the two bytes as [unsigned int], returned as [int]. *)
Fixpoint strncmp (s1 s2 : list Z) (n : nat) {struct n} : Z :=
  match n with
  | O => 0
  | S m =>
      match s1 with
      | c1 :: r1 =>
          if negb (c1 =? 0) && (c1 =? peek s2) then strncmp r1 (tl s2) m
          else to_int (wrap32 (wrap32 c1 - wrap32 (peek s2)))
      | [] => to_int (wrap32 (wrap32 0 - wrap32 (peek s2)))
      end
  end.

(** [strlen] *)
Fixpoint strlen_loop (s : list Z) : Z :=
  match s with
  | c :: r => if c =? 0 then 0 else 1 + strlen_loop r
  | [] => 0
  end.

Definition strlen (s : option (list Z)) : Z :=
  match s with
  | None => 0
  | Some l => strlen_loop l
  end.

(** [strncpy]: the bytes at [dst] after the call.  No padding, and no
    terminator when [src] has [n] bytes or more before its NUL. *)
Fixpoint strncpy (dst src : list Z) (n : nat) {struct n} : list Z :=
  match n with
  | O => dst
  | S m =>
      if peek src =? 0 then 0 :: tl dst
      else peek src :: strncpy (tl dst) (tl src) m
  end.

(** [strtoul]: the value and, for [endptr], the text left.  [None] for
    [endptr] is the NULL stored there. *)
Fixpoint strtoul_loop (str : list Z) (base val : Z) : Z * list Z :=
  match str with
  | c :: r =>
      if (c <? 48) || (48 + base <=? c) then (val, str)
      else strtoul_loop r base (wrap64 (wrap64 (val * base) + (c - 48)))
  | [] => (val, str)
  end.

Definition strtoul (str : option (list Z)) (base : Z) : Z * option (list Z) :=
  match str with
  | None => (wrap64 (-1), None)
  | Some s =>
      if (base <=? 1) || (10 <? base) then (wrap64 (-1), None)
      else
        let '(neg, s) :=
          if peek s =? 45 then (true, tl s)
          else if peek s =? 43 then (false, tl s)
          else (false, s) in
        let '(val, rest) := strtoul_loop s base 0 in
        (if neg then wrap64 (- val) else val, Some rest)
  end.

(** The digit loop of [format_int]: [buf] has 40 bytes, and [room] of
    them are still free in front of the digits written; with none left
    the next digit would go in front of the buffer ([None]). *)
Fixpoint format_digits (room : nat) (val base : Z) (acc : list Z) : option (list Z) :=
  match room with
  | O => None
  | S room' =>
      let d := to_int (wrap32 (val mod base)) in
      let val' := val / base in
      let acc' := ((if d <? 10 then 48 + d else 97 + d - 10) mod 256) :: acc in
      if val' =? 0 then Some acc' else format_digits room' val' base acc'
  end.

(** The padding loop of [format_int]; [n] is the number of digits. *)
Fixpoint format_pad (fuel : nat) (n len : Z) (zpad : bool) : list Z :=
  match fuel with
  | O => []
  | S fuel' =>
      if n <? len then (if zpad then 48 else 32) :: format_pad fuel' n (len - 1) zpad
      else []
  end.

(** [format_int]: the characters handed to [putcfn], in order; [nout]
    is their number.  A zero [base] is a division by zero. *)
Definition format_int (val base : Z) (zpad : bool) (len : Z) : option (list Z) :=
  if base =? 0 then None
  else
    match format_digits 40 val base [] with
    | None => None
    | Some digits =>
        Some (format_pad (Z.to_nat len) (Z.of_nat (length digits)) len zpad ++ digits)
    end.

(** [vsnprintf_putc] on [struct vsnprintf_state]: the bytes stored so
    far and [rem]. *)
Definition vsnprintf_putc (c : Z) (st : list Z * Z) : list Z * Z :=
  let '(out, rem) := st in
  if rem <=? 1 then st else (out ++ [c], rem - 1).

(** [vsnprintf], for the characters [vgprintf] puts out: what is stored
    in [buf] and the returned count. *)
Definition vsnprintf (bufsz : Z) (chars : list Z) : list Z * Z :=
  let '(out, rem) := fold_left (fun st c => vsnprintf_putc c st) chars ([], bufsz) in
  (if rem =? 0 then out else out ++ [0], Z.of_nat (length chars)).

(** *** What the comparisons tell *)

Lemma strcmp_loop_zero a : forall b, strcmp_loop a b = 0 <-> cstring a = cstring b.
Proof.
  induction a as [|c1 r1 IH]; intros b; cbn [strcmp_loop cstring].
  - destruct b as [|c2 r2]; cbn [peek hd cstring]; [done|].
    destruct (c2 =? 0) eqn:E0.
    + apply Z.eqb_eq in E0. subst. done.
    + apply Z.eqb_neq in E0.
      destruct (0 <? c2) eqn:E1; [done|]. apply Z.ltb_ge in E1.
      destruct (c2 <? 0) eqn:E2; [done|]. apply Z.ltb_ge in E2. lia.
  - destruct (c1 =? peek b) eqn:E; cbn [andb].
    + apply Z.eqb_eq in E. destruct (c1 =? 0) eqn:E0; cbn [negb].
      * apply Z.eqb_eq in E0.
        assert (Hb : cstring b = []).
        { destruct b as [|c2 r2]; cbn [cstring peek hd] in *; [done|].
          now rewrite (proj2 (Z.eqb_eq c2 0)) by lia. }
        rewrite Hb, <- E, Z.ltb_irrefl. done.
      * apply Z.eqb_neq in E0. destruct b as [|c2 r2]; cbn [peek hd tl] in *; [lia|].
        subst c2. cbn [cstring]. rewrite (proj2 (Z.eqb_neq _ _) E0).
        rewrite IH. split; [now intros -> | now intros [= ->]].
    + apply Z.eqb_neq in E.
      assert (Hne : (if c1 =? 0 then [] else c1 :: cstring r1) <> cstring b).
      { destruct b as [|c2 r2]; cbn [peek hd cstring] in *.
        - now rewrite (proj2 (Z.eqb_neq _ _) E).
        - destruct (c1 =? 0) eqn:E1.
          + apply Z.eqb_eq in E1. subst. now rewrite (proj2 (Z.eqb_neq c2 0)) by lia.
          + destruct (c2 =? 0); [done|]. intros [= H _]. done. }
      destruct (c1 <? peek b) eqn:E1; [done|]. apply Z.ltb_ge in E1.
      destruct (peek b <? c1) eqn:E2; [done|]. apply Z.ltb_ge in E2. lia.
Qed.

Lemma strcmp_loop_anti a : forall b, strcmp_loop a b = - strcmp_loop b a.
Proof.
  induction a as [|c1 r1 IH]; intros b.
  - destruct b as [|c2 r2]; cbn [strcmp_loop peek hd]; [done|].
    destruct (c2 =? 0) eqn:E0; cbn [andb].
    + apply Z.eqb_eq in E0. subst. done.
    + apply Z.eqb_neq in E0. destruct (0 <? c2) eqn:E1, (c2 <? 0) eqn:E2; try done; lia.
  - destruct b as [|c2 r2]; cbn [strcmp_loop peek hd tl].
    + destruct (c1 =? 0) eqn:E0; cbn [andb negb].
      * apply Z.eqb_eq in E0. subst. done.
      * apply Z.eqb_neq in E0. destruct (c1 <? 0) eqn:E1, (0 <? c1) eqn:E2; try done; lia.
    + rewrite (Z.eqb_sym c2 c1). destruct (c1 =? c2) eqn:E; cbn [andb].
      * apply Z.eqb_eq in E. subst c2. destruct (c1 =? 0); cbn [negb]; [|apply IH].
        rewrite Z.ltb_irrefl. done.
      * apply Z.eqb_neq in E. destruct (c1 <? c2) eqn:E1, (c2 <? c1) eqn:E2; try done; lia.
Qed.

Lemma byte_diff_zero c1 c2 :
  0 <= c1 < 256 -> 0 <= c2 < 256 ->
  to_int (wrap32 (wrap32 c1 - wrap32 c2)) = 0 <-> c1 = c2.
Proof.
  intros H1 H2. rewrite !(wrap32_small c1), !(wrap32_small c2) by lia.
  unfold to_int, wrap32. split; [|intros ->; now rewrite Z.sub_diag].
  intros H. change (2 ^ 32) with 4294967296 in *. change (2 ^ 31) with 2147483648 in *.
  Z.div_mod_to_equations. lia.
Qed.

Lemma strncmp_zero n : forall a b,
  bytes a -> bytes b ->
  strncmp a b n = 0 <-> take n (cstring a) = take n (cstring b).
Proof.
  induction n as [|n IH]; intros a b Ha Hb; cbn [strncmp]; [now rewrite !take_0|].
  destruct a as [|c1 r1]; cbn [cstring].
  - destruct b as [|c2 r2]; cbn [peek hd cstring]; [done|].
    apply Forall_cons in Hb as [Hc2 Hb]. rewrite (byte_diff_zero 0 c2) by lia.
    destruct (c2 =? 0) eqn:E; [apply Z.eqb_eq in E; subst; done|].
    apply Z.eqb_neq in E. cbn. split; [lia | done].
  - apply Forall_cons in Ha as [Hc1 Ha].
    destruct b as [|c2 r2]; cbn [peek hd tl cstring].
    + destruct (c1 =? 0) eqn:E; cbn [negb andb].
      * apply Z.eqb_eq in E. subst. done.
      * apply Z.eqb_neq in E.
        rewrite (byte_diff_zero c1 0) by lia. cbn. split; [lia | done].
    + apply Forall_cons in Hb as [Hc2 Hb].
      destruct (c1 =? 0) eqn:E0; cbn [negb andb].
      * apply Z.eqb_eq in E0. subst c1. rewrite (byte_diff_zero 0 c2) by lia.
        destruct (c2 =? 0) eqn:E; [apply Z.eqb_eq in E; subst; done|].
        apply Z.eqb_neq in E. cbn. split; [lia | done].
      * destruct (c1 =? c2) eqn:E.
        -- apply Z.eqb_eq in E. subst c2. rewrite E0. cbn [take].
           rewrite (IH r1 r2 Ha Hb). split; [now intros -> | now intros [= ->]].
        -- apply Z.eqb_neq in E. rewrite (byte_diff_zero c1 c2) by lia.
           destruct (c2 =? 0); cbn [take]; split; try done; intros [= H]; done.
Qed.

(** [strcmp] and [strncmp] return 0 exactly for equal strings:
    [strcmp] when the bytes before the two terminators are the same,
    [strncmp] when the first [n] of them are (a string shorter than [n]
    only equals a string of its own length); [strcmp] changes sign when
    its arguments are swapped, and orders the NULL pointer before any
    string. *)
Theorem string_compare_zero_iff_equal (a b : list Z) (n : nat) :
  (strcmp (Some a) (Some b) = 0 <-> cstring a = cstring b) /\
  strcmp (Some a) (Some b) = - strcmp (Some b) (Some a) /\
  strcmp None (Some b) = -1 /\ strcmp (Some a) None = 1 /\ strcmp None None = 0 /\
  (bytes a -> bytes b ->
   (strncmp a b n = 0 <-> take n (cstring a) = take n (cstring b))).
Proof.
  split; [apply strcmp_loop_zero|]. split; [apply strcmp_loop_anti|].
  split; [done|]. split; [done|]. split; [done|]. apply strncmp_zero.
Qed.

(** *** Printing a number and reading it back *)

Lemma strtoul_loop_stop rest base v :
  peek rest < 48 \/ 48 + base <= peek rest -> strtoul_loop rest base v = (v, rest).
Proof.
  destruct rest as [|c r]; cbn [strtoul_loop peek hd]; [done|]. intros H.
  destruct (c <? 48) eqn:E1; [done|]. apply Z.ltb_ge in E1.
  destruct (48 + base <=? c) eqn:E2; [done|]. apply Z.leb_gt in E2. lia.
Qed.

Lemma strtoul_loop_digit d tail v :
  0 <= d < 10 -> 0 <= v -> v * 10 + d < 2 ^ 64 ->
  strtoul_loop ((48 + d) :: tail) 10 v = strtoul_loop tail 10 (v * 10 + d).
Proof.
  intros Hd Hv Hb. cbn [strtoul_loop].
  rewrite (proj2 (Z.ltb_ge _ _)) by lia. rewrite (proj2 (Z.leb_gt _ _)) by lia.
  cbn [orb]. replace (48 + d - 48) with d by lia.
  rewrite (wrap64_small (v * 10)) by lia. now rewrite wrap64_small by lia.
Qed.

Lemma format_digits_decimal room : forall val acc,
  (0 < room)%nat -> 0 <= val < 10 ^ Z.of_nat room ->
  exists ds,
    format_digits room val 10 acc = Some (ds ++ acc) /\
    (0 < length ds <= room)%nat /\
    48 <= peek ds < 58 /\
    forall v0 tail, 0 <= v0 -> v0 * 10 ^ Z.of_nat (length ds) + val < 2 ^ 64 ->
      strtoul_loop (ds ++ tail) 10 v0
      = strtoul_loop tail 10 (v0 * 10 ^ Z.of_nat (length ds) + val).
Proof.
  induction room as [|room IH]; intros val acc Hroom Hval; [lia|].
  cbn [format_digits]. clear Hroom.
  {
    assert (Hd : 0 <= val mod 10 < 10) by (apply Z.mod_pos_bound; lia).
    assert (Hdiv : 0 <= val / 10) by (apply Z.div_pos; lia).
    assert (Hdm : val = 10 * (val / 10) + val mod 10) by (apply Z.div_mod; lia).
    rewrite wrap32_small by lia. rewrite to_int_small by lia.
    rewrite (proj2 (Z.ltb_lt _ _)) by lia. rewrite (Z.mod_small (48 + _)) by lia.
    destruct (val / 10 =? 0) eqn:E.
    + apply Z.eqb_eq in E. exists [48 + val mod 10]. split; [done|].
      split; [cbn; lia|]. split; [cbn; lia|].
      intros v0 tail Hv0 Hb. cbn [length app] in *. change (10 ^ Z.of_nat 1) with 10 in *.
      rewrite strtoul_loop_digit by lia. f_equal. lia.
    + apply Z.eqb_neq in E.
      assert (Hlt : val / 10 < 10 ^ Z.of_nat room).
      { apply Z.div_lt_upper_bound; [lia|].
        rewrite Nat2Z.inj_succ, Z.pow_succ_r in Hval by lia. lia. }
      assert (Hroom : (0 < room)%nat).
      { destruct room; [|lia]. change (10 ^ Z.of_nat 0) with 1 in Hlt. lia. }
      destruct (IH (val / 10) ((48 + val mod 10) :: acc) Hroom ltac:(lia))
        as (ds & -> & Hlen & Hhd & Hread).
      exists (ds ++ [48 + val mod 10]). split; [now rewrite <- app_assoc|].
      split; [rewrite length_app; cbn; lia|]. split.
      { destruct ds; cbn in *; [lia | done]. }
      intros v0 tail Hv0 Hb. rewrite length_app in *. cbn [length] in *.
      replace (Z.of_nat (length ds + 1)) with (Z.succ (Z.of_nat (length ds))) in * by lia.
      rewrite Z.pow_succ_r in * by lia.
      assert (Hp : 0 < 10 ^ Z.of_nat (length ds)) by (apply Z.pow_pos_nonneg; lia).
      rewrite <- app_assoc. cbn [app]. rewrite Hread by nia.
      rewrite strtoul_loop_digit by nia. f_equal. nia. }
Qed.

Lemma format_pad_zeros fuel : forall n len tail,
  strtoul_loop (format_pad fuel n len true ++ tail) 10 0 = strtoul_loop tail 10 0.
Proof.
  induction fuel as [|fuel IH]; intros n len tail; cbn [format_pad]; [done|].
  destruct (n <? len); [|done]. cbn [app].
  change 48 with (48 + 0). rewrite strtoul_loop_digit by lia. apply IH.
Qed.

Lemma format_pad_length fuel : forall n len zpad,
  Z.of_nat fuel = Z.max 0 len ->
  Z.of_nat (length (format_pad fuel n len zpad)) = Z.max 0 (len - Z.max 0 n) /\
  forall c, c ∈ format_pad fuel n len zpad -> c = if zpad then 48 else 32.
Proof.
  induction fuel as [|fuel IH]; intros n len zpad Hf; cbn [format_pad].
  - split; [cbn; lia | intros c []%elem_of_nil].
  - destruct (n <? len) eqn:E.
    + apply Z.ltb_lt in E. destruct (IH n (len - 1) zpad ltac:(lia)) as [Hl Hc].
      split; [cbn [length]; lia|]. intros c [->|Hin]%elem_of_cons; auto.
    + apply Z.ltb_ge in E. split; [cbn; lia | intros c []%elem_of_nil].
Qed.

(** A number printed in decimal is read back by [strtoul]: for every
    64-bit [v], [format_int] in base 10 fits its 40-byte buffer and puts
    out at least [len] and at least one character, and [strtoul] in
    base 10 on that text, zero-padded or not padded at all, followed by
    anything that is not a digit, returns [v] and stops right behind
    it. *)
Theorem strtoul_reads_format_int (v len : Z) (zpad : bool) (rest : list Z) :
  0 <= v < 2 ^ 64 -> 0 <= len < 2 ^ 32 ->
  peek rest < 48 \/ 58 <= peek rest ->
  exists out,
    format_int v 10 zpad len = Some out /\
    Z.max 1 len <= Z.of_nat (length out) <= Z.max 20 len /\
    (zpad = true \/ len <= 1 -> strtoul (Some (out ++ rest)) 10 = (v, Some rest)).
Proof.
  intros Hv Hlen Hrest. unfold format_int. cbn [Z.eqb].
  destruct (format_digits_decimal 40 v [] ltac:(lia) ltac:(cbn; lia)) as (ds & Hfmt & Hds & Hhd & Hread).
  rewrite app_nil_r in Hfmt. rewrite Hfmt.
  assert (Hshort : (length ds <= 20)%nat).
  { destruct (format_digits_decimal 20 v [] ltac:(lia) ltac:(cbn; lia)) as (ds' & Hfmt' & Hds' & _).
    rewrite app_nil_r in Hfmt'.
    assert (Hsame : forall a b x acc r, format_digits a x 10 acc = Some r ->
              format_digits (a + b) x 10 acc = Some r).
    { clear. intros a b. induction a as [|a IH]; intros x acc r; [done|].
      cbn [format_digits Nat.add].
      destruct (x / 10 =? 0); [done | apply IH]. }
    apply (Hsame 20%nat 20%nat v) in Hfmt'. cbn [Nat.add] in Hfmt'.
    rewrite Hfmt in Hfmt'. injection Hfmt' as ->. lia. }
  destruct (format_pad_length (Z.to_nat len) (Z.of_nat (length ds)) len zpad ltac:(lia))
    as [Hpl Hpc].
  eexists. split; [reflexivity|]. split; [rewrite length_app; lia|].
  intros Hz. unfold strtoul. cbn [Z.leb Z.ltb orb Z.compare].
  set (pad := format_pad (Z.to_nat len) (Z.of_nat (length ds)) len zpad) in *.
  assert (Hfirst : 48 <= peek ((pad ++ ds) ++ rest) < 58).
  { destruct pad as [|c pad'] eqn:Ep.
    - destruct ds; cbn in *; [lia | done].
    - cbn [app peek hd]. rewrite (Hpc c ltac:(now left)).
      destruct Hz as [->|Hz]; [lia|]. cbn [length] in Hpl. lia. }
  rewrite (proj2 (Z.eqb_neq _ 45)) by lia. rewrite (proj2 (Z.eqb_neq _ 43)) by lia.
  assert (Hloop : strtoul_loop ((pad ++ ds) ++ rest) 10 0 = (v, rest)).
  { rewrite <- app_assoc.
    assert (Hp : strtoul_loop (pad ++ ds ++ rest) 10 0 = strtoul_loop (ds ++ rest) 10 0).
    { destruct Hz as [->|Hz]; [apply format_pad_zeros|].
      destruct pad; [done|]. cbn [length] in Hpl. lia. }
    rewrite Hp, Hread by lia. rewrite Z.mul_0_l, Z.add_0_l.
    apply strtoul_loop_stop. lia. }
  now rewrite Hloop.
Qed.

Lemma strtoul_reads_format_int_witness :
  exists out,
    format_int 1234 10 true 6 = Some out /\
    Z.max 1 6 <= Z.of_nat (length out) <= Z.max 20 6 /\
    (true = true \/ 6 <= 1 -> strtoul (Some (out ++ [32; 49])) 10 = (1234, Some [32; 49])).
Proof.
  apply (strtoul_reads_format_int 1234 6 true [32; 49]); [lia | lia | left; cbn; lia].
Defined.

(** ["%6lu"] pads with blanks, which [strtoul] does not skip. *)
Example blank_padding_reads_as_zero :
  format_int 1234 10 false 6 = Some [32; 32; 49; 50; 51; 52] /\
  strtoul (Some [32; 32; 49; 50; 51; 52]) 10 = (0, Some [32; 32; 49; 50; 51; 52]).
Proof. split; reflexivity. Qed.

(** In base 2 a number of more than 40 bits does not fit the buffer. *)
Example binary_overflows_buffer : format_int (2 ^ 40) 2 false 0 = None.
Proof. reflexivity. Qed.

(** *** Copies into a buffer *)

Lemma strlen_cstring s : strlen_loop s = Z.of_nat (length (cstring s)).
Proof.
  induction s as [|c r IH]; cbn [strlen_loop cstring]; [done|].
  destruct (c =? 0); [done|]. cbn [length]. lia.
Qed.

Lemma cstring_nonzero s c : c ∈ cstring s -> c <> 0.
Proof.
  induction s as [|a r IH]; cbn [cstring]; [now intros ?%elem_of_nil|].
  destruct (a =? 0) eqn:E; [now intros ?%elem_of_nil|]. apply Z.eqb_neq in E.
  intros [->|H]%elem_of_cons; auto.
Qed.

Lemma cstring_app_nul s t : (forall c, c ∈ s -> c <> 0) -> cstring (s ++ 0 :: t) = s.
Proof.
  induction s as [|a r IH]; intros H; cbn [app cstring]; [done|].
  rewrite (proj2 (Z.eqb_neq a 0)) by (apply H; now left).
  f_equal. apply IH. intros c Hc. apply H. now right.
Qed.

Lemma strncpy_spec n : forall dst src,
  (n <= length dst)%nat ->
  let k := Nat.min n (length (cstring src)) in
  strncpy dst src n
  = take k (cstring src) ++ (if (k <? n)%nat then 0 :: drop (S k) dst else drop k dst).
Proof.
  induction n as [|n IH]; intros dst src Hn k; subst k; cbn [strncpy].
  - cbn. now rewrite drop_0.
  - destruct dst as [|d dst']; cbn [length] in Hn; [lia|].
    destruct src as [|c src']; cbn [peek hd tl cstring length].
    + cbn. now rewrite drop_0.
    + destruct (c =? 0) eqn:E; cbn [length Nat.min].
      * cbn. now rewrite drop_0.
      * pose proof (IH dst' src' ltac:(lia)) as H. cbn zeta in H. rewrite H.
        cbn [take app drop]. reflexivity.
Qed.

(** [strncpy] copies the string but only ends it when there is room:
    it stores the first [min n (strlen src)] bytes of [src], then one NUL
    if [src] is shorter than [n], and nothing more (no padding), so that
    [dst] holds the same string as [src] when [strlen src < n] and is
    left without a terminator of its own otherwise; [strlen] is the
    number of bytes before the NUL (0 for the NULL pointer). *)
Theorem strncpy_ends_only_with_room (dst src : list Z) (n : nat) :
  (n <= length dst)%nat ->
  let k := Nat.min n (length (cstring src)) in
  strncpy dst src n
  = take k (cstring src) ++ (if (k <? n)%nat then 0 :: drop (S k) dst else drop k dst) /\
  length (strncpy dst src n) = length dst /\
  (Z.of_nat (length (cstring src)) < Z.of_nat n ->
     cstring (strncpy dst src n) = cstring src) /\
  (Z.of_nat n <= Z.of_nat (length (cstring src)) ->
     strncpy dst src n = take n (cstring src) ++ drop n dst) /\
  strlen (Some src) = Z.of_nat (length (cstring src)) /\ strlen None = 0.
Proof.
  intros Hn k. pose proof (strncpy_spec n dst src Hn) as Hs. cbn zeta in Hs. fold k in Hs.
  split; [exact Hs|]. split.
  { rewrite Hs, length_app, length_take. subst k.
    destruct (Nat.min n (length (cstring src)) <? n)%nat eqn:E.
    - apply Nat.ltb_lt in E. cbn [length]. rewrite length_drop. lia.
    - apply Nat.ltb_ge in E. rewrite length_drop. lia. }
  split.
  { intros Hlt. rewrite Hs. subst k. rewrite Nat.min_r by lia.
    rewrite (proj2 (Nat.ltb_lt _ _)) by lia. rewrite take_ge by lia.
    apply cstring_app_nul. intros c. apply cstring_nonzero. }
  split.
  { intros Hge. rewrite Hs. subst k. rewrite Nat.min_l by lia.
    now rewrite Nat.ltb_irrefl. }
  split; [apply strlen_cstring | done].
Qed.

Lemma strncpy_ends_only_with_room_witness :
  strncpy [1; 2; 3; 4; 5; 6] [104; 105] 2 = [104; 105; 3; 4; 5; 6] /\
  strncpy [1; 2; 3; 4; 5; 6] [104; 105] 4 = [104; 105; 0; 4; 5; 6].
Proof.
  split.
  - exact (proj1 (proj2 (proj2 (proj2
      (strncpy_ends_only_with_room [1; 2; 3; 4; 5; 6] [104; 105] 2 ltac:(cbn; lia)))))
      ltac:(cbn; lia)).
  - exact (proj1 (strncpy_ends_only_with_room [1; 2; 3; 4; 5; 6] [104; 105] 4
      ltac:(cbn; lia))).
Defined.

Lemma vsnprintf_fold chars : forall out rem,
  0 <= rem ->
  fold_left (fun st c => vsnprintf_putc c st) chars (out, rem)
  = (out ++ take (Z.to_nat (rem - 1)) chars,
     if rem =? 0 then 0 else Z.max 1 (rem - Z.of_nat (length chars))).
Proof.
  induction chars as [|c r IH]; intros out rem Hrem; cbn [fold_left length].
  - rewrite take_nil, app_nil_r. f_equal. destruct (rem =? 0) eqn:E; lia.
  - cbn [vsnprintf_putc]. destruct (rem <=? 1) eqn:E.
    + apply Z.leb_le in E. rewrite IH by lia.
      replace (Z.to_nat (rem - 1)) with 0%nat by lia. rewrite !take_0. f_equal.
      destruct (rem =? 0) eqn:E0; [done|]. apply Z.eqb_neq in E0. lia.
    + apply Z.leb_gt in E. rewrite IH by lia.
      replace (Z.to_nat (rem - 1)) with (S (Z.to_nat (rem - 1 - 1))) by lia.
      cbn [take]. rewrite <- app_assoc. cbn [app]. f_equal.
      rewrite (proj2 (Z.eqb_neq (rem - 1) 0)) by lia.
      rewrite (proj2 (Z.eqb_neq rem 0)) by lia. lia.
Qed.

(** [vsnprintf] stays inside the buffer and always ends the string:
    of the characters put out it stores the first [bufsz - 1] followed
    by a NUL, so at most [bufsz] bytes, and nothing at all for
    [bufsz = 0]; the count it returns is that of all the characters,
    stored or not. *)
Theorem vsnprintf_stays_in_buffer (bufsz : Z) (chars : list Z) :
  0 <= bufsz ->
  vsnprintf bufsz chars
  = (if bufsz =? 0 then [] else take (Z.to_nat (bufsz - 1)) chars ++ [0],
     Z.of_nat (length chars)) /\
  Z.of_nat (length (fst (vsnprintf bufsz chars))) <= bufsz.
Proof.
  intros Hb. unfold vsnprintf. rewrite vsnprintf_fold by done. cbn [app].
  destruct (bufsz =? 0) eqn:E.
  - apply Z.eqb_eq in E. rewrite Z.eqb_refl.
    replace (Z.to_nat (bufsz - 1)) with 0%nat by lia. rewrite take_0.
    split; [done | cbn; lia].
  - apply Z.eqb_neq in E. rewrite (proj2 (Z.eqb_neq (Z.max 1 _) 0)) by lia.
    split; [done|]. cbn [fst]. rewrite length_app, length_take. cbn [length]. lia.
Qed.

Lemma vsnprintf_stays_in_buffer_witness :
  vsnprintf 4 [104; 101; 108; 108; 111] = ([104; 101; 108; 0], 5).
Proof.
  exact (proj1 (vsnprintf_stays_in_buffer 4 [104; 101; 108; 108; 111] ltac:(lia))).
Defined.

End Str.

(** * The device table (device.c) *)
Module Device.

Definition NDEV : Z := 16.
Definition INT_MAX : Z := 2 ^ 31 - 1.

(** One entry of [devtab]; a free entry (NULL [name]) is [None].  The
    open function is known by its address, [None] for NULL. *)
Record device := mk_device { name : list Z; openfn : option Z; aux : Z }.

Definition devtab := list (option device).

(** The loop of [register_device] from entry [i] on; [None] is the
    [panic] behind the loop. *)
Fixpoint register_loop (nm : list Z) (fn : option Z) (a : Z)
    (tab : devtab) (instno : Z) : option (Z * devtab) :=
  match tab with
  | [] => None
  | None :: rest => Some (instno, Some (mk_device nm fn a) :: rest)
  | Some d :: rest =>
      let instno :=
        if Str.strcmp (Some nm) (Some (name d)) =? 0 then instno + 1 else instno in
      match register_loop nm fn a rest instno with
      | Some (r, rest') => Some (r, Some d :: rest')
      | None => None
      end
  end.

Definition register_device (nm : list Z) (fn : option Z) (a : Z) (tab : devtab)
    : option (Z * devtab) :=
  register_loop nm fn a tab 0.

Inductive open_result :=
| OpenCall (fn a : Z)   (* the value of [openfn(ioptr, aux)] *)
| OpenErr (e : Z).

(** The loop of [open_device] from entry [i] on. *)
Fixpoint open_loop (nm : list Z) (instno : Z) (tab : devtab) (k : Z) : open_result :=
  match tab with
  | [] => OpenErr (- ENODEV)
  | None :: _ => OpenErr (- ENODEV)
  | Some d :: rest =>
      if Str.strcmp (Some nm) (Some (name d)) =? 0 then
        if k =? instno then
          match openfn d with
          | Some fn => OpenCall fn (aux d)
          | None => OpenErr (- ENOTSUP)
          end
        else open_loop nm instno rest (k + 1)
      else open_loop nm instno rest k
  end.

Definition open_device (nm : list Z) (instno : Z) (tab : devtab) : open_result :=
  open_loop nm instno tab 0.

(** The first loop of [parse_device_spec]: [p], the start of the run
    of digits the text ends with, as what is in front of it and the run
    itself; [None] for the [-EINVAL] inside the loop. *)
Fixpoint scan_spec (s : list Z) (front : list Z) (p : option (list Z * list Z))
    : option (option (list Z * list Z)) :=
  match s with
  | [] => Some p
  | c :: r =>
      if c =? 0 then Some p
      else if (48 <=? c) && (c <=? 57) then
        scan_spec r (front ++ [c])
          (match p with None => Some (front, s) | Some _ => p end)
      else if (32 <? c) && (c <? 127) then scan_spec r (front ++ [c]) None
      else None
  end.

(** [parse_device_spec]: the value returned and the string left at
    [spec]. *)
Definition parse_device_spec (spec : list Z) : Z * list Z :=
  match scan_spec spec [] None with
  | Some (Some (front, digits)) =>
      let '(ulval, end_) := Str.strtoul (Some digits) 10 in
      if (ulval <=? INT_MAX) && (Str.peek (default [] end_) =? 0)
      then (to_int (wrap32 ulval), front)
      else (- EINVAL, Str.cstring spec)
  | _ => (- EINVAL, Str.cstring spec)
  end.

(** *** Registering and opening *)

Lemma strcmp_same nm : Str.strcmp (Some nm) (Some nm) = 0.
Proof. cbn [Str.strcmp]. now apply Str.strcmp_loop_zero. Qed.

Definition found (fn : option Z) (a : Z) : open_result :=
  match fn with
  | Some f => OpenCall f a
  | None => OpenErr (- ENOTSUP)
  end.

Lemma register_loop_open nm fn a tab : forall i0 r tab',
  register_loop nm fn a tab i0 = Some (r, tab') ->
  i0 <= r /\ open_loop nm r tab' i0 = found fn a /\ length tab' = length tab.
Proof.
  induction tab as [|[d|] rest IH]; intros i0 r tab'; cbn [register_loop]; [done| |].
  - destruct (register_loop nm fn a rest _) as [[r1 rest1]|] eqn:E; [|done].
    intros [= <- <-]. apply IH in E as (Hle & Hopen & Hlen). cbn [open_loop length].
    destruct (Str.strcmp (Some nm) (Some (name d)) =? 0).
    + split; [lia|]. split; [|now rewrite Hlen].
      now rewrite (proj2 (Z.eqb_neq i0 r1)) by lia.
    + split; [done|]. split; [done | now rewrite Hlen].
  - intros [= <- <-]. split; [lia|]. split; [|done]. cbn [open_loop name openfn aux].
    now rewrite strcmp_same, !Z.eqb_refl.
Qed.

Lemma register_loop_keeps nm fn a tab : forall i0 r tab',
  register_loop nm fn a tab i0 = Some (r, tab') ->
  forall nm' inst k,
    open_loop nm' inst tab k <> OpenErr (- ENODEV) ->
    open_loop nm' inst tab' k = open_loop nm' inst tab k.
Proof.
  induction tab as [|[d|] rest IH]; intros i0 r tab'; cbn [register_loop]; [done| |].
  - destruct (register_loop nm fn a rest _) as [[r1 rest1]|] eqn:E; [|done].
    intros [= <- <-] nm' inst k. cbn [open_loop].
    destruct (Str.strcmp (Some nm') (Some (name d)) =? 0).
    + destruct (k =? inst); [done|]. now apply (IH _ _ _ E).
    + now apply (IH _ _ _ E).
  - intros [= <- <-] nm' inst k. cbn [open_loop]. done.
Qed.

Lemma register_loop_full nm fn a tab : forall i0,
  register_loop nm fn a tab i0 = None <-> Forall is_Some tab.
Proof.
  induction tab as [|[d|] rest IH]; intros i0; cbn [register_loop].
  - split; [constructor | done].
  - destruct (register_loop nm fn a rest _) as [[r1 rest1]|] eqn:E.
    + split; [done|]. intros [_ H]%Forall_cons.
      rewrite (proj2 (IH _) H) in E. done.
    + split; [|done]. intros _. constructor; [eauto|]. exact (proj1 (IH _) E).
  - split; [done|]. intros [[x Hx] _]%Forall_cons. done.
Qed.

(** A registered device is found again under the number it was given:
    [register_device] takes the first free entry and returns the number
    of devices of that name in front of it, and [open_device] with the
    name and that number calls exactly the registered open function with
    the registered [aux] ([-ENOTSUP] when the function is NULL); every
    device that could be opened before is opened the same way after; with
    no free entry [register_device] panics. *)
Theorem register_then_open (nm : list Z) (fn : option Z) (a : Z) (tab : devtab)
    (instno : Z) (tab' : devtab) :
  register_device nm fn a tab = Some (instno, tab') ->
  0 <= instno /\
  open_device nm instno tab'
  = (match fn with Some f => OpenCall f a | None => OpenErr (- ENOTSUP) end) /\
  (forall nm' k, open_device nm' k tab <> OpenErr (- ENODEV) ->
     open_device nm' k tab' = open_device nm' k tab) /\
  length tab' = length tab /\
  (forall nm2 fn2 a2 t, register_device nm2 fn2 a2 t = None <-> Forall is_Some t).
Proof.
  intros H. unfold register_device in H.
  destruct (register_loop_open _ _ _ _ _ _ _ H) as (Hle & Hopen & Hlen).
  split; [done|]. split; [exact Hopen|]. split.
  - intros nm' k. apply (register_loop_keeps _ _ _ _ _ _ _ H).
  - split; [done|]. intros nm2 fn2 a2 t. apply register_loop_full.
Qed.

Definition uart_name : list Z := [117; 97; 114; 116].
Definition rtc_name : list Z := [114; 116; 99].

Definition sample_devtab : devtab :=
  [Some (mk_device uart_name None 0); Some (mk_device rtc_name (Some 0x8000) 0x9000);
   Some (mk_device uart_name (Some 0x8100) 0x9100)] ++ replicate 13 None.

Lemma register_then_open_witness :
  open_device uart_name 2
    (<[3%nat := Some (mk_device uart_name (Some 0x8100) 0x9200)]> sample_devtab)
  = OpenCall 0x8100 0x9200.
Proof.
  exact (proj1 (proj2 (register_then_open uart_name (Some 0x8100) 0x9200
                         sample_devtab 2 _ eq_refl))).
Defined.

(** The console UART is registered without an open function. *)
Example console_cannot_be_opened :
  open_device uart_name 0 sample_devtab = OpenErr (- ENOTSUP) /\
  open_device uart_name 2 sample_devtab = OpenErr (- ENODEV).
Proof. split; reflexivity. Qed.

(** *** Device specifications *)

Definition digit (c : Z) : Prop := 48 <= c <= 57.
Definition printable (c : Z) : Prop := 32 < c < 127.

(** The number a run of digits writes. *)
Definition decimal (ds : list Z) : Z :=
  fold_left (fun v c => v * 10 + (c - 48)) ds 0.

Lemma scan_digits ds : forall front x,
  Forall digit ds -> scan_spec ds front (Some x) = Some (Some x).
Proof.
  induction ds as [|c r IH]; intros front x Hd; cbn [scan_spec]; [done|].
  apply Forall_cons in Hd as [Hc Hr]. unfold digit in Hc.
  rewrite (proj2 (Z.eqb_neq c 0)) by lia.
  rewrite (proj2 (Z.leb_le 48 c)), (proj2 (Z.leb_le c 57)) by lia. cbn [andb].
  now apply IH.
Qed.

Lemma scan_name s ds : forall front p,
  Forall printable s -> (s = [] -> p = None) ->
  (forall c, last s = Some c -> ~ digit c) ->
  ds <> [] -> Forall digit ds ->
  scan_spec (s ++ ds) front p = Some (Some (front ++ s, ds)).
Proof.
  induction s as [|c s' IH]; intros front p Hs Hp Hlast Hne Hd.
  - rewrite (Hp eq_refl), app_nil_r. cbn [app].
    destruct ds as [|d r]; [done|]. cbn [scan_spec].
    apply Forall_cons in Hd as [Hc Hr]. unfold digit in Hc.
    rewrite (proj2 (Z.eqb_neq d 0)) by lia.
    rewrite (proj2 (Z.leb_le 48 d)), (proj2 (Z.leb_le d 57)) by lia. cbn [andb].
    now apply scan_digits.
  - apply Forall_cons in Hs as [Hc Hs]. unfold printable in Hc.
    cbn [app scan_spec]. rewrite (proj2 (Z.eqb_neq c 0)) by lia.
    replace (front ++ c :: s') with ((front ++ [c]) ++ s') by now rewrite <- app_assoc.
    assert (Hlast' : forall c0, last s' = Some c0 -> ~ digit c0).
    { intros c0 H0. apply Hlast. destruct s'; [done|]. exact H0. }
    destruct ((48 <=? c) && (c <=? 57)) eqn:E.
    + apply andb_true_iff in E as [E1%Z.leb_le E2%Z.leb_le].
      apply IH; try done. intros ->. exfalso. apply (Hlast c eq_refl). unfold digit. lia.
    + rewrite (proj2 (Z.ltb_lt 32 c)), (proj2 (Z.ltb_lt c 127)) by lia. cbn [andb].
      now apply IH.
Qed.

Lemma scan_no_digits s : forall front p,
  Forall printable s -> (s = [] -> p = None) ->
  (forall c, last s = Some c -> ~ digit c) ->
  scan_spec s front p = Some None.
Proof.
  induction s as [|c s' IH]; intros front p Hs Hp Hlast.
  - now rewrite (Hp eq_refl).
  - apply Forall_cons in Hs as [Hc Hs]. unfold printable in Hc.
    cbn [scan_spec]. rewrite (proj2 (Z.eqb_neq c 0)) by lia.
    assert (Hlast' : forall c0, last s' = Some c0 -> ~ digit c0).
    { intros c0 H0. apply Hlast. destruct s'; [done|]. exact H0. }
    destruct ((48 <=? c) && (c <=? 57)) eqn:E.
    + apply andb_true_iff in E as [E1%Z.leb_le E2%Z.leb_le].
      apply IH; try done. intros ->. exfalso. apply (Hlast c eq_refl). unfold digit. lia.
    + rewrite (proj2 (Z.ltb_lt 32 c)), (proj2 (Z.ltb_lt c 127)) by lia. cbn [andb].
      now apply IH.
Qed.

Lemma decimal_from_ge ds : forall v,
  Forall digit ds -> 0 <= v -> v <= fold_left (fun v c => v * 10 + (c - 48)) ds v.
Proof.
  induction ds as [|c r IH]; intros v Hd Hv; cbn [fold_left]; [lia|].
  apply Forall_cons in Hd as [Hc Hr]. unfold digit in Hc.
  specialize (IH (v * 10 + (c - 48)) Hr ltac:(lia)). lia.
Qed.

Lemma strtoul_loop_digits ds : forall v,
  Forall digit ds -> 0 <= v ->
  fold_left (fun v c => v * 10 + (c - 48)) ds v < 2 ^ 64 ->
  Str.strtoul_loop ds 10 v = (fold_left (fun v c => v * 10 + (c - 48)) ds v, []).
Proof.
  induction ds as [|c r IH]; intros v Hd Hv Hb; cbn [fold_left Str.strtoul_loop]; [done|].
  apply Forall_cons in Hd as [Hc Hr]. unfold digit in Hc. cbn [fold_left] in Hb.
  pose proof (decimal_from_ge r (v * 10 + (c - 48)) Hr ltac:(lia)) as Hge.
  rewrite (proj2 (Z.ltb_ge c 48)) by lia. rewrite (proj2 (Z.leb_gt (48 + 10) c)) by lia.
  cbn [orb]. rewrite (wrap64_small (v * 10)) by lia. rewrite wrap64_small by lia.
  now apply IH; [|lia|].
Qed.

(** [parse_device_spec] splits a name from the number behind it: for
    printable text that does not end in a digit, followed by one or more
    digits that write a number up to [INT_MAX], it returns the number and
    cuts the string down to the text (the empty text included); a
    number above [INT_MAX] and a specification without digits at its end
    are refused with [-EINVAL], the string unchanged. *)
Theorem parse_device_spec_splits (nm ds : list Z) :
  Forall printable nm -> (forall c, last nm = Some c -> ~ digit c) ->
  Forall digit ds ->
  (ds <> [] -> decimal ds <= INT_MAX ->
     parse_device_spec (nm ++ ds) = (decimal ds, nm)) /\
  (ds <> [] -> INT_MAX < decimal ds < 2 ^ 64 ->
     parse_device_spec (nm ++ ds) = (- EINVAL, nm ++ ds)) /\
  parse_device_spec nm = (- EINVAL, nm).
Proof.
  intros Hnm Hlast Hds.
  assert (Hstr : forall s, Forall printable s -> Str.cstring s = s).
  { intros s Hs. induction Hs as [|c r Hc _ IH]; [done|]. cbn [Str.cstring].
    unfold printable in Hc. rewrite (proj2 (Z.eqb_neq c 0)) by lia. now rewrite IH. }
  assert (Hpd : Forall printable ds).
  { eapply Forall_impl; [exact Hds|]. unfold digit, printable. intros c; cbn; lia. }
  assert (Hread : ds <> [] -> decimal ds < 2 ^ 64 ->
            Str.strtoul (Some ds) 10 = (decimal ds, Some [])).
  { intros Hne Hb. unfold Str.strtoul. cbn [Z.leb Z.ltb Z.compare orb].
    destruct ds as [|d r]; [done|]. cbn [Str.peek hd].
    pose proof (Forall_inv Hds) as Hd. unfold digit in Hd.
    rewrite (proj2 (Z.eqb_neq d 45)), (proj2 (Z.eqb_neq d 43)) by lia.
    now rewrite (strtoul_loop_digits (d :: r) 0 Hds ltac:(lia) Hb). }
  split; [|split].
  - intros Hne Hv. unfold parse_device_spec.
    rewrite (scan_name nm ds [] None Hnm ltac:(done) Hlast Hne Hds). cbn [app].
    rewrite (Hread Hne) by (unfold INT_MAX in Hv; lia). cbn [default Str.peek hd].
    rewrite (proj2 (Z.leb_le _ _) Hv). cbn [andb Z.eqb].
    pose proof (decimal_from_ge ds 0 Hds ltac:(lia)) as Hge. fold (decimal ds) in Hge.
    rewrite wrap32_small by (unfold INT_MAX in Hv; lia).
    now rewrite to_int_small by (unfold INT_MAX in Hv; lia).
  - intros Hne Hv. unfold parse_device_spec.
    rewrite (scan_name nm ds [] None Hnm ltac:(done) Hlast Hne Hds). cbn [app].
    rewrite (Hread Hne) by lia. rewrite (proj2 (Z.leb_gt _ _)) by lia. cbn [andb].
    f_equal. apply Hstr. apply Forall_app. done.
  - unfold parse_device_spec.
    rewrite (scan_no_digits nm [] None Hnm ltac:(done) Hlast). now rewrite Hstr.
Qed.

Lemma parse_device_spec_splits_witness :
  parse_device_spec (uart_name ++ [49; 50]) = (12, uart_name).
Proof.
  refine (proj1 (parse_device_spec_splits uart_name [49; 50] _ _ _) _ _).
  - repeat constructor; cbn; lia.
  - intros c [= <-]. unfold digit. lia.
  - repeat constructor; cbn; lia.
  - done.
  - cbn. unfold INT_MAX. lia.
Defined.

(** The number wraps at 64 bits before it is compared with [INT_MAX]:
    2^64 + 1 names instance 1. *)
Example huge_instance_number_wraps :
  parse_device_spec
    (uart_name ++ [49; 56; 52; 52; 54; 55; 52; 52; 48; 55; 51; 55; 48; 57; 53; 53; 49;
                   54; 49; 55])
  = (1, uart_name).
Proof. reflexivity. Qed.

End Device.

(** * The kernel heap (heap0.c) *)

Module Heap.

Import PageAlloc.

Definition HEAP_ALLOC_MAGIC : Z := 0xEAEAEAEA.
Definition HEAP_FREE_MAGIC : Z := 0x25252525.

(** [sizeof(struct heap_free_record)] *)
Definition REC : Z := 8.

(** Memory as 32-bit words at 4-aligned addresses. *)
Definition memory := Z -> Z.

Definition store (m : memory) (a v : Z) : memory :=
  fun x => if x =? a then v else m x.

(** [memset(p, c, n)] with [p] and [n] multiples of 4: every word of the
    range is four times the byte. *)
Definition memset (m : memory) (p c n : Z) : memory :=
  fun x => if (p <=? x) && (x <? p + n) then c * 0x01010101 else m x.

(** [heap_low], [heap_end], the free-chunk list of the page allocator,
    and memory.  The members of the nodes on the free list are held in
    [pages]; [mem] has the other words, among them the headers of the
    nodes and what [kfree] writes into a node taken off the list. *)
Record heap := mk_heap {
  heap_low : Z;
  heap_end : Z;
  pages : list page_chunk;
  mem : memory
}.

(** The variables without the memory. *)
Definition kvars (h : heap) : kpool := mk_kpool (heap_low h) (heap_end h) (pages h).

Inductive malloc_result :=
| Panic
| Ret (ptr : Z) (h : heap).

(** [heap_free_actual]; [None] is one of its [panic]s. *)
Definition heap_free_actual (ptr ra : Z) (h : heap) : option heap :=
  let hdr := ptr - HDR in
  let size := mem h (hdr + 4) in
  let size_inv := mem h (hdr + 8) in
  if negb (size =? wrap32 (Z.lnot size_inv)) then None
  else
    let m := memset (mem h) (ptr + REC) 0x11 (wrap64 (size - REC)) in
    let m := store m ptr HEAP_FREE_MAGIC in
    let m := store m (ptr + 4) (wrap32 ra) in
    let m := store m (hdr + 8) 0 in
    Some (mk_heap (heap_low h) (heap_end h) (pages h) m).

Definition kfree := heap_free_actual.

Section Allocators.

(** The return address of the [kfree] call in [alloc_phys_pages], which
    [kfree] stores in the free record. *)
Variable ra_best : Z.

(** [alloc_phys_pages] with its memory: the list as
    [PageAlloc.alloc_phys_pages] has it, and on an exact fit the node is
    handed to [kfree].  The pointer is 0 for the NULL returns; [Panic] is
    a [panic] of [kfree]. *)
Definition alloc_phys_pages (cnt : Z) (h : heap) : malloc_result :=
  if cnt =? 0 then Ret 0 h
  else
    match best_fit cnt (pages h) 0%nat None with
    | None => Ret 0 h
    | Some (i, best) =>
        let start_ppn := first_ppn best in
        if pagecnt best =? cnt then
          match kfree (node best) ra_best
                      (mk_heap (heap_low h) (heap_end h) (delete i (pages h)) (mem h)) with
          | Some h' => Ret (pageptr start_ppn) h'
          | None => Panic
          end
        else
          Ret (pageptr start_ppn)
              (mk_heap (heap_low h) (heap_end h)
                 (<[ i := mk_chunk (node best) (wrap64 (first_ppn best + cnt))
                                   (wrap64 (pagecnt best - cnt)) ]> (pages h))
                 (mem h))
    end.

Definition alloc_phys_page (h : heap) : malloc_result := alloc_phys_pages 1 h.

(** [heap_malloc_actual]; [kmalloc] is this with the caller's return
    address.  The pointer [alloc_phys_page] returns is used unchecked. *)
Definition heap_malloc_actual (size ra : Z) (h : heap) : malloc_result :=
  if size =? 0 then Ret 0 h
  else
    let size := ROUND_UP size HEAP_ALIGN in
    if HEAP_ALLOC_MAX <? size then Panic
    else
      let carved :=
        if wrap64 (size + HDR) <=? wrap64 (heap_end h - heap_low h) then
          let ptr := heap_end h - size in
          Ret ptr (mk_heap (heap_low h) (ptr - HDR) (pages h) (mem h))
        else if PAGE_SIZE - HDR <? size then Panic
        else
          match alloc_phys_page h with
          | Panic => Panic
          | Ret newpage h1 =>
              let ptr := newpage + PAGE_SIZE - size in
              let leftover := PAGE_SIZE - size - HDR in
              if wrap64 (heap_end h1 - heap_low h1) <? leftover
              then Ret ptr (mk_heap newpage (ptr - HDR) (pages h1) (mem h1))
              else Ret ptr h1
          end in
      match carved with
      | Panic => Panic
      | Ret ptr h1 =>
          let hdr := ptr - HDR in
          let m := store (mem h1) hdr HEAP_ALLOC_MAGIC in
          let m := store m (hdr + 4) (wrap32 size) in
          let m := store m (hdr + 8) (wrap32 (Z.lnot size)) in
          let m := store m (hdr + 12) (wrap32 ra) in
          Ret ptr (mk_heap (heap_low h1) (heap_end h1) (pages h1)
                           (memset m ptr 0x33 size))
      end.

Definition kmalloc := heap_malloc_actual.

(** *** Blocks do not overlap *)

(** The addresses a later allocation can come from: the pool between
    [heap_low] and [heap_end], and the free pages. *)
Definition avail (h : heap) (a : Z) : Prop :=
  heap_low h <= a < heap_end h \/ is_free (pages h) (pagenum a).

Definition heap_inv (h : heap) : Prop :=
  0 <= heap_low h <= heap_end h /\ heap_end h < 2 ^ 64 /\
  heap_low h mod HEAP_ALIGN = 0 /\ heap_end h mod HEAP_ALIGN = 0 /\
  pool_ok (pages h) /\
  (forall a, heap_low h <= a < heap_end h -> ~ is_free (pages h) (pagenum a)).

(** There is room in the pool, or a page to be had. *)
Definition supplied (h : heap) (size : Z) : Prop :=
  ROUND_UP size HEAP_ALIGN + HDR <= heap_end h - heap_low h \/
  is_Some (PageAlloc.alloc_phys_page (pages h)).

(** The node [alloc_phys_pages cnt] hands to [kfree]: the node of the
    best-fit chunk when it has exactly [cnt] pages. *)
Definition exact_node (cnt : Z) (fl : list page_chunk) : option Z :=
  if cnt =? 0 then None
  else
    match best_fit cnt fl 0%nat None with
    | Some (_, best) => if pagecnt best =? cnt then Some (node best) else None
    | None => None
    end.

(** The node a [kmalloc] of [size] bytes frees: the one of the page it
    takes, when the pool has no room. *)
Definition freed_node (h : heap) (size : Z) : option Z :=
  if wrap64 (ROUND_UP size HEAP_ALIGN + HDR) <=? wrap64 (heap_end h - heap_low h)
  then None else exact_node 1 (pages h).

(** The header of the block at [ptr] passes the check of [kfree]; the
    words [kfree ptr] writes. *)
Definition header_ok (m : memory) (ptr : Z) : Prop :=
  m (ptr - HDR + 4) = wrap32 (Z.lnot (m (ptr - HDR + 8))).

Definition kfree_writes (m : memory) (ptr a : Z) : Prop :=
  a = ptr - HDR + 8 \/ ptr <= a < ptr + REC \/
  ptr + REC <= a < ptr + REC + wrap64 (m (ptr - HDR + 4) - REC).

Lemma round_up_16 size :
  0 < size <= HEAP_ALLOC_MAX ->
  size <= ROUND_UP size HEAP_ALIGN <= HEAP_ALLOC_MAX /\
  ROUND_UP size HEAP_ALIGN mod 16 = 0 /\ 16 <= ROUND_UP size HEAP_ALIGN.
Proof.
  unfold ROUND_UP, HEAP_ALIGN, HEAP_ALLOC_MAX. intros H.
  rewrite (wrap64_small (size + 16 - 1)) by lia.
  assert (H1 : 0 <= (size + 16 - 1) / 16 * 16 <= 4000) by (Z.div_mod_to_equations; lia).
  rewrite wrap64_small by lia. Z.div_mod_to_equations. lia.
Qed.

Lemma store_eq m a v : store m a v a = v.
Proof. unfold store. now rewrite Z.eqb_refl. Qed.

Lemma store_ne m a v x : x <> a -> store m a v x = m x.
Proof. intros H. unfold store. now rewrite (proj2 (Z.eqb_neq x a)). Qed.

Lemma memset_in m p c n x : p <= x < p + n -> memset m p c n x = c * 0x01010101.
Proof.
  intros H. unfold memset.
  now rewrite (proj2 (Z.leb_le p x)), (proj2 (Z.ltb_lt x (p + n))) by lia.
Qed.

Lemma memset_out m p c n x : ~ (p <= x < p + n) -> memset m p c n x = m x.
Proof.
  intros H. unfold memset. destruct ((p <=? x) && (x <? p + n)) eqn:E; [|done].
  apply andb_true_iff in E as [E1%Z.leb_le E2%Z.ltb_lt]. lia.
Qed.

Lemma free_page_in_ram fl q : pool_ok fl -> is_free fl q -> 0 < q < 2 ^ 52.
Proof.
  intros (_ & Hram & _) (j & ch & Hj & Hin).
  pose proof (proj1 (Forall_lookup _ _) Hram j ch Hj) as [H1 H2].
  unfold in_chunk in Hin. lia.
Qed.

Lemma same_page p a :
  p mod PAGE_SIZE = 0 -> p <= a < p + PAGE_SIZE -> pagenum a = pagenum p.
Proof.
  unfold pagenum, PAGE_SIZE, PAGE_ORDER. change (2 ^ 12) with 4096. intros Hp Ha.
  Z.div_mod_to_equations. lia.
Qed.

(** [kfree] of a block whose header passes the check: the variables
    stay, and only the words of [kfree_writes] change. *)
Lemma kfree_effect (ptr ra : Z) (h : heap) :
  header_ok (mem h) ptr ->
  exists h',
    kfree ptr ra h = Some h' /\ kvars h' = kvars h /\
    forall a, ~ kfree_writes (mem h) ptr a -> mem h' a = mem h a.
Proof.
  intros Hok. unfold kfree, heap_free_actual. unfold header_ok in Hok.
  rewrite <- Hok, Z.eqb_refl. cbn [negb].
  eexists. split; [reflexivity|]. split; [reflexivity|].
  intros a Ha. cbn [mem]. unfold kfree_writes in Ha. unfold HDR, REC in *.
  rewrite !store_ne by lia. rewrite memset_out by lia. done.
Qed.

Lemma classic_header (m : memory) (ptr : Z) : header_ok m ptr \/ ~ header_ok m ptr.
Proof. unfold header_ok. destruct (Z.eq_dec (m (ptr - HDR + 4)) (wrap32 (Z.lnot (m (ptr - HDR + 8))))); auto. Qed.

Lemma kfree_panics (ptr ra : Z) (h : heap) :
  ~ header_ok (mem h) ptr -> kfree ptr ra h = None.
Proof.
  intros Hno. unfold kfree, heap_free_actual, header_ok in *.
  now rewrite (proj2 (Z.eqb_neq _ _) Hno).
Qed.

(** [alloc_phys_pages] with memory and on the list alone: the same
    pointer and list; memory changes by the [kfree] of the node of an
    exact fit, and the call ends in a [panic] exactly when the header of
    this node does not pass the check. *)
Lemma alloc_phys_pages_list (cnt : Z) (h : heap) :
  match alloc_phys_pages cnt h with
  | Ret p h' =>
      heap_low h' = heap_low h /\ heap_end h' = heap_end h /\
      match PageAlloc.alloc_phys_pages cnt (pages h) with
      | Some (p0, fl) => p = p0 /\ pages h' = fl
      | None => p = 0 /\ h' = h
      end /\
      (forall nd, exact_node cnt (pages h) = Some nd -> header_ok (mem h) nd) /\
      (forall a, (forall nd, exact_node cnt (pages h) = Some nd ->
                    ~ kfree_writes (mem h) nd a) ->
         mem h' a = mem h a)
  | Panic =>
      exists nd, exact_node cnt (pages h) = Some nd /\ ~ header_ok (mem h) nd
  end.
Proof.
  unfold alloc_phys_pages, PageAlloc.alloc_phys_pages, exact_node.
  destruct (cnt =? 0); [repeat split; done|].
  destruct (best_fit cnt (pages h) 0%nat None) as [[i best]|]; [|repeat split; done].
  destruct (pagecnt best =? cnt).
  - set (h0 := mk_heap (heap_low h) (heap_end h) (delete i (pages h)) (mem h)).
    destruct (kfree (node best) ra_best h0) as [h'|] eqn:Hf.
    + assert (Hok : header_ok (mem h) (node best)).
      { destruct (classic_header (mem h) (node best)) as [Hy|Hn]; [done|].
        now rewrite (kfree_panics _ ra_best h0 Hn) in Hf. }
      destruct (kfree_effect (node best) ra_best h0 Hok) as (h1 & Hf1 & Hv & Hfr).
      rewrite Hf in Hf1. injection Hf1 as <-.
      injection Hv as Hl He Hp.
      split; [done|]. split; [done|]. split; [done|]. split.
      * now intros nd [= <-].
      * intros a Ha. apply Hfr. now apply Ha.
    + exists (node best). split; [done|]. intros Hok.
      destruct (kfree_effect (node best) ra_best h0 Hok) as (h1 & Hf1 & _).
      now rewrite Hf in Hf1.
  - repeat split; done.
Qed.

(** What a [kmalloc] that finds room or a page does. *)
Lemma kmalloc_effect (h : heap) (size ra : Z) :
  heap_inv h -> 0 < size <= HEAP_ALLOC_MAX -> supplied h size ->
  (forall nd, freed_node h size = Some nd -> header_ok (mem h) nd) ->
  exists ptr h',
    heap_malloc_actual size ra h = Ret ptr h' /\
    ptr <> 0 /\ ptr mod HEAP_ALIGN = 0 /\
    heap_inv h' /\
    (forall a, ptr - HDR <= a < ptr + ROUND_UP size HEAP_ALIGN ->
       avail h a /\ ~ avail h' a) /\
    (forall a, avail h' a -> avail h a) /\
    (forall a, ptr <= a < ptr + ROUND_UP size HEAP_ALIGN -> mem h' a = 0x33333333) /\
    (forall a, ~ (ptr - HDR <= a < ptr + ROUND_UP size HEAP_ALIGN) ->
       (forall nd, freed_node h size = Some nd -> ~ kfree_writes (mem h) nd a) ->
       mem h' a = mem h a) /\
    heap_carve size (kvars h) = Some (ptr, kvars h').
Proof.
  intros (Hlow & Hend & Hal & Hae & Hpool & Hnf) Hsize Hsup Hnode.
  destruct (round_up_16 size Hsize) as (Hrs & Hrm & Hr16).
  unfold heap_malloc_actual, heap_carve, supplied, freed_node in *.
  cbn [kvars PageAlloc.heap_low PageAlloc.heap_end PageAlloc.free_chunk_list].
  set (rs := ROUND_UP size HEAP_ALIGN) in *.
  unfold HEAP_ALIGN, HEAP_ALLOC_MAX, HDR in *.
  rewrite (proj2 (Z.eqb_neq size 0)) by lia.
  rewrite (proj2 (Z.ltb_ge 4000 rs)) by lia.
  rewrite (wrap64_small (rs + 16)) in * by lia.
  rewrite (wrap64_small (heap_end h - heap_low h)) in * by lia.
  assert (Hmem : forall m0 ptr a,
            (ptr <= a < ptr + rs ->
             memset (store (store (store (store m0 (ptr - 16) HEAP_ALLOC_MAGIC)
                       (ptr - 16 + 4) (wrap32 rs)) (ptr - 16 + 8) (wrap32 (Z.lnot rs)))
                       (ptr - 16 + 12) (wrap32 ra)) ptr 0x33 rs a = 0x33333333) /\
            (~ (ptr - 16 <= a < ptr + rs) ->
             memset (store (store (store (store m0 (ptr - 16) HEAP_ALLOC_MAGIC)
                       (ptr - 16 + 4) (wrap32 rs)) (ptr - 16 + 8) (wrap32 (Z.lnot rs)))
                       (ptr - 16 + 12) (wrap32 ra)) ptr 0x33 rs a = m0 a)).
  { intros m0 ptr a. unfold memset, store. split; intros Ha.
    - rewrite (proj2 (Z.leb_le ptr a)), (proj2 (Z.ltb_lt a (ptr + rs))) by lia. done.
    - destruct ((ptr <=? a) && (a <? ptr + rs)) eqn:E.
      + apply andb_true_iff in E as [E1%Z.leb_le E2%Z.ltb_lt]. lia.
      + rewrite !(proj2 (Z.eqb_neq a _)) by lia. done. }
  destruct (rs + 16 <=? heap_end h - heap_low h) eqn:Eroom.
  - apply Z.leb_le in Eroom. eexists _, _. split; [reflexivity|].
    unfold heap_inv, avail, HEAP_ALIGN. cbn [heap_low heap_end pages mem kvars].
    split; [lia|]. split; [Z.div_mod_to_equations; lia|]. split.
    { split; [lia|]. split; [lia|]. split; [done|].
      split; [Z.div_mod_to_equations; lia|]. split; [done|].
      intros a Ha. apply Hnf. lia. }
    split.
    { intros a Ha. split; [left; lia|]. intros [Hin|Hfree]; [lia|].
      revert Hfree. apply Hnf. lia. }
    split.
    { intros a [Hin|Hfree]; [left; lia | now right]. }
    split; [intros a Ha; now apply Hmem|].
    split; [intros a Ha _; now apply Hmem|]. reflexivity.
  - apply Z.leb_gt in Eroom. destruct Hsup as [Hsup|[[p fl'] Hpage]]; [lia|].
    rewrite (proj2 (Z.ltb_ge (PAGE_SIZE - 16) rs)) by (unfold PAGE_SIZE; lia).
    rewrite Hpage.
    pose proof (alloc_phys_pages_list 1 h) as Hal1. unfold alloc_phys_page.
    destruct (alloc_phys_pages 1 h) as [|newpage h1].
    { destruct Hal1 as (nd & Hnd & Hbad). exfalso. now apply Hbad, Hnode. }
    destruct Hal1 as (Hl1 & He1 & Hlist & _ & Hfr1).
    change (PageAlloc.alloc_phys_pages 1 (pages h)) with (PageAlloc.alloc_phys_page (pages h))
      in Hlist.
    rewrite Hpage in Hlist. destruct Hlist as [-> Hp1].
    rewrite Hl1, He1, Hp1.
    rewrite (wrap64_small (heap_end h - heap_low h)) by lia.
    destruct (alloc_free_set 1 _ _ _ Hpool ltac:(lia) Hpage)
      as (Hpal & Hpnz & Hpfree & Hset & Hpool').
    specialize (Hpfree (pagenum p) ltac:(lia)).
    pose proof (free_page_in_ram _ _ Hpool Hpfree) as Hpram.
    assert (Hp : 0 < p /\ p + PAGE_SIZE <= 2 ^ 64).
    { revert Hpram Hpal. unfold pagenum, PAGE_SIZE, PAGE_ORDER.
      change (2 ^ 12) with 4096. change (2 ^ 52) with 4503599627370496.
      change (2 ^ 64) with 18446744073709551616. intros.
      Z.div_mod_to_equations. lia. }
    assert (Hgone : forall a, p <= a < p + PAGE_SIZE -> ~ is_free fl' (pagenum a)).
    { intros a Ha. rewrite (same_page p a Hpal Ha), Hset. lia. }
    assert (Hwas : forall a, p <= a < p + PAGE_SIZE -> is_free (pages h) (pagenum a)).
    { intros a Ha. now rewrite (same_page p a Hpal Ha). }
    assert (Hp16 : p mod 16 = 0).
    { revert Hpal. unfold PAGE_SIZE. intros. Z.div_mod_to_equations. lia. }
    unfold PAGE_SIZE in *.
    destruct (heap_end h - heap_low h <? 4096 - rs - 16) eqn:Esw.
    + apply Z.ltb_lt in Esw. eexists _, _. split; [reflexivity|].
      unfold heap_inv, avail, HEAP_ALIGN. cbn [heap_low heap_end pages mem kvars].
      split; [lia|]. split; [Z.div_mod_to_equations; lia|]. split.
      { split; [lia|]. split; [lia|]. split; [done|].
        split; [Z.div_mod_to_equations; lia|]. split; [done|].
        intros a Ha. apply Hgone. lia. }
      split.
      { intros a Ha. split; [right; apply Hwas; lia|].
        intros [Hin|Hfree]; [lia|]. revert Hfree. apply Hgone. lia. }
      split.
      { intros a [Hin|Hfree].
        - right. apply Hwas. lia.
        - right. now apply Hset in Hfree. }
      split; [intros a Ha; now apply Hmem|].
      split; [|reflexivity].
      intros a Ha Hw. rewrite (proj2 (Hmem (mem h1) _ a) Ha). now apply Hfr1.
    + apply Z.ltb_ge in Esw. eexists _, _. split; [reflexivity|].
      unfold heap_inv, avail, HEAP_ALIGN. cbn [heap_low heap_end pages mem kvars].
      rewrite ?Hl1, ?He1, ?Hp1.
      split; [lia|]. split; [Z.div_mod_to_equations; lia|]. split.
      { split; [lia|]. split; [lia|]. split; [done|]. split; [done|]. split; [done|].
        intros a Ha Hfree. apply Hset in Hfree. destruct Hfree as [Hfree _].
        revert Hfree. now apply Hnf. }
      split.
      { intros a Ha. split; [right; apply Hwas; lia|].
        intros [Hin|Hfree].
        - apply (Hnf a Hin). apply Hwas. lia.
        - revert Hfree. apply Hgone. lia. }
      split.
      { intros a [Hin|Hfree]; [now left|]. right. now apply Hset in Hfree. }
      split; [intros a Ha; now apply Hmem|].
      split; [|reflexivity].
      intros a Ha Hw. rewrite (proj2 (Hmem (mem h1) _ a) Ha). now apply Hfr1.
Qed.

(** [kmalloc] never hands out memory twice: while the pool has room
    or the page allocator a page (whose node, when the page is a whole
    chunk, is a block [kfree] accepts), a request of 1 .. [HEAP_ALLOC_MAX]
    bytes returns a non-NULL 16-aligned pointer; the block (with its
    header in front) is cut from the pool or from a page that was free,
    none of its addresses can be allocated again, the block is filled
    with 0x33 and no other memory is written but the words [kfree] writes
    into the node of that page; [heap_low], [heap_end] and the free list
    change as [heap_carve] says; so a block returned by any later call
    lies apart from it. *)
Theorem kmalloc_blocks_never_overlap (h : heap) (size ra : Z) :
  heap_inv h -> 0 < size <= HEAP_ALLOC_MAX -> supplied h size ->
  (forall nd, freed_node h size = Some nd -> header_ok (mem h) nd) ->
  exists ptr h',
    kmalloc size ra h = Ret ptr h' /\
    ptr <> 0 /\ ptr mod HEAP_ALIGN = 0 /\ size <= ROUND_UP size HEAP_ALIGN /\
    heap_inv h' /\
    (forall a, ptr - HDR <= a < ptr + ROUND_UP size HEAP_ALIGN ->
       avail h a /\ ~ avail h' a) /\
    (forall a, avail h' a -> avail h a) /\
    (forall a, ptr <= a < ptr + ROUND_UP size HEAP_ALIGN -> mem h' a = 0x33333333) /\
    (forall a, ~ (ptr - HDR <= a < ptr + ROUND_UP size HEAP_ALIGN) ->
       (forall nd, freed_node h size = Some nd -> ~ kfree_writes (mem h) nd a) ->
       mem h' a = mem h a) /\
    heap_carve size (kvars h) = Some (ptr, kvars h') /\
    (forall h2 size2 ra2 ptr2 h3,
       heap_inv h2 -> (forall a, avail h2 a -> avail h' a) ->
       0 < size2 <= HEAP_ALLOC_MAX -> supplied h2 size2 ->
       kmalloc size2 ra2 h2 = Ret ptr2 h3 ->
       ptr2 + ROUND_UP size2 HEAP_ALIGN <= ptr - HDR \/
       ptr + ROUND_UP size HEAP_ALIGN <= ptr2 - HDR).
Proof.
  intros Hinv Hsize Hsup Hnode.
  destruct (kmalloc_effect h size ra Hinv Hsize Hsup Hnode)
    as (ptr & h' & Hret & Hnz & Hal & Hinv' & Hblk & Hmono & Hfill & Hkeep & Hvars).
  destruct (round_up_16 size Hsize) as (Hrs & _ & Hr16).
  exists ptr, h'. split; [exact Hret|]. split; [done|]. split; [done|].
  split; [lia|]. split; [done|]. split; [done|]. split; [done|]. split; [done|].
  split; [done|]. split; [done|].
  intros h2 size2 ra2 ptr2 h3 Hinv2 Hsub Hsize2 Hsup2 Hret2.
  assert (Hnode2 : forall nd, freed_node h2 size2 = Some nd -> header_ok (mem h2) nd).
  { intros nd Hnd. destruct (classic_header (mem h2) nd) as [|Hbad]; [done|]. exfalso.
    revert Hret2 Hnd. unfold kmalloc, heap_malloc_actual, freed_node.
    destruct (round_up_16 size2 Hsize2) as (Hrs2 & _ & _).
    rewrite (proj2 (Z.eqb_neq size2 0)) by lia.
    rewrite (proj2 (Z.ltb_ge HEAP_ALLOC_MAX (ROUND_UP size2 HEAP_ALIGN))) by lia.
    destruct (wrap64 (ROUND_UP size2 HEAP_ALIGN + HDR) <=? wrap64 (heap_end h2 - heap_low h2));
      [done|].
    destruct (PAGE_SIZE - HDR <? ROUND_UP size2 HEAP_ALIGN); [done|].
    pose proof (alloc_phys_pages_list 1 h2) as Hl. unfold alloc_phys_page.
    destruct (alloc_phys_pages 1 h2) as [|np h4]; [done|].
    destruct Hl as (_ & _ & _ & Hok & _). intros _ Hnd. now apply Hbad, Hok. }
  destruct (kmalloc_effect h2 size2 ra2 Hinv2 Hsize2 Hsup2 Hnode2)
    as (ptr2' & h3' & Hret2' & _ & _ & _ & Hblk2 & _).
  unfold kmalloc in Hret2. rewrite Hret2 in Hret2'. injection Hret2' as <- <-.
  destruct (round_up_16 size2 Hsize2) as (Hrs2 & _ & Hr162).
  unfold HDR in *.
  destruct (Z.le_gt_cases (ptr2 + ROUND_UP size2 HEAP_ALIGN) (ptr - 16)) as [|H1];
    [now left|].
  destruct (Z.le_gt_cases (ptr + ROUND_UP size HEAP_ALIGN) (ptr2 - 16)) as [|H2];
    [now right|].
  exfalso.
  destruct (Hblk (Z.max (ptr - 16) (ptr2 - 16)) ltac:(lia)) as [_ Hno].
  destruct (Hblk2 (Z.max (ptr - 16) (ptr2 - 16)) ltac:(lia)) as [Hyes _].
  apply Hno, Hsub, Hyes.
Qed.

(** [kfree] gives nothing back to the pool, and a second [kfree] of the
    same block panics: freeing a block just allocated passes the header
    check, leaves [heap_low], [heap_end] and the free pages as they are,
    writes inside the block and its header only, and zeroes [size_inv],
    on which the check of the next [kfree] of that pointer fails. *)
Theorem kfree_detects_second_free (h : heap) (size ra ptr : Z) (h' : heap)
    (ra1 ra2 : Z) :
  0 < size <= HEAP_ALLOC_MAX ->
  kmalloc size ra h = Ret ptr h' ->
  exists h1,
    kfree ptr ra1 h' = Some h1 /\
    heap_low h1 = heap_low h' /\ heap_end h1 = heap_end h' /\ pages h1 = pages h' /\
    (forall a, ~ (ptr - HDR <= a < ptr + ROUND_UP size HEAP_ALIGN) -> mem h1 a = mem h' a) /\
    mem h1 ptr = HEAP_FREE_MAGIC /\
    kfree ptr ra2 h1 = None.
Proof.
  intros Hsize Hret.
  destruct (round_up_16 size Hsize) as (Hrs & _ & Hr16).
  unfold kmalloc, heap_malloc_actual in Hret.
  set (rs := ROUND_UP size HEAP_ALIGN) in *.
  unfold HEAP_ALLOC_MAX, HDR in *.
  rewrite (proj2 (Z.eqb_neq size 0)) in Hret by lia.
  rewrite (proj2 (Z.ltb_ge 4000 rs)) in Hret by lia.
  match type of Hret with
  | match ?c with _ => _ end = _ => destruct c as [|p h0]; [done|]
  end.
  injection Hret as <- <-.
  set (M := memset _ p 51 rs).
  assert (Hlnot : wrap32 (Z.lnot rs) = 2 ^ 32 - 1 - rs).
  { unfold wrap32, Z.lnot. change (2 ^ 32) with 4294967296.
    symmetry. apply Z.mod_unique with (-1); lia. }
  assert (Hback : wrap32 (Z.lnot (2 ^ 32 - 1 - rs)) = rs).
  { unfold wrap32, Z.lnot. change (2 ^ 32) with 4294967296.
    symmetry. apply Z.mod_unique with (-1); lia. }
  assert (HM4 : M (p - 16 + 4) = rs).
  { subst M. rewrite memset_out by lia. rewrite !store_ne by lia.
    rewrite store_eq. apply wrap32_small. lia. }
  assert (HM8 : M (p - 16 + 8) = 2 ^ 32 - 1 - rs).
  { subst M. rewrite memset_out by lia. rewrite store_ne by lia.
    now rewrite store_eq. }
  clearbody M.
  unfold kfree, heap_free_actual, HDR, REC. cbn [mem heap_low heap_end pages].
  rewrite HM4, HM8, Hback, Z.eqb_refl. cbn [negb].
  rewrite (wrap64_small (rs - 8)) by lia.
  set (M1 := store _ (p - 16 + 8) 0).
  exists (mk_heap (heap_low h0) (heap_end h0) (pages h0) M1). split; [reflexivity|].
  cbn [mem heap_low heap_end pages].
  split; [done|]. split; [done|]. split; [done|].
  assert (H14 : M1 (p - 16 + 4) = rs).
  { subst M1. rewrite !store_ne by lia. rewrite memset_out by lia. exact HM4. }
  assert (H18 : M1 (p - 16 + 8) = 0) by (subst M1; apply store_eq).
  split.
  { intros a Ha. subst M1. rewrite !store_ne by lia. now rewrite memset_out by lia. }
  split.
  { subst M1. rewrite !store_ne by lia. apply store_eq. }
  rewrite H14, H18. change (wrap32 (Z.lnot 0)) with (2 ^ 32 - 1).
  now rewrite (proj2 (Z.eqb_neq rs (2 ^ 32 - 1))) by lia.
Qed.

End Allocators.

(** A heap of one page with no free pages, and a return address for
    the [kfree] call of [alloc_phys_pages]. *)
Definition sample_heap : heap :=
  mk_heap 0x80100000 0x80101000 [] (fun _ => 0).

Definition sample_ra : Z := 0x80004A10.

Lemma sample_heap_inv : heap_inv sample_heap.
Proof.
  unfold heap_inv, sample_heap. cbn [heap_low heap_end pages].
  split; [lia|]. split; [lia|]. split; [done|]. split; [done|]. split.
  - split; [constructor|]. split; [constructor|]. intros i j a b _ Hi. done.
  - intros a _ (j & ch & Hj & _). done.
Qed.

Lemma kmalloc_blocks_never_overlap_witness :
  exists ptr h',
    kmalloc sample_ra 100 0 sample_heap = Ret ptr h' /\ ptr <> 0 /\
    ptr mod HEAP_ALIGN = 0 /\ heap_inv h'.
Proof.
  destruct (kmalloc_blocks_never_overlap sample_ra sample_heap 100 0 sample_heap_inv)
    as (ptr & h' & Hret & Hnz & Hal & _ & Hinv & _).
  - unfold HEAP_ALLOC_MAX. lia.
  - left. vm_compute. discriminate.
  - intros nd Hnd. vm_compute in Hnd. discriminate Hnd.
  - exists ptr, h'. split; [exact Hret|]. split; [exact Hnz|]. split; [exact Hal|].
    exact Hinv.
Defined.

(** The heap after [kmalloc(100)] on the sample heap: 112 bytes and
    their header at the top of the pool. *)
Definition sample_block : Z := 0x80100F90.

Definition sample_heap_after : heap :=
  mk_heap 0x80100000 0x80100F80 []
    (memset
       (store
          (store
             (store (store (fun _ => 0) 0x80100F80 HEAP_ALLOC_MAGIC) 0x80100F84 112)
             0x80100F88 (wrap32 (Z.lnot 112)))
          0x80100F8C 0)
       sample_block 0x33 112).

Lemma sample_malloc :
  kmalloc sample_ra 100 0 sample_heap = Ret sample_block sample_heap_after.
Proof. reflexivity. Qed.

Lemma kfree_detects_second_free_witness :
  exists h1,
    kfree sample_block 7 sample_heap_after = Some h1 /\
    heap_end h1 = heap_end sample_heap_after /\
    kfree sample_block 8 h1 = None.
Proof.
  destruct (kfree_detects_second_free sample_ra sample_heap 100 0 sample_block
              sample_heap_after 7 8
              ltac:(unfold HEAP_ALLOC_MAX; lia) sample_malloc)
    as (h1 & H1 & _ & He & _ & _ & _ & H2).
  exists h1. split; [exact H1|]. split; [exact He | exact H2].
Defined.

(** A heap with 16 bytes left in the pool and one free page, the only
    page of its chunk; the node of the chunk is the 32-byte heap block at
    [0x80101010]. *)
Definition node_heap : heap :=
  mk_heap 0x80100FF0 0x80101000 [ mk_chunk 0x80101010 0x80200 1 ]
    (store (store (fun _ => 0) 0x80101004 32) 0x80101008 (wrap32 (Z.lnot 32))).

(** [kmalloc(100)] on it takes the page for the heap, and the node of
    the chunk goes to [kfree]: the free record and the fill are written
    into the node, outside the new block and its header. *)
Example kmalloc_frees_the_node :
  freed_node node_heap 100 = Some 0x80101010 /\
  exists h',
    kmalloc sample_ra 100 0 node_heap = Ret 0x80200F90 h' /\
    heap_low h' = 0x80200000 /\ heap_end h' = 0x80200F80 /\ pages h' = [] /\
    mem h' 0x80101010 = HEAP_FREE_MAGIC /\ mem h' 0x80101014 = sample_ra /\
    mem h' 0x80101018 = 0x11111111 /\ mem h' 0x80101008 = 0 /\
    mem node_heap 0x80101010 = 0.
Proof.
  split; [reflexivity|]. eexists. split; [reflexivity|].
  repeat split; vm_compute; reflexivity.
Qed.

(** A size close to 2^64 wraps to nothing when it is rounded up, and
    gets a block of no bytes instead of the panic. *)
Example huge_request_rounds_to_zero :
  ROUND_UP (2 ^ 64 - 1) HEAP_ALIGN = 0 /\
  exists h', kmalloc sample_ra (2 ^ 64 - 1) 0 sample_heap = Ret 0x80101000 h' /\
             heap_end h' = 0x80100FF0.
Proof.
  split; [reflexivity|].
  exists (mk_heap 0x80100000 0x80100FF0 []
            (memset
               (store
                  (store
                     (store (store (fun _ => 0) 0x80100FF0 HEAP_ALLOC_MAGIC) 0x80100FF4 0)
                     0x80100FF8 (wrap32 (Z.lnot 0)))
                  0x80100FFC 0)
               0x80101000 0x33 0)).
  split; reflexivity.
Qed.

End Heap.

(** * The serial port driver (dev/uart.c) *)
Module Uart.

Definition UART_RBUFSZ : Z := 64.
Definition LSR_DR : Z := 1.
Definition LSR_THRE : Z := 32.
Definition IER_DRIE : Z := 1.
Definition IER_THREIE : Z := 2.

(** [struct ringbuf]: [hpos] and [tpos] are [unsigned int] counters that
    are never reduced; the index is the counter modulo the size. *)
Record ringbuf := mk_rbuf { hpos : Z; tpos : Z; data : Z -> Z }.

Definition rbuf_init (rb : ringbuf) : ringbuf := mk_rbuf 0 0 (data rb).

Definition rbuf_empty (rb : ringbuf) : bool := hpos rb =? tpos rb.

Definition rbuf_full (rb : ringbuf) : bool :=
  wrap16 (wrap32 (tpos rb - hpos rb)) =? UART_RBUFSZ.

Definition rbuf_putc (rb : ringbuf) (c : Z) : ringbuf :=
  mk_rbuf (hpos rb) (wrap32 (tpos rb + 1))
          (fun i => if i =? tpos rb mod UART_RBUFSZ then c else data rb i).

Definition rbuf_getc (rb : ringbuf) : Z * ringbuf :=
  (data rb (hpos rb mod UART_RBUFSZ),
   mk_rbuf (wrap32 (hpos rb + 1)) (tpos rb) (data rb)).

(** The part of [struct uart_device] the transfers work on: the
    interrupt enable register of the device and the two rings. *)
Record uart := mk_uart { ier : Z; rxbuf : ringbuf; txbuf : ringbuf }.

(** A call returns, or is suspended in [condition_wait] at byte [i]. *)
Inductive write_result :=
| WDone (ret : Z)
| WBlocked (i : Z).

Inductive read_result :=
| RDone (ret : Z) (out : list Z)
| RBlocked (i : Z) (out : list Z).

(** The loop of [uart_write] from byte [i] on, [n] bytes to go. *)
Fixpoint uart_write_loop (u : uart) (src : list Z) (len i : Z) (n : nat)
    : write_result * uart :=
  match n with
  | O => (WDone len, u)
  | S m =>
      if rbuf_full (txbuf u) then (WBlocked i, u)
      else
        let tx := rbuf_putc (txbuf u) (nth (Z.to_nat i) src 0) in
        uart_write_loop (mk_uart (Z.lor (ier u) IER_THREIE) (rxbuf u) tx)
                        src len (i + 1) m
  end.

(** [uart_write] *)
Definition uart_write (u : uart) (src : list Z) (len : Z) : write_result * uart :=
  if len =? 0 then (WDone (- ENOTSUP), u)
  else uart_write_loop u src len 0 (Z.to_nat len).

(** The loop of [uart_read]. *)
Fixpoint uart_read_loop (u : uart) (out : list Z) (bufsz i : Z) (n : nat)
    : read_result * uart :=
  match n with
  | O => (RDone bufsz out, u)
  | S m =>
      if rbuf_empty (rxbuf u) then (RBlocked i out, u)
      else
        let '(c, rx) := rbuf_getc (rxbuf u) in
        uart_read_loop (mk_uart (Z.lor (ier u) IER_DRIE) rx (txbuf u))
                       (out ++ [c]) bufsz (i + 1) m
  end.

(** [uart_read] *)
Definition uart_read (u : uart) (bufsz : Z) : read_result * uart :=
  if UART_RBUFSZ <? bufsz then (RDone (- ENOTSUP) [], u)
  else uart_read_loop u [] bufsz 0 (Z.to_nat bufsz).

(** What one run of [uart_isr] does besides changing the device state:
    the byte stored to [thr], and the two broadcasts. *)
Record isr_effect := mk_effect {
  sent : option Z;
  wake_rx : bool;
  wake_tx : bool
}.

(** [uart_isr]; [lsr1] and [lsr2] are the two reads of the line status
    register, [rbr] what the receive register holds. *)
Definition uart_isr (lsr1 lsr2 rbr : Z) (u : uart) : uart * isr_effect :=
  let u1 :=
    if negb (rbuf_full (rxbuf u)) then
      if negb (Z.land lsr1 LSR_DR =? 0)
      then mk_uart (ier u) (rbuf_putc (rxbuf u) rbr) (txbuf u)
      else u
    else mk_uart (Z.land (ier u) (Z.lnot IER_DRIE) mod 256) (rxbuf u) (txbuf u) in
  let '(u2, thr) :=
    if negb (rbuf_empty (txbuf u1)) then
      if negb (Z.land lsr2 LSR_THRE =? 0)
      then let '(c, tx) := rbuf_getc (txbuf u1) in
           (mk_uart (ier u1) (rxbuf u1) tx, Some c)
      else (u1, None)
    else (mk_uart (Z.land (ier u1) (Z.lnot IER_THREIE) mod 256) (rxbuf u1) (txbuf u1),
          None) in
  (u2, mk_effect thr (negb (rbuf_empty (rxbuf u2))) (negb (rbuf_full (txbuf u2)))).

(** *** The rings are queues *)

Definition count (rb : ringbuf) : Z := wrap32 (tpos rb - hpos rb).

(** The bytes in the ring, oldest first. *)
Definition contents (rb : ringbuf) : list Z :=
  map (fun k => data rb ((hpos rb + Z.of_nat k) mod UART_RBUFSZ))
      (seq 0 (Z.to_nat (count rb))).

Definition rbuf_ok (rb : ringbuf) : Prop :=
  0 <= hpos rb < 2 ^ 32 /\ 0 <= tpos rb < 2 ^ 32 /\ count rb <= UART_RBUFSZ.

Definition uart_ok (u : uart) : Prop := rbuf_ok (rxbuf u) /\ rbuf_ok (txbuf u).

Ltac ring64 :=
  unfold rbuf_ok, count, rbuf_full, rbuf_empty, UART_RBUFSZ, wrap32, wrap16 in *;
  cbn [hpos tpos] in *;
  change (2 ^ 32) with 4294967296 in *; change (2 ^ 16) with 65536 in *;
  Z.div_mod_to_equations; lia.

Lemma count_nonneg rb : 0 <= count rb.
Proof. ring64. Qed.

Lemma ring_full_iff rb : rbuf_ok rb -> rbuf_full rb = true <-> count rb = UART_RBUFSZ.
Proof.
  intros Hok. unfold rbuf_full. rewrite Z.eqb_eq. fold (count rb).
  pose proof (count_nonneg rb). destruct Hok as (_ & _ & Hc).
  unfold wrap16, UART_RBUFSZ in *. rewrite Z.mod_small; [done|]. lia.
Qed.

Lemma ring_empty_iff rb : rbuf_ok rb -> rbuf_empty rb = true <-> count rb = 0.
Proof.
  intros Hok. unfold rbuf_empty. rewrite Z.eqb_eq. split; intros H; ring64.
Qed.

Lemma putc_ok rb c :
  rbuf_ok rb -> count rb < UART_RBUFSZ ->
  rbuf_ok (rbuf_putc rb c) /\ count (rbuf_putc rb c) = count rb + 1.
Proof. intros Hok Hc. unfold rbuf_putc. split; ring64. Qed.

Lemma getc_ok rb :
  rbuf_ok rb -> 0 < count rb ->
  rbuf_ok (snd (rbuf_getc rb)) /\ count (snd (rbuf_getc rb)) = count rb - 1.
Proof. intros Hok Hc. unfold rbuf_getc. cbn [snd]. split; ring64. Qed.

Lemma ring_contents_length rb : length (contents rb) = Z.to_nat (count rb).
Proof. unfold contents. now rewrite length_map, length_seq. Qed.

Lemma contents_putc rb c :
  rbuf_ok rb -> count rb < UART_RBUFSZ ->
  contents (rbuf_putc rb c) = contents rb ++ [c].
Proof.
  intros Hok Hc. destruct (putc_ok rb c Hok Hc) as [_ Hn].
  pose proof (count_nonneg rb) as H0.
  unfold contents. rewrite Hn.
  replace (Z.to_nat (count rb + 1)) with (S (Z.to_nat (count rb))) by lia.
  rewrite seq_S, map_app. cbn [map]. f_equal.
  - apply map_ext_in. intros k Hk. apply in_seq in Hk. cbn [rbuf_putc data hpos].
    replace ((hpos rb + Z.of_nat k) mod UART_RBUFSZ =? tpos rb mod UART_RBUFSZ)
      with false; [done|].
    symmetry. apply Z.eqb_neq. ring64.
  - f_equal. cbn [rbuf_putc data hpos Nat.add].
    replace ((hpos rb + Z.of_nat (Z.to_nat (count rb))) mod UART_RBUFSZ
             =? tpos rb mod UART_RBUFSZ) with true; [done|].
    symmetry. apply Z.eqb_eq. rewrite Z2Nat.id by lia. ring64.
Qed.

Lemma contents_getc rb :
  rbuf_ok rb -> 0 < count rb ->
  contents rb = fst (rbuf_getc rb) :: contents (snd (rbuf_getc rb)).
Proof.
  intros Hok Hc. destruct (getc_ok rb Hok Hc) as [_ Hn].
  unfold contents. rewrite Hn.
  replace (Z.to_nat (count rb)) with (S (Z.to_nat (count rb - 1))) by lia.
  cbn [seq map]. f_equal.
  - cbn [rbuf_getc fst Z.of_nat]. now rewrite Z.add_0_r.
  - rewrite <- seq_shift, map_map. apply map_ext. intros k.
    cbn [rbuf_getc snd data hpos]. f_equal. ring64.
Qed.

Lemma uart_write_loop_spec n : forall u src len i,
  uart_ok u -> Z.of_nat n <= UART_RBUFSZ - count (txbuf u) -> 0 <= i ->
  exists u',
    uart_write_loop u src len i n = (WDone len, u') /\
    uart_ok u' /\ rxbuf u' = rxbuf u /\
    contents (txbuf u')
    = contents (txbuf u) ++ map (fun k => nth (Z.to_nat i + k) src 0) (seq 0 n) /\
    ier u' = (if n is O then ier u else Z.lor (ier u) IER_THREIE).
Proof.
  induction n as [|n IH]; intros u src len i Hok Hfit Hi.
  - exists u. cbn. now rewrite app_nil_r.
  - cbn [uart_write_loop]. destruct Hok as [Hrx Htx].
    assert (Hroom : count (txbuf u) < UART_RBUFSZ) by lia.
    destruct (rbuf_full (txbuf u)) eqn:Ef.
    { apply (ring_full_iff _ Htx) in Ef. lia. }
    destruct (putc_ok (txbuf u) (nth (Z.to_nat i) src 0) Htx Hroom) as [Hok1 Hc1].
    pose proof (contents_putc (txbuf u) (nth (Z.to_nat i) src 0) Htx Hroom) as Hcp.
    set (u1 := mk_uart _ _ _).
    destruct (IH u1 src len (i + 1)) as (u' & Hr & Hok' & Hrx' & Hc' & Hier).
    { split; [exact Hrx | exact Hok1]. }
    { subst u1. cbn [txbuf]. lia. }
    { lia. }
    exists u'. split; [exact Hr|]. split; [done|]. split; [now rewrite Hrx'|]. split.
    + rewrite Hc'. subst u1. cbn [txbuf]. rewrite Hcp, <- app_assoc. f_equal.
      cbn [seq map app]. f_equal; [f_equal; lia|].
      rewrite <- seq_shift, map_map. apply map_ext. intros k. f_equal. lia.
    + rewrite Hier. subst u1. cbn [ier]. destruct n; [done|].
      rewrite <- Z.lor_assoc. now rewrite Z.lor_diag.
Qed.

Lemma uart_read_loop_spec n : forall u out bufsz i,
  uart_ok u -> Z.of_nat n <= count (rxbuf u) ->
  exists u',
    uart_read_loop u out bufsz i n = (RDone bufsz (out ++ take n (contents (rxbuf u))), u') /\
    uart_ok u' /\ txbuf u' = txbuf u /\
    contents (rxbuf u') = drop n (contents (rxbuf u)).
Proof.
  induction n as [|n IH]; intros u out bufsz i Hok Hfit.
  - exists u. cbn. now rewrite app_nil_r.
  - cbn [uart_read_loop]. destruct Hok as [Hrx Htx].
    assert (Hsome : 0 < count (rxbuf u)) by lia.
    destruct (rbuf_empty (rxbuf u)) eqn:Ee.
    { apply (ring_empty_iff _ Hrx) in Ee. lia. }
    destruct (getc_ok (rxbuf u) Hrx Hsome) as [Hok1 Hc1].
    rewrite (contents_getc (rxbuf u) Hrx Hsome).
    destruct (rbuf_getc (rxbuf u)) as [c rx] eqn:Eg. cbn [fst snd] in *.
    set (u1 := mk_uart _ _ _).
    destruct (IH u1 (out ++ [c]) bufsz (i + 1)) as (u' & Hr & Hok' & Htx' & Hc').
    { split; [exact Hok1 | exact Htx]. }
    { subst u1. cbn [rxbuf]. lia. }
    exists u'. split; [|split; [done|split; [now rewrite Htx'|]]].
    + rewrite Hr. subst u1. cbn [rxbuf take]. now rewrite <- app_assoc.
    + now rewrite Hc'.
Qed.

Lemma nth_seq_src (src : list Z) :
  map (fun k => nth (Z.to_nat 0 + k) src 0) (seq 0 (length src)) = src.
Proof.
  apply list_eq. intros i. change (map ?f ?l) with (f <$> l).
  rewrite list_lookup_fmap.
  destruct (decide (i < length src)%nat) as [Hlt|Hge].
  - rewrite lookup_seq_lt by done. cbn.
    destruct (lookup_lt_is_Some_2 src i Hlt) as [x Hx].
    rewrite Hx. f_equal. rewrite nth_lookup.
    change (Z.to_nat 0 + i)%nat with i. now rewrite Hx.
  - rewrite lookup_seq_ge by lia. cbn. symmetry. apply lookup_ge_None. lia.
Qed.

(** The two rings of the driver are queues, whatever the counters have
    wrapped to: [uart_write] of bytes that fit puts them behind the
    bytes waiting to be sent and enables the transmit interrupt;
    [uart_read] of bytes that have arrived returns the oldest ones in
    order; one run of [uart_isr] takes the received byte behind the ones
    waiting to be read (when the device has one and the ring is not
    full) and sends the oldest byte waiting (when the device is ready for
    it), losing and inventing nothing. *)
Theorem uart_rings_are_queues (u : uart) :
  uart_ok u ->
  (forall src len,
     0 < len <= UART_RBUFSZ - count (txbuf u) -> Z.to_nat len = length src ->
     exists u', uart_write u src len = (WDone len, u') /\ uart_ok u' /\
                contents (txbuf u') = contents (txbuf u) ++ src /\
                rxbuf u' = rxbuf u /\ ier u' = Z.lor (ier u) IER_THREIE) /\
  (forall bufsz,
     0 <= bufsz <= count (rxbuf u) ->
     exists u', uart_read u bufsz
                = (RDone bufsz (take (Z.to_nat bufsz) (contents (rxbuf u))), u') /\
                uart_ok u' /\ txbuf u' = txbuf u /\
                contents (rxbuf u') = drop (Z.to_nat bufsz) (contents (rxbuf u))) /\
  (forall lsr1 lsr2 rbr,
     let u' := fst (uart_isr lsr1 lsr2 rbr u) in
     let e := snd (uart_isr lsr1 lsr2 rbr u) in
     uart_ok u' /\
     contents (rxbuf u')
     = contents (rxbuf u)
       ++ (if (count (rxbuf u) <? UART_RBUFSZ) && negb (Z.land lsr1 LSR_DR =? 0)
           then [rbr] else []) /\
     (sent e, contents (txbuf u'))
     = match contents (txbuf u) with
       | c :: rest =>
           if negb (Z.land lsr2 LSR_THRE =? 0) then (Some c, rest) else (None, c :: rest)
       | [] => (None, [])
       end /\
     wake_rx e = negb (length (contents (rxbuf u')) =? 0)%nat /\
     wake_tx e = (Z.of_nat (length (contents (txbuf u'))) <? UART_RBUFSZ)).
Proof.
  intros Hok. split; [|split].
  - intros src len Hlen Hsrc. unfold uart_write.
    rewrite (proj2 (Z.eqb_neq len 0)) by lia.
    destruct (uart_write_loop_spec (Z.to_nat len) u src len 0 Hok ltac:(lia) ltac:(lia))
      as (u' & Hr & Hok' & Hrx & Hc & Hier).
    exists u'. split; [exact Hr|]. split; [done|]. split; [|split; [done|]].
    + rewrite Hc, Hsrc. now rewrite nth_seq_src.
    + rewrite Hier. destruct (Z.to_nat len) eqn:E; [lia | done].
  - intros bufsz Hb. unfold uart_read.
    destruct Hok as [Hrx Htx]. pose proof Hrx as (_ & _ & Hc64).
    rewrite (proj2 (Z.ltb_ge UART_RBUFSZ bufsz)) by lia.
    destruct (uart_read_loop_spec (Z.to_nat bufsz) u [] bufsz 0 (conj Hrx Htx) ltac:(lia))
      as (u' & Hr & Hok' & Htx' & Hc).
    exists u'. split; [exact Hr|]. done.
  - intros lsr1 lsr2 rbr u' e. subst u' e. destruct Hok as [Hrx Htx].
    unfold uart_isr.
    (* receive side *)
    set (u1 := if negb (rbuf_full (rxbuf u)) then _ else _).
    assert (H1 : rbuf_ok (rxbuf u1) /\ txbuf u1 = txbuf u /\
              contents (rxbuf u1)
              = contents (rxbuf u)
                ++ (if (count (rxbuf u) <? UART_RBUFSZ) && negb (Z.land lsr1 LSR_DR =? 0)
                    then [rbr] else [])).
    { subst u1. pose proof Hrx as (_ & _ & Hc64).
      destruct (rbuf_full (rxbuf u)) eqn:Ef; cbn [negb].
      - apply (ring_full_iff _ Hrx) in Ef. rewrite (proj2 (Z.ltb_ge _ _)) by lia.
        cbn [andb rxbuf txbuf]. now rewrite app_nil_r.
      - assert (Hroom : count (rxbuf u) < UART_RBUFSZ).
        { destruct (Z.eq_dec (count (rxbuf u)) UART_RBUFSZ) as [E|E]; [|lia].
          apply (ring_full_iff _ Hrx) in E. congruence. }
        rewrite (proj2 (Z.ltb_lt _ _) Hroom). cbn [andb].
        destruct (negb (Z.land lsr1 LSR_DR =? 0)); cbn [rxbuf txbuf].
        + split; [apply putc_ok; done|]. split; [done|]. now apply contents_putc.
        + now rewrite app_nil_r. }
    destruct H1 as (Hrx1 & Htx1 & Hc1). clearbody u1.
    (* transmit side *)
    pose proof (count_nonneg (txbuf u1)) as Hn0.
    pose proof (ring_contents_length (txbuf u)) as Hlen.
    rewrite <- Htx1 in Htx, Hlen |- *.
    assert (Hwake : forall rx tx, rbuf_ok rx -> rbuf_ok tx ->
              negb (rbuf_empty rx) = negb (length (contents rx) =? 0)%nat /\
              negb (rbuf_full tx) = (Z.of_nat (length (contents tx)) <? UART_RBUFSZ)).
    { intros rx tx Hr Ht. rewrite !ring_contents_length.
      pose proof (count_nonneg rx). pose proof (count_nonneg tx).
      pose proof Ht as (_ & _ & Ht64). split.
      - destruct (rbuf_empty rx) eqn:Er.
        + apply (ring_empty_iff _ Hr) in Er. now rewrite Er.
        + cbn [negb]. symmetry. apply negb_true_iff, Nat.eqb_neq. intros Hz.
          assert (Hz' : count rx = 0) by lia.
          apply (ring_empty_iff _ Hr) in Hz'. congruence.
      - rewrite Z2Nat.id by lia. destruct (rbuf_full tx) eqn:Ef; cbn [negb].
        + apply (ring_full_iff _ Ht) in Ef. symmetry. apply Z.ltb_ge. lia.
        + symmetry. apply Z.ltb_lt.
          destruct (Z.eq_dec (count tx) UART_RBUFSZ) as [E|E]; [|lia].
          apply (ring_full_iff _ Ht) in E. congruence. }
    destruct (rbuf_empty (txbuf u1)) eqn:Ee; cbn [negb].
    + apply (ring_empty_iff _ Htx) in Ee.
      assert (Hnil : contents (txbuf u1) = []).
      { apply length_zero_iff_nil. rewrite Hlen, Ee. done. }
      rewrite Hnil. cbn [fst snd sent wake_rx wake_tx rxbuf txbuf].
      split; [split; done|]. split; [done|]. split; [now rewrite Hnil|].
      now apply Hwake.
    + assert (Hsome : 0 < count (txbuf u1)).
      { destruct (Z.eq_dec (count (txbuf u1)) 0) as [E|E]; [|lia].
        apply (ring_empty_iff _ Htx) in E. congruence. }
      rewrite (contents_getc _ Htx Hsome).
      destruct (getc_ok _ Htx Hsome) as [Htx2 Hc2].
      destruct (negb (Z.land lsr2 LSR_THRE =? 0)).
      * destruct (rbuf_getc (txbuf u1)) as [c tx] eqn:Eg.
        cbn [fst snd sent wake_rx wake_tx rxbuf txbuf] in *.
        split; [split; done|]. split; [done|]. split; [done|]. now apply Hwake.
      * cbn [fst snd sent wake_rx wake_tx rxbuf txbuf] in *.
        split; [split; done|]. split; [done|].
        rewrite <- (contents_getc _ Htx Hsome).
        split; [done|]. now apply Hwake.
Qed.

Definition sample_uart : uart :=
  mk_uart 0 (mk_rbuf 0 0 (fun _ => 0))
            (mk_rbuf (2 ^ 32 - 1) 1 (fun i => if i =? 63 then 104 else 105)).

Lemma sample_uart_ok : uart_ok sample_uart.
Proof. split; cbv; repeat split; discriminate. Qed.

Lemma uart_rings_are_queues_witness :
  exists u', uart_write sample_uart [33] 1 = (WDone 1, u') /\
             contents (txbuf u') = [104; 105; 33].
Proof.
  destruct (proj1 (uart_rings_are_queues sample_uart sample_uart_ok) [33] 1)
    as (u' & Hw & _ & Hc & _).
  - change (count (txbuf sample_uart)) with 2. unfold UART_RBUFSZ. lia.
  - reflexivity.
  - exists u'. split; [exact Hw | exact Hc].
Defined.

(** [uart_write] of no bytes is an error, and [uart_read] takes at
    most one ring's worth. *)
Example uart_length_limits :
  uart_write sample_uart [] 0 = (WDone (- ENOTSUP), sample_uart) /\
  uart_read sample_uart 65 = (RDone (- ENOTSUP) [], sample_uart).
Proof. split; reflexivity. Qed.

End Uart.
